(** * unordered-sql: tokenizer, parser and AST, embedded and verified

    A shallow embedding of [my_token.py], [tokenizer.py], [my_ast.py] and
    [parser.py], and of [formatter.py] and [autocomplete.py], which read the
    tree.  Python integers are [Z]; a Python [str] is the list of its code
    points ([N]); exceptions are an explicit result type; the [while True]
    loops of the parser are fuelled fixpoints whose termination on every
    input is proved below; the recursion limit of the interpreter is a
    count of the calls that the call stack can still take. *)

From Stdlib Require Import ZArith NArith Bool String Ascii List Lia.
Import ListNotations.
Open Scope Z_scope.

(** ** Python strings *)

Definition char := N.
Definition str := list char.

Definition of_string (s : string) : str :=
  map N_of_ascii (list_ascii_of_string s).

Definition len (text : str) : Z := Z.of_nat (length text).

(** [text[i]] for an index already known to be in range. *)
Definition char_at (text : str) (i : Z) : char := nth (Z.to_nat i) text 0%N.

(** [text[a:b]] for [0 <= a]. *)
Definition slice (text : str) (a b : Z) : str :=
  firstn (Z.to_nat (b - a)) (skipn (Z.to_nat a) text).

Fixpoint str_eqb (a b : str) : bool :=
  match a, b with
  | [], [] => true
  | x :: a', y :: b' => N.eqb x y && str_eqb a' b'
  | _, _ => false
  end.

(** [d.get(key, default)] on a dict written as its item list. *)
Fixpoint dict_get {V : Type} (d : list (str * V)) (key : str) (default : V) : V :=
  match d with
  | [] => default
  | (k, v) :: d' => if str_eqb k key then v else dict_get d' key default
  end.

Definition ascii_lower (c : char) : char :=
  if (65 <=? c)%N && (c <=? 90)%N then (c + 32)%N else c.

(** ** my_token.py *)

Module tok.

Inductive NameTokenType :=
| SELECT | FROM | WHERE | GROUP | ORDER | BY
| INSERT | INTO | VALUES
| DELETE
| CASE | USING | AS | DISTINCT
| NULL | ASC | DESC | NULLS | FIRST | LAST | EXISTS
| LEFT | RIGHT | FULL | INNER | OUTER | STRAIGHT | CROSS | NATURAL | JOIN | ON
| UNION | EXCEPT | INTERSECT
| IS | NOT | AND | ALL_ | ANY_ | BETWEEN | IN | LIKE | OR | SOME
| NON_KEYWORD.

Inductive PunctuationTokenType :=
| DOT | DOUBLE_COLON | BIT_NOT | LEFT_SHIFT | RIGHT_SHIFT
| MULTIPLY | DIVIDE | MOD
| PLUS | MINUS | BIT_AND | BIT_OR | BIT_XOR
| EQUAL | LESS_THAN | GREATER_THAN | LESS_THAN_OR_EQUAL
| GREATER_THAN_OR_EQUAL | NOT_EQUAL
| SEMICOLON | LEFT_PAREN | RIGHT_PAREN | LEFT_BRACKET | RIGHT_BRACKET
| COMMA | NEWLINE
| UNKNOWN_OPERATOR.

Inductive SpecialTokenType :=
| SINGLE_QUOTE_STRING | DOUBLE_QUOTE_STRING
| SINGLE_LINE_COMMENT | MULTI_LINE_COMMENT
| END_OF_STRING.

(** The [StrEnum] values ([auto()] gives the lower-cased member name). *)
Definition NameTokenType_value (x : NameTokenType) : str :=
  of_string
    match x with
    | SELECT => "select" | FROM => "from" | WHERE => "where"
    | GROUP => "group" | ORDER => "order" | BY => "by"
    | INSERT => "insert" | INTO => "into" | VALUES => "values"
    | DELETE => "delete"
    | CASE => "case" | USING => "using" | AS => "as" | DISTINCT => "distinct"
    | NULL => "null" | ASC => "asc" | DESC => "desc" | NULLS => "nulls"
    | FIRST => "first" | LAST => "last" | EXISTS => "exists"
    | LEFT => "left" | RIGHT => "right" | FULL => "full" | INNER => "inner"
    | OUTER => "outer" | STRAIGHT => "straight" | CROSS => "cross"
    | NATURAL => "natural" | JOIN => "join" | ON => "on"
    | UNION => "union" | EXCEPT => "except" | INTERSECT => "intersect"
    | IS => "is" | NOT => "not" | AND => "and" | ALL_ => "all" | ANY_ => "any"
    | BETWEEN => "between" | IN => "in" | LIKE => "like" | OR => "or"
    | SOME => "some"
    | NON_KEYWORD => " name"
    end.

Definition NameTokenType_members : list NameTokenType :=
  [ SELECT; FROM; WHERE; GROUP; ORDER; BY; INSERT; INTO; VALUES; DELETE;
    CASE; USING; AS; DISTINCT; NULL; ASC; DESC; NULLS; FIRST; LAST; EXISTS;
    LEFT; RIGHT; FULL; INNER; OUTER; STRAIGHT; CROSS; NATURAL; JOIN; ON;
    UNION; EXCEPT; INTERSECT; IS; NOT; AND; ALL_; ANY_; BETWEEN; IN; LIKE;
    OR; SOME; NON_KEYWORD ].

Definition PunctuationTokenType_value (x : PunctuationTokenType) : str :=
  match x with
  | NEWLINE => [10%N]
  | _ =>
    of_string
      match x with
      | DOT => "." | DOUBLE_COLON => "::" | BIT_NOT => "~"
      | LEFT_SHIFT => "<<" | RIGHT_SHIFT => ">>"
      | MULTIPLY => "*" | DIVIDE => "/" | MOD => "%"
      | PLUS => "+" | MINUS => "-" | BIT_AND => "&" | BIT_OR => "|"
      | BIT_XOR => "^"
      | EQUAL => "=" | LESS_THAN => "<" | GREATER_THAN => ">"
      | LESS_THAN_OR_EQUAL => "<=" | GREATER_THAN_OR_EQUAL => ">="
      | NOT_EQUAL => "!="
      | SEMICOLON => ";" | LEFT_PAREN => "(" | RIGHT_PAREN => ")"
      | LEFT_BRACKET => "[" | RIGHT_BRACKET => "]" | COMMA => ","
      | NEWLINE => ""
      | UNKNOWN_OPERATOR => " unknown"
      end
  end.

Definition PunctuationTokenType_members : list PunctuationTokenType :=
  [ DOT; DOUBLE_COLON; BIT_NOT; LEFT_SHIFT; RIGHT_SHIFT; MULTIPLY; DIVIDE;
    MOD; PLUS; MINUS; BIT_AND; BIT_OR; BIT_XOR; EQUAL; LESS_THAN;
    GREATER_THAN; LESS_THAN_OR_EQUAL; GREATER_THAN_OR_EQUAL; NOT_EQUAL;
    SEMICOLON; LEFT_PAREN; RIGHT_PAREN; LEFT_BRACKET; RIGHT_BRACKET; COMMA;
    NEWLINE; UNKNOWN_OPERATOR ].

(** [{x.value.lower(): x for x in NameTokenType}]; the values are ASCII. *)
Definition text_to_name_token : list (str * NameTokenType) :=
  map (fun x => (map ascii_lower (NameTokenType_value x), x))
      NameTokenType_members.

Definition text_to_punctuation_token : list (str * PunctuationTokenType) :=
  map (fun x => (map ascii_lower (PunctuationTokenType_value x), x))
      PunctuationTokenType_members.

Definition text_to_non_operators : list (str * option PunctuationTokenType) :=
  [ (of_string ";", Some SEMICOLON);
    (of_string "(", Some LEFT_PAREN);
    (of_string ")", Some RIGHT_PAREN);
    (of_string "[", Some LEFT_BRACKET);
    (of_string "]", Some RIGHT_BRACKET);
    (of_string ",", Some COMMA);
    ([10%N], Some NEWLINE) ].

(** Keys of [operator_to_precedence]: members of either enum.  The two
    enums share no string value, so str-equality of members is equality of
    this tagged key. *)
Inductive TokenTypeKey :=
| PunctuationKey (t : PunctuationTokenType)
| NameKey (t : NameTokenType).

Definition operator_to_precedence (k : TokenTypeKey) : option Z :=
  match k with
  | PunctuationKey DOT => Some 1
  | PunctuationKey DOUBLE_COLON => Some 2
  | PunctuationKey LEFT_SHIFT => Some 4
  | PunctuationKey RIGHT_SHIFT => Some 4
  | PunctuationKey MULTIPLY => Some 5
  | PunctuationKey DIVIDE => Some 5
  | PunctuationKey MOD => Some 5
  | PunctuationKey PLUS => Some 6
  | PunctuationKey MINUS => Some 6
  | PunctuationKey BIT_AND => Some 6
  | PunctuationKey BIT_OR => Some 6
  | PunctuationKey BIT_XOR => Some 6
  | PunctuationKey EQUAL => Some 7
  | PunctuationKey LESS_THAN => Some 7
  | PunctuationKey GREATER_THAN => Some 7
  | PunctuationKey LESS_THAN_OR_EQUAL => Some 7
  | PunctuationKey GREATER_THAN_OR_EQUAL => Some 7
  | PunctuationKey NOT_EQUAL => Some 7
  | NameKey IS => Some 7
  | NameKey IN => Some 7
  | NameKey LIKE => Some 7
  | NameKey AND => Some 9
  | NameKey OR => Some 10
  | PunctuationKey COMMA => Some 100
  | _ => None
  end.

(** [operator_to_precedence.get(k, default)]. *)
Definition operator_to_precedence_get (k : TokenTypeKey) (default : Z) : Z :=
  match operator_to_precedence k with
  | Some p => p
  | None => default
  end.

Definition comma_precedence : Z :=
  Eval cbv in operator_to_precedence_get (PunctuationKey COMMA) 0.

Inductive Token :=
| NameToken (start length : Z) (type : NameTokenType)
| NumberToken (start length : Z)
| PunctuationToken (start length : Z) (type : PunctuationTokenType)
| SpecialToken (start length : Z) (type : SpecialTokenType)
               (has_end_sequence : bool).

Definition start (t : Token) : Z :=
  match t with
  | NameToken s _ _ | NumberToken s _ | PunctuationToken s _ _
  | SpecialToken s _ _ _ => s
  end.

Definition length (t : Token) : Z :=
  match t with
  | NameToken _ l _ | NumberToken _ l | PunctuationToken _ l _
  | SpecialToken _ l _ _ => l
  end.

End tok.

(** ** my_ast.py *)

Module ast.

Inductive Expression :=
| ValueExpression (token : tok.Token)
| ParenExpression (left_paren : tok.Token) (expr : Expression)
                  (right_paren : option tok.Token)
| BinaryExpression (left : Expression) (operator : tok.Token)
                   (right : Expression)
| PlaceholderExpression (placeholder_text : str).

Record SelectField := mkSelectField {
  select_expression : Expression;
  select_alias_name : option tok.Token
}.

Record SelectClause := mkSelectClause {
  select_fields : list SelectField
}.

Record FromField := mkFromField {
  table_name : Expression;
  from_alias_name : option tok.Token
}.

Record FromClause := mkFromClause {
  from_fields : list FromField
}.

Record WhereClause := mkWhereClause {
  where_expression : Expression
}.

Record UnknownSequence := mkUnknownSequence {
  unknown_start : Z;
  unknown_length : Z;
  first_token : tok.Token
}.

Record Statement := mkStatement {
  start : Z;
  length : Z;
  selects : list SelectClause;
  froms : list FromClause;
  wheres : list WhereClause;
  comments : list tok.Token;
  unknowns : list UnknownSequence
}.

(** [isinstance(e, PlaceholderExpression)]. *)
Definition is_placeholder (e : Expression) : bool :=
  match e with
  | PlaceholderExpression _ => true
  | _ => false
  end.

End ast.

(** ** tokenizer.py *)

(** The regular expressions of [_search_next], each as the matcher that
    Python's backtracking engine computes, run on the text from the match
    position on; the result is the offset of the match's end (of its start
    for [search]) from that position. *)

(** [(\\q|[^q])*q] for the quote character [q]: greedy star, first
    alternative first, then the closing quote. *)
Fixpoint re_quoted (q : char) (s : str) : option Z :=
  match s with
  | [] => None
  | c :: s' =>
    let alt1 :=
      match s' with
      | c2 :: s'' =>
        if (c =? 92)%N && (c2 =? q)%N
        then option_map (Z.add 2) (re_quoted q s'')
        else None
      | [] => None
      end in
    match alt1 with
    | Some r => Some r
    | None =>
      let alt2 :=
        if negb (c =? q)%N then option_map (Z.add 1) (re_quoted q s')
        else None in
      match alt2 with
      | Some r => Some r
      | None => if (c =? q)%N then Some 1 else None
      end
    end
  end.

(** [re.compile(r"\n").search]: offset of the first newline. *)
Fixpoint re_newline (s : str) : option Z :=
  match s with
  | [] => None
  | c :: s' =>
    if (c =? 10)%N then Some 0 else option_map (Z.add 1) (re_newline s')
  end.

(** [[\s\S]*?\*/]: lazy star, so the nearest [*/]; offset of its end. *)
Fixpoint re_multiline_comment (s : str) : option Z :=
  match s with
  | [] => None
  | c :: s' =>
    match s' with
    | c2 :: _ =>
      if (c =? 42)%N && (c2 =? 47)%N then Some 2
      else option_map (Z.add 1) (re_multiline_comment s')
    | [] => None
    end
  end.

(** The character class [[!@#^&*-+=|<>/%.:]]: inside the brackets [*-+] is
    the range from [*] (42) to [+] (43). *)
Definition operator_class (c : char) : bool :=
  ((c =? 33) || (c =? 64) || (c =? 35) || (c =? 94) || (c =? 38)
   || ((42 <=? c) && (c <=? 43))
   || (c =? 61) || (c =? 124) || (c =? 60) || (c =? 62) || (c =? 47)
   || (c =? 37) || (c =? 46) || (c =? 58))%N.

Fixpoint run_length (p : char -> bool) (s : str) : Z :=
  match s with
  | c :: s' => if p c then 1 + run_length p s' else 0
  | [] => 0
  end.

(** [[...]+] with [match]: the maximal run, no match when it is empty. *)
Definition re_operator (s : str) : option Z :=
  let n := run_length operator_class s in
  if 0 <? n then Some n else None.

(** [while position < len(text) and cond(text[position]): position += 1];
    [length text] iterations always suffice. *)
Fixpoint scan_while (fuel : nat) (cond : char -> bool) (text : str)
         (position : Z) : Z :=
  match fuel with
  | O => position
  | S fuel' =>
    if (position <? len text) && cond (char_at text position)
    then scan_while fuel' cond text (position + 1)
    else position
  end.

Section Unicode.

(** [str.isspace], [str.isalpha], [str.isalnum] and [str.lower] are fixed on
    ASCII; outside ASCII they are tables of the Unicode database, taken here
    as arbitrary. *)
Variables uni_isspace uni_isalpha uni_isalnum : char -> bool.
Variable uni_lower : str -> str.

Definition is_ascii (c : char) : bool := (c <? 128)%N.

Definition isspace (c : char) : bool :=
  if is_ascii c
  then (((9 <=? c) && (c <=? 13)) || ((28 <=? c) && (c <=? 32)))%N
  else uni_isspace c.

Definition isalpha (c : char) : bool :=
  if is_ascii c
  then (((65 <=? c) && (c <=? 90)) || ((97 <=? c) && (c <=? 122)))%N
  else uni_isalpha c.

Definition isalnum (c : char) : bool :=
  if is_ascii c
  then (((65 <=? c) && (c <=? 90)) || ((97 <=? c) && (c <=? 122))
        || ((48 <=? c) && (c <=? 57)))%N
  else uni_isalnum c.

Definition lower (s : str) : str :=
  if forallb is_ascii s then map ascii_lower s else uni_lower s.

Definition is_digit (c : char) : bool := ((48 <=? c) && (c <=? 57))%N.

(** The tail of [_search_next]: non-operator punctuation, then operators. *)
Definition search_punctuation (text : str) (start : Z) : tok.Token * Z :=
  let position := start in
  match dict_get tok.text_to_non_operators [char_at text position] None with
  | Some non_operator_token_type =>
    let position := position + 1 in
    (tok.PunctuationToken start (position - start) non_operator_token_type,
     position)
  | None =>
    let m := re_operator (skipn (Z.to_nat position) text) in
    let m_end := option_map (Z.add position) m in
    let position := position + 1 in
    match m_end with
    | None =>
      (tok.PunctuationToken start (position - start) tok.UNKNOWN_OPERATOR,
       position)
    | Some m_end =>
      let operator_token_type :=
        dict_get tok.text_to_punctuation_token (slice text start m_end)
                 tok.UNKNOWN_OPERATOR in
      (tok.PunctuationToken start (m_end - start) operator_token_type, m_end)
    end
  end.

(** The comment part of [_search_next]; [None] when it falls through. *)
Definition search_comment (text : str) (start : Z) : option (tok.Token * Z) :=
  let position := start in
  if position + 1 <? len text then
    if str_eqb (slice text position (position + 2)) (of_string "--") then
      let position := position + 2 in
      match re_newline (skipn (Z.to_nat position) text) with
      | None =>
        Some (tok.SpecialToken start (len text - start)
                               tok.SINGLE_LINE_COMMENT true, len text)
      | Some k =>
        let m_start := position + k in
        Some (tok.SpecialToken start (m_start - start)
                               tok.SINGLE_LINE_COMMENT true, m_start)
      end
    else if str_eqb (slice text position (position + 2)) (of_string "/*") then
      let position := position + 2 in
      match re_multiline_comment (skipn (Z.to_nat position) text) with
      | None =>
        Some (tok.SpecialToken start (len text - start)
                               tok.MULTI_LINE_COMMENT false, len text)
      | Some k =>
        let m_end := position + k in
        Some (tok.SpecialToken start (m_end - start)
                               tok.MULTI_LINE_COMMENT true, m_end)
      end
    else None
  else None.

(** A quoted string opened at [start] by the quote character [q]. *)
Definition search_string (text : str) (start : Z) (q : char)
           (type : tok.SpecialTokenType) : tok.Token * Z :=
  let position := start + 1 in
  match re_quoted q (skipn (Z.to_nat position) text) with
  | None => (tok.SpecialToken start (len text - start) type false, len text)
  | Some k =>
    let m_end := position + k in
    (tok.SpecialToken start (m_end - start) type true, m_end)
  end.

Definition _search_next (text : str) (position : Z) : tok.Token * Z :=
  let position :=
    scan_while (length text) (fun c => isspace c && negb (c =? 10)%N)
               text position in
  if len text <=? position then
    (tok.SpecialToken position 0 tok.END_OF_STRING true, position)
  else
    let start := position in
    if isalpha (char_at text position) then
      let position :=
        scan_while (length text) (fun c => isalnum c || (c =? 95)%N)
                   text (position + 1) in
      let name_token_type :=
        dict_get tok.text_to_name_token (lower (slice text start position))
                 tok.NON_KEYWORD in
      (tok.NameToken start (position - start) name_token_type, position)
    else if is_digit (char_at text position) then
      let position :=
        scan_while (length text) (fun c => is_digit c || (c =? 46)%N)
                   text (position + 1) in
      (tok.NumberToken start (position - start), position)
    else if (char_at text position =? 34)%N then
      search_string text start 34%N tok.DOUBLE_QUOTE_STRING
    else if (char_at text position =? 39)%N then
      search_string text start 39%N tok.SINGLE_QUOTE_STRING
    else
      match search_comment text start with
      | Some r => r
      | None => search_punctuation text start
      end.

Record Tokenizer := mkTokenizer {
  text : str;
  start_position : Z;
  peek_queue : list tok.Token;
  end_idx_of_last_consumed_token : Z
}.

(** [Tokenizer(text, start_position)]. *)
Definition Tokenizer_init (text : str) (start_position : Z) : Tokenizer :=
  mkTokenizer text start_position [] (-1).

Definition consume (self : Tokenizer) : tok.Token * Tokenizer :=
  match peek_queue self with
  | ret :: rest =>
    (ret, mkTokenizer (text self) (tok.start ret + tok.length ret) rest
                      (tok.start ret + tok.length ret))
  | [] =>
    let (ret, position) := _search_next (text self) (start_position self) in
    (ret, mkTokenizer (text self) position []
                      (tok.start ret + tok.length ret))
  end.

(** The [while len(self.peek_queue) < k] loop, [n] iterations left. *)
Fixpoint peek_fill (n : nat) (text : str) (position : Z)
         (queue : list tok.Token) : list tok.Token :=
  match n with
  | O => queue
  | S n' =>
    let (token, position) := _search_next text position in
    peek_fill n' text position (queue ++ [token])
  end.

Definition eos_default : tok.Token :=
  tok.SpecialToken 0 0 tok.END_OF_STRING true.

(** [peek(k)]; the parser calls it with [k = 1] and [k = 2] only, so the
    [assert k > 0] holds at every call. *)
Definition peek (k : nat) (self : Tokenizer) : tok.Token * Tokenizer :=
  let position :=
    match peek_queue self with
    | [] => start_position self
    | _ :: _ =>
      let l := last (peek_queue self) eos_default in
      tok.start l + tok.length l
    end in
  let queue :=
    peek_fill (k - List.length (peek_queue self)) (text self) position
              (peek_queue self) in
  (nth (k - 1) queue eos_default,
   mkTokenizer (text self) (start_position self) queue
               (end_idx_of_last_consumed_token self)).

(** All tokens up to and including the end-of-text token, by [consume]. *)
Fixpoint consume_all (fuel : nat) (self : Tokenizer) : list tok.Token :=
  match fuel with
  | O => []
  | S fuel' =>
    let (t, self') := consume self in
    match t with
    | tok.SpecialToken _ _ tok.END_OF_STRING _ => [t]
    | _ => t :: consume_all fuel' self'
    end
  end.


(** ** parser.py *)

(** The parser's only field is its tokenizer, so a parser state is a
    [Tokenizer]; the statement under construction, which the source mutates
    in place, is passed in and handed back.  A result [None] is a run that
    returns no value: the fuel ran out or an exception escaped. *)

Definition is_newline (t : tok.Token) : bool :=
  match t with
  | tok.PunctuationToken _ _ tok.NEWLINE => true
  | _ => false
  end.

Definition is_semicolon (t : tok.Token) : bool :=
  match t with
  | tok.PunctuationToken _ _ tok.SEMICOLON => true
  | _ => false
  end.

Definition is_comment (t : tok.Token) : bool :=
  match t with
  | tok.SpecialToken _ _ tok.SINGLE_LINE_COMMENT _
  | tok.SpecialToken _ _ tok.MULTI_LINE_COMMENT _ => true
  | _ => false
  end.

Definition is_end_of_string (t : tok.Token) : bool :=
  match t with
  | tok.SpecialToken _ _ tok.END_OF_STRING _ => true
  | _ => false
  end.

Definition add_comment (s : ast.Statement) (t : tok.Token) : ast.Statement :=
  ast.mkStatement (ast.start s) (ast.length s) (ast.selects s) (ast.froms s)
                  (ast.wheres s) (ast.comments s ++ [t]) (ast.unknowns s).

Definition set_length (s : ast.Statement) (l : Z) : ast.Statement :=
  ast.mkStatement (ast.start s) l (ast.selects s) (ast.froms s)
                  (ast.wheres s) (ast.comments s) (ast.unknowns s).

Definition add_select (s : ast.Statement) (c : ast.SelectClause) :=
  ast.mkStatement (ast.start s) (ast.length s) (ast.selects s ++ [c])
                  (ast.froms s) (ast.wheres s) (ast.comments s)
                  (ast.unknowns s).

Definition add_from (s : ast.Statement) (c : ast.FromClause) :=
  ast.mkStatement (ast.start s) (ast.length s) (ast.selects s)
                  (ast.froms s ++ [c]) (ast.wheres s) (ast.comments s)
                  (ast.unknowns s).

Definition add_where (s : ast.Statement) (c : ast.WhereClause) :=
  ast.mkStatement (ast.start s) (ast.length s) (ast.selects s)
                  (ast.froms s) (ast.wheres s ++ [c]) (ast.comments s)
                  (ast.unknowns s).

Definition set_unknowns (s : ast.Statement) (u : list ast.UnknownSequence) :=
  ast.mkStatement (ast.start s) (ast.length s) (ast.selects s)
                  (ast.froms s) (ast.wheres s) (ast.comments s) u.

(** [consume_newline_semicolons]: the loop, entered with the peeked token. *)
Fixpoint consume_newline_semicolons_loop (fuel : nat) (token : tok.Token)
         (tk : Tokenizer) : option (tok.Token * Tokenizer) :=
  match fuel with
  | O => None
  | S fuel' =>
    if is_newline token || is_semicolon token then
      let (_, tk) := consume tk in
      let (token, tk) := peek 1 tk in
      consume_newline_semicolons_loop fuel' token tk
    else Some (token, tk)
  end.

Definition consume_newline_semicolons (fuel : nat) (tk : Tokenizer)
  : option (tok.Token * Tokenizer) :=
  let (token, tk) := peek 1 tk in
  consume_newline_semicolons_loop fuel token tk.

(** [get_next_standard_token]: the [while True] loop. *)
Fixpoint get_next_standard_token_loop (fuel : nat) (token : tok.Token)
         (parent_statement : ast.Statement) (tk : Tokenizer)
  : option (tok.Token * ast.Statement * Tokenizer) :=
  match fuel with
  | O => None
  | S fuel' =>
    let second_if (token : tok.Token) (tk : Tokenizer) :=
      if is_comment token then
        let (_, tk) := consume tk in
        let parent_statement := add_comment parent_statement token in
        let (token, tk) := peek 1 tk in
        get_next_standard_token_loop fuel' token parent_statement tk
      else Some (token, parent_statement, tk) in
    if is_newline token then
      let (token2, tk) := peek 2 tk in
      if is_newline token2 then Some (token, parent_statement, tk)
      else
        let (_, tk) := consume tk in
        second_if token2 tk
    else second_if token tk
  end.

Definition get_next_standard_token (fuel : nat)
           (parent_statement : ast.Statement) (tk : Tokenizer)
  : option (tok.Token * ast.Statement * Tokenizer) :=
  let (token, tk) := peek 1 tk in
  get_next_standard_token_loop fuel token parent_statement tk.

(** What the [try] block of [parse_non_binary_expression] ends in. *)
Inductive LeafResult :=
| LeafReturn (ret : ast.Expression)
| LeafUnknownTokenException.

(** [binop.type] as a key of [operator_to_precedence], for a name or a
    punctuation token; [None] for the other token classes. *)
Definition binop_key (binop : tok.Token) : option tok.TokenTypeKey :=
  match binop with
  | tok.NameToken _ _ t => Some (tok.NameKey t)
  | tok.PunctuationToken _ _ t => Some (tok.PunctuationKey t)
  | _ => None
  end.

Fixpoint parse_expression (fuel : nat) (parent_statement : ast.Statement)
         (expression_precedence : Z) (tk : Tokenizer) {struct fuel}
  : option (ast.Expression * ast.Statement * Tokenizer) :=
  match fuel with
  | O => None
  | S fuel' =>
    match parse_non_binary_expression fuel' parent_statement tk with
    | None => None
    | Some (expression, parent_statement, tk) =>
      if ast.is_placeholder expression
      then Some (expression, parent_statement, tk)
      else parse_expression_loop fuel' parent_statement
                                 expression_precedence expression tk
    end
  end

with parse_expression_loop (fuel : nat) (parent_statement : ast.Statement)
         (expression_precedence : Z) (expression : ast.Expression)
         (tk : Tokenizer) {struct fuel}
  : option (ast.Expression * ast.Statement * Tokenizer) :=
  match fuel with
  | O => None
  | S fuel' =>
    match get_next_standard_token fuel' parent_statement tk with
    | None => None
    | Some (binop, parent_statement, tk) =>
      match binop_key binop with
      | None => Some (expression, parent_statement, tk)
      | Some key =>
        let binop_precedence :=
          tok.operator_to_precedence_get key (tok.comma_precedence + 1) in
        if binop_precedence >? expression_precedence
        then Some (expression, parent_statement, tk)
        else
          let (_, tk) := consume tk in
          match parse_expression fuel' parent_statement
                                 (binop_precedence - 1) tk with
          | None => None
          | Some (next_expression, parent_statement, tk) =>
            let expression :=
              ast.BinaryExpression expression binop next_expression in
            if ast.is_placeholder next_expression
            then Some (expression, parent_statement, tk)
            else parse_expression_loop fuel' parent_statement
                                       expression_precedence expression tk
          end
      end
    end
  end

with parse_non_binary_expression (fuel : nat)
         (parent_statement : ast.Statement) (tk : Tokenizer) {struct fuel}
  : option (ast.Expression * ast.Statement * Tokenizer) :=
  match fuel with
  | O => None
  | S fuel' =>
    match get_next_standard_token fuel' parent_statement tk with
    | None => None
    | Some (token, parent_statement, tk) =>
      match parse_non_binary_try fuel' token parent_statement tk with
      | None => None
      | Some (LeafReturn ret, parent_statement, tk) =>
        Some (ret, parent_statement, tk)
      | Some (LeafUnknownTokenException, parent_statement, tk) =>
        Some (ast.PlaceholderExpression (of_string "1"), parent_statement, tk)
      end
    end
  end

(** The [try: while True: ...] of [parse_non_binary_expression]; a
    [continue] re-enters the loop with the same [token]. *)
with parse_non_binary_try (fuel : nat) (token : tok.Token)
         (parent_statement : ast.Statement) (tk : Tokenizer) {struct fuel}
  : option (LeafResult * ast.Statement * Tokenizer) :=
  match fuel with
  | O => None
  | S fuel' =>
    match token with
    | tok.NameToken _ _ type =>
      match type with
      | tok.NON_KEYWORD =>
        let (_, tk) := consume tk in
        Some (LeafReturn (ast.ValueExpression token), parent_statement, tk)
      | _ => Some (LeafUnknownTokenException, parent_statement, tk)
      end
    | tok.NumberToken _ _ =>
      let (_, tk) := consume tk in
      Some (LeafReturn (ast.ValueExpression token), parent_statement, tk)
    | tok.PunctuationToken _ _ type =>
      match type with
      | tok.LEFT_PAREN =>
        let (_, tk) := consume tk in
        match parse_expression fuel' parent_statement
                               tok.comma_precedence tk with
        | None => None
        | Some (ret, parent_statement, tk) =>
          match get_next_standard_token fuel' parent_statement tk with
          | None => None
          | Some (token2, parent_statement, tk) =>
            match token2 with
            | tok.PunctuationToken _ _ tok.RIGHT_PAREN =>
              let (_, tk) := consume tk in
              Some (LeafReturn (ast.ParenExpression token ret (Some token2)),
                    parent_statement, tk)
            | _ =>
              Some (LeafReturn (ast.ParenExpression token ret None),
                    parent_statement, tk)
            end
          end
        end
      | _ => Some (LeafUnknownTokenException, parent_statement, tk)
      end
    | tok.SpecialToken _ _ type _ =>
      match type with
      | tok.SINGLE_QUOTE_STRING | tok.DOUBLE_QUOTE_STRING =>
        let (_, tk) := consume tk in
        Some (LeafReturn (ast.ValueExpression token), parent_statement, tk)
      | tok.SINGLE_LINE_COMMENT | tok.MULTI_LINE_COMMENT =>
        let (_, tk) := consume tk in
        let parent_statement := add_comment parent_statement token in
        parse_non_binary_try fuel' token parent_statement tk
      | tok.END_OF_STRING =>
        Some (LeafUnknownTokenException, parent_statement, tk)
      end
    end
  end.

Definition is_as (t : tok.Token) : bool :=
  match t with
  | tok.NameToken _ _ tok.AS => true
  | _ => false
  end.

Definition is_alias (t : tok.Token) : bool :=
  match t with
  | tok.NameToken _ _ tok.NON_KEYWORD => true
  | tok.SpecialToken _ _ tok.DOUBLE_QUOTE_STRING _ => true
  | _ => false
  end.

Definition is_comma (t : tok.Token) : bool :=
  match t with
  | tok.PunctuationToken _ _ tok.COMMA => true
  | _ => false
  end.

(** The field loop that [parse_select] and [parse_from] both spell out:
    the two copies differ in the precedence ceiling and in the field class
    ([SelectField] or [FromField]), here [ceiling] and [mk]. *)
Fixpoint parse_fields_loop {F : Type}
         (mk : ast.Expression -> option tok.Token -> F) (ceiling : Z)
         (fuel : nat) (parent_statement : ast.Statement) (fields : list F)
         (tk : Tokenizer) : option (list F * ast.Statement * Tokenizer) :=
  match fuel with
  | O => None
  | S fuel' =>
    match parse_expression fuel' parent_statement ceiling tk with
    | None => None
    | Some (expression, parent_statement, tk) =>
      match get_next_standard_token fuel' parent_statement tk with
      | None => None
      | Some (token, parent_statement, tk) =>
        match
          (if is_as token then
             let (_, tk) := consume tk in
             get_next_standard_token fuel' parent_statement tk
           else Some (token, parent_statement, tk))
        with
        | None => None
        | Some (token, parent_statement, tk) =>
          match
            (if is_alias token then
               let (_, tk) := consume tk in
               match get_next_standard_token fuel' parent_statement tk with
               | None => None
               | Some (token', parent_statement, tk) =>
                 Some (fields ++ [mk expression (Some token)], token',
                       parent_statement, tk)
               end
             else
               Some (fields ++ [mk expression None], token,
                     parent_statement, tk))
          with
          | None => None
          | Some (fields, token, parent_statement, tk) =>
            if is_comma token then
              let (_, tk) := consume tk in
              parse_fields_loop mk ceiling fuel' parent_statement fields tk
            else Some (fields, parent_statement, tk)
          end
        end
      end
    end
  end.

Definition parse_select (fuel : nat) (parent_statement : ast.Statement)
           (tk : Tokenizer)
  : option (ast.SelectClause * ast.Statement * Tokenizer) :=
  let (_, tk) := consume tk in
  match parse_fields_loop ast.mkSelectField (tok.comma_precedence - 1)
                          fuel parent_statement [] tk with
  | None => None
  | Some (fields, parent_statement, tk) =>
    Some (ast.mkSelectClause fields, parent_statement, tk)
  end.

Definition dot_precedence : Z :=
  tok.operator_to_precedence_get (tok.PunctuationKey tok.DOT) 0.

Definition parse_from (fuel : nat) (parent_statement : ast.Statement)
           (tk : Tokenizer)
  : option (ast.FromClause * ast.Statement * Tokenizer) :=
  let (_, tk) := consume tk in
  match parse_fields_loop ast.mkFromField dot_precedence
                          fuel parent_statement [] tk with
  | None => None
  | Some (fields, parent_statement, tk) =>
    Some (ast.mkFromClause fields, parent_statement, tk)
  end.

Definition parse_where (fuel : nat) (parent_statement : ast.Statement)
           (tk : Tokenizer)
  : option (ast.WhereClause * ast.Statement * Tokenizer) :=
  let (_, tk) := consume tk in
  match parse_expression fuel parent_statement (tok.comma_precedence - 1) tk
  with
  | None => None
  | Some (expression, parent_statement, tk) =>
    Some (ast.mkWhereClause expression, parent_statement, tk)
  end.

(** How one pass through the [try] block of [parse_statement] ends. *)
Inductive TryResult :=
| TryDone
| TryBreak
| TryUnknownTokenException.

Definition parse_statement_try (fuel : nat) (token : tok.Token)
           (ret : ast.Statement) (tk : Tokenizer)
  : option (TryResult * ast.Statement * Tokenizer) :=
  match token with
  | tok.NameToken _ _ type =>
    match type with
    | tok.SELECT =>
      match parse_select fuel ret tk with
      | None => None
      | Some (c, ret, tk) => Some (TryDone, add_select ret c, tk)
      end
    | tok.FROM =>
      match parse_from fuel ret tk with
      | None => None
      | Some (c, ret, tk) => Some (TryDone, add_from ret c, tk)
      end
    | tok.WHERE =>
      match parse_where fuel ret tk with
      | None => None
      | Some (c, ret, tk) => Some (TryDone, add_where ret c, tk)
      end
    | _ => Some (TryUnknownTokenException, ret, tk)
    end
  | tok.PunctuationToken _ _ type =>
    match type with
    | tok.SEMICOLON =>
      let ret :=
        set_length ret (end_idx_of_last_consumed_token tk - ast.start ret) in
      let (_, tk) := consume tk in
      Some (TryBreak, ret, tk)
    | tok.NEWLINE =>
      let ret :=
        set_length ret (end_idx_of_last_consumed_token tk - ast.start ret) in
      let (_, tk) := consume tk in
      let (_, tk) := consume tk in
      Some (TryBreak, ret, tk)
    | _ => Some (TryUnknownTokenException, ret, tk)
    end
  | tok.SpecialToken _ _ type _ =>
    match type with
    | tok.END_OF_STRING =>
      let ret :=
        set_length ret (end_idx_of_last_consumed_token tk - ast.start ret) in
      Some (TryBreak, ret, tk)
    | _ => Some (TryUnknownTokenException, ret, tk)
    end
  | tok.NumberToken _ _ => Some (TryUnknownTokenException, ret, tk)
  end.

(** [ret.unknowns[-1].length = l]; [None] is the [IndexError] of an empty
    list. *)
Definition set_last_unknown_length (u : list ast.UnknownSequence)
           (token : tok.Token) : option (list ast.UnknownSequence) :=
  match rev u with
  | [] => None
  | x :: before =>
    Some (rev before ++
          [ast.mkUnknownSequence
             (ast.unknown_start x)
             (tok.start token + tok.length token - ast.unknown_start x)
             (ast.first_token x)])
  end.

(** The [except] handler of [parse_statement]. *)
Definition parse_statement_except (prev_token_is_known : bool)
           (token : tok.Token) (ret : ast.Statement)
  : option ast.Statement :=
  if prev_token_is_known then
    Some (set_unknowns ret
            (ast.unknowns ret ++
             [ast.mkUnknownSequence (tok.start token) (tok.length token)
                                    token]))
  else
    match set_last_unknown_length (ast.unknowns ret) token with
    | None => None
    | Some u => Some (set_unknowns ret u)
    end.

Fixpoint parse_statement_loop (fuel : nat) (prev_token_is_known : bool)
         (ret : ast.Statement) (tk : Tokenizer)
  : option (ast.Statement * Tokenizer) :=
  match fuel with
  | O => None
  | S fuel' =>
    match get_next_standard_token fuel' ret tk with
    | None => None
    | Some (token, ret, tk) =>
      match parse_statement_try fuel' token ret tk with
      | None => None
      | Some (TryDone, ret, tk) => parse_statement_loop fuel' true ret tk
      | Some (TryBreak, ret, tk) => Some (ret, tk)
      | Some (TryUnknownTokenException, ret, tk) =>
        let (_, tk) := consume tk in
        match parse_statement_except prev_token_is_known token ret with
        | None => None
        | Some ret => parse_statement_loop fuel' false ret tk
        end
      end
    end
  end.

Definition parse_statement (fuel : nat) (tk : Tokenizer)
  : option (ast.Statement * Tokenizer) :=
  let (token, tk) := peek 1 tk in
  let ret :=
    ast.mkStatement (tok.start token) (tok.length token) [] [] [] [] [] in
  parse_statement_loop fuel true ret tk.

Fixpoint parse_all_loop (fuel : nat) (ret : list ast.Statement)
         (tk : Tokenizer) : option (list ast.Statement * Tokenizer) :=
  match fuel with
  | O => None
  | S fuel' =>
    match consume_newline_semicolons fuel' tk with
    | None => None
    | Some (token, tk) =>
      if is_end_of_string token then Some (ret, tk)
      else
        match parse_statement fuel' tk with
        | None => None
        | Some (s, tk) => parse_all_loop fuel' (ret ++ [s]) tk
        end
    end
  end.

Definition parse_all (fuel : nat) (tk : Tokenizer)
  : option (list ast.Statement) :=
  option_map fst (parse_all_loop fuel [] tk).

(** [Parser(text).parse_all()], run with fuel that always suffices. *)
Definition parseAll (text : str) : option (list ast.Statement) :=
  parse_all (4 * List.length text + 12) (Tokenizer_init text 0).

(** [Parser(text).parse_expression(statement, ceiling)] on a fresh
    statement. *)
Definition parseExpression (text : str) (ceiling : Z)
  : option ast.Expression :=
  option_map (fun r => fst (fst r))
    (parse_expression (4 * List.length text + 12)
                      (ast.mkStatement 0 0 [] [] [] [] []) ceiling
                      (Tokenizer_init text 0)).

(** ** Exceptions *)

(** The exceptions that escape from a run of the program. *)
Inductive Exception := KeyError | AttributeError | IndexError | RecursionError.

Inductive Result (A : Type) :=
| Return (a : A)
| Raise (e : Exception).

#[global] Arguments Return {A} a.
#[global] Arguments Raise {A} e.

Definition bind {A B : Type} (r : Result A) (f : A -> Result B) : Result B :=
  match r with
  | Return a => f a
  | Raise e => Raise e
  end.

Notation "x <- r ;; k" := (bind r (fun x => k))
  (at level 61, r at next level, right associativity).


(** ** parser.py on the call stack *)

(** The interpreter bounds the depth of its call stack: a call that would
    pass the recursion limit does not run and raises RecursionError.
    [parse_expression] and [parse_non_binary_expression] call each other
    once for every parenthesis and once for every operand of an operator
    that binds tighter than the one in front of it, and parser.py catches
    [UnknownTokenException] only, so that on a text that nests deeply the
    exception leaves [parse_all].

    The definitions above leave the stack out: they give what a run
    returns when it returns.  The definitions of this part are the same
    code with the stack in: [frames] is the number of calls that the stack
    can still take, every function and method that is called takes one of
    them for itself and leaves the others to the calls in its body.  The
    count is of the functions and methods of tokenizer.py and parser.py.
    What the interpreter counts on top of them at the end of a chain of
    calls is left out: the calls below [_search_next] into the library, the
    constructors of tokens and tree nodes, and built-in functions, a few
    levels that are not the same in every run.  So a run needs the frames
    that are counted here, and a few more.  A result is [None] where the
    definitions above have [None], [Some (Raise RecursionError)] for a
    call that found no frame, and [Some (Return r)] for a run that returns
    [r]. *)

Definition and_then {A B : Type} (r : option (Result A))
           (k : A -> option (Result B)) : option (Result B) :=
  match r with
  | Some (Return a) => k a
  | Some (Raise e) => Some (Raise e)
  | None => None
  end.

Notation "'let*' p := r 'in' k" :=
  (and_then r (fun x => match x with p => k end))
  (at level 10, p pattern, r at level 200, k at level 200).

(** A call: with no frame left it raises RecursionError, and otherwise
    its body runs with the frames that are left behind its own. *)
Definition call {A : Type} (frames : nat)
           (body : nat -> option (Result A)) : option (Result A) :=
  match frames with
  | O => Some (Raise RecursionError)
  | S frames' => body frames'
  end.

Definition _search_next_stack (frames : nat) (text : str) (position : Z)
  : option (Result (tok.Token * Z)) :=
  call frames (fun _ => Some (Return (_search_next text position))).

Definition consume_stack (frames : nat) (self : Tokenizer)
  : option (Result (tok.Token * Tokenizer)) :=
  call frames (fun frames =>
    match peek_queue self with
    | ret :: rest =>
      Some (Return
              (ret, mkTokenizer (text self) (tok.start ret + tok.length ret)
                                rest (tok.start ret + tok.length ret)))
    | [] =>
      let* (ret, position) :=
        _search_next_stack frames (text self) (start_position self) in
      Some (Return
              (ret, mkTokenizer (text self) position []
                                (tok.start ret + tok.length ret)))
    end).

Fixpoint peek_fill_stack (frames n : nat) (text : str) (position : Z)
         (queue : list tok.Token) : option (Result (list tok.Token)) :=
  match n with
  | O => Some (Return queue)
  | S n' =>
    let* (token, position) := _search_next_stack frames text position in
    peek_fill_stack frames n' text position (queue ++ [token])
  end.

Definition peek_stack (frames k : nat) (self : Tokenizer)
  : option (Result (tok.Token * Tokenizer)) :=
  call frames (fun frames =>
    let position :=
      match peek_queue self with
      | [] => start_position self
      | _ :: _ =>
        let l := last (peek_queue self) eos_default in
        tok.start l + tok.length l
      end in
    let* queue :=
      peek_fill_stack frames (k - List.length (peek_queue self)) (text self)
                      position (peek_queue self) in
    Some (Return
            (nth (k - 1) queue eos_default,
             mkTokenizer (text self) (start_position self) queue
                         (end_idx_of_last_consumed_token self)))).

Fixpoint consume_newline_semicolons_loop_stack (frames fuel : nat)
         (token : tok.Token) (tk : Tokenizer)
  : option (Result (tok.Token * Tokenizer)) :=
  match fuel with
  | O => None
  | S fuel' =>
    if is_newline token || is_semicolon token then
      let* (_, tk) := consume_stack frames tk in
      let* (token, tk) := peek_stack frames 1 tk in
      consume_newline_semicolons_loop_stack frames fuel' token tk
    else Some (Return (token, tk))
  end.

Definition consume_newline_semicolons_stack (frames fuel : nat)
           (tk : Tokenizer) : option (Result (tok.Token * Tokenizer)) :=
  call frames (fun frames =>
    let* (token, tk) := peek_stack frames 1 tk in
    consume_newline_semicolons_loop_stack frames fuel token tk).

Fixpoint get_next_standard_token_loop_stack (frames fuel : nat)
         (token : tok.Token) (parent_statement : ast.Statement)
         (tk : Tokenizer)
  : option (Result (tok.Token * ast.Statement * Tokenizer)) :=
  match fuel with
  | O => None
  | S fuel' =>
    let second_if (token : tok.Token) (tk : Tokenizer) :=
      if is_comment token then
        let* (_, tk) := consume_stack frames tk in
        let parent_statement := add_comment parent_statement token in
        let* (token, tk) := peek_stack frames 1 tk in
        get_next_standard_token_loop_stack frames fuel' token
                                           parent_statement tk
      else Some (Return (token, parent_statement, tk)) in
    if is_newline token then
      let* (token2, tk) := peek_stack frames 2 tk in
      if is_newline token2 then Some (Return (token, parent_statement, tk))
      else
        let* (_, tk) := consume_stack frames tk in
        second_if token2 tk
    else second_if token tk
  end.

Definition get_next_standard_token_stack (frames fuel : nat)
           (parent_statement : ast.Statement) (tk : Tokenizer)
  : option (Result (tok.Token * ast.Statement * Tokenizer)) :=
  call frames (fun frames =>
    let* (token, tk) := peek_stack frames 1 tk in
    get_next_standard_token_loop_stack frames fuel token parent_statement
                                       tk).

Fixpoint parse_expression_stack (frames fuel : nat)
         (parent_statement : ast.Statement) (expression_precedence : Z)
         (tk : Tokenizer) {struct fuel}
  : option (Result (ast.Expression * ast.Statement * Tokenizer)) :=
  match fuel with
  | O => None
  | S fuel' =>
    call frames (fun frames =>
      let* (expression, parent_statement, tk) :=
        parse_non_binary_expression_stack frames fuel' parent_statement tk in
      if ast.is_placeholder expression
      then Some (Return (expression, parent_statement, tk))
      else parse_expression_loop_stack frames fuel' parent_statement
                                       expression_precedence expression tk)
  end

(** The [while True] of [parse_expression]: no call of its own, [frames]
    are those that the calls in the loop can take. *)
with parse_expression_loop_stack (frames fuel : nat)
         (parent_statement : ast.Statement) (expression_precedence : Z)
         (expression : ast.Expression) (tk : Tokenizer) {struct fuel}
  : option (Result (ast.Expression * ast.Statement * Tokenizer)) :=
  match fuel with
  | O => None
  | S fuel' =>
    let* (binop, parent_statement, tk) :=
      get_next_standard_token_stack frames fuel' parent_statement tk in
    match binop_key binop with
    | None => Some (Return (expression, parent_statement, tk))
    | Some key =>
      let binop_precedence :=
        tok.operator_to_precedence_get key (tok.comma_precedence + 1) in
      if binop_precedence >? expression_precedence
      then Some (Return (expression, parent_statement, tk))
      else
        let* (_, tk) := consume_stack frames tk in
        let* (next_expression, parent_statement, tk) :=
          parse_expression_stack frames fuel' parent_statement
                                 (binop_precedence - 1) tk in
        let expression :=
          ast.BinaryExpression expression binop next_expression in
        if ast.is_placeholder next_expression
        then Some (Return (expression, parent_statement, tk))
        else parse_expression_loop_stack frames fuel' parent_statement
                                         expression_precedence expression tk
    end
  end

with parse_non_binary_expression_stack (frames fuel : nat)
         (parent_statement : ast.Statement) (tk : Tokenizer) {struct fuel}
  : option (Result (ast.Expression * ast.Statement * Tokenizer)) :=
  match fuel with
  | O => None
  | S fuel' =>
    call frames (fun frames =>
      let* (token, parent_statement, tk) :=
        get_next_standard_token_stack frames fuel' parent_statement tk in
      let* (leaf, parent_statement, tk) :=
        parse_non_binary_try_stack frames fuel' token parent_statement tk in
      match leaf with
      | LeafReturn ret => Some (Return (ret, parent_statement, tk))
      | LeafUnknownTokenException =>
        Some (Return (ast.PlaceholderExpression (of_string "1"),
                      parent_statement, tk))
      end)
  end

(** The [try] block of [parse_non_binary_expression], in the frame of
    that function. *)
with parse_non_binary_try_stack (frames fuel : nat) (token : tok.Token)
         (parent_statement : ast.Statement) (tk : Tokenizer) {struct fuel}
  : option (Result (LeafResult * ast.Statement * Tokenizer)) :=
  match fuel with
  | O => None
  | S fuel' =>
    match token with
    | tok.NameToken _ _ type =>
      match type with
      | tok.NON_KEYWORD =>
        let* (_, tk) := consume_stack frames tk in
        Some (Return (LeafReturn (ast.ValueExpression token),
                      parent_statement, tk))
      | _ => Some (Return (LeafUnknownTokenException, parent_statement, tk))
      end
    | tok.NumberToken _ _ =>
      let* (_, tk) := consume_stack frames tk in
      Some (Return (LeafReturn (ast.ValueExpression token),
                    parent_statement, tk))
    | tok.PunctuationToken _ _ type =>
      match type with
      | tok.LEFT_PAREN =>
        let* (_, tk) := consume_stack frames tk in
        let* (ret, parent_statement, tk) :=
          parse_expression_stack frames fuel' parent_statement
                                 tok.comma_precedence tk in
        let* (token2, parent_statement, tk) :=
          get_next_standard_token_stack frames fuel' parent_statement tk in
        match token2 with
        | tok.PunctuationToken _ _ tok.RIGHT_PAREN =>
          let* (_, tk) := consume_stack frames tk in
          Some (Return
                  (LeafReturn (ast.ParenExpression token ret (Some token2)),
                   parent_statement, tk))
        | _ =>
          Some (Return (LeafReturn (ast.ParenExpression token ret None),
                        parent_statement, tk))
        end
      | _ => Some (Return (LeafUnknownTokenException, parent_statement, tk))
      end
    | tok.SpecialToken _ _ type _ =>
      match type with
      | tok.SINGLE_QUOTE_STRING | tok.DOUBLE_QUOTE_STRING =>
        let* (_, tk) := consume_stack frames tk in
        Some (Return (LeafReturn (ast.ValueExpression token),
                      parent_statement, tk))
      | tok.SINGLE_LINE_COMMENT | tok.MULTI_LINE_COMMENT =>
        let* (_, tk) := consume_stack frames tk in
        let parent_statement := add_comment parent_statement token in
        parse_non_binary_try_stack frames fuel' token parent_statement tk
      | tok.END_OF_STRING =>
        Some (Return (LeafUnknownTokenException, parent_statement, tk))
      end
    end
  end.

(** The field loop of [parse_select] and [parse_from], in the frame of
    the one or the other. *)
Fixpoint parse_fields_loop_stack {F : Type}
         (mk : ast.Expression -> option tok.Token -> F) (ceiling : Z)
         (frames fuel : nat) (parent_statement : ast.Statement)
         (fields : list F) (tk : Tokenizer)
  : option (Result (list F * ast.Statement * Tokenizer)) :=
  match fuel with
  | O => None
  | S fuel' =>
    let* (expression, parent_statement, tk) :=
      parse_expression_stack frames fuel' parent_statement ceiling tk in
    let* (token, parent_statement, tk) :=
      get_next_standard_token_stack frames fuel' parent_statement tk in
    let* (token, parent_statement, tk) :=
      (if is_as token then
         let* (_, tk) := consume_stack frames tk in
         get_next_standard_token_stack frames fuel' parent_statement tk
       else Some (Return (token, parent_statement, tk))) in
    let* (fields, token, parent_statement, tk) :=
      (if is_alias token then
         let* (_, tk) := consume_stack frames tk in
         let* (token', parent_statement, tk) :=
           get_next_standard_token_stack frames fuel' parent_statement tk in
         Some (Return (fields ++ [mk expression (Some token)], token',
                       parent_statement, tk))
       else
         Some (Return (fields ++ [mk expression None], token,
                       parent_statement, tk))) in
    if is_comma token then
      let* (_, tk) := consume_stack frames tk in
      parse_fields_loop_stack mk ceiling frames fuel' parent_statement
                              fields tk
    else Some (Return (fields, parent_statement, tk))
  end.

Definition parse_select_stack (frames fuel : nat)
           (parent_statement : ast.Statement) (tk : Tokenizer)
  : option (Result (ast.SelectClause * ast.Statement * Tokenizer)) :=
  call frames (fun frames =>
    let* (_, tk) := consume_stack frames tk in
    let* (fields, parent_statement, tk) :=
      parse_fields_loop_stack ast.mkSelectField (tok.comma_precedence - 1)
                              frames fuel parent_statement [] tk in
    Some (Return (ast.mkSelectClause fields, parent_statement, tk))).

Definition parse_from_stack (frames fuel : nat)
           (parent_statement : ast.Statement) (tk : Tokenizer)
  : option (Result (ast.FromClause * ast.Statement * Tokenizer)) :=
  call frames (fun frames =>
    let* (_, tk) := consume_stack frames tk in
    let* (fields, parent_statement, tk) :=
      parse_fields_loop_stack ast.mkFromField dot_precedence
                              frames fuel parent_statement [] tk in
    Some (Return (ast.mkFromClause fields, parent_statement, tk))).

Definition parse_where_stack (frames fuel : nat)
           (parent_statement : ast.Statement) (tk : Tokenizer)
  : option (Result (ast.WhereClause * ast.Statement * Tokenizer)) :=
  call frames (fun frames =>
    let* (_, tk) := consume_stack frames tk in
    let* (expression, parent_statement, tk) :=
      parse_expression_stack frames fuel parent_statement
                             (tok.comma_precedence - 1) tk in
    Some (Return (ast.mkWhereClause expression, parent_statement, tk))).

(** The [try] block of [parse_statement], in the frame of that
    function. *)
Definition parse_statement_try_stack (frames fuel : nat) (token : tok.Token)
           (ret : ast.Statement) (tk : Tokenizer)
  : option (Result (TryResult * ast.Statement * Tokenizer)) :=
  match token with
  | tok.NameToken _ _ type =>
    match type with
    | tok.SELECT =>
      let* (c, ret, tk) := parse_select_stack frames fuel ret tk in
      Some (Return (TryDone, add_select ret c, tk))
    | tok.FROM =>
      let* (c, ret, tk) := parse_from_stack frames fuel ret tk in
      Some (Return (TryDone, add_from ret c, tk))
    | tok.WHERE =>
      let* (c, ret, tk) := parse_where_stack frames fuel ret tk in
      Some (Return (TryDone, add_where ret c, tk))
    | _ => Some (Return (TryUnknownTokenException, ret, tk))
    end
  | tok.PunctuationToken _ _ type =>
    match type with
    | tok.SEMICOLON =>
      let ret :=
        set_length ret (end_idx_of_last_consumed_token tk - ast.start ret) in
      let* (_, tk) := consume_stack frames tk in
      Some (Return (TryBreak, ret, tk))
    | tok.NEWLINE =>
      let ret :=
        set_length ret (end_idx_of_last_consumed_token tk - ast.start ret) in
      let* (_, tk) := consume_stack frames tk in
      let* (_, tk) := consume_stack frames tk in
      Some (Return (TryBreak, ret, tk))
    | _ => Some (Return (TryUnknownTokenException, ret, tk))
    end
  | tok.SpecialToken _ _ type _ =>
    match type with
    | tok.END_OF_STRING =>
      let ret :=
        set_length ret (end_idx_of_last_consumed_token tk - ast.start ret) in
      Some (Return (TryBreak, ret, tk))
    | _ => Some (Return (TryUnknownTokenException, ret, tk))
    end
  | tok.NumberToken _ _ => Some (Return (TryUnknownTokenException, ret, tk))
  end.

Fixpoint parse_statement_loop_stack (frames fuel : nat)
         (prev_token_is_known : bool) (ret : ast.Statement) (tk : Tokenizer)
  : option (Result (ast.Statement * Tokenizer)) :=
  match fuel with
  | O => None
  | S fuel' =>
    let* (token, ret, tk) :=
      get_next_standard_token_stack frames fuel' ret tk in
    let* (result, ret, tk) :=
      parse_statement_try_stack frames fuel' token ret tk in
    match result with
    | TryDone => parse_statement_loop_stack frames fuel' true ret tk
    | TryBreak => Some (Return (ret, tk))
    | TryUnknownTokenException =>
      let* (_, tk) := consume_stack frames tk in
      match parse_statement_except prev_token_is_known token ret with
      | None => None
      | Some ret => parse_statement_loop_stack frames fuel' false ret tk
      end
    end
  end.

Definition parse_statement_stack (frames fuel : nat) (tk : Tokenizer)
  : option (Result (ast.Statement * Tokenizer)) :=
  call frames (fun frames =>
    let* (token, tk) := peek_stack frames 1 tk in
    let ret :=
      ast.mkStatement (tok.start token) (tok.length token) [] [] [] [] [] in
    parse_statement_loop_stack frames fuel true ret tk).

Fixpoint parse_all_loop_stack (frames fuel : nat) (ret : list ast.Statement)
         (tk : Tokenizer) : option (Result (list ast.Statement * Tokenizer)) :=
  match fuel with
  | O => None
  | S fuel' =>
    let* (token, tk) := consume_newline_semicolons_stack frames fuel' tk in
    if is_end_of_string token then Some (Return (ret, tk))
    else
      let* (s, tk) := parse_statement_stack frames fuel' tk in
      parse_all_loop_stack frames fuel' (ret ++ [s]) tk
  end.

Definition parse_all_stack (frames fuel : nat) (tk : Tokenizer)
  : option (Result (list ast.Statement)) :=
  call frames (fun frames =>
    let* (ret, _) := parse_all_loop_stack frames fuel [] tk in
    Some (Return ret)).

(** [Parser(text).parse_all()], called where the stack can take [frames]
    more calls. *)
Definition parseAll_stack (frames : nat) (text : str)
  : option (Result (list ast.Statement)) :=
  parse_all_stack frames (4 * List.length text + 12) (Tokenizer_init text 0).

(** What a run on the stack has to do with the run that leaves the stack
    out: where it returns, it returns the same; RecursionError is all it
    raises; and it gives no result only where the other gives none. *)
Definition agrees {A : Type} (r : option A) (s : option (Result A)) : Prop :=
  match s with
  | Some (Return a) => r = Some a
  | Some (Raise e) => e = RecursionError
  | None => r = None
  end.


(** ** The token stream seen through the tokenizer *)

(** The token that starts at or after [p], and the position behind it. *)
Definition tok_at (text : str) (p : Z) : tok.Token :=
  fst (_search_next text p).

Definition pos_after (text : str) (p : Z) : Z :=
  snd (_search_next text p).

(** The next [n] tokens from [p] on: what a peek queue of length [n] holds. *)
Fixpoint toks (text : str) (p : Z) (n : nat) : list tok.Token :=
  match n with
  | O => []
  | S n' => tok_at text p :: toks text (pos_after text p) n'
  end.

Fixpoint pos_iter (text : str) (p : Z) (n : nat) : Z :=
  match n with
  | O => p
  | S n' => pos_iter text (pos_after text p) n'
  end.

(** A tokenizer state the parser can be in: the position is inside the text
    and the peek queue holds the tokens that follow it. *)
Definition wf (tk : Tokenizer) : Prop :=
  0 <= start_position tk <= len (text tk) /\
  exists n, peek_queue tk = toks (text tk) (start_position tk) n.

(** [tk'] is [tk] after some peeks and consumes: same text, not further
    back, and either nothing was consumed, or the end index of the last
    consumed token is the position and the first token is behind it. *)
Definition adv (tk tk' : Tokenizer) : Prop :=
  wf tk' /\ text tk' = text tk /\
  start_position tk <= start_position tk' /\
  ((start_position tk' = start_position tk /\
    end_idx_of_last_consumed_token tk' = end_idx_of_last_consumed_token tk) \/
   (end_idx_of_last_consumed_token tk' = start_position tk' /\
    pos_after (text tk) (start_position tk) <= start_position tk')).

(** The sub-parsers touch only the comments of the statement they are
    given. *)
Definition frame (s s' : ast.Statement) : Prop :=
  ast.start s' = ast.start s /\ ast.length s' = ast.length s /\
  ast.selects s' = ast.selects s /\ ast.froms s' = ast.froms s /\
  ast.wheres s' = ast.wheres s /\ ast.unknowns s' = ast.unknowns s.

(** Characters left, the measure that bounds every loop of the parser. *)
Definition remaining (tk : Tokenizer) : nat :=
  Z.to_nat (len (text tk) - start_position tk).


(** What [get_next_standard_token] hands back: the token now at the front,
    never a comment, and a newline only before another newline. *)
Definition gnst_post (parent : ast.Statement) (tk : Tokenizer)
           (r : tok.Token * ast.Statement * Tokenizer) : Prop :=
  let '(token', parent', tk') := r in
  adv tk tk' /\ frame parent parent' /\
  token' = tok_at (text tk') (start_position tk') /\
  is_comment token' = false /\
  (is_newline token' = true ->
   is_newline (tok_at (text tk')
                      (pos_after (text tk') (start_position tk'))) = true).


(** What every sub-parser guarantees about the state it leaves. *)
Definition sub_post {A : Type} (parent : ast.Statement) (tk : Tokenizer)
           (r : A * ast.Statement * Tokenizer) : Prop :=
  adv tk (snd r) /\ frame parent (snd (fst r)).


(** The tokens that end a statement. *)
Definition is_boundary (t : tok.Token) : bool :=
  is_semicolon t || is_newline t || is_end_of_string t.

(** The state of the tokenizer inside [parse_statement], for a statement
    that starts at [s0]: either a token of the statement has been consumed
    and the end index is the position, or the statement's first token,
    which is no boundary, is still at the front. *)
Definition in_statement (s0 : Z) (tk : Tokenizer) : Prop :=
  (end_idx_of_last_consumed_token tk = start_position tk /\
   s0 <= start_position tk) \/
  (is_boundary (tok_at (text tk) (start_position tk)) = false /\
   s0 = tok.start (tok_at (text tk) (start_position tk))).

(** Spans of a list of statements: in order, one behind the other, of
    non-negative length, between [lo] and [hi]. *)
Fixpoint spans_from (lo : Z) (l : list ast.Statement) (hi : Z) : Prop :=
  match l with
  | [] => lo <= hi
  | s :: l' =>
    lo <= ast.start s /\ 0 <= ast.length s /\
    spans_from (ast.start s + ast.length s) l' hi
  end.


(** Each statement starts at or after the end of the one before it. *)
Fixpoint in_source_order (l : list ast.Statement) : Prop :=
  match l with
  | a :: (b :: _) as l' =>
    ast.start a + ast.length a <= ast.start b /\ in_source_order l'
  | _ => True
  end.

(** ** Shapes of expressions *)

(** The precedence [parse_expression] reads off an operator token. *)
Definition token_precedence (t : tok.Token) : Z :=
  match binop_key t with
  | Some key => tok.operator_to_precedence_get key (tok.comma_precedence + 1)
  | None => tok.comma_precedence + 1
  end.

(** [bounded e c]: outside parentheses every operator of [e] has precedence
    at most [c] and its right operand is bounded by one less than the
    operator's own precedence; inside parentheses the bound is the comma's
    precedence. *)
Fixpoint bounded (e : ast.Expression) (c : Z) : Prop :=
  match e with
  | ast.BinaryExpression l op r =>
    token_precedence op <= c /\ bounded l c /\
    bounded r (token_precedence op - 1)
  | ast.ParenExpression _ inner _ => bounded inner tok.comma_precedence
  | _ => True
  end.

(** Left-to-right association: the right operand of an operator is never
    itself a binary expression whose operator binds equally or looser. *)
Fixpoint left_assoc (e : ast.Expression) : Prop :=
  match e with
  | ast.BinaryExpression l op r =>
    left_assoc l /\ left_assoc r /\
    match r with
    | ast.BinaryExpression _ op2 _ =>
      token_precedence op2 < token_precedence op
    | _ => True
    end
  | ast.ParenExpression _ inner _ => left_assoc inner
  | _ => True
  end.

Definition select_clause_ok (c : ast.SelectClause) : Prop :=
  ast.select_fields c <> [] /\
  Forall (fun f => bounded (ast.select_expression f)
                           (tok.comma_precedence - 1))
         (ast.select_fields c).

Definition from_clause_ok (c : ast.FromClause) : Prop :=
  ast.from_fields c <> [] /\
  Forall (fun f => bounded (ast.table_name f) dot_precedence)
         (ast.from_fields c).

Definition where_clause_ok (c : ast.WhereClause) : Prop :=
  bounded (ast.where_expression c) (tok.comma_precedence - 1).

Definition statement_ok (s : ast.Statement) : Prop :=
  Forall select_clause_ok (ast.selects s) /\
  Forall from_clause_ok (ast.froms s) /\
  Forall where_clause_ok (ast.wheres s).


(** Every expression a statement holds: select fields, table names, where
    conditions. *)
Definition statement_expressions (s : ast.Statement) : list ast.Expression :=
  flat_map (fun c => map ast.select_expression (ast.select_fields c))
           (ast.selects s)
  ++ flat_map (fun c => map ast.table_name (ast.from_fields c)) (ast.froms s)
  ++ map ast.where_expression (ast.wheres s).

Definition table_names (s : ast.Statement) : list ast.Expression :=
  flat_map (fun c => map ast.table_name (ast.from_fields c)) (ast.froms s).

Definition is_dot (t : tok.Token) : bool :=
  match t with
  | tok.PunctuationToken _ _ tok.DOT => true
  | _ => false
  end.

(** No binary expression anywhere in [e] has a comma as its operator. *)
Fixpoint comma_free (e : ast.Expression) : Prop :=
  match e with
  | ast.BinaryExpression l op r =>
    is_comma op = false /\ comma_free l /\ comma_free r
  | ast.ParenExpression _ inner _ => comma_free inner
  | _ => True
  end.

(** No binary expression of [e] that is outside every pair of parentheses
    has a comma as its operator. *)
Fixpoint comma_free_outside_parens (e : ast.Expression) : Prop :=
  match e with
  | ast.BinaryExpression l op r =>
    is_comma op = false /\ comma_free_outside_parens l /\
    comma_free_outside_parens r
  | _ => True
  end.

(** Every operator anywhere in [e], also inside parentheses, is a dot. *)
Fixpoint only_dot_operators (e : ast.Expression) : Prop :=
  match e with
  | ast.BinaryExpression l op r =>
    is_dot op = true /\ only_dot_operators l /\ only_dot_operators r
  | ast.ParenExpression _ inner _ => only_dot_operators inner
  | _ => True
  end.

(** A chain [x . y . z]: dots only, nested to the left, each right operand
    a non-binary expression (a value, a placeholder, or a parenthesised
    expression, whatever it holds). *)
Fixpoint dot_chain (e : ast.Expression) : Prop :=
  match e with
  | ast.BinaryExpression l op r =>
    is_dot op = true /\ dot_chain l /\
    match r with
    | ast.BinaryExpression _ _ _ => False
    | _ => True
    end
  | _ => True
  end.


(** ** Lexing as a whole *)

(** The tokens [consume] yields on [text], the end-of-text token last. *)
Definition all_tokens (text : str) : list tok.Token :=
  consume_all (S (List.length text)) (Tokenizer_init text 0).

(** For each token in turn: the text skipped in front of it, from the end
    of the token before, and the text it spans. *)
Fixpoint pieces (text : str) (position : Z) (l : list tok.Token)
  : list (str * str) :=
  match l with
  | [] => []
  | t :: l' =>
    (slice text position (tok.start t),
     slice text (tok.start t) (tok.start t + tok.length t))
    :: pieces text (tok.start t + tok.length t) l'
  end.

(** The characters [_search_next] skips: white space other than newline. *)
Definition is_skipped (c : char) : bool := isspace c && negb (c =? 10)%N.


(** ** Recovery runs *)

(** What one pass of the loop of [parse_statement] did with the token it
    looked at (comments and single newlines are skipped before the token is
    looked at, and the boundary token ends the loop): a clause was parsed
    from it, or it was not recognised and was consumed. *)
Inductive Event :=
| Recognized
| Unrecognized (t : tok.Token).

(** The passes of [parse_statement_loop], in order: the same run, logged. *)
Fixpoint parse_statement_events (fuel : nat) (prev_token_is_known : bool)
         (ret : ast.Statement) (tk : Tokenizer) : list Event :=
  match fuel with
  | O => []
  | S fuel' =>
    match get_next_standard_token fuel' ret tk with
    | None => []
    | Some (token, ret, tk) =>
      match parse_statement_try fuel' token ret tk with
      | None => []
      | Some (TryDone, ret, tk) =>
        Recognized :: parse_statement_events fuel' true ret tk
      | Some (TryBreak, _, _) => []
      | Some (TryUnknownTokenException, ret, tk) =>
        let (_, tk) := consume tk in
        match parse_statement_except prev_token_is_known token ret with
        | None => []
        | Some ret =>
          Unrecognized token :: parse_statement_events fuel' false ret tk
        end
      end
    end
  end.

Definition statement_events (fuel : nat) (tk : Tokenizer) : list Event :=
  let (token, tk) := peek 1 tk in
  let ret :=
    ast.mkStatement (tok.start token) (tok.length token) [] [] [] [] [] in
  parse_statement_events fuel true ret tk.

(** The logs of the statements of [parse_all_loop], one per statement. *)
Fixpoint parse_all_events (fuel : nat) (tk : Tokenizer) : list (list Event) :=
  match fuel with
  | O => []
  | S fuel' =>
    match consume_newline_semicolons fuel' tk with
    | None => []
    | Some (token, tk) =>
      if is_end_of_string token then []
      else
        match parse_statement fuel' tk with
        | None => []
        | Some (_, tk') =>
          statement_events fuel' tk :: parse_all_events fuel' tk'
        end
    end
  end.

Definition parseAll_events (text : str) : list (list Event) :=
  parse_all_events (4 * List.length text + 12) (Tokenizer_init text 0).

Definition flush (cur : list tok.Token) : list (list tok.Token) :=
  match cur with
  | [] => []
  | _ :: _ => [cur]
  end.

(** The maximal runs of consecutive unrecognised tokens of a log; [cur] is
    the run that is open when the log starts. *)
Fixpoint runs (evs : list Event) (cur : list tok.Token)
  : list (list tok.Token) :=
  match evs with
  | [] => flush cur
  | Recognized :: evs' => flush cur ++ runs evs' []
  | Unrecognized t :: evs' => runs evs' (cur ++ [t])
  end.

(** The one [UnknownSequence] of a run: from the start of its first token
    to the end of its last, with the first token. *)
Definition sequence_of (run : list tok.Token) : ast.UnknownSequence :=
  let first := hd eos_default run in
  let final := last run eos_default in
  ast.mkUnknownSequence
    (tok.start first)
    (tok.start final + tok.length final - tok.start first)
    first.


(** ** Statement boundaries *)

(** At [p] the text goes on with a statement delimiter: a semicolon, the
    end of the text, or a newline with another newline behind it. *)
Definition statement_end (text : str) (p : Z) : Prop :=
  let t := tok_at text p in
  is_semicolon t = true \/ is_end_of_string t = true \/
  (is_newline t = true /\
   is_newline (tok_at text (pos_after text p)) = true).

(** A statement that starts at a token that is no delimiter and whose span
    ends in front of a delimiter. *)
Definition delimited (text : str) (s : ast.Statement) : Prop :=
  is_boundary (tok_at text (ast.start s)) = false /\
  statement_end text (ast.start s + ast.length s).


(** ** Calls on a tokenizer *)

(** One call on a tokenizer: [consume()], or [peek(k)] for [k = S k_pred],
    which the [assert k > 0] of [peek] admits. *)
Inductive TokenizerCall :=
| CallConsume
| CallPeek (k_pred : nat).

(** The tokenizer after a sequence of calls, results dropped. *)
Fixpoint after_calls (calls : list TokenizerCall) (tk : Tokenizer)
  : Tokenizer :=
  match calls with
  | [] => tk
  | CallConsume :: calls' => after_calls calls' (snd (consume tk))
  | CallPeek k_pred :: calls' => after_calls calls' (snd (peek (S k_pred) tk))
  end.

(** The tokenizer after [n] calls of [consume]. *)
Definition consumed_n (n : nat) (tk : Tokenizer) : Tokenizer :=
  Nat.iter n (fun t => snd (consume t)) tk.

(** Token spans in order, one behind the other, between [lo] and [hi]. *)
Fixpoint tokens_from (lo : Z) (l : list tok.Token) (hi : Z) : Prop :=
  match l with
  | [] => lo <= hi
  | t :: l' =>
    lo <= tok.start t /\ 0 <= tok.length t /\
    tokens_from (tok.start t + tok.length t) l' hi
  end.


(** ** What a token says about the text *)

Definition is_name_char (c : char) : bool := isalnum c || (c =? 95)%N.

Definition is_number_char (c : char) : bool := is_digit c || (c =? 46)%N.

(** A name token spans a maximal identifier and carries the keyword its
    lower-cased text stands for; a number token spans a maximal run of
    digits and dots behind a digit. *)
Definition maximal_run (text : str) (t : tok.Token) : Prop :=
  match t with
  | tok.NameToken s l ty =>
    isalpha (char_at text s) = true /\
    (forall i, s < i < s + l -> is_name_char (char_at text i) = true) /\
    (s + l < len text -> is_name_char (char_at text (s + l)) = false) /\
    ty = dict_get tok.text_to_name_token (lower (slice text s (s + l)))
                  tok.NON_KEYWORD
  | tok.NumberToken s l =>
    is_digit (char_at text s) = true /\
    (forall i, s < i < s + l -> is_number_char (char_at text i) = true) /\
    (s + l < len text -> is_number_char (char_at text (s + l)) = false)
  | _ => True
  end.

(** How a string or comment token ends.  Without its end sequence it runs
    to the end of the text, and the text behind the opening holds no
    closing quote (no [*/]); with it, a string ends in its quote and a block
    comment in [*/]; a line comment holds no newline and stops in front of
    a newline or at the end of the text. *)
Definition ends_properly (text : str) (t : tok.Token) : Prop :=
  match t with
  | tok.SpecialToken s l ty h =>
    match ty with
    | tok.SINGLE_QUOTE_STRING | tok.DOUBLE_QUOTE_STRING =>
      let q := match ty with tok.SINGLE_QUOTE_STRING => 39%N | _ => 34%N end in
      char_at text s = q /\
      if h then 2 <= l /\ char_at text (s + l - 1) = q
      else s + l = len text /\
           forall i, s < i < len text -> char_at text i <> q
    | tok.MULTI_LINE_COMMENT =>
      char_at text s = 47%N /\ char_at text (s + 1) = 42%N /\
      if h then 4 <= l /\ char_at text (s + l - 2) = 42%N /\
                char_at text (s + l - 1) = 47%N
      else s + l = len text /\
           forall i, s + 2 <= i -> i + 1 < len text ->
                     ~ (char_at text i = 42%N /\ char_at text (i + 1) = 47%N)
    | tok.SINGLE_LINE_COMMENT =>
      char_at text s = 45%N /\ char_at text (s + 1) = 45%N /\ 2 <= l /\
      (forall i, s + 2 <= i < s + l -> char_at text i <> 10%N) /\
      (s + l = len text \/ char_at text (s + l) = 10%N)
    | tok.END_OF_STRING => s = len text /\ l = 0
    end
  | _ => True
  end.


(** ** Comments *)

(** The comment tokens of [text] from position [p] on. *)
Definition comments_from (text : str) (p : Z) : list tok.Token :=
  filter is_comment (toks text p (S (Z.to_nat (len text - p)))).

(** [kept parent tk parent' tk']: the comments that left the token stream
    between the two states were appended to the statement, in order. *)
Definition kept (parent : ast.Statement) (tk : Tokenizer)
           (parent' : ast.Statement) (tk' : Tokenizer) : Prop :=
  ast.comments parent' ++ comments_from (text tk') (start_position tk')
  = ast.comments parent ++ comments_from (text tk) (start_position tk).


(** ** formatter.py *)

(** [format_expression] calls itself once for every level of the tree it
    is given, so that the formatter, too, runs on the call stack: as in the
    parser on the stack, [frames] is the number of calls that the stack
    can still take, and a call that finds none raises RecursionError. *)

(** An index of a slice [s[a:b]] of a string of length [n], as Python
    clamps it: a negative index counts from the end. *)
Definition py_bound (n i : Z) : Z :=
  if i <? 0 then Z.max (n + i) 0 else Z.min i n.

(** [s[a:b]] for any integers [a] and [b]. *)
Definition py_slice (s : str) (a b : Z) : str :=
  slice s (py_bound (len s) a) (py_bound (len s) b).

(** [s[i]]; [None] is the IndexError. *)
Definition py_get (s : str) (i : Z) : option char :=
  if (- len s <=? i) && (i <? len s)
  then Some (char_at s (if i <? 0 then len s + i else i))
  else None.

(** [sep.join(l)]. *)
Fixpoint join (sep : str) (l : list str) : str :=
  match l with
  | [] => []
  | [x] => x
  | x :: l' => x ++ sep ++ join sep l'
  end.

(** [text[token.start:token.start + token.length]]. *)
Definition token_text (text : str) (token : tok.Token) : str :=
  py_slice text (tok.start token) (tok.start token + tok.length token).

(** [tok.operator_to_precedence[operator.type]]: a number token has no
    [type] (AttributeError), and the type of a special token is no key
    (KeyError). *)
Definition precedence_of (operator : tok.Token) : Result Z :=
  match operator with
  | tok.NumberToken _ _ => Raise AttributeError
  | _ =>
    match binop_key operator with
    | Some key =>
      match tok.operator_to_precedence key with
      | Some p => Return p
      | None => Raise KeyError
      end
    | None => Raise KeyError
    end
  end.

Fixpoint format_expression (frames : nat) (text : str)
         (expression : ast.Expression) : Result str :=
  match frames with
  | O => Raise RecursionError
  | S frames' =>
    match expression with
    | ast.ValueExpression token => Return (token_text text token)
    | ast.ParenExpression _ expr _ =>
      inner <- format_expression frames' text expr ;;
      Return (of_string "(" ++ inner ++ of_string ")")
    | ast.BinaryExpression left_expression operator right_expression =>
      left <- format_expression frames' text left_expression ;;
      right <- format_expression frames' text right_expression ;;
      let operator_text := token_text text operator in
      p <- precedence_of operator ;;
      if p <=? 2 then Return (left ++ operator_text ++ right)
      else Return (left ++ of_string " " ++ operator_text ++ of_string " "
                        ++ right)
    | ast.PlaceholderExpression placeholder_text => Return placeholder_text
    end
  end.

(** [comment.has_end_sequence]: only a special token has the attribute. *)
Definition has_end_sequence (t : tok.Token) : Result bool :=
  match t with
  | tok.SpecialToken _ _ _ h => Return h
  | _ => Raise AttributeError
  end.

(** [for comment in statement.comments: ...]. *)
Fixpoint format_comments (text : str) (ret : str) (comments : list tok.Token)
  : Result str :=
  match comments with
  | [] => Return ret
  | comment :: rest =>
    let ret := ret ++ token_text text comment in
    h <- has_end_sequence comment ;;
    let ret := if negb h then ret ++ of_string " */" else ret in
    format_comments text (ret ++ [10%N]) rest
  end.

(** [for unknown in statement.unknowns: ...]. *)
Fixpoint format_unknowns (text : str) (ret : str)
         (unknowns : list ast.UnknownSequence) : str :=
  match unknowns with
  | [] => ret
  | unknown :: rest =>
    let ret := ret ++ of_string "-- UNKNOWN SEQUENCE: `" in
    let ret :=
      ret ++ py_slice text (ast.unknown_start unknown)
                      (ast.unknown_start unknown
                       + ast.unknown_length unknown) in
    format_unknowns text (ret ++ of_string "`" ++ [10%N]) rest
  end.

(** The test on the alias of a select field: an unclosed double-quoted
    string. *)
Definition is_unclosed_double_quote (token : tok.Token) : bool :=
  match token with
  | tok.SpecialToken _ _ tok.DOUBLE_QUOTE_STRING false => true
  | _ => false
  end.

(** [for field in select.fields: ...], from the list [fields] so far; in
    this loop and the ones below [frames] are the frames that the calls of
    [format_expression] find. *)
Fixpoint format_select_fields (frames : nat) (text : str)
         (fields : list str) (l : list ast.SelectField)
  : Result (list str) :=
  match l with
  | [] => Return fields
  | field :: rest =>
    field_string <-
      format_expression frames text (ast.select_expression field) ;;
    let field_string :=
      match ast.select_alias_name field with
      | Some token =>
        let field_string :=
          field_string ++ of_string " AS " ++ token_text text token in
        if is_unclosed_double_quote token then field_string ++ [34%N]
        else field_string
      | None => field_string
      end in
    format_select_fields frames text (fields ++ [field_string]) rest
  end.

(** [for idx, select in enumerate(statement.selects): ...], from [idx] on;
    [n] is [len(statement.selects)]. *)
Fixpoint format_selects (frames : nat) (text : str) (n idx : Z)
         (ret : str) (selects : list ast.SelectClause) : Result str :=
  match selects with
  | [] => Return ret
  | select :: rest =>
    let ret := ret ++ of_string "    " in
    fields <-
      format_select_fields frames text [] (ast.select_fields select) ;;
    let ret := ret ++ join (of_string ", ") fields in
    let ret := if idx <? n - 1 then ret ++ of_string "," else ret in
    format_selects frames text n (idx + 1) (ret ++ [10%N]) rest
  end.

(** The text under which a table name is looked up in [seen_tables]: only
    a value expression of a name token is looked up. *)
Definition seen_key (text : str) (table_name : ast.Expression)
  : option str :=
  match table_name with
  | ast.ValueExpression (tok.NameToken _ _ _ as token) =>
    Some (token_text text token)
  | _ => None
  end.

(** [for field in from_.fields: ...]; [seen_tables] is threaded through. *)
Fixpoint format_from_fields (frames : nat) (text : str)
         (seen_tables : list str) (fields : list str)
         (l : list ast.FromField) : Result (list str * list str) :=
  match l with
  | [] => Return (seen_tables, fields)
  | field :: rest =>
    let append seen_tables :=
      field_string <-
        format_expression frames text (ast.table_name field) ;;
      let field_string :=
        match ast.from_alias_name field with
        | Some token =>
          field_string ++ of_string " AS " ++ token_text text token
        | None => field_string
        end in
      format_from_fields frames text seen_tables (fields ++ [field_string])
                         rest in
    match seen_key text (ast.table_name field) with
    | Some name =>
      if existsb (str_eqb name) seen_tables
      then format_from_fields frames text seen_tables fields rest
      else append (name :: seen_tables)
    | None => append seen_tables
    end
  end.

(** [for idx, from_ in enumerate(statement.froms): ...]. *)
Fixpoint format_froms (frames : nat) (text : str) (n idx : Z)
         (seen_tables : list str) (ret : str) (froms : list ast.FromClause)
  : Result str :=
  match froms with
  | [] => Return ret
  | from_ :: rest =>
    let ret := ret ++ of_string "    " in
    r <- format_from_fields frames text seen_tables []
                            (ast.from_fields from_) ;;
    let (seen_tables, fields) := r in
    let ret := ret ++ join (of_string ", ") fields in
    let ret := if idx <? n - 1 then ret ++ of_string "," else ret in
    format_froms frames text n (idx + 1) seen_tables (ret ++ [10%N]) rest
  end.

(** [while ret[last_char].isspace() or ret[last_char] == ',': last_char -= 1];
    the result is the value of [last_char] behind the loop. *)
Fixpoint trim_loop (fuel : nat) (ret : str) (last_char : Z)
  : option (Result Z) :=
  match fuel with
  | O => None
  | S fuel' =>
    match py_get ret last_char with
    | None => Some (Raise IndexError)
    | Some c =>
      if isspace c || (c =? 44)%N then trim_loop fuel' ret (last_char - 1)
      else Some (Return last_char)
    end
  end.

(** The test that puts a where condition in parentheses. *)
Definition binds_looser_than_and (expression : ast.Expression)
  : Result bool :=
  match expression with
  | ast.BinaryExpression _ operator _ =>
    p <- precedence_of operator ;;
    a <- match tok.operator_to_precedence (tok.NameKey tok.AND) with
         | Some a => Return a
         | None => Raise KeyError
         end ;;
    Return (p >? a)
  | _ => Return false
  end.

(** [for idx, where in enumerate(statement.wheres): ...]. *)
Fixpoint format_wheres (frames : nat) (text : str) (idx : Z) (ret : str)
         (wheres : list ast.WhereClause) : Result str :=
  match wheres with
  | [] => Return ret
  | where_ :: rest =>
    let ret :=
      if idx =? 0 then ret ++ of_string "WHERE "
      else ret ++ of_string "AND " in
    parens <- binds_looser_than_and (ast.where_expression where_) ;;
    inner <- format_expression frames text (ast.where_expression where_) ;;
    let ret :=
      if parens then ret ++ of_string "(" ++ inner ++ of_string ")"
      else ret ++ inner in
    format_wheres frames text (idx + 1) (ret ++ [10%N]) rest
  end.

(** What [format_statement] puts in front of the select clauses: [SELECT],
    or [SELECT *] for a statement that has from clauses only, or nothing. *)
Definition select_header (statement : ast.Statement) : str :=
  match ast.selects statement with
  | [] =>
    match ast.froms statement with
    | [] => []
    | _ :: _ => of_string "SELECT *" ++ [10%N]
    end
  | _ :: _ => of_string "SELECT" ++ [10%N]
  end.

Definition from_header (statement : ast.Statement) : str :=
  match ast.froms statement with
  | [] => []
  | _ :: _ => of_string "FROM" ++ [10%N]
  end.

(** [format_statement] up to the loop that trims [ret]. *)
Definition format_clauses (frames : nat) (text : str)
           (statement : ast.Statement) : Result str :=
  ret <- format_comments text [] (ast.comments statement) ;;
  let ret := format_unknowns text ret (ast.unknowns statement) in
  let ret := ret ++ select_header statement in
  ret <- format_selects frames text
                        (Z.of_nat (List.length (ast.selects statement)))
                        0 ret (ast.selects statement) ;;
  let ret := ret ++ from_header statement in
  format_froms frames text (Z.of_nat (List.length (ast.froms statement))) 0
               [] ret (ast.froms statement).

(** [Formatter().format_statement(text, statement)], called where the
    stack can take [frames] more calls; [None] only if the trimming loop
    had too little fuel, which [len(ret) + 1] never is. *)
Definition format_statement (frames : nat) (text : str)
           (statement : ast.Statement) : option (Result str) :=
  match frames with
  | O => Some (Raise RecursionError)
  | S frames' =>
    match format_clauses frames' text statement with
    | Raise e => Some (Raise e)
    | Return ret =>
      match trim_loop (S (List.length ret)) ret (-1) with
      | None => None
      | Some (Raise e) => Some (Raise e)
      | Some (Return last_char) =>
        let ret := py_slice ret 0 (last_char + 1) ++ [10%N] in
        Some (format_wheres frames' text 0 ret (ast.wheres statement))
      end
    end
  end.

(** What the trimming loop steps over: white space and commas. *)
Definition is_trimmed (c : char) : bool := isspace c || (c =? 44)%N.

(** A statement that holds where clauses at most. *)
Definition where_only (s : ast.Statement) : bool :=
  match ast.comments s, ast.unknowns s, ast.selects s, ast.froms s with
  | [], [], [], [] => true
  | _, _, _, _ => false
  end.

(** The levels of an expression tree: the calls that a function nests
    which calls itself on the parts of the tree it is given. *)
Fixpoint depth (e : ast.Expression) : nat :=
  match e with
  | ast.ValueExpression _ => 1
  | ast.ParenExpression _ inner _ => S (depth inner)
  | ast.BinaryExpression l _ r => S (Nat.max (depth l) (depth r))
  | ast.PlaceholderExpression _ => 1
  end.

(** The levels of the deepest expression of a statement. *)
Definition statement_depth (s : ast.Statement) : nat :=
  list_max (map depth (statement_expressions s)).


(** ** autocomplete.py *)

(** [s.startswith(prefix)]. *)
Fixpoint startswith (s prefix : str) : bool :=
  match prefix, s with
  | [], _ => true
  | p :: prefix', c :: s' => (c =? p)%N && startswith s' prefix'
  | _ :: _, [] => false
  end.

(** [name[:-1]] for a [name] that is not empty and ends in a double
    quote, and [name] otherwise. *)
Definition strip_quote (name : str) : str :=
  match py_get name (-1) with
  | Some c => if (c =? 34)%N then py_slice name 0 (-1) else name
  | None => name
  end.

(** [extract_name_from_token(text, token, cursor)]; without a cursor the
    whole token is read, with one only what is in front of it. *)
Definition extract_name_from_token (text : str) (token : tok.Token)
           (cursor : option Z) : option str :=
  let start := tok.start token in
  let end_ := tok.start token + tok.length token in
  let end_ :=
    match cursor with
    | Some cursor =>
      if (start <=? cursor) && (cursor <=? end_) then Some cursor else None
    | None => Some end_
    end in
  match end_ with
  | None => None
  | Some end_ =>
    match token with
    | tok.NameToken _ _ tok.NON_KEYWORD => Some (py_slice text start end_)
    | tok.SpecialToken _ _ tok.DOUBLE_QUOTE_STRING _ =>
      Some (strip_quote (py_slice text (start + 1) end_))
    | _ => None
    end
  end.

(** The body of [for field in from_.fields] in
    [get_tables_and_aliases]. *)
Fixpoint tables_of_fields (text : str) (ret : list (str * option str))
         (l : list ast.FromField) : list (str * option str) :=
  match l with
  | [] => ret
  | field :: rest =>
    match ast.table_name field with
    | ast.ValueExpression token =>
      match extract_name_from_token text token None with
      | None => tables_of_fields text ret rest
      | Some name =>
        let alias :=
          match ast.from_alias_name field with
          | Some alias_name => extract_name_from_token text alias_name None
          | None => None
          end in
        tables_of_fields text (ret ++ [(name, alias)]) rest
      end
    | _ => tables_of_fields text ret rest
    end
  end.

Definition get_tables_and_aliases (text : str) (statement : ast.Statement)
  : list (str * option str) :=
  fold_left (fun ret from_ => tables_of_fields text ret (ast.from_fields from_))
            (ast.froms statement) [].

(** [predot_name != table_name and predot_name != table_alias]. *)
Definition other_table (predot_name : str) (entry : str * option str)
  : bool :=
  negb (str_eqb predot_name (fst entry)) &&
  match snd entry with
  | Some table_alias => negb (str_eqb predot_name table_alias)
  | None => true
  end.

(** The suggestions for the name [name] typed so far at a value. *)
Definition suggestions (table_to_column : list (str * list str))
           (tables_in_play : list (str * option str))
           (predot_name : option str) (name : str) : list str :=
  match predot_name with
  | Some predot_name =>
    flat_map
      (fun entry =>
         if other_table predot_name entry then []
         else filter (fun column => startswith column name)
                     (dict_get table_to_column (fst entry) []))
      tables_in_play
  | None =>
    flat_map
      (fun entry =>
         match snd entry with
         | Some table_alias =>
           if startswith table_alias name then [table_alias] else []
         | None => []
         end)
      tables_in_play
    ++ filter (fun column => startswith column name)
              (flat_map (fun entry => dict_get table_to_column (fst entry) [])
                        tables_in_play)
  end.

Fixpoint suggest_in_expression (table_to_column : list (str * list str))
         (text : str) (cursor : Z) (expression : ast.Expression)
         (tables_in_play : list (str * option str))
         (predot_name : option str) : option (list str) :=
  match expression with
  | ast.ValueExpression token =>
    match extract_name_from_token text token (Some cursor) with
    | None => None
    | Some name =>
      Some (suggestions table_to_column tables_in_play predot_name name)
    end
  | ast.ParenExpression _ expr _ =>
    suggest_in_expression table_to_column text cursor expr tables_in_play
                          None
  | ast.BinaryExpression left_expression op right_expression =>
    match suggest_in_expression table_to_column text cursor left_expression
                                tables_in_play None with
    | Some suggestion => Some suggestion
    | None =>
      let predot_name :=
        if is_dot op then
          match left_expression with
          | ast.ValueExpression token =>
            extract_name_from_token text token None
          | _ => None
          end
        else None in
      suggest_in_expression table_to_column text cursor right_expression
                            tables_in_play predot_name
    end
  | ast.PlaceholderExpression _ => None
  end.

Definition suggest_in_from (table_to_column : list (str * list str))
           (text : str) (cursor : Z) (table_name : ast.Expression)
  : option (list str) :=
  match table_name with
  | ast.ValueExpression token =>
    match extract_name_from_token text token (Some cursor) with
    | None => None
    | Some name =>
      Some (filter (fun table => startswith table name)
                   (map fst table_to_column))
    end
  | _ => None
  end.

(** A [for] loop that returns the first suggestion that is not [None]. *)
Fixpoint first_suggestion {A : Type} (f : A -> option (list str))
         (l : list A) : option (list str) :=
  match l with
  | [] => None
  | x :: rest =>
    match f x with
    | Some suggestion => Some suggestion
    | None => first_suggestion f rest
    end
  end.

(** The body of [for statement in statements] in [suggest], behind the
    test of the cursor. *)
Definition suggest_in_statement (table_to_column : list (str * list str))
           (text : str) (statement : ast.Statement) (cursor : Z)
  : option (list str) :=
  let tables_in_play := get_tables_and_aliases text statement in
  match
    first_suggestion
      (fun select =>
         first_suggestion
           (fun field =>
              suggest_in_expression table_to_column text cursor
                (ast.select_expression field) tables_in_play None)
           (ast.select_fields select))
      (ast.selects statement)
  with
  | Some suggestion => Some suggestion
  | None =>
    match
      first_suggestion
        (fun from_ =>
           first_suggestion
             (fun field =>
                suggest_in_from table_to_column text cursor
                                (ast.table_name field))
             (ast.from_fields from_))
        (ast.froms statement)
    with
    | Some suggestion => Some suggestion
    | None =>
      first_suggestion
        (fun where_ =>
           suggest_in_expression table_to_column text cursor
             (ast.where_expression where_) tables_in_play None)
        (ast.wheres statement)
    end
  end.

(** [Autocomplete(table_to_column).suggest(text, statements, cursor)]; the
    dict [table_to_column] is written as its item list. *)
Fixpoint suggest (table_to_column : list (str * list str)) (text : str)
         (statements : list ast.Statement) (cursor : Z)
  : option (list str) :=
  match statements with
  | [] => None
  | statement :: rest =>
    if (ast.start statement <=? cursor)
       && (cursor <=? ast.start statement + ast.length statement)
    then
      match suggest_in_statement table_to_column text statement cursor with
      | Some suggestion => Some suggestion
      | None => suggest table_to_column text rest cursor
      end
    else suggest table_to_column text rest cursor
  end.


(** ** autocomplete.py on the call stack *)

(** [suggest_in_expression] calls itself once for every level of the
    expression it is given.  These are the definitions above with the call
    stack in, as for the parser: [frames] is the number of calls that the
    stack can still take, each method that is called takes one of them,
    and a call that finds none raises RecursionError. *)

Definition extract_name_from_token_stack (frames : nat) (text : str)
           (token : tok.Token) (cursor : option Z) : Result (option str) :=
  match frames with
  | O => Raise RecursionError
  | S _ => Return (extract_name_from_token text token cursor)
  end.

(** The loops of [get_tables_and_aliases], in the frame of that method. *)
Fixpoint tables_of_fields_stack (frames : nat) (text : str)
         (ret : list (str * option str)) (l : list ast.FromField)
  : Result (list (str * option str)) :=
  match l with
  | [] => Return ret
  | field :: rest =>
    match ast.table_name field with
    | ast.ValueExpression token =>
      name <- extract_name_from_token_stack frames text token None ;;
      match name with
      | None => tables_of_fields_stack frames text ret rest
      | Some name =>
        alias <-
          match ast.from_alias_name field with
          | Some alias_name =>
            extract_name_from_token_stack frames text alias_name None
          | None => Return None
          end ;;
        tables_of_fields_stack frames text (ret ++ [(name, alias)]) rest
      end
    | _ => tables_of_fields_stack frames text ret rest
    end
  end.

Fixpoint tables_of_froms_stack (frames : nat) (text : str)
         (ret : list (str * option str)) (froms : list ast.FromClause)
  : Result (list (str * option str)) :=
  match froms with
  | [] => Return ret
  | from_ :: rest =>
    ret <- tables_of_fields_stack frames text ret (ast.from_fields from_) ;;
    tables_of_froms_stack frames text ret rest
  end.

Definition get_tables_and_aliases_stack (frames : nat) (text : str)
           (statement : ast.Statement) : Result (list (str * option str)) :=
  match frames with
  | O => Raise RecursionError
  | S frames' => tables_of_froms_stack frames' text [] (ast.froms statement)
  end.

Fixpoint suggest_in_expression_stack (frames : nat)
         (table_to_column : list (str * list str))
         (text : str) (cursor : Z) (expression : ast.Expression)
         (tables_in_play : list (str * option str))
         (predot_name : option str) : Result (option (list str)) :=
  match frames with
  | O => Raise RecursionError
  | S frames' =>
    match expression with
    | ast.ValueExpression token =>
      name <- extract_name_from_token_stack frames' text token
                                            (Some cursor) ;;
      match name with
      | None => Return None
      | Some name =>
        Return (Some (suggestions table_to_column tables_in_play
                                  predot_name name))
      end
    | ast.ParenExpression _ expr _ =>
      suggest_in_expression_stack frames' table_to_column text cursor expr
                                  tables_in_play None
    | ast.BinaryExpression left_expression op right_expression =>
      left <- suggest_in_expression_stack frames' table_to_column text
                cursor left_expression tables_in_play None ;;
      match left with
      | Some suggestion => Return (Some suggestion)
      | None =>
        predot_name <-
          (if is_dot op then
             match left_expression with
             | ast.ValueExpression token =>
               extract_name_from_token_stack frames' text token None
             | _ => Return None
             end
           else Return None) ;;
        suggest_in_expression_stack frames' table_to_column text cursor
                                    right_expression tables_in_play
                                    predot_name
      end
    | ast.PlaceholderExpression _ => Return None
    end
  end.

Definition suggest_in_from_stack (frames : nat)
           (table_to_column : list (str * list str))
           (text : str) (cursor : Z) (table_name : ast.Expression)
  : Result (option (list str)) :=
  match frames with
  | O => Raise RecursionError
  | S frames' =>
    match table_name with
    | ast.ValueExpression token =>
      name <- extract_name_from_token_stack frames' text token
                                            (Some cursor) ;;
      match name with
      | None => Return None
      | Some name =>
        Return (Some (filter (fun table => startswith table name)
                             (map fst table_to_column)))
      end
    | _ => Return None
    end
  end.

(** A [for] loop that returns the first suggestion that is not [None],
    and stops at a call that raises. *)
Fixpoint first_suggestion_stack {A : Type}
         (f : A -> Result (option (list str))) (l : list A)
  : Result (option (list str)) :=
  match l with
  | [] => Return None
  | x :: rest =>
    r <- f x ;;
    match r with
    | Some suggestion => Return (Some suggestion)
    | None => first_suggestion_stack f rest
    end
  end.

(** The body of [for statement in statements] in [suggest], behind the
    test of the cursor, in the frame of [suggest]. *)
Definition suggest_in_statement_stack (frames : nat)
           (table_to_column : list (str * list str))
           (text : str) (statement : ast.Statement) (cursor : Z)
  : Result (option (list str)) :=
  tables_in_play <- get_tables_and_aliases_stack frames text statement ;;
  in_selects <-
    first_suggestion_stack
      (fun select =>
         first_suggestion_stack
           (fun field =>
              suggest_in_expression_stack frames table_to_column text cursor
                (ast.select_expression field) tables_in_play None)
           (ast.select_fields select))
      (ast.selects statement) ;;
  match in_selects with
  | Some suggestion => Return (Some suggestion)
  | None =>
    in_froms <-
      first_suggestion_stack
        (fun from_ =>
           first_suggestion_stack
             (fun field =>
                suggest_in_from_stack frames table_to_column text cursor
                                      (ast.table_name field))
             (ast.from_fields from_))
        (ast.froms statement) ;;
    match in_froms with
    | Some suggestion => Return (Some suggestion)
    | None =>
      first_suggestion_stack
        (fun where_ =>
           suggest_in_expression_stack frames table_to_column text cursor
             (ast.where_expression where_) tables_in_play None)
        (ast.wheres statement)
    end
  end.

Fixpoint suggest_loop_stack (frames : nat)
         (table_to_column : list (str * list str)) (text : str)
         (statements : list ast.Statement) (cursor : Z)
  : Result (option (list str)) :=
  match statements with
  | [] => Return None
  | statement :: rest =>
    if (ast.start statement <=? cursor)
       && (cursor <=? ast.start statement + ast.length statement)
    then
      r <- suggest_in_statement_stack frames table_to_column text statement
                                      cursor ;;
      match r with
      | Some suggestion => Return (Some suggestion)
      | None => suggest_loop_stack frames table_to_column text rest cursor
      end
    else suggest_loop_stack frames table_to_column text rest cursor
  end.

(** [Autocomplete(table_to_column).suggest(text, statements, cursor)],
    called where the stack can take [frames] more calls. *)
Definition suggest_stack (frames : nat)
           (table_to_column : list (str * list str)) (text : str)
           (statements : list ast.Statement) (cursor : Z)
  : Result (option (list str)) :=
  match frames with
  | O => Raise RecursionError
  | S frames' =>
    suggest_loop_stack frames' table_to_column text statements cursor
  end.

(** The levels of the deepest expression of the statements whose span
    holds the cursor: the others are passed over. *)
Definition statements_depth (statements : list ast.Statement) (cursor : Z)
  : nat :=
  list_max
    (map statement_depth
         (filter (fun statement =>
                    (ast.start statement <=? cursor)
                    && (cursor <=? ast.start statement
                                   + ast.length statement))
                 statements)).


(** The value tokens of an expression, left to right. *)
Fixpoint leaves (e : ast.Expression) : list tok.Token :=
  match e with
  | ast.ValueExpression token => [token]
  | ast.ParenExpression _ inner _ => leaves inner
  | ast.BinaryExpression l _ r => leaves l ++ leaves r
  | ast.PlaceholderExpression _ => []
  end.

(** A name that autocomplete may offer: a table or a column of
    [table_to_column], or an alias of a table of the statement. *)
Definition known_name (table_to_column : list (str * list str))
           (tables_in_play : list (str * option str)) (x : str) : Prop :=
  In x (map fst table_to_column) \/
  (exists columns, In columns (map snd table_to_column) /\ In x columns) \/
  (exists table, In (table, Some x) tables_in_play).


(** ** Where the tokens of a statement lie *)

(** Every token of an expression, as the tree is read from left to right:
    values, operators and parentheses. *)
Fixpoint expression_tokens (e : ast.Expression) : list tok.Token :=
  match e with
  | ast.ValueExpression token => [token]
  | ast.ParenExpression left_paren inner right_paren =>
    left_paren :: expression_tokens inner
    ++ match right_paren with
       | Some token => [token]
       | None => []
       end
  | ast.BinaryExpression l operator r =>
    expression_tokens l ++ operator :: expression_tokens r
  | ast.PlaceholderExpression _ => []
  end.

Definition alias_tokens (alias_name : option tok.Token) : list tok.Token :=
  match alias_name with
  | Some token => [token]
  | None => []
  end.

Definition select_field_tokens (f : ast.SelectField) : list tok.Token :=
  expression_tokens (ast.select_expression f)
  ++ alias_tokens (ast.select_alias_name f).

Definition from_field_tokens (f : ast.FromField) : list tok.Token :=
  expression_tokens (ast.table_name f)
  ++ alias_tokens (ast.from_alias_name f).

(** The tokens of the select clauses of a statement, clause after clause
    and field after field; likewise for its from and where clauses. *)
Definition select_tokens (s : ast.Statement) : list tok.Token :=
  flat_map (fun c => flat_map select_field_tokens (ast.select_fields c))
           (ast.selects s).

Definition from_tokens (s : ast.Statement) : list tok.Token :=
  flat_map (fun c => flat_map from_field_tokens (ast.from_fields c))
           (ast.froms s).

Definition where_tokens (s : ast.Statement) : list tok.Token :=
  flat_map (fun c => expression_tokens (ast.where_expression c))
           (ast.wheres s).

Definition unknown_within (lo hi : Z) (u : ast.UnknownSequence) : Prop :=
  lo <= ast.unknown_start u /\ 0 <= ast.unknown_length u /\
  ast.unknown_start u + ast.unknown_length u <= hi.

(** Between [lo] and [hi] lie, each list in source order with one token
    behind the other: the comments of the statement, the tokens of its
    select clauses, of its from clauses and of its where clauses; and
    there lie its unknown sequences. *)
Definition statement_within (lo hi : Z) (s : ast.Statement) : Prop :=
  tokens_from lo (ast.comments s) hi /\
  tokens_from lo (select_tokens s) hi /\
  tokens_from lo (from_tokens s) hi /\
  tokens_from lo (where_tokens s) hi /\
  Forall (unknown_within lo hi) (ast.unknowns s).

(** [grown parent tk parent' tk']: the comments of [parent'] are those of
    [parent] and, behind them, comments that lie in source order between
    the positions of [tk] and [tk']. *)
Definition grown (parent : ast.Statement) (tk : Tokenizer)
           (parent' : ast.Statement) (tk' : Tokenizer) : Prop :=
  exists extra,
    ast.comments parent' = ast.comments parent ++ extra /\
    tokens_from (start_position tk) extra (start_position tk').

(** A statement that holds something. *)
Definition populated (s : ast.Statement) : Prop :=
  ast.comments s <> [] \/ ast.unknowns s <> [] \/ ast.selects s <> [] \/
  ast.froms s <> [] \/ ast.wheres s <> [].


(** ** What my_ast.py says its fields hold *)

(** [ValueExpression.token]: only non-keywords, strings, numbers. *)
Definition is_value_token (t : tok.Token) : bool :=
  match t with
  | tok.NameToken _ _ tok.NON_KEYWORD => true
  | tok.NumberToken _ _ => true
  | tok.SpecialToken _ _ tok.SINGLE_QUOTE_STRING _
  | tok.SpecialToken _ _ tok.DOUBLE_QUOTE_STRING _ => true
  | _ => false
  end.

Definition is_left_paren (t : tok.Token) : bool :=
  match t with
  | tok.PunctuationToken _ _ tok.LEFT_PAREN => true
  | _ => false
  end.

Definition is_right_paren (t : tok.Token) : bool :=
  match t with
  | tok.PunctuationToken _ _ tok.RIGHT_PAREN => true
  | _ => false
  end.

(** [BinaryExpression.operator]: a token whose type has a precedence. *)
Definition is_operator (t : tok.Token) : bool :=
  match binop_key t with
  | Some key =>
    match tok.operator_to_precedence key with
    | Some _ => true
    | None => false
    end
  | None => false
  end.

(** An expression whose fields hold what my_ast.py says they hold, whose
    placeholders are the text [1], and in which no placeholder is the left
    operand of an operator. *)
Fixpoint well_formed (e : ast.Expression) : Prop :=
  match e with
  | ast.ValueExpression token => is_value_token token = true
  | ast.ParenExpression left_paren inner right_paren =>
    is_left_paren left_paren = true /\ well_formed inner /\
    match right_paren with
    | Some token => is_right_paren token = true
    | None => True
    end
  | ast.BinaryExpression l operator r =>
    well_formed l /\ ast.is_placeholder l = false /\
    is_operator operator = true /\ well_formed r
  | ast.PlaceholderExpression placeholder_text =>
    placeholder_text = of_string "1"
  end.

(** [SelectField.alias_name] and [FromField.alias_name]: what the test in
    front of [ret.fields.append] lets through, a name that is no keyword or
    a double-quoted string. *)
Definition alias_ok (alias_name : option tok.Token) : Prop :=
  match alias_name with
  | Some token => is_alias token = true
  | None => True
  end.

Definition statement_well_formed (s : ast.Statement) : Prop :=
  Forall (fun c =>
            Forall (fun f => well_formed (ast.select_expression f) /\
                             alias_ok (ast.select_alias_name f))
                   (ast.select_fields c))
         (ast.selects s) /\
  Forall (fun c =>
            Forall (fun f => well_formed (ast.table_name f) /\
                             alias_ok (ast.from_alias_name f))
                   (ast.from_fields c))
         (ast.froms s) /\
  Forall (fun c => well_formed (ast.where_expression c)) (ast.wheres s).


(** The tokens from which [extract_name_from_token] reads a name: names
    that are no keyword, and double-quoted strings. *)
Definition is_nameable (t : tok.Token) : bool :=
  match t with
  | tok.NameToken _ _ tok.NON_KEYWORD => true
  | tok.SpecialToken _ _ tok.DOUBLE_QUOTE_STRING _ => true
  | _ => false
  end.

(** The tokens of a statement at which [suggest] looks: the values of its
    select fields, its table names that are a single value, and the
    values of its where conditions. *)
Definition trigger_tokens (s : ast.Statement) : list tok.Token :=
  flat_map (fun c =>
              flat_map (fun f => leaves (ast.select_expression f))
                       (ast.select_fields c))
           (ast.selects s)
  ++ flat_map (fun c =>
                 flat_map (fun f =>
                             match ast.table_name f with
                             | ast.ValueExpression token => [token]
                             | _ => []
                             end)
                          (ast.from_fields c))
              (ast.froms s)
  ++ flat_map (fun c => leaves (ast.where_expression c)) (ast.wheres s).


(** ** Where the tokens of the tree come from *)

(** A token that the tokenizer finds in [text], at some position. *)
Definition from_text (text : str) (t : tok.Token) : Prop :=
  exists p, 0 <= p <= len text /\ t = tok_at text p.

(** The tokens of the clauses of a statement. *)
Definition statement_tokens (s : ast.Statement) : list tok.Token :=
  select_tokens s ++ from_tokens s ++ where_tokens s.


(** * Properties *)

(** ** Scanning *)

Lemma scan_while_bounds fuel cond text p :
  p <= scan_while fuel cond text p /\
  (p <= len text -> scan_while fuel cond text p <= len text).
Proof.
  revert p; induction fuel as [|fuel IH]; simpl; intros p; [lia|].
  destruct (p <? len text) eqn:E; simpl; [|lia].
  apply Z.ltb_lt in E.
  destruct (cond (char_at text p)); [|lia].
  specialize (IH (p + 1)); lia.
Qed.

Lemma scan_while_all fuel cond text p i :
  p <= i < scan_while fuel cond text p -> cond (char_at text i) = true.
Proof.
  revert p; induction fuel as [|fuel IH]; simpl; intros p H; [lia|].
  destruct (p <? len text) eqn:E; simpl in H; [|lia].
  destruct (cond (char_at text p)) eqn:C; [|lia].
  destruct (Z.eq_dec i p) as [->|]; [assumption|].
  apply (IH (p + 1)); lia.
Qed.

Lemma len_skipn (text : str) p :
  0 <= p <= len text -> len (skipn (Z.to_nat p) text) = len text - p.
Proof.
  unfold len; intros H. rewrite length_skipn. lia.
Qed.

Lemma some_inj {A : Type} (a b : A) : Some a = Some b -> a = b.
Proof. congruence. Qed.

Lemma re_quoted_bounds_aux q s :
  (forall k, re_quoted q s = Some k -> 1 <= k <= len s) /\
  (forall c k, re_quoted q (c :: s) = Some k -> 1 <= k <= len (c :: s)).
Proof.
  induction s as [|c2 s IH].
  - split; intros; [discriminate|].
    simpl in H. unfold len; simpl.
    destruct (c =? q)%N; simpl in H; [apply some_inj in H; lia|discriminate].
  - destruct IH as [IH1 IH2]. split; [apply IH2|].
    intros c k H.
    change (re_quoted q (c :: c2 :: s)) with
      (match (if (c =? 92)%N && (c2 =? q)%N
              then option_map (Z.add 2) (re_quoted q s) else None) with
       | Some r => Some r
       | None =>
         match (if negb (c =? q)%N
                then option_map (Z.add 1) (re_quoted q (c2 :: s))
                else None) with
         | Some r => Some r
         | None => if (c =? q)%N then Some 1 else None
         end
       end) in H.
    assert (L : len (c :: c2 :: s) = len s + 2)
      by (unfold len; simpl List.length; lia).
    assert (L2 : len (c2 :: s) = len s + 1)
      by (unfold len; simpl List.length; lia).
    assert (L0 : 0 <= len s) by (unfold len; lia).
    destruct (re_quoted q s) as [r1|];
      [specialize (IH1 _ eq_refl)|];
      (destruct (re_quoted q (c2 :: s)) as [r2|] eqn:R2;
       [apply IH2 in R2|]);
      destruct ((c =? 92)%N && (c2 =? q)%N); destruct (c =? q)%N;
        cbv beta iota delta [option_map negb] in H;
        try discriminate; apply some_inj in H; lia.
Qed.

Lemma re_quoted_bounds q s k :
  re_quoted q s = Some k -> 1 <= k <= len s.
Proof. apply re_quoted_bounds_aux. Qed.

Lemma re_newline_bounds s k : re_newline s = Some k -> 0 <= k <= len s.
Proof.
  revert k; induction s as [|c s IH]; simpl; intros k; [discriminate|].
  assert (L : len (c :: s) = len s + 1) by (unfold len; simpl List.length; lia).
  assert (L0 : 0 <= len s) by (unfold len; lia).
  destruct (c =? 10)%N; [intros H; apply some_inj in H; lia|].
  destruct (re_newline s) as [r|]; cbv [option_map]; [|discriminate].
  intros H; apply some_inj in H. specialize (IH _ eq_refl). lia.
Qed.

Lemma re_multiline_comment_bounds s k :
  re_multiline_comment s = Some k -> 2 <= k <= len s.
Proof.
  revert k; induction s as [|c s IH]; intros k; [discriminate|].
  assert (L : len (c :: s) = len s + 1) by (unfold len; simpl List.length; lia).
  destruct s as [|c2 s']; [discriminate|].
  assert (L2 : len (c2 :: s') = len s' + 1)
    by (unfold len; simpl List.length; lia).
  assert (L0 : 0 <= len s') by (unfold len; lia).
  change (re_multiline_comment (c :: c2 :: s')) with
    (if (c =? 42)%N && (c2 =? 47)%N then Some 2
     else option_map (Z.add 1) (re_multiline_comment (c2 :: s'))).
  destruct ((c =? 42)%N && (c2 =? 47)%N).
  - intros H; apply some_inj in H. lia.
  - destruct (re_multiline_comment (c2 :: s')) as [r|]; cbv [option_map];
      [|discriminate].
    intros H; apply some_inj in H. specialize (IH _ eq_refl). lia.
Qed.

Lemma run_length_bounds p s : 0 <= run_length p s <= len s.
Proof.
  induction s as [|c s IH]; [unfold len; simpl; lia|].
  assert (L : len (c :: s) = len s + 1) by (unfold len; simpl List.length; lia).
  change (run_length p (c :: s)) with
    (if p c then 1 + run_length p s else 0).
  destruct (p c); lia.
Qed.

Lemma re_operator_bounds s k : re_operator s = Some k -> 1 <= k <= len s.
Proof.
  unfold re_operator. pose proof (run_length_bounds operator_class s).
  destruct (0 <? run_length operator_class s) eqn:E; [|discriminate].
  apply Z.ltb_lt in E. intros H0; apply some_inj in H0. lia.
Qed.

(** ** One scan step *)

Lemma search_next_spec text p t p' :
  0 <= p <= len text -> _search_next text p = (t, p') ->
  p <= tok.start t /\ p' = tok.start t + tok.length t /\ p' <= len text /\
  (if is_end_of_string t then tok.length t = 0 /\ tok.start t = len text
   else 1 <= tok.length t) /\
  (forall i, p <= i < tok.start t ->
             isspace (char_at text i) = true /\ char_at text i <> 10%N).
Proof.
  intros Hp. unfold _search_next.
  set (ws := fun c : char => isspace c && negb (c =? 10)%N).
  pose proof (scan_while_bounds (List.length text) ws text p) as [B1 B2].
  specialize (B2 (proj2 Hp)).
  assert (G : forall i, p <= i < scan_while (List.length text) ws text p ->
                isspace (char_at text i) = true /\ char_at text i <> 10%N).
  { intros i Hi. apply scan_while_all in Hi. unfold ws in Hi.
    apply andb_true_iff in Hi as [Hi1 Hi2]. split; [assumption|].
    apply negb_true_iff, N.eqb_neq in Hi2. assumption. }
  set (q := scan_while (List.length text) ws text p) in *.
  destruct (len text <=? q) eqn:E.
  { intros H; inversion H; subst; simpl. repeat split; try lia; apply G; lia. }
  apply Z.leb_gt in E.
  destruct (isalpha (char_at text q)).
  { pose proof (scan_while_bounds (List.length text)
                  (fun c => isalnum c || (c =? 95)%N) text (q + 1)) as [C1 C2].
    intros H; inversion H; subst; simpl.
    repeat split; try lia; apply G; lia. }
  destruct (is_digit (char_at text q)).
  { pose proof (scan_while_bounds (List.length text)
                  (fun c => is_digit c || (c =? 46)%N) text (q + 1)) as [C1 C2].
    intros H; inversion H; subst; simpl.
    repeat split; try lia; apply G; lia. }
  assert (S : forall quote ty, ty <> tok.END_OF_STRING ->
            search_string text q quote ty = (t, p') ->
            p <= tok.start t /\ p' = tok.start t + tok.length t /\
            p' <= len text /\
            (if is_end_of_string t
             then tok.length t = 0 /\ tok.start t = len text
             else 1 <= tok.length t) /\
            (forall i, p <= i < tok.start t ->
                       isspace (char_at text i) = true /\
                       char_at text i <> 10%N)).
  { intros quote ty Hty. unfold search_string.
    destruct (re_quoted quote (skipn (Z.to_nat (q + 1)) text)) as [k|] eqn:R.
    - apply re_quoted_bounds in R. rewrite len_skipn in R by lia.
      intros H; inversion H; subst; simpl.
      destruct ty; try congruence; repeat split; try lia; apply G; lia.
    - intros H; inversion H; subst; simpl.
      destruct ty; try congruence; repeat split; try lia; apply G; lia. }
  destruct (char_at text q =? 34)%N; [apply S; discriminate|].
  destruct (char_at text q =? 39)%N; [apply S; discriminate|].
  clear S.
  destruct (search_comment text q) as [r|] eqn:C.
  { unfold search_comment in C.
    destruct (q + 1 <? len text) eqn:E2; [|discriminate].
    apply Z.ltb_lt in E2.
    destruct (str_eqb (slice text q (q + 2)) (of_string "--")).
    - destruct (re_newline (skipn (Z.to_nat (q + 2)) text)) as [k|] eqn:R.
      + apply re_newline_bounds in R. rewrite len_skipn in R by lia.
        apply some_inj in C. subst r.
        intros H; inversion H; subst; simpl.
        repeat split; try lia; apply G; lia.
      + apply some_inj in C. subst r.
        intros H; inversion H; subst; simpl.
        repeat split; try lia; apply G; lia.
    - destruct (str_eqb (slice text q (q + 2)) (of_string "/*"));
        [|discriminate].
      destruct (re_multiline_comment (skipn (Z.to_nat (q + 2)) text))
        as [k|] eqn:R.
      + apply re_multiline_comment_bounds in R.
        rewrite len_skipn in R by lia.
        apply some_inj in C. subst r.
        intros H; inversion H; subst; simpl.
        repeat split; try lia; apply G; lia.
      + apply some_inj in C. subst r.
        intros H; inversion H; subst; simpl.
        repeat split; try lia; apply G; lia. }
  unfold search_punctuation.
  destruct (dict_get tok.text_to_non_operators [char_at text q] None).
  { intros H; inversion H; subst; simpl.
    repeat split; try lia; apply G; lia. }
  destruct (re_operator (skipn (Z.to_nat q) text)) as [k|] eqn:R;
    cbv [option_map].
  - apply re_operator_bounds in R. rewrite len_skipn in R by lia.
    intros H; inversion H; subst; simpl.
    repeat split; try lia; apply G; lia.
  - intros H; inversion H; subst; simpl.
    repeat split; try lia; apply G; lia.
Qed.


Lemma scan_while_exit fuel cond text p :
  (Z.to_nat (len text - p) <= fuel)%nat ->
  let q := scan_while fuel cond text p in
  len text <= q \/ cond (char_at text q) = false.
Proof.
  revert p; induction fuel as [|fuel IH]; simpl; intros p Hf.
  - left. lia.
  - destruct (p <? len text) eqn:E; simpl.
    + apply Z.ltb_lt in E.
      destruct (cond (char_at text p)) eqn:C; [|right; exact C].
      apply IH. lia.
    + apply Z.ltb_ge in E. left; lia.
Qed.

Lemma scan_while_stay fuel cond text q :
  len text <= q \/ cond (char_at text q) = false ->
  scan_while fuel cond text q = q.
Proof.
  destruct fuel as [|fuel]; simpl; intros H; [reflexivity|].
  destruct (q <? len text) eqn:E; simpl; [|reflexivity].
  apply Z.ltb_lt in E. destruct H as [H|H]; [lia|]. rewrite H. reflexivity.
Qed.

(** The token found from [p] starts where the white space behind [p]
    ends, and scanning again from there finds the same token. *)
Lemma search_comment_start text q r :
  search_comment text q = Some r -> tok.start (fst r) = q.
Proof.
  unfold search_comment.
  repeat match goal with
         | |- context [if ?b then _ else _] => destruct b
         | |- context [match ?x with _ => _ end] => destruct x
         end; intros H; try discriminate;
    apply some_inj in H; subst r; reflexivity.
Qed.

Lemma search_next_start text p :
  tok.start (fst (_search_next text p)) =
    scan_while (List.length text) (fun c => isspace c && negb (c =? 10)%N)
               text p.
Proof.
  unfold _search_next.
  set (q := scan_while _ _ text p).
  destruct (len text <=? q); [reflexivity|].
  destruct (isalpha (char_at text q)); [reflexivity|].
  destruct (is_digit (char_at text q)); [reflexivity|].
  unfold search_string.
  destruct (char_at text q =? 34)%N;
    [destruct (re_quoted _ _); reflexivity|].
  destruct (char_at text q =? 39)%N;
    [destruct (re_quoted _ _); reflexivity|].
  destruct (search_comment text q) as [r|] eqn:C;
    [apply search_comment_start in C; exact C|].
  unfold search_punctuation.
  destruct (dict_get _ _ _); [reflexivity|].
  destruct (re_operator _); reflexivity.
Qed.

Lemma search_next_idem text p :
  0 <= p ->
  _search_next text
    (scan_while (List.length text) (fun c => isspace c && negb (c =? 10)%N)
                text p)
  = _search_next text p.
Proof.
  intros Hp. unfold _search_next at 1.
  rewrite scan_while_stay; [reflexivity|].
  apply scan_while_exit. unfold len. lia.
Qed.

Lemma tok_at_start text p :
  0 <= p <= len text ->
  tok_at text (tok.start (tok_at text p)) = tok_at text p.
Proof.
  intros Hp. unfold tok_at. rewrite search_next_start, search_next_idem by lia.
  reflexivity.
Qed.

(** ** The tokenizer's [peek] and [consume] *)

Lemma tok_at_spec text p :
  0 <= p <= len text ->
  p <= tok.start (tok_at text p) /\
  pos_after text p = tok.start (tok_at text p) + tok.length (tok_at text p) /\
  p <= pos_after text p <= len text /\
  (is_end_of_string (tok_at text p) = false -> p < pos_after text p).
Proof.
  intros Hp. unfold tok_at, pos_after.
  destruct (_search_next text p) as [t p'] eqn:E.
  destruct (search_next_spec text p t p' Hp E) as (A & B & C & D & _).
  simpl. destruct (is_end_of_string t); repeat split; try lia; discriminate.
Qed.

Lemma tok_at_length text p :
  0 <= p <= len text ->
  0 <= tok.length (tok_at text p) /\
  (is_end_of_string (tok_at text p) = false ->
   1 <= tok.length (tok_at text p)).
Proof.
  intros Hp. unfold tok_at.
  destruct (_search_next text p) as [t p'] eqn:E.
  destruct (search_next_spec text p t p' Hp E) as (A & B & C & D & _).
  simpl. destruct (is_end_of_string t); split; try lia; discriminate.
Qed.

Lemma pos_iter_bounds text n : forall p,
  0 <= p <= len text -> p <= pos_iter text p n <= len text.
Proof.
  induction n as [|n IH]; simpl; intros p Hp; [lia|].
  pose proof (tok_at_spec text p Hp) as (_ & _ & B & _).
  specialize (IH (pos_after text p)). lia.
Qed.

Lemma pos_iter_S text n p :
  pos_iter text p (S n) = pos_after text (pos_iter text p n).
Proof. revert p; induction n as [|n IH]; intros p; simpl in *; auto. Qed.

Lemma toks_snoc text n : forall p,
  toks text p (S n) = toks text p n ++ [tok_at text (pos_iter text p n)].
Proof.
  induction n as [|n IH]; intros p; [reflexivity|].
  change (toks text p (S (S n))) with
    (tok_at text p :: toks text (pos_after text p) (S n)).
  rewrite IH. reflexivity.
Qed.

Lemma length_toks text n : forall p, List.length (toks text p n) = n.
Proof. induction n; simpl; intros; auto. Qed.

Lemma nth_toks text d : forall m i p,
  (i < m)%nat -> nth i (toks text p m) d = tok_at text (pos_iter text p i).
Proof.
  induction m as [|m IH]; intros i p Hi; [lia|].
  destruct i as [|i]; simpl; [reflexivity|]. apply IH. lia.
Qed.

Lemma last_toks_end text n p :
  0 <= p <= len text ->
  let l := last (toks text p (S n)) eos_default in
  tok.start l + tok.length l = pos_iter text p (S n).
Proof.
  intros Hp. rewrite toks_snoc, last_last. cbv zeta.
  rewrite pos_iter_S.
  pose proof (pos_iter_bounds text n p Hp) as B.
  pose proof (tok_at_spec text (pos_iter text p n)) as (_ & E & _); [lia|].
  symmetry; exact E.
Qed.

Lemma peek_fill_toks text p : forall n m,
  peek_fill n text (pos_iter text p m) (toks text p m) = toks text p (m + n).
Proof.
  induction n as [|n IH]; intros m; simpl.
  - rewrite Nat.add_0_r. reflexivity.
  - destruct (_search_next text (pos_iter text p m)) as [t p'] eqn:E.
    assert (Et : t = tok_at text (pos_iter text p m))
      by (unfold tok_at; rewrite E; reflexivity).
    assert (Ep : p' = pos_iter text p (S m))
      by (rewrite pos_iter_S; unfold pos_after; rewrite E; reflexivity).
    subst t p'. rewrite <- toks_snoc, IH. f_equal. lia.
Qed.

Lemma peek_eq k tk n :
  0 <= start_position tk <= len (text tk) ->
  peek_queue tk = toks (text tk) (start_position tk) n ->
  peek k tk =
    (nth (k - 1) (toks (text tk) (start_position tk) (n + (k - n)))
         eos_default,
     mkTokenizer (text tk) (start_position tk)
                 (toks (text tk) (start_position tk) (n + (k - n)))
                 (end_idx_of_last_consumed_token tk)).
Proof.
  intros Hp Hq. unfold peek. rewrite Hq, length_toks.
  destruct n as [|n].
  - pose proof (peek_fill_toks (text tk) (start_position tk) (k - 0) 0) as F.
    cbn [toks pos_iter] in F. cbn [toks List.length]. rewrite F.
    reflexivity.
  - rewrite (last_toks_end (text tk) n (start_position tk) Hp).
    assert (E : forall A (x : A) y,
                match toks (text tk) (start_position tk) (S n) with
                | [] => x
                | _ :: _ => y
                end = y) by reflexivity.
    rewrite E, peek_fill_toks. reflexivity.
Qed.

Lemma peek_spec k tk :
  wf tk -> (1 <= k)%nat ->
  exists tk',
    peek k tk =
      (tok_at (text tk) (pos_iter (text tk) (start_position tk) (k - 1)), tk')
    /\ wf tk' /\ text tk' = text tk
    /\ start_position tk' = start_position tk
    /\ end_idx_of_last_consumed_token tk' = end_idx_of_last_consumed_token tk.
Proof.
  intros [Hp [n Hq]] Hk. rewrite (peek_eq k tk n Hp Hq).
  rewrite (nth_toks (text tk) eos_default) by lia.
  eexists; split; [reflexivity|]. simpl.
  repeat split; try apply Hp. eexists; reflexivity.
Qed.

Lemma consume_spec tk :
  wf tk ->
  exists tk',
    consume tk = (tok_at (text tk) (start_position tk), tk')
    /\ wf tk' /\ text tk' = text tk
    /\ start_position tk' = pos_after (text tk) (start_position tk)
    /\ end_idx_of_last_consumed_token tk' =
       pos_after (text tk) (start_position tk).
Proof.
  intros [Hp [n Hq]]. unfold consume.
  pose proof (tok_at_spec (text tk) (start_position tk) Hp) as (A & B & C & D).
  destruct n as [|n]; rewrite Hq; cbn [toks].
  - unfold tok_at, pos_after in *.
    destruct (_search_next (text tk) (start_position tk)) as [t p'] eqn:E.
    cbn [fst snd] in *. eexists; split; [reflexivity|].
    unfold wf;
      cbn [text start_position peek_queue end_idx_of_last_consumed_token].
    split; [split; [lia|exists O; reflexivity]|].
    repeat split; lia.
  - rewrite <- B.
    eexists; split; [reflexivity|].
    unfold wf;
      cbn [text start_position peek_queue end_idx_of_last_consumed_token].
    split; [split; [lia|exists n; reflexivity]|].
    repeat split; lia.
Qed.

Lemma adv_refl tk : wf tk -> adv tk tk.
Proof. intros W. unfold adv. repeat split; try apply W; lia. Qed.

Lemma adv_trans a b c : adv a b -> adv b c -> adv a c.
Proof.
  intros (Wb & Tb & Sb & Eb) (Wc & Tc & Sc & Ec). unfold adv.
  pose proof (tok_at_spec (text b) (start_position b) (proj1 Wb))
    as (_ & _ & B & _).
  rewrite Tb in *.
  split; [exact Wc|]. split; [congruence|]. split; [lia|].
  destruct Eb as [[Eb1 Eb2]|[Eb1 Eb2]], Ec as [[Ec1 Ec2]|[Ec1 Ec2]].
  - left; split; congruence.
  - right; split; [assumption|]. rewrite <- Eb1. assumption.
  - right; split; [congruence|]. lia.
  - right; split; [assumption|]. lia.
Qed.

Lemma adv_remaining a b : adv a b -> (remaining b <= remaining a)%nat.
Proof. intros (_ & T & S & _). unfold remaining. rewrite T. lia. Qed.

Lemma frame_refl s : frame s s.
Proof. unfold frame; auto 10. Qed.

Lemma frame_trans a b c : frame a b -> frame b c -> frame a c.
Proof. unfold frame; intuition congruence. Qed.

Lemma frame_add_comment s t : frame s (add_comment s t).
Proof. unfold frame; simpl; auto 10. Qed.

Lemma peek1_adv tk :
  wf tk ->
  exists tk',
    peek 1 tk = (tok_at (text tk) (start_position tk), tk')
    /\ adv tk tk' /\ text tk' = text tk
    /\ start_position tk' = start_position tk
    /\ end_idx_of_last_consumed_token tk' = end_idx_of_last_consumed_token tk.
Proof.
  intros W. destruct (peek_spec 1 tk W (le_n 1)) as (tk' & E & W' & T & S & I).
  exists tk'. simpl in E. repeat split; auto; try apply W'; try lia.
Qed.

Lemma peek2_adv tk :
  wf tk ->
  exists tk',
    peek 2 tk =
      (tok_at (text tk) (pos_after (text tk) (start_position tk)), tk')
    /\ adv tk tk' /\ text tk' = text tk
    /\ start_position tk' = start_position tk
    /\ end_idx_of_last_consumed_token tk' = end_idx_of_last_consumed_token tk.
Proof.
  intros W.
  destruct (peek_spec 2 tk W (Nat.le_succ_diag_r 1))
    as (tk' & E & W' & T & S & I).
  exists tk'. simpl in E. repeat split; auto; try apply W'; try lia.
Qed.

Lemma consume_adv tk :
  wf tk ->
  exists tk',
    consume tk = (tok_at (text tk) (start_position tk), tk')
    /\ adv tk tk' /\ text tk' = text tk
    /\ start_position tk' = pos_after (text tk) (start_position tk)
    /\ end_idx_of_last_consumed_token tk' = start_position tk'
    /\ (is_end_of_string (tok_at (text tk) (start_position tk)) = false ->
        (remaining tk' < remaining tk)%nat).
Proof.
  intros W. destruct (consume_spec tk W) as (tk' & E & W' & T & S & I).
  pose proof (tok_at_spec (text tk) (start_position tk) (proj1 W))
    as (A & B & C & D).
  exists tk'. split; [exact E|]. split; [|repeat split; auto; try lia].
  - unfold adv. repeat split; auto; try apply W'; try lia.
  - intros N. specialize (D N). unfold remaining. rewrite T, S. lia.
Qed.


(** ** [get_next_standard_token] *)

Lemma gnst_post_weaken parent parent0 tk tk0 r :
  adv tk tk0 -> frame parent parent0 ->
  gnst_post parent0 tk0 r -> gnst_post parent tk r.
Proof.
  destruct r as [[token' parent'] tk']. unfold gnst_post.
  intros A F (A' & F' & R). split; [eapply adv_trans; eauto|].
  split; [eapply frame_trans; eauto|]. exact R.
Qed.

Lemma get_next_standard_token_loop_spec fuel :
  forall token parent tk,
    wf tk -> token = tok_at (text tk) (start_position tk) ->
    (remaining tk < fuel)%nat ->
    exists r, get_next_standard_token_loop fuel token parent tk = Some r /\
              gnst_post parent tk r.
Proof.
  induction fuel as [|fuel IH]; intros token parent tk W Et Hf; [lia|].
  assert (SI : forall token1 tk1,
    adv tk tk1 -> token1 = tok_at (text tk1) (start_position tk1) ->
    is_newline token1 = false ->
    exists r,
      (if is_comment token1 then
         let (_, tk2) := consume tk1 in
         let parent_statement := add_comment parent token1 in
         let (token2, tk3) := peek 1 tk2 in
         get_next_standard_token_loop fuel token2 parent_statement tk3
       else Some (token1, parent, tk1)) = Some r /\
      gnst_post parent tk r).
  { intros token1 tk1 A1 E1 N1.
    pose proof (adv_remaining _ _ A1) as R1.
    destruct (is_comment token1) eqn:C1.
    - destruct (consume_adv tk1 (proj1 A1)) as (tk2 & E2 & A2 & T2 & S2 & I2 & P2).
      rewrite E2.
      destruct (peek1_adv tk2 (proj1 A2)) as (tk3 & E3 & A3 & T3 & S3 & I3).
      rewrite E3.
      assert (NE : is_end_of_string token1 = false)
        by (destruct token1 as [| | |? ? []]; simpl in *; congruence).
      rewrite <- E1 in P2. specialize (P2 NE).
      pose proof (adv_remaining _ _ A3) as R3.
      destruct (IH (tok_at (text tk2) (start_position tk2))
                   (add_comment parent token1) tk3 (proj1 A3))
        as (r & Er & Pr); [congruence|lia|].
      exists r; split; [exact Er|].
      eapply gnst_post_weaken; [| |exact Pr].
      + eapply adv_trans; [exact A1|]. eapply adv_trans; eauto.
      + apply frame_add_comment.
    - eexists; split; [reflexivity|]. unfold gnst_post.
      repeat split; auto; try apply A1; try apply frame_refl.
      congruence. }
  cbn [get_next_standard_token_loop].
  destruct (is_newline token) eqn:N.
  - destruct (peek2_adv tk W) as (tk1 & E1 & A1 & T1 & S1 & I1).
    rewrite E1.
    destruct (is_newline (tok_at (text tk)
                            (pos_after (text tk) (start_position tk)))) eqn:N2.
    + eexists; split; [reflexivity|]. unfold gnst_post.
      split; [exact A1|]. split; [apply frame_refl|].
      rewrite T1, S1. split; [exact Et|].
      split; [destruct token as [| |? ? []|]; simpl in *; congruence|].
      intros _; exact N2.
    + destruct (consume_adv tk1 (proj1 A1))
        as (tk2 & E2 & A2 & T2 & S2 & I2 & P2).
      rewrite E2.
      apply SI.
      * eapply adv_trans; eauto.
      * rewrite T2, S2, T1, S1. reflexivity.
      * exact N2.
  - apply SI; auto. apply adv_refl; exact W.
Qed.

Lemma get_next_standard_token_spec fuel parent tk :
  wf tk -> (remaining tk < fuel)%nat ->
  exists r, get_next_standard_token fuel parent tk = Some r /\
            gnst_post parent tk r.
Proof.
  intros W Hf. unfold get_next_standard_token.
  destruct (peek1_adv tk W) as (tk1 & E1 & A1 & T1 & S1 & I1). rewrite E1.
  pose proof (adv_remaining _ _ A1) as R1.
  destruct (get_next_standard_token_loop_spec fuel
              (tok_at (text tk) (start_position tk)) parent tk1 (proj1 A1))
    as (r & Er & Pr); [congruence|lia|].
  exists r; split; [exact Er|].
  eapply gnst_post_weaken; [exact A1|apply frame_refl|exact Pr].
Qed.


(** ** Expressions: every run returns *)

Lemma sub_post_weaken {A B : Type} parent parent0 tk tk0
      (r : A * ast.Statement * Tokenizer) (b : B) :
  adv tk tk0 -> frame parent parent0 ->
  sub_post parent0 tk0 r -> sub_post parent tk (b, snd (fst r), snd r).
Proof.
  unfold sub_post; simpl. intros A0 F0 [A1 F1].
  split; [eapply adv_trans|eapply frame_trans]; eauto.
Qed.

Lemma binop_key_not_eos t k :
  binop_key t = Some k -> is_end_of_string t = false.
Proof. destruct t; simpl; congruence. Qed.

Ltac use_consume tk W :=
  let tk' := fresh "tk" in
  let E := fresh "Ec" in
  destruct (consume_adv tk W) as (tk' & E & ?A & ?T & ?S & ?I & ?P);
  rewrite E.

Ltac use_gnst fuel parent tk W :=
  let r := fresh "r" in
  let E := fresh "Eg" in
  let token := fresh "token" in
  let parent' := fresh "parent" in
  let tk' := fresh "tk" in
  destruct (get_next_standard_token_spec fuel parent tk W)
    as (r & E & ?G); [try lia|];
  [rewrite E; destruct r as [[token parent'] tk'];
   destruct G as (?A & ?F & ?Et & ?Nc & ?Nn)].

Ltac done_post :=
  eexists; split; [reflexivity|];
  split; cbn [fst snd];
  [eauto using adv_trans, adv_refl
  |eauto using frame_trans, frame_refl, frame_add_comment].

Lemma parse_expression_total fuel :
  (forall parent prec tk,
      wf tk -> (4 * remaining tk + 4 <= fuel)%nat ->
      exists r, parse_expression fuel parent prec tk = Some r /\
                sub_post parent tk r) /\
  (forall parent prec e tk,
      wf tk -> (4 * remaining tk + 3 <= fuel)%nat ->
      exists r, parse_expression_loop fuel parent prec e tk = Some r /\
                sub_post parent tk r) /\
  (forall parent tk,
      wf tk -> (4 * remaining tk + 3 <= fuel)%nat ->
      exists r, parse_non_binary_expression fuel parent tk = Some r /\
                sub_post parent tk r) /\
  (forall token parent tk,
      wf tk -> token = tok_at (text tk) (start_position tk) ->
      is_comment token = false ->
      (4 * remaining tk + 2 <= fuel)%nat ->
      exists r, parse_non_binary_try fuel token parent tk = Some r /\
                sub_post parent tk r).
Proof.
  induction fuel as [|fuel (IHe & IHl & IHn & IHt)];
    [repeat split; intros; lia|].
  split; [|split; [|split]].
  - (* parse_expression *)
    intros parent prec tk W Hf. cbn [parse_expression].
    destruct (IHn parent tk W) as ([[e1 parent1] tk1] & E1 & A1 & F1);
      [lia|]. cbn [fst snd] in *. rewrite E1.
    destruct (ast.is_placeholder e1); [done_post|].
    pose proof (adv_remaining _ _ A1).
    destruct (IHl parent1 prec e1 tk1 (proj1 A1))
      as ([[e2 parent2] tk2] & E2 & A2 & F2); [lia|].
    cbn [fst snd] in *. rewrite E2. done_post.
  - (* parse_expression_loop *)
    intros parent prec e tk W Hf. cbn [parse_expression_loop].
    use_gnst fuel parent tk W.
    destruct (binop_key token) as [key|] eqn:K; [|done_post].
    destruct (tok.operator_to_precedence_get key (tok.comma_precedence + 1)
              >? prec); [done_post|].
    pose proof (adv_remaining _ _ A).
    use_consume tk0 (proj1 A).
    rewrite <- Et in P. specialize (P (binop_key_not_eos _ _ K)).
    destruct (IHe parent0
                (tok.operator_to_precedence_get key (tok.comma_precedence + 1)
                 - 1) tk1 (proj1 A0))
      as ([[e2 parent2] tk2] & E2 & A2 & F2); [lia|].
    cbn [fst snd] in *. rewrite E2.
    destruct (ast.is_placeholder e2); [done_post|].
    pose proof (adv_remaining _ _ A2).
    destruct (IHl parent2 prec (ast.BinaryExpression e token e2) tk2
                (proj1 A2))
      as ([[e3 parent3] tk3] & E3 & A3 & F3); [lia|].
    cbn [fst snd] in *. rewrite E3. done_post.
  - (* parse_non_binary_expression *)
    intros parent tk W Hf. cbn [parse_non_binary_expression].
    use_gnst fuel parent tk W.
    pose proof (adv_remaining _ _ A).
    destruct (IHt token parent0 tk0 (proj1 A) Et Nc)
      as ([[lr parent2] tk2] & E2 & A2 & F2); [lia|].
    cbn [fst snd] in *. rewrite E2.
    destruct lr; done_post.
  - (* parse_non_binary_try *)
    intros token parent tk W Et Nc Hf. cbn [parse_non_binary_try].
    destruct token as [s l ty|s l|s l ty|s l ty h].
    + destruct ty; try done_post. use_consume tk W. done_post.
    + use_consume tk W. done_post.
    + destruct ty; try done_post.
      use_consume tk W. rewrite <- Et in P. specialize (P eq_refl).
      destruct (IHe parent tok.comma_precedence tk0 (proj1 A))
        as ([[e2 parent2] tk2] & E2 & A2 & F2); [lia|].
      cbn [fst snd] in *. rewrite E2.
      pose proof (adv_remaining _ _ A2).
      use_gnst fuel parent2 tk2 (proj1 A2).
      destruct token as [| |? ? []|]; try done_post.
      use_consume tk1 (proj1 A0). done_post.
    + destruct ty; try discriminate Nc; try done_post;
        use_consume tk W; done_post.
Qed.


(** ** Clauses: every run returns *)

Lemma parse_fields_loop_total {F : Type}
      (mk : ast.Expression -> option tok.Token -> F) ceiling fuel :
  forall parent fields tk,
    wf tk -> (4 * remaining tk + 5 <= fuel)%nat ->
    exists r, parse_fields_loop mk ceiling fuel parent fields tk = Some r /\
              sub_post parent tk r.
Proof.
  induction fuel as [|fuel IH]; intros parent fields tk W Hf; [lia|].
  cbn [parse_fields_loop].
  destruct (proj1 (parse_expression_total fuel) parent ceiling tk W)
    as ([[e1 parent1] tk1] & E1 & A1 & F1); [lia|].
  cbn [fst snd] in *. rewrite E1.
  pose proof (adv_remaining _ _ A1).
  use_gnst fuel parent1 tk1 (proj1 A1).
  pose proof (adv_remaining _ _ A).
  assert (S1 : exists token' parent' tk',
    (if is_as token then
       let (_, tk) := consume tk0 in
       get_next_standard_token fuel parent0 tk
     else Some (token, parent0, tk0)) = Some (token', parent', tk') /\
    adv tk0 tk' /\ frame parent0 parent' /\
    token' = tok_at (text tk') (start_position tk')).
  { destruct (is_as token).
    - use_consume tk0 (proj1 A). pose proof (adv_remaining _ _ A0).
      use_gnst fuel parent0 tk2 (proj1 A0).
      do 3 eexists; split; [reflexivity|].
      split; [eapply adv_trans; eauto|]. split; assumption.
    - do 3 eexists; split; [reflexivity|].
      split; [apply adv_refl, A|]. split; [apply frame_refl|assumption]. }
  destruct S1 as (token1 & parent2 & tk2 & E2 & A2 & F2 & Et2).
  rewrite E2. clear E2.
  pose proof (adv_remaining _ _ A2).
  assert (S2 : exists fields' token' parent' tk',
    (if is_alias token1 then
       let (_, tk) := consume tk2 in
       match get_next_standard_token fuel parent2 tk with
       | None => None
       | Some (token', parent_statement, tk) =>
         Some (fields ++ [mk e1 (Some token1)], token', parent_statement, tk)
       end
     else Some (fields ++ [mk e1 None], token1, parent2, tk2))
    = Some (fields', token', parent', tk') /\
    adv tk2 tk' /\ frame parent2 parent' /\
    token' = tok_at (text tk') (start_position tk')).
  { destruct (is_alias token1).
    - use_consume tk2 (proj1 A2). pose proof (adv_remaining _ _ A0).
      use_gnst fuel parent2 tk3 (proj1 A0).
      do 4 eexists; split; [reflexivity|].
      split; [eapply adv_trans; eauto|]. split; assumption.
    - do 4 eexists; split; [reflexivity|].
      split; [apply adv_refl, A2|]. split; [apply frame_refl|assumption]. }
  destruct S2 as (fields3 & token3 & parent3 & tk3 & E3 & A3 & F3 & Et3).
  rewrite E3. clear E3.
  pose proof (adv_remaining _ _ A3).
  assert (A03 : adv tk tk3) by eauto using adv_trans.
  assert (F03 : frame parent parent3) by eauto using frame_trans.
  destruct (is_comma token3) eqn:C; [|done_post].
  use_consume tk3 (proj1 A3).
  rewrite <- Et3 in P.
  assert (NE : is_end_of_string token3 = false)
    by (destruct token3; simpl in *; congruence).
  specialize (P NE).
  destruct (IH parent3 fields3 tk4 (proj1 A0))
    as ([[fs parent4] tk5] & E5 & A5 & F5); [lia|].
  cbn [fst snd] in *. rewrite E5. done_post.
Qed.


(** ** Statements: every run returns, with its span *)

Lemma remaining_lt a b :
  text b = text a -> (remaining b < remaining a)%nat ->
  start_position a < start_position b.
Proof. unfold remaining. intros ->. lia. Qed.

Lemma in_statement_adv s0 a b :
  wf a -> in_statement s0 a -> adv a b -> in_statement s0 b.
Proof.
  intros W J (Wb & T & S & E).
  pose proof (tok_at_spec (text a) (start_position a) (proj1 W))
    as (A1 & A2 & A3 & _).
  pose proof (tok_at_length (text a) (start_position a) (proj1 W)) as [L _].
  unfold in_statement in *. rewrite T.
  destruct J as [[J1 J2]|[J1 J2]], E as [[E1 E2]|[E1 E2]].
  - left; lia.
  - left; lia.
  - right. rewrite E1. auto.
  - left; lia.
Qed.

Lemma parse_statement_try_total fuel token ret tk :
  wf tk -> token = tok_at (text tk) (start_position tk) ->
  is_comment token = false ->
  (4 * remaining tk + 1 <= fuel)%nat ->
  exists res ret' tk',
    parse_statement_try fuel token ret tk = Some (res, ret', tk') /\
    adv tk tk' /\ ast.start ret' = ast.start ret /\
    match res with
    | TryDone => (remaining tk' < remaining tk)%nat
    | TryBreak =>
      is_boundary token = true /\
      ast.length ret' = end_idx_of_last_consumed_token tk - ast.start ret
    | TryUnknownTokenException =>
      is_boundary token = false /\ ret' = ret /\ tk' = tk
    end.
Proof.
  intros W Et Nc Hf. unfold parse_statement_try.
  destruct token as [s l ty|s l|s l ty|s l ty h].
  - destruct ty;
      try (do 3 eexists; split; [reflexivity|];
           split; [apply adv_refl, W|]; split; [reflexivity|];
           repeat split; reflexivity).
    + (* SELECT *)
      unfold parse_select. use_consume tk W.
      rewrite <- Et in P. specialize (P eq_refl).
      destruct (parse_fields_loop_total ast.mkSelectField
                  (tok.comma_precedence - 1) fuel ret [] tk0 (proj1 A))
        as ([[fs ret1] tk1] & E1 & A1 & F1); [lia|].
      cbn [fst snd] in *. rewrite E1.
      pose proof (adv_remaining _ _ A1).
      do 3 eexists; split; [reflexivity|].
      split; [eapply adv_trans; eauto|]. split; [apply F1|]. lia.
    + (* FROM *)
      unfold parse_from. use_consume tk W.
      rewrite <- Et in P. specialize (P eq_refl).
      destruct (parse_fields_loop_total ast.mkFromField
                  dot_precedence fuel ret [] tk0 (proj1 A))
        as ([[fs ret1] tk1] & E1 & A1 & F1); [lia|].
      cbn [fst snd] in *. rewrite E1.
      pose proof (adv_remaining _ _ A1).
      do 3 eexists; split; [reflexivity|].
      split; [eapply adv_trans; eauto|]. split; [apply F1|]. lia.
    + (* WHERE *)
      unfold parse_where. use_consume tk W.
      rewrite <- Et in P. specialize (P eq_refl).
      destruct (proj1 (parse_expression_total fuel) ret
                  (tok.comma_precedence - 1) tk0 (proj1 A))
        as ([[e ret1] tk1] & E1 & A1 & F1); [lia|].
      cbn [fst snd] in *. rewrite E1.
      pose proof (adv_remaining _ _ A1).
      do 3 eexists; split; [reflexivity|].
      split; [eapply adv_trans; eauto|]. split; [apply F1|]. lia.
  - do 3 eexists; split; [reflexivity|].
    split; [apply adv_refl, W|]. split; [reflexivity|].
    repeat split; reflexivity.
  - destruct ty;
      try (do 3 eexists; split; [reflexivity|];
           split; [apply adv_refl, W|]; split; [reflexivity|];
           repeat split; reflexivity).
    + (* SEMICOLON *)
      use_consume tk W.
      do 3 eexists; split; [reflexivity|].
      split; [exact A|]. split; [reflexivity|]. split; reflexivity.
    + (* NEWLINE *)
      use_consume tk W. use_consume tk0 (proj1 A).
      do 3 eexists; split; [reflexivity|].
      split; [eapply adv_trans; eauto|]. split; [reflexivity|].
      split; reflexivity.
  - destruct ty; try discriminate Nc;
      do 3 eexists; (split; [reflexivity|]);
      (split; [apply adv_refl, W|]); (split; [reflexivity|]);
      repeat split; reflexivity.
Qed.

Lemma parse_statement_except_total prev token ret :
  (prev = false -> ast.unknowns ret <> []) ->
  exists ret', parse_statement_except prev token ret = Some ret' /\
               ast.start ret' = ast.start ret /\ ast.unknowns ret' <> [].
Proof.
  intros H. unfold parse_statement_except, set_last_unknown_length.
  destruct prev.
  - eexists; split; [reflexivity|]. simpl. split; [reflexivity|].
    intros C. apply app_eq_nil in C. destruct C; discriminate.
  - specialize (H eq_refl).
    destruct (rev (ast.unknowns ret)) as [|x before] eqn:R.
    + apply (f_equal (@rev _)) in R. rewrite rev_involutive in R.
      simpl in R. contradiction.
    + eexists; split; [reflexivity|]. simpl. split; [reflexivity|].
      intros C. apply app_eq_nil in C. destruct C; discriminate.
Qed.

Lemma parse_statement_loop_total fuel :
  forall prev ret tk,
    wf tk -> in_statement (ast.start ret) tk ->
    (prev = false -> ast.unknowns ret <> []) ->
    (4 * remaining tk + 2 <= fuel)%nat ->
    exists ret' tk',
      parse_statement_loop fuel prev ret tk = Some (ret', tk') /\
      adv tk tk' /\ ast.start ret' = ast.start ret /\
      0 <= ast.length ret' /\
      ast.start ret' + ast.length ret' <= start_position tk' /\
      statement_end (text tk) (ast.start ret' + ast.length ret') /\
      (is_boundary (tok_at (text tk) (start_position tk)) = false ->
       start_position tk < start_position tk').
Proof.
  induction fuel as [|fuel IH]; intros prev ret tk W J U Hf; [lia|].
  cbn [parse_statement_loop].
  use_gnst fuel ret tk W.
  pose proof (proj1 (proj2 A)) as Ta.
  pose proof (adv_remaining _ _ A) as R0.
  pose proof (in_statement_adv _ _ _ W J A) as J0.
  destruct F as (F1 & F2 & F3 & F4 & F5 & F6).
  rewrite <- F1 in J0.
  assert (PR : is_boundary (tok_at (text tk) (start_position tk)) = false ->
               is_boundary token = true ->
               start_position tk < start_position tk0).
  { intros B1 B2. destruct A as (_ & T & _ & [[E1 E2]|[E1 E2]]).
    - rewrite Et, T, E1, B1 in B2. discriminate.
    - pose proof (tok_at_spec (text tk) (start_position tk) (proj1 W))
        as (_ & _ & _ & D).
      assert (is_end_of_string (tok_at (text tk) (start_position tk)) = false).
      { unfold is_boundary in B1. apply orb_false_iff in B1. apply B1. }
      specialize (D H). lia. }
  destruct (parse_statement_try_total fuel token parent tk0 (proj1 A) Et Nc)
    as (res & ret2 & tk2 & E2 & A2 & S2 & P2); [lia|].
  rewrite E2.
  pose proof (adv_remaining _ _ A2) as R2.
  destruct res.
  - (* a clause was parsed *)
    pose proof (in_statement_adv _ _ _ (proj1 A) J0 A2) as J2.
    rewrite <- S2 in J2.
    destruct (IH true ret2 tk2 (proj1 A2) J2) as
      (ret3 & tk3 & E3 & A3 & S3 & L3 & H3 & D3 & _); [discriminate|lia|].
    rewrite E3. do 2 eexists; split; [reflexivity|].
    split; [eauto using adv_trans|]. split; [congruence|].
    split; [assumption|]. split; [assumption|].
    split; [rewrite <- Ta, <- (proj1 (proj2 A2)); exact D3|].
    intros _.
    pose proof (remaining_lt tk0 tk2 (proj1 (proj2 A2)) P2).
    destruct A as (_ & _ & ? & _), A3 as (_ & _ & ? & _). lia.
  - (* the statement ends *)
    destruct P2 as [B L]. do 2 eexists; split; [reflexivity|].
    split; [eauto using adv_trans|]. split; [congruence|].
    assert (J1 : end_idx_of_last_consumed_token tk0 = start_position tk0 /\
                 ast.start parent <= start_position tk0).
    { destruct J0 as [J0|[J0 _]]; [exact J0|].
      rewrite <- Et, B in J0. discriminate. }
    destruct A2 as (_ & _ & ? & _).
    split; [lia|]. split; [lia|]. split.
    { replace (ast.start ret2 + ast.length ret2) with (start_position tk0)
        by lia.
      unfold statement_end. rewrite <- Ta, <- Et. cbv zeta.
      unfold is_boundary in B.
      destruct (is_semicolon token); [left; reflexivity|].
      destruct (is_end_of_string token); [right; left; reflexivity|].
      destruct (is_newline token); [|discriminate].
      right; right. split; [reflexivity|]. apply Nn. reflexivity. }
    intros B1. specialize (PR B1 B). lia.
  - (* an unknown token *)
    destruct P2 as (B & -> & ->).
    use_consume tk0 (proj1 A).
    assert (NE : is_end_of_string token = false).
    { unfold is_boundary in B. apply orb_false_iff in B. apply B. }
    rewrite <- Et in P. specialize (P NE).
    destruct (parse_statement_except_total prev token parent)
      as (ret3 & E3 & S3 & U3); [rewrite F6; exact U|].
    rewrite E3.
    pose proof (in_statement_adv _ _ _ (proj1 A) J0 A0) as J3.
    rewrite <- S3 in J3.
    destruct (IH false ret3 tk1 (proj1 A0) J3) as
      (ret4 & tk4 & E4 & A4 & S4 & L4 & H4 & D4 & _); [auto|lia|].
    rewrite E4. do 2 eexists; split; [reflexivity|].
    split; [eauto using adv_trans|]. split; [congruence|].
    split; [assumption|]. split; [assumption|].
    split; [rewrite <- Ta, <- T; exact D4|].
    intros _.
    pose proof (remaining_lt tk0 tk1 T P).
    destruct A as (_ & _ & ? & _), A4 as (_ & _ & ? & _). lia.
Qed.


Lemma consume_newline_semicolons_loop_total fuel :
  forall token tk,
    wf tk -> token = tok_at (text tk) (start_position tk) ->
    (remaining tk < fuel)%nat ->
    exists token' tk',
      consume_newline_semicolons_loop fuel token tk = Some (token', tk') /\
      adv tk tk' /\ token' = tok_at (text tk') (start_position tk') /\
      is_newline token' = false /\ is_semicolon token' = false.
Proof.
  induction fuel as [|fuel IH]; intros token tk W Et Hf; [lia|].
  cbn [consume_newline_semicolons_loop].
  destruct (is_newline token || is_semicolon token) eqn:B.
  - use_consume tk W.
    destruct (peek1_adv tk0 (proj1 A)) as (tk1 & E1 & A1 & T1 & S1 & I1).
    rewrite E1.
    assert (NE : is_end_of_string token = false)
      by (destruct token as [| |? ? []|]; simpl in *; congruence).
    rewrite <- Et in P. specialize (P NE).
    pose proof (adv_remaining _ _ A1).
    destruct (IH (tok_at (text tk0) (start_position tk0)) tk1 (proj1 A1))
      as (token' & tk' & E' & A' & R'); [congruence|lia|].
    rewrite E'. do 2 eexists; split; [reflexivity|].
    split; [eauto using adv_trans|exact R'].
  - apply orb_false_iff in B as [B1 B2].
    do 2 eexists; split; [reflexivity|].
    split; [apply adv_refl, W|]. auto.
Qed.

Lemma consume_newline_semicolons_total fuel tk :
  wf tk -> (remaining tk < fuel)%nat ->
  exists token' tk',
    consume_newline_semicolons fuel tk = Some (token', tk') /\
    adv tk tk' /\ token' = tok_at (text tk') (start_position tk') /\
    is_newline token' = false /\ is_semicolon token' = false.
Proof.
  intros W Hf. unfold consume_newline_semicolons.
  destruct (peek1_adv tk W) as (tk1 & E1 & A1 & T1 & S1 & I1). rewrite E1.
  pose proof (adv_remaining _ _ A1).
  destruct (consume_newline_semicolons_loop_total fuel
              (tok_at (text tk) (start_position tk)) tk1 (proj1 A1))
    as (token' & tk' & E' & A' & R'); [congruence|lia|].
  rewrite E'. do 2 eexists; split; [reflexivity|].
  split; [eauto using adv_trans|exact R'].
Qed.

Lemma parse_statement_total fuel tk :
  wf tk -> is_boundary (tok_at (text tk) (start_position tk)) = false ->
  (4 * remaining tk + 2 <= fuel)%nat ->
  exists s tk',
    parse_statement fuel tk = Some (s, tk') /\ adv tk tk' /\
    start_position tk <= ast.start s /\ 0 <= ast.length s /\
    ast.start s + ast.length s <= start_position tk' /\
    start_position tk < start_position tk' /\
    ast.start s = tok.start (tok_at (text tk) (start_position tk)) /\
    statement_end (text tk) (ast.start s + ast.length s).
Proof.
  intros W B Hf. unfold parse_statement.
  destruct (peek1_adv tk W) as (tk1 & E1 & A1 & T1 & S1 & I1). rewrite E1.
  pose proof (adv_remaining _ _ A1).
  pose proof (tok_at_spec (text tk) (start_position tk) (proj1 W)) as (L & _).
  destruct (parse_statement_loop_total fuel true
              (ast.mkStatement
                 (tok.start (tok_at (text tk) (start_position tk)))
                 (tok.length (tok_at (text tk) (start_position tk)))
                 [] [] [] [] []) tk1 (proj1 A1))
    as (ret' & tk' & E' & A' & S' & L' & H' & D' & P');
    [right; rewrite T1, S1; auto|discriminate|lia|].
  rewrite E'. rewrite T1, S1 in P'. specialize (P' B). cbn in S'.
  rewrite T1 in D'.
  do 2 eexists; split; [reflexivity|].
  split; [eauto using adv_trans|].
  repeat split; try lia; assumption.
Qed.

Lemma spans_from_snoc l : forall lo mid hi s,
  spans_from lo l mid -> mid <= ast.start s -> 0 <= ast.length s ->
  ast.start s + ast.length s <= hi -> spans_from lo (l ++ [s]) hi.
Proof.
  induction l as [|x l IH]; intros lo mid hi s H M L E; simpl in *.
  - lia.
  - destruct H as (H1 & H2 & H3). repeat split; auto. eapply IH; eauto.
Qed.

Lemma spans_from_weaken l : forall lo hi hi',
  spans_from lo l hi -> hi <= hi' -> spans_from lo l hi'.
Proof.
  induction l as [|x l IH]; intros lo hi hi' H M; simpl in *; [lia|].
  destruct H as (H1 & H2 & H3). repeat split; auto. eapply IH; eauto.
Qed.

Lemma parse_all_loop_total fuel :
  forall ret tk lo,
    wf tk -> spans_from lo ret (start_position tk) ->
    Forall (delimited (text tk)) ret ->
    (4 * remaining tk + 3 <= fuel)%nat ->
    exists stmts tk',
      parse_all_loop fuel ret tk = Some (stmts, tk') /\
      spans_from lo stmts (len (text tk)) /\
      Forall (delimited (text tk)) stmts.
Proof.
  induction fuel as [|fuel IH]; intros ret tk lo W Sp Dl Hf; [lia|].
  cbn [parse_all_loop].
  destruct (consume_newline_semicolons_total fuel tk W)
    as (token & tk1 & E1 & A1 & Et & N1 & N2); [lia|].
  rewrite E1.
  pose proof (adv_remaining _ _ A1).
  destruct A1 as (W1 & T1 & S1 & X1).
  destruct (is_end_of_string token) eqn:EOS.
  - do 2 eexists; split; [reflexivity|]. split; [|exact Dl].
    eapply spans_from_weaken; [exact Sp|]. apply W.
  - assert (B : is_boundary (tok_at (text tk1) (start_position tk1)) = false).
    { rewrite <- Et. unfold is_boundary. rewrite N1, N2, EOS. reflexivity. }
    destruct (parse_statement_total fuel tk1 W1 B)
      as (s & tk2 & E2 & A2 & P1 & P2 & P3 & P4 & P5 & P6); [lia|].
    rewrite E2.
    destruct A2 as (W2 & T2 & S2 & X2).
    destruct (IH (ret ++ [s]) tk2 lo W2) as (stmts & tk' & E' & Sp' & Dl').
    + eapply spans_from_snoc; [exact Sp| | |]; lia.
    + rewrite T2, T1. apply Forall_app. split; [exact Dl|].
      constructor; [|constructor]. split; [|rewrite <- T1; exact P6].
      rewrite P5, <- T1, tok_at_start by apply W1. exact B.
    + pose proof (proj1 W2) as B2. unfold remaining in *.
      rewrite T2, T1 in *. lia.
    + rewrite E'. do 2 eexists; split; [reflexivity|].
      rewrite T2, T1 in Sp', Dl'. split; [exact Sp'|exact Dl'].
Qed.

Lemma Tokenizer_init_wf text : wf (Tokenizer_init text 0).
Proof.
  unfold wf, Tokenizer_init; simpl. split; [unfold len; lia|].
  exists O; reflexivity.
Qed.

Lemma parseAll_delimited text :
  exists stmts, parseAll text = Some stmts /\ spans_from 0 stmts (len text) /\
                Forall (delimited text) stmts.
Proof.
  unfold parseAll, parse_all.
  destruct (parse_all_loop_total (4 * List.length text + 12) []
              (Tokenizer_init text 0) 0 (Tokenizer_init_wf text))
    as (stmts & tk' & E & Sp & Dl).
  - simpl. lia.
  - constructor.
  - unfold remaining, Tokenizer_init, len; simpl. lia.
  - rewrite E. exists stmts; split; [reflexivity|]. split; [exact Sp|exact Dl].
Qed.

Lemma parseAll_spans text :
  exists stmts, parseAll text = Some stmts /\ spans_from 0 stmts (len text).
Proof.
  destruct (parseAll_delimited text) as (stmts & E & Sp & _). eauto.
Qed.


(** ** What a returned value looks like *)

Lemma get_next_standard_token_loop_frame fuel :
  forall token parent tk token' parent' tk',
    get_next_standard_token_loop fuel token parent tk
      = Some (token', parent', tk') ->
    frame parent parent'.
Proof.
  induction fuel as [|fuel IH]; intros token parent tk token' parent' tk' H;
    [discriminate|].
  cbn [get_next_standard_token_loop] in H.
  assert (SI : forall token1 tk1,
    (if is_comment token1 then
       let (_, tk2) := consume tk1 in
       let parent_statement := add_comment parent token1 in
       let (token2, tk3) := peek 1 tk2 in
       get_next_standard_token_loop fuel token2 parent_statement tk3
     else Some (token1, parent, tk1)) = Some (token', parent', tk') ->
    frame parent parent').
  { intros token1 tk1 H1. destruct (is_comment token1).
    - destruct (consume tk1) as [? tk2]. destruct (peek 1 tk2) as [token2 tk3].
      apply IH in H1. eapply frame_trans; [apply frame_add_comment|exact H1].
    - inversion H1; subst. apply frame_refl. }
  destruct (is_newline token).
  - destruct (peek 2 tk) as [token2 tk1].
    destruct (is_newline token2).
    + inversion H; subst. apply frame_refl.
    + destruct (consume tk1) as [? tk2]. eapply SI; exact H.
  - eapply SI; exact H.
Qed.

Lemma get_next_standard_token_frame fuel parent tk token' parent' tk' :
  get_next_standard_token fuel parent tk = Some (token', parent', tk') ->
  frame parent parent'.
Proof.
  unfold get_next_standard_token. destruct (peek 1 tk) as [token tk1].
  apply get_next_standard_token_loop_frame.
Qed.

Lemma bounded_mono e : forall c c', bounded e c -> c <= c' -> bounded e c'.
Proof.
  induction e as [t|lp e IH rp|l IHl op r IHr|s]; simpl; intros c c' H L; auto.
  destruct H as (H1 & H2 & H3). repeat split; eauto. lia.
Qed.

Lemma token_precedence_key t key :
  binop_key t = Some key ->
  token_precedence t =
    tok.operator_to_precedence_get key (tok.comma_precedence + 1).
Proof. unfold token_precedence. intros ->. reflexivity. Qed.

Lemma parse_expression_shape fuel :
  (forall parent prec tk e parent' tk',
      parse_expression fuel parent prec tk = Some (e, parent', tk') ->
      frame parent parent' /\ bounded e prec) /\
  (forall parent prec e0 tk e parent' tk',
      parse_expression_loop fuel parent prec e0 tk = Some (e, parent', tk') ->
      bounded e0 prec ->
      frame parent parent' /\ bounded e prec) /\
  (forall parent tk e parent' tk',
      parse_non_binary_expression fuel parent tk = Some (e, parent', tk') ->
      frame parent parent' /\ forall c, bounded e c) /\
  (forall token parent tk r parent' tk',
      parse_non_binary_try fuel token parent tk = Some (r, parent', tk') ->
      frame parent parent' /\
      match r with
      | LeafReturn ret => forall c, bounded ret c
      | LeafUnknownTokenException => True
      end).
Proof.
  induction fuel as [|fuel (IHe & IHl & IHn & IHt)];
    [repeat split; intros; discriminate|].
  split; [|split; [|split]].
  - intros parent prec tk e parent' tk' H. cbn [parse_expression] in H.
    destruct (parse_non_binary_expression fuel parent tk)
      as [[[e1 parent1] tk1]|] eqn:E1; [|discriminate].
    apply IHn in E1 as [F1 B1].
    destruct (ast.is_placeholder e1).
    + inversion H; subst. split; [exact F1|apply B1].
    + apply IHl in H as [F2 B2]; [|apply B1].
      split; [eapply frame_trans; eauto|exact B2].
  - intros parent prec e0 tk e parent' tk' H B0.
    cbn [parse_expression_loop] in H.
    destruct (get_next_standard_token fuel parent tk)
      as [[[binop parent1] tk1]|] eqn:E1; [|discriminate].
    apply get_next_standard_token_frame in E1.
    destruct (binop_key binop) as [key|] eqn:K;
      [|inversion H; subst; split; assumption].
    destruct (tok.operator_to_precedence_get key (tok.comma_precedence + 1)
              >? prec) eqn:G; [inversion H; subst; split; assumption|].
    destruct (consume tk1) as [? tk2].
    destruct (parse_expression fuel parent1
                (tok.operator_to_precedence_get key
                   (tok.comma_precedence + 1) - 1) tk2)
      as [[[e2 parent2] tk3]|] eqn:E2; [|discriminate].
    apply IHe in E2 as [F2 B2].
    assert (B : bounded (ast.BinaryExpression e0 binop e2) prec).
    { simpl. rewrite (token_precedence_key _ _ K).
      repeat split; [lia|assumption|assumption]. }
    destruct (ast.is_placeholder e2).
    + inversion H; subst. split; [eauto using frame_trans|assumption].
    + apply IHl in H as [F3 B3]; [|exact B].
      split; [eauto using frame_trans|exact B3].
  - intros parent tk e parent' tk' H.
    cbn [parse_non_binary_expression] in H.
    destruct (get_next_standard_token fuel parent tk)
      as [[[token parent1] tk1]|] eqn:E1; [|discriminate].
    apply get_next_standard_token_frame in E1.
    destruct (parse_non_binary_try fuel token parent1 tk1)
      as [[[r parent2] tk2]|] eqn:E2; [|discriminate].
    apply IHt in E2 as [F2 B2].
    destruct r; inversion H; subst;
      (split; [eauto using frame_trans|]); [exact B2|intros; exact I].
  - intros token parent tk r parent' tk' H.
    cbn [parse_non_binary_try] in H.
    destruct token as [s l ty|s l|s l ty|s l ty h].
    + destruct ty; try (inversion H; subst; split; [apply frame_refl|exact I]).
      destruct (consume tk) as [? tk1]. inversion H; subst.
      split; [apply frame_refl|intros; exact I].
    + destruct (consume tk) as [? tk1]. inversion H; subst.
      split; [apply frame_refl|intros; exact I].
    + destruct ty; try (inversion H; subst; split; [apply frame_refl|exact I]).
      destruct (consume tk) as [? tk1].
      destruct (parse_expression fuel parent tok.comma_precedence tk1)
        as [[[e2 parent2] tk2]|] eqn:E2; [|discriminate].
      apply IHe in E2 as [F2 B2].
      destruct (get_next_standard_token fuel parent2 tk2)
        as [[[token2 parent3] tk3]|] eqn:E3; [|discriminate].
      apply get_next_standard_token_frame in E3.
      assert (F : frame parent parent3) by eauto using frame_trans.
      destruct token2 as [| |? ? []|];
        try destruct (consume tk3) as [? tk4];
        inversion H; subst; (split; [exact F|intros; exact B2]).
    + destruct ty.
      * destruct (consume tk) as [? tk1]. inversion H; subst.
        split; [apply frame_refl|intros; exact I].
      * destruct (consume tk) as [? tk1]. inversion H; subst.
        split; [apply frame_refl|intros; exact I].
      * destruct (consume tk) as [? tk1]. apply IHt in H as [F B].
        split; [|exact B].
        eapply frame_trans; [apply frame_add_comment|exact F].
      * destruct (consume tk) as [? tk1]. apply IHt in H as [F B].
        split; [|exact B].
        eapply frame_trans; [apply frame_add_comment|exact F].
      * inversion H; subst. split; [apply frame_refl|exact I].
Qed.

Lemma bounded_left_assoc e : forall c, bounded e c -> left_assoc e.
Proof.
  induction e as [t|lp e IH rp|l IHl op r IHr|s]; simpl; intros c H; auto.
  - eapply IH; eauto.
  - destruct H as (H1 & H2 & H3). repeat split; eauto.
    destruct r; auto. simpl in H3. lia.
Qed.


Lemma parse_fields_loop_shape {F : Type}
      (mk : ast.Expression -> option tok.Token -> F) ceiling fuel :
  forall parent fields tk fs parent' tk',
    parse_fields_loop mk ceiling fuel parent fields tk
      = Some (fs, parent', tk') ->
    frame parent parent' /\
    exists new, fs = fields ++ new /\ new <> [] /\
                Forall (fun f => exists e a, f = mk e a /\ bounded e ceiling)
                       new.
Proof.
  induction fuel as [|fuel IH]; intros parent fields tk fs parent' tk' H;
    [discriminate|].
  cbn [parse_fields_loop] in H.
  destruct (parse_expression fuel parent ceiling tk)
    as [[[e1 parent1] tk1]|] eqn:E1; [|discriminate].
  apply (proj1 (parse_expression_shape fuel)) in E1 as [F1 B1].
  destruct (get_next_standard_token fuel parent1 tk1)
    as [[[token parent2] tk2]|] eqn:E2; [|discriminate].
  apply get_next_standard_token_frame in E2.
  destruct (if is_as token
            then let (_, tk) := consume tk2 in
                 get_next_standard_token fuel parent2 tk
            else Some (token, parent2, tk2))
    as [[[token3 parent3] tk3]|] eqn:E3; [|discriminate].
  assert (F3 : frame parent2 parent3).
  { destruct (is_as token).
    - destruct (consume tk2) as [? tk2'].
      apply get_next_standard_token_frame in E3. exact E3.
    - inversion E3; subst. apply frame_refl. }
  clear E3.
  destruct (if is_alias token3
            then let (_, tk) := consume tk3 in
                 match get_next_standard_token fuel parent3 tk with
                 | None => None
                 | Some (token', parent_statement, tk) =>
                   Some (fields ++ [mk e1 (Some token3)], token',
                         parent_statement, tk)
                 end
            else Some (fields ++ [mk e1 None], token3, parent3, tk3))
    as [[[[fields4 token4] parent4] tk4]|] eqn:E4; [|discriminate].
  assert (F4 : frame parent3 parent4 /\
               exists a, fields4 = fields ++ [mk e1 a]).
  { destruct (is_alias token3).
    - destruct (consume tk3) as [? tk3'].
      destruct (get_next_standard_token fuel parent3 tk3')
        as [[[token' parent'0] tk'0]|] eqn:E5; [|discriminate].
      apply get_next_standard_token_frame in E5.
      inversion E4; subst. split; [exact E5|eexists; reflexivity].
    - inversion E4; subst. split; [apply frame_refl|eexists; reflexivity]. }
  clear E4. destruct F4 as [F4 [a Ea]]. subst fields4.
  assert (F04 : frame parent parent4) by eauto using frame_trans.
  assert (N1 : Forall (fun f => exists e a, f = mk e a /\ bounded e ceiling)
                      [mk e1 a]).
  { constructor; [|constructor]. exists e1, a. split; [reflexivity|exact B1]. }
  destruct (is_comma token4).
  - destruct (consume tk4) as [? tk5].
    apply IH in H as [F5 (new & En & Nn & Fn)].
    split; [eauto using frame_trans|].
    exists (mk e1 a :: new). rewrite En, <- app_assoc. simpl.
    split; [reflexivity|]. split; [discriminate|].
    constructor; [inversion N1; assumption|exact Fn].
  - inversion H; subst. split; [exact F04|].
    exists [mk e1 a]. split; [reflexivity|]. split; [discriminate|exact N1].
Qed.

Lemma parse_select_shape fuel parent tk c parent' tk' :
  parse_select fuel parent tk = Some (c, parent', tk') ->
  frame parent parent' /\ select_clause_ok c.
Proof.
  unfold parse_select. destruct (consume tk) as [? tk1].
  destruct (parse_fields_loop ast.mkSelectField (tok.comma_precedence - 1)
              fuel parent [] tk1) as [[[fs parent1] tk2]|] eqn:E;
    [|discriminate].
  apply parse_fields_loop_shape in E as [F (new & En & Nn & Fn)].
  simpl in En. subst fs. intros H; inversion H; subst.
  split; [exact F|]. split; [exact Nn|]. simpl.
  eapply Forall_impl; [|exact Fn].
  intros f (e & a & -> & B). exact B.
Qed.

Lemma parse_from_shape fuel parent tk c parent' tk' :
  parse_from fuel parent tk = Some (c, parent', tk') ->
  frame parent parent' /\ from_clause_ok c.
Proof.
  unfold parse_from. destruct (consume tk) as [? tk1].
  destruct (parse_fields_loop ast.mkFromField dot_precedence
              fuel parent [] tk1) as [[[fs parent1] tk2]|] eqn:E;
    [|discriminate].
  apply parse_fields_loop_shape in E as [F (new & En & Nn & Fn)].
  simpl in En. subst fs. intros H; inversion H; subst.
  split; [exact F|]. split; [exact Nn|]. simpl.
  eapply Forall_impl; [|exact Fn].
  intros f (e & a & -> & B). exact B.
Qed.

Lemma parse_where_shape fuel parent tk c parent' tk' :
  parse_where fuel parent tk = Some (c, parent', tk') ->
  frame parent parent' /\ where_clause_ok c.
Proof.
  unfold parse_where. destruct (consume tk) as [? tk1].
  destruct (parse_expression fuel parent (tok.comma_precedence - 1) tk1)
    as [[[e parent1] tk2]|] eqn:E; [|discriminate].
  apply (proj1 (parse_expression_shape fuel)) in E as [F B].
  intros H; inversion H; subst. split; [exact F|exact B].
Qed.

Lemma parse_statement_try_shape fuel token ret tk res ret' tk' :
  parse_statement_try fuel token ret tk = Some (res, ret', tk') ->
  match res with
  | TryDone =>
    is_boundary token = false /\
    exists ret1, frame ret ret1 /\
      ((exists c, select_clause_ok c /\ ret' = add_select ret1 c) \/
       (exists c, from_clause_ok c /\ ret' = add_from ret1 c) \/
       (exists c, where_clause_ok c /\ ret' = add_where ret1 c))
  | TryBreak =>
    is_boundary token = true /\
    ret' = set_length ret
             (end_idx_of_last_consumed_token tk - ast.start ret)
  | TryUnknownTokenException =>
    is_boundary token = false /\ ret' = ret /\ tk' = tk
  end.
Proof.
  unfold parse_statement_try. intros H.
  destruct token as [s l ty|s l|s l ty|s l ty h].
  - destruct ty; try (inversion H; subst; repeat split; reflexivity).
    + destruct (parse_select fuel ret tk) as [[[c ret1] tk1]|] eqn:E;
        [|discriminate].
      apply parse_select_shape in E as [F C]. inversion H; subst.
      split; [reflexivity|]. exists ret1. split; [exact F|]. eauto.
    + destruct (parse_from fuel ret tk) as [[[c ret1] tk1]|] eqn:E;
        [|discriminate].
      apply parse_from_shape in E as [F C]. inversion H; subst.
      split; [reflexivity|]. exists ret1. split; [exact F|]. eauto.
    + destruct (parse_where fuel ret tk) as [[[c ret1] tk1]|] eqn:E;
        [|discriminate].
      apply parse_where_shape in E as [F C]. inversion H; subst.
      split; [reflexivity|]. exists ret1. split; [exact F|]. eauto 6.
  - inversion H; subst; repeat split; reflexivity.
  - destruct ty; try (inversion H; subst; repeat split; reflexivity).
    + destruct (consume tk) as [? tk1]. inversion H; subst.
      split; reflexivity.
    + destruct (consume tk) as [? tk1]. destruct (consume tk1) as [? tk2].
      inversion H; subst. split; reflexivity.
  - destruct ty; inversion H; subst; repeat split; reflexivity.
Qed.

Lemma statement_ok_frame s s' :
  frame s s' -> statement_ok s -> statement_ok s'.
Proof.
  unfold frame, statement_ok. intros (_ & _ & -> & -> & -> & _). auto.
Qed.

Lemma parse_statement_except_shape prev token ret ret' :
  parse_statement_except prev token ret = Some ret' ->
  ast.start ret' = ast.start ret /\ ast.length ret' = ast.length ret /\
  ast.selects ret' = ast.selects ret /\ ast.froms ret' = ast.froms ret /\
  ast.wheres ret' = ast.wheres ret /\ ast.comments ret' = ast.comments ret.
Proof.
  unfold parse_statement_except. destruct prev.
  - intros H; inversion H; subst. simpl. auto 10.
  - destruct (set_last_unknown_length (ast.unknowns ret) token);
      [|discriminate].
    intros H; inversion H; subst. simpl. auto 10.
Qed.

Lemma parse_statement_loop_ok fuel :
  forall prev ret tk ret' tk',
    parse_statement_loop fuel prev ret tk = Some (ret', tk') ->
    statement_ok ret -> statement_ok ret'.
Proof.
  induction fuel as [|fuel IH]; intros prev ret tk ret' tk' H OK;
    [discriminate|].
  cbn [parse_statement_loop] in H.
  destruct (get_next_standard_token fuel ret tk)
    as [[[token ret1] tk1]|] eqn:E1; [|discriminate].
  apply get_next_standard_token_frame in E1.
  pose proof (statement_ok_frame _ _ E1 OK) as OK1.
  destruct (parse_statement_try fuel token ret1 tk1)
    as [[[res ret2] tk2]|] eqn:E2; [|discriminate].
  apply parse_statement_try_shape in E2.
  destruct res.
  - destruct E2 as (_ & ret3 & F3 & C).
    pose proof (statement_ok_frame _ _ F3 OK1) as (O1 & O2 & O3).
    apply IH in H; [exact H|].
    destruct C as [(c & Cc & ->)|[(c & Cc & ->)|(c & Cc & ->)]];
      unfold statement_ok; simpl; repeat split; auto;
      apply Forall_app; split; auto.
  - destruct E2 as (_ & ->). inversion H; subst. exact OK1.
  - destruct E2 as (_ & -> & ->).
    destruct (consume tk1) as [? tk3].
    destruct (parse_statement_except prev token ret1) as [ret3|] eqn:E3;
      [|discriminate].
    apply parse_statement_except_shape in E3
      as (_ & _ & S1 & S2 & S3 & _).
    apply IH in H; [exact H|].
    destruct OK1 as (O1 & O2 & O3).
    unfold statement_ok. rewrite S1, S2, S3. auto.
Qed.

Lemma parse_statement_ok fuel tk s tk' :
  parse_statement fuel tk = Some (s, tk') -> statement_ok s.
Proof.
  unfold parse_statement. destruct (peek 1 tk) as [token tk1].
  intros H. apply parse_statement_loop_ok in H; [exact H|].
  unfold statement_ok; simpl. auto.
Qed.

Lemma parse_all_loop_ok fuel :
  forall ret tk stmts tk',
    parse_all_loop fuel ret tk = Some (stmts, tk') ->
    Forall statement_ok ret -> Forall statement_ok stmts.
Proof.
  induction fuel as [|fuel IH]; intros ret tk stmts tk' H OK;
    [discriminate|].
  cbn [parse_all_loop] in H.
  destruct (consume_newline_semicolons fuel tk) as [[token tk1]|];
    [|discriminate].
  destruct (is_end_of_string token); [inversion H; subst; exact OK|].
  destruct (parse_statement fuel tk1) as [[s tk2]|] eqn:E; [|discriminate].
  apply parse_statement_ok in E.
  apply IH in H; [exact H|]. apply Forall_app; split; auto.
Qed.

Lemma parseAll_ok text :
  exists stmts, parseAll text = Some stmts /\ Forall statement_ok stmts.
Proof.
  destruct (parseAll_spans text) as (stmts & E & _).
  exists stmts; split; [exact E|].
  unfold parseAll, parse_all in E.
  destruct (parse_all_loop (4 * List.length text + 12) []
                           (Tokenizer_init text 0)) as [[l tk']|] eqn:L;
    [|discriminate].
  simpl in E. apply some_inj in E. subst l.
  eapply parse_all_loop_ok; [exact L|constructor].
Qed.


(** ** More fuel changes nothing *)

Ltac innermost x k :=
  lazymatch x with
  | match ?y with _ => _ end => innermost y k
  | _ => k x
  end.

Ltac mono_crush H :=
  repeat first
    [ discriminate H
    | exact H
    | solve [match goal with IH : _ |- _ => apply IH; exact H end]
    | match type of H with
      | context [match ?x with _ => _ end] =>
        innermost x ltac:(fun y =>
          let E := fresh "E" in
          destruct y eqn:E;
          try (match goal with
               | IH : _ |- _ => apply IH in E; rewrite E
               end))
      end ].

Lemma get_next_standard_token_loop_mono n :
  forall m, (n <= m)%nat ->
  forall token parent tk r,
    get_next_standard_token_loop n token parent tk = Some r ->
    get_next_standard_token_loop m token parent tk = Some r.
Proof.
  induction n as [|n IH]; intros m Hle token parent tk r H; [discriminate|].
  destruct m as [|m]; [lia|].
  assert (Hle' : (n <= m)%nat) by lia. specialize (IH m Hle').
  cbn [get_next_standard_token_loop] in *. mono_crush H.
Qed.

Lemma get_next_standard_token_mono n m :
  (n <= m)%nat ->
  forall parent tk r,
    get_next_standard_token n parent tk = Some r ->
    get_next_standard_token m parent tk = Some r.
Proof.
  intros Hle parent tk r. unfold get_next_standard_token.
  destruct (peek 1 tk). apply get_next_standard_token_loop_mono. exact Hle.
Qed.

Lemma consume_newline_semicolons_loop_mono n :
  forall m, (n <= m)%nat ->
  forall token tk r,
    consume_newline_semicolons_loop n token tk = Some r ->
    consume_newline_semicolons_loop m token tk = Some r.
Proof.
  induction n as [|n IH]; intros m Hle token tk r H; [discriminate|].
  destruct m as [|m]; [lia|].
  assert (Hle' : (n <= m)%nat) by lia. specialize (IH m Hle').
  cbn [consume_newline_semicolons_loop] in *. mono_crush H.
Qed.

Lemma consume_newline_semicolons_mono n m :
  (n <= m)%nat ->
  forall tk r,
    consume_newline_semicolons n tk = Some r ->
    consume_newline_semicolons m tk = Some r.
Proof.
  intros Hle tk r. unfold consume_newline_semicolons.
  destruct (peek 1 tk). apply consume_newline_semicolons_loop_mono. exact Hle.
Qed.

Lemma parse_expression_mono n :
  forall m, (n <= m)%nat ->
  (forall parent prec tk r,
      parse_expression n parent prec tk = Some r ->
      parse_expression m parent prec tk = Some r) /\
  (forall parent prec e tk r,
      parse_expression_loop n parent prec e tk = Some r ->
      parse_expression_loop m parent prec e tk = Some r) /\
  (forall parent tk r,
      parse_non_binary_expression n parent tk = Some r ->
      parse_non_binary_expression m parent tk = Some r) /\
  (forall token parent tk r,
      parse_non_binary_try n token parent tk = Some r ->
      parse_non_binary_try m token parent tk = Some r).
Proof.
  induction n as [|n IH]; intros m Hle;
    [repeat split; intros; discriminate|].
  destruct m as [|m]; [lia|].
  assert (Hle' : (n <= m)%nat) by lia.
  destruct (IH m Hle') as (IHe & IHl & IHn & IHt). clear IH.
  pose proof (get_next_standard_token_mono n m Hle') as IHg.
  split; [|split; [|split]].
  - intros parent prec tk r H. cbn [parse_expression] in *. mono_crush H.
  - intros parent prec e tk r H. cbn [parse_expression_loop] in *.
    mono_crush H.
  - intros parent tk r H. cbn [parse_non_binary_expression] in *.
    mono_crush H.
  - intros token parent tk r H. cbn [parse_non_binary_try] in *.
    mono_crush H.
Qed.

Lemma parse_fields_loop_mono {F : Type}
      (mk : ast.Expression -> option tok.Token -> F) ceiling n :
  forall m, (n <= m)%nat ->
  forall parent fields tk r,
    parse_fields_loop mk ceiling n parent fields tk = Some r ->
    parse_fields_loop mk ceiling m parent fields tk = Some r.
Proof.
  induction n as [|n IH]; intros m Hle parent fields tk r H; [discriminate|].
  destruct m as [|m]; [lia|].
  assert (Hle' : (n <= m)%nat) by lia. specialize (IH m Hle').
  pose proof (get_next_standard_token_mono n m Hle') as IHg.
  pose proof (proj1 (parse_expression_mono n m Hle')) as IHe.
  cbn [parse_fields_loop] in *. mono_crush H.
Qed.

Lemma parse_statement_try_mono n m :
  (n <= m)%nat ->
  forall token ret tk r,
    parse_statement_try n token ret tk = Some r ->
    parse_statement_try m token ret tk = Some r.
Proof.
  intros Hle token ret tk r H.
  pose proof (proj1 (parse_expression_mono n m Hle)) as IHe.
  pose proof (parse_fields_loop_mono ast.mkSelectField
                (tok.comma_precedence - 1) n m Hle) as IHs.
  pose proof (parse_fields_loop_mono ast.mkFromField
                dot_precedence n m Hle) as IHf.
  unfold parse_statement_try, parse_select, parse_from, parse_where in *.
  mono_crush H.
Qed.

Lemma parse_statement_loop_mono n :
  forall m, (n <= m)%nat ->
  forall prev ret tk r,
    parse_statement_loop n prev ret tk = Some r ->
    parse_statement_loop m prev ret tk = Some r.
Proof.
  induction n as [|n IH]; intros m Hle prev ret tk r H; [discriminate|].
  destruct m as [|m]; [lia|].
  assert (Hle' : (n <= m)%nat) by lia. specialize (IH m Hle').
  pose proof (get_next_standard_token_mono n m Hle') as IHg.
  pose proof (parse_statement_try_mono n m Hle') as IHt.
  cbn [parse_statement_loop] in *. mono_crush H.
Qed.

Lemma parse_statement_mono n m :
  (n <= m)%nat ->
  forall tk r,
    parse_statement n tk = Some r -> parse_statement m tk = Some r.
Proof.
  intros Hle tk r. unfold parse_statement.
  destruct (peek 1 tk). apply parse_statement_loop_mono. exact Hle.
Qed.

Lemma parse_all_loop_mono n :
  forall m, (n <= m)%nat ->
  forall ret tk r,
    parse_all_loop n ret tk = Some r -> parse_all_loop m ret tk = Some r.
Proof.
  induction n as [|n IH]; intros m Hle ret tk r H; [discriminate|].
  destruct m as [|m]; [lia|].
  assert (Hle' : (n <= m)%nat) by lia. specialize (IH m Hle').
  pose proof (consume_newline_semicolons_mono n m Hle') as IHc.
  pose proof (parse_statement_mono n m Hle') as IHs.
  cbn [parse_all_loop] in *. mono_crush H.
Qed.

(** With any fuel from [4 * len(text) + 12] on, [parse_all] returns what
    [parseAll] returns. *)
Lemma parse_all_fuel_independent text fuel :
  (4 * List.length text + 12 <= fuel)%nat ->
  parse_all fuel (Tokenizer_init text 0) = parseAll text.
Proof.
  intros Hle. destruct (parseAll_spans text) as (stmts & E & _).
  rewrite E. unfold parseAll, parse_all in *.
  destruct (parse_all_loop (4 * List.length text + 12) []
                           (Tokenizer_init text 0)) as [r|] eqn:L;
    [|discriminate].
  rewrite (parse_all_loop_mono _ _ Hle _ _ _ L). exact E.
Qed.


(** ** Consequences for the statements of [parseAll] *)

Lemma token_precedence_pos t : 1 <= token_precedence t.
Proof.
  destruct t as [s l ty|s l|s l ty|s l ty h]; try destruct ty;
    cbv; congruence.
Qed.

Lemma token_precedence_comma t :
  token_precedence t < tok.comma_precedence -> is_comma t = false.
Proof.
  destruct t as [s l ty|s l|s l ty|s l ty h]; try destruct ty;
    try reflexivity.
  cbv. congruence.
Qed.

Lemma token_precedence_dot t : token_precedence t <= 1 -> is_dot t = true.
Proof.
  destruct t as [s l ty|s l|s l ty|s l ty h]; try destruct ty;
    try reflexivity; cbv; congruence.
Qed.

Lemma bounded_comma_free_outside_parens e : forall c,
  c < tok.comma_precedence -> bounded e c -> comma_free_outside_parens e.
Proof.
  induction e as [t|lp e IH rp|l IHl op r IHr|s]; simpl; intros c L H; auto.
  destruct H as (H1 & H2 & H3). split; [|split].
  - apply token_precedence_comma. lia.
  - eapply IHl; eauto.
  - eapply (IHr (token_precedence op - 1)); [lia|exact H3].
Qed.

Lemma bounded_dot_chain e : bounded e dot_precedence -> dot_chain e.
Proof.
  induction e as [t|lp e IH rp|l IHl op r IHr|s]; simpl; intros H; auto.
  destruct H as (H1 & H2 & H3). change dot_precedence with 1 in *.
  split; [apply token_precedence_dot; exact H1|]. split; [auto|].
  destruct r; auto. simpl in H3. destruct H3 as [H3 _].
  pose proof (token_precedence_pos operator). lia.
Qed.

Lemma statement_ok_expressions s :
  statement_ok s ->
  Forall (fun e => bounded e (tok.comma_precedence - 1))
         (statement_expressions s).
Proof.
  intros (O1 & O2 & O3). unfold statement_expressions.
  repeat (apply Forall_app; split).
  - apply Forall_flat_map. eapply Forall_impl; [|exact O1].
    intros c [_ Fc]. apply Forall_map. exact Fc.
  - apply Forall_flat_map. eapply Forall_impl; [|exact O2].
    intros c [_ Fc]. apply Forall_map. eapply Forall_impl; [|exact Fc].
    intros f B. eapply bounded_mono; [exact B|]. cbv. congruence.
  - apply Forall_map. exact O3.
Qed.

Lemma statement_ok_table_names s :
  statement_ok s -> Forall dot_chain (table_names s).
Proof.
  intros (_ & O2 & _). unfold table_names.
  apply Forall_flat_map. eapply Forall_impl; [|exact O2].
  intros c [_ Fc]. apply Forall_map. eapply Forall_impl; [|exact Fc].
  intros f B. apply bounded_dot_chain. exact B.
Qed.

Lemma spans_from_bounds l : forall lo hi,
  spans_from lo l hi ->
  lo <= hi /\
  Forall (fun s => lo <= ast.start s /\ 0 <= ast.length s /\
                   ast.start s + ast.length s <= hi) l.
Proof.
  induction l as [|x l IH]; simpl; intros lo hi H; [auto|].
  destruct H as (H1 & H2 & H3). apply IH in H3 as [H3 H4].
  split; [lia|]. constructor; [lia|].
  eapply Forall_impl; [|exact H4]. simpl. intros; lia.
Qed.

Lemma spans_from_ordered l : forall lo hi,
  spans_from lo l hi -> in_source_order l.
Proof.
  induction l as [|x l IH]; intros lo hi H; [exact I|].
  destruct H as (_ & _ & H). destruct l as [|y l]; [exact I|].
  split; [apply H|]. eapply IH; exact H.
Qed.

(** C9: every statement of [parseAll] has a span of non-negative length
    inside [0, len(text)], and the spans come in source order without
    overlap: each starts at or after the end of the one before. *)
Theorem C9_statement_spans :
  forall text, exists stmts,
    parseAll text = Some stmts /\
    Forall (fun s => 0 <= ast.length s /\ 0 <= ast.start s /\
                     ast.start s + ast.length s <= len text) stmts /\
    in_source_order stmts.
Proof.
  intros text. destruct (parseAll_spans text) as (stmts & E & Sp).
  exists stmts. split; [exact E|]. split.
  - apply spans_from_bounds in Sp as [_ Sp].
    eapply Forall_impl; [|exact Sp]. simpl. intros; lia.
  - eapply spans_from_ordered; eauto.
Qed.


Lemma parseExpression_total text ceiling :
  exists e, parseExpression text ceiling = Some e /\ bounded e ceiling.
Proof.
  unfold parseExpression.
  destruct (proj1 (parse_expression_total (4 * List.length text + 12))
              (ast.mkStatement 0 0 [] [] [] [] []) ceiling
              (Tokenizer_init text 0) (Tokenizer_init_wf text))
    as ([[e parent] tk] & E & _).
  - unfold remaining, Tokenizer_init, len; simpl. lia.
  - rewrite E. exists e. split; [reflexivity|].
    apply (proj1 (parse_expression_shape _)) in E. apply E.
Qed.

(** C2: [a + b * c] parses to [Binary(a, +, Binary(b, *, c))], [a * b + c]
    to [Binary(Binary(a, *, b), +, c)], [a < b and c < d] to
    [Binary(Binary(a, <, b), and, Binary(c, <, d))]; and for every input
    and every ceiling [parseExpression] returns a tree in which the right
    operand of an operator is never a binary expression of equal or looser
    precedence, so that operators of equal precedence nest to the left. *)
Theorem C2_precedence_and_left_association :
  let value s := ast.ValueExpression (tok.NameToken s 1 tok.NON_KEYWORD) in
  parseExpression (of_string "a + b * c") (tok.comma_precedence - 1)
    = Some (ast.BinaryExpression (value 0)
              (tok.PunctuationToken 2 1 tok.PLUS)
              (ast.BinaryExpression (value 4)
                 (tok.PunctuationToken 6 1 tok.MULTIPLY) (value 8))) /\
  parseExpression (of_string "a * b + c") (tok.comma_precedence - 1)
    = Some (ast.BinaryExpression
              (ast.BinaryExpression (value 0)
                 (tok.PunctuationToken 2 1 tok.MULTIPLY) (value 4))
              (tok.PunctuationToken 6 1 tok.PLUS) (value 8)) /\
  parseExpression (of_string "a < b and c < d") (tok.comma_precedence - 1)
    = Some (ast.BinaryExpression
              (ast.BinaryExpression (value 0)
                 (tok.PunctuationToken 2 1 tok.LESS_THAN) (value 4))
              (tok.NameToken 6 3 tok.AND)
              (ast.BinaryExpression (value 10)
                 (tok.PunctuationToken 12 1 tok.LESS_THAN) (value 14))) /\
  parseExpression (of_string "a + b + c") (tok.comma_precedence - 1)
    = Some (ast.BinaryExpression
              (ast.BinaryExpression (value 0)
                 (tok.PunctuationToken 2 1 tok.PLUS) (value 4))
              (tok.PunctuationToken 6 1 tok.PLUS) (value 8)) /\
  (forall text ceiling,
      exists e, parseExpression text ceiling = Some e /\ left_assoc e).
Proof.
  cbv zeta.
  split; [vm_compute; reflexivity|].
  split; [vm_compute; reflexivity|].
  split; [vm_compute; reflexivity|].
  split; [vm_compute; reflexivity|].
  intros text ceiling.
  destruct (parseExpression_total text ceiling) as (e & E & B).
  exists e. split; [exact E|]. eapply bounded_left_assoc; exact B.
Qed.

(** C3, amended: outside parentheses [parse_expression] never takes a comma
    as an operator: in every statement of [parseAll], no binary expression
    of a select field, table name or where condition that is outside every
    pair of parentheses has a comma as its operator token; there the commas
    are taken by the field loops.  Inside parentheses the ceiling is the
    comma's precedence and the comma is taken as an operator, as in
    [select (a, b), c]. *)
Theorem C3_no_comma_operator_outside_parentheses :
  (forall text, exists stmts,
      parseAll text = Some stmts /\
      Forall (fun s => Forall comma_free_outside_parens
                              (statement_expressions s)) stmts) /\
  option_map (map statement_expressions)
             (parseAll (of_string "select (a, b), c"))
    = Some [[ast.ParenExpression
               (tok.PunctuationToken 7 1 tok.LEFT_PAREN)
               (ast.BinaryExpression
                  (ast.ValueExpression (tok.NameToken 8 1 tok.NON_KEYWORD))
                  (tok.PunctuationToken 9 1 tok.COMMA)
                  (ast.ValueExpression (tok.NameToken 11 1 tok.NON_KEYWORD)))
               (Some (tok.PunctuationToken 12 1 tok.RIGHT_PAREN));
             ast.ValueExpression (tok.NameToken 15 1 tok.NON_KEYWORD)]].
Proof.
  split; [|vm_compute; reflexivity].
  intros text. destruct (parseAll_ok text) as (stmts & E & OK).
  exists stmts. split; [exact E|].
  eapply Forall_impl; [|exact OK]. intros s Os.
  apply statement_ok_expressions in Os.
  eapply Forall_impl; [|exact Os]. intros e B.
  eapply bounded_comma_free_outside_parens; [|exact B]. cbv. reflexivity.
Qed.

(** C8, amended: every table name of every statement of [parseAll] is a
    chain of dots outside parentheses: its operators outside parentheses
    are all [.], nested to the left, and each operand is a non-binary
    expression (a value, a placeholder, or a parenthesised expression); a
    parenthesised operand is parsed with the comma's ceiling and holds any
    operator, as in [from (a + b)]. *)
Theorem C8_table_name_dot_chain_outside_parentheses :
  (forall text, exists stmts,
      parseAll text = Some stmts /\
      Forall (fun s => Forall dot_chain (table_names s)) stmts) /\
  option_map (map table_names) (parseAll (of_string "from schema.table"))
    = Some [[ast.BinaryExpression
               (ast.ValueExpression (tok.NameToken 5 6 tok.NON_KEYWORD))
               (tok.PunctuationToken 11 1 tok.DOT)
               (ast.ValueExpression (tok.NameToken 12 5 tok.NON_KEYWORD))]] /\
  option_map (map table_names) (parseAll (of_string "from (a + b)"))
    = Some [[ast.ParenExpression
               (tok.PunctuationToken 5 1 tok.LEFT_PAREN)
               (ast.BinaryExpression
                  (ast.ValueExpression (tok.NameToken 6 1 tok.NON_KEYWORD))
                  (tok.PunctuationToken 8 1 tok.PLUS)
                  (ast.ValueExpression (tok.NameToken 10 1 tok.NON_KEYWORD)))
               (Some (tok.PunctuationToken 11 1 tok.RIGHT_PAREN))]].
Proof.
  split; [|split; vm_compute; reflexivity].
  intros text. destruct (parseAll_ok text) as (stmts & E & OK).
  exists stmts. split; [exact E|].
  eapply Forall_impl; [|exact OK]. intros s Os.
  apply statement_ok_table_names. exact Os.
Qed.

(** C10: every select clause and every from clause of every statement of
    [parseAll] has at least one field; for [select] at the end of the
    input the one field holds the placeholder expression. *)
Theorem C10_clause_fields_nonempty :
  (forall text, exists stmts,
      parseAll text = Some stmts /\
      Forall (fun s =>
                Forall (fun c => ast.select_fields c <> []) (ast.selects s) /\
                Forall (fun c => ast.from_fields c <> []) (ast.froms s))
             stmts) /\
  parseAll (of_string "select")
    = Some [ast.mkStatement 0 6
              [ast.mkSelectClause
                 [ast.mkSelectField
                    (ast.PlaceholderExpression (of_string "1")) None]]
              [] [] [] []] /\
  parseAll (of_string "from")
    = Some [ast.mkStatement 0 4 []
              [ast.mkFromClause
                 [ast.mkFromField
                    (ast.PlaceholderExpression (of_string "1")) None]]
              [] [] []].
Proof.
  split; [|split; vm_compute; reflexivity].
  intros text. destruct (parseAll_ok text) as (stmts & E & OK).
  exists stmts. split; [exact E|].
  eapply Forall_impl; [|exact OK]. intros s (O1 & O2 & _).
  split; (eapply Forall_impl; [|eassumption]); intros c [N _]; exact N.
Qed.


(** ** Lossless lexing *)

Lemma slice_skipn text a b :
  0 <= a <= b ->
  slice text a b ++ skipn (Z.to_nat b) text = skipn (Z.to_nat a) text.
Proof.
  intros H. unfold slice.
  rewrite <- (firstn_skipn (Z.to_nat (b - a)) (skipn (Z.to_nat a) text)) at 2.
  f_equal. rewrite skipn_skipn. f_equal. lia.
Qed.

Lemma slice_empty text a : slice text a a = [].
Proof. unfold slice. rewrite Z.sub_diag. reflexivity. Qed.

Lemma skipn_len (text : str) : skipn (Z.to_nat (len text)) text = [].
Proof. unfold len. rewrite Nat2Z.id. apply skipn_all. Qed.

Lemma Forall_slice (P : char -> Prop) text a b :
  0 <= a -> b <= len text ->
  (forall i, a <= i < b -> P (char_at text i)) -> Forall P (slice text a b).
Proof.
  intros Ha Hb H. apply Forall_forall. intros x Hx.
  apply (In_nth _ _ 0%N) in Hx as (n & Hn & <-).
  unfold slice in *. rewrite length_firstn, length_skipn in Hn.
  rewrite nth_firstn.
  assert (L : (n <? Z.to_nat (b - a))%nat = true)
    by (apply Nat.ltb_lt; lia).
  rewrite L, nth_skipn.
  replace (Z.to_nat a + n)%nat with (Z.to_nat (a + Z.of_nat n)) by lia.
  apply H. unfold len in Hb. lia.
Qed.

Lemma consume_all_S fuel tk :
  consume_all (S fuel) tk =
    let (t, tk') := consume tk in
    if is_end_of_string t then [t] else t :: consume_all fuel tk'.
Proof.
  cbn [consume_all]. destruct (consume tk) as [t tk'].
  destruct t as [| | |? ? [] ?]; reflexivity.
Qed.

Lemma consume_all_lossless fuel :
  forall tk,
    wf tk -> (remaining tk < fuel)%nat ->
    let l := consume_all fuel tk in
    let ps := pieces (text tk) (start_position tk) l in
    concat (map (fun p => fst p ++ snd p) ps)
      = skipn (Z.to_nat (start_position tk)) (text tk) /\
    Forall (fun p => Forall (fun c => is_skipped c = true) (fst p)) ps /\
    exists l0 eos, l = l0 ++ [eos] /\ is_end_of_string eos = true /\
                   Forall (fun t => is_end_of_string t = false) l0.
Proof.
  induction fuel as [|fuel IH]; intros tk W Hf; [lia|].
  cbv zeta. rewrite consume_all_S.
  destruct (consume_adv tk W) as (tk' & E & A & T & S & I & P). rewrite E.
  pose proof (proj1 W) as Hp.
  unfold tok_at, pos_after in *.
  destruct (_search_next (text tk) (start_position tk)) as [t e] eqn:Es.
  cbn [fst snd] in *.
  destruct (search_next_spec _ _ _ _ Hp Es) as (B1 & B2 & B3 & B4 & B5).
  assert (B0 : 0 <= tok.length t)
    by (destruct (is_end_of_string t); lia).
  assert (G : Forall (fun c => is_skipped c = true)
                     (slice (text tk) (start_position tk) (tok.start t))).
  { apply Forall_slice; [lia|lia|]. intros i Hi. apply B5 in Hi as [Hi1 Hi2].
    unfold is_skipped. rewrite Hi1. apply N.eqb_neq in Hi2. rewrite Hi2.
    reflexivity. }
  destruct (is_end_of_string t) eqn:EOS.
  - destruct B4 as [B4 B6]. cbn [pieces map concat fst snd].
    split; [|split].
    + rewrite B4, Z.add_0_r, slice_empty, !app_nil_r.
      rewrite <- (slice_skipn (text tk) (start_position tk) (tok.start t))
        by lia.
      rewrite B6, skipn_len, app_nil_r. reflexivity.
    + constructor; [exact G|constructor].
    + exists [], t. repeat split; [exact EOS|constructor].
  - specialize (P eq_refl).
    destruct (IH tk' (proj1 A)) as (C1 & C2 & l0 & eos & C3 & C4 & C5); [lia|].
    rewrite T, S in C1, C2. rewrite B2 in C1, C2.
    cbn [pieces map concat fst snd]. rewrite <- B2.
    split; [|split].
    + rewrite B2, C1, <- B2, <- app_assoc.
      rewrite (slice_skipn (text tk) (tok.start t) e) by lia.
      apply slice_skipn. lia.
    + constructor; [exact G|]. rewrite B2. exact C2.
    + exists (t :: l0), eos. rewrite C3. repeat split; [exact C4|].
      constructor; [exact EOS|exact C5].
Qed.

(** C7: for every text the tokenizer runs to the end-of-text token, and the
    skipped gaps and the token texts, concatenated in order, are the text:
    every character lies in exactly one token or in a gap, and gaps hold
    only white space other than newline. *)
Theorem C7_lossless_lexing :
  forall text,
    let l := all_tokens text in
    let ps := pieces text 0 l in
    concat (map (fun p => fst p ++ snd p) ps) = text /\
    Forall (fun p => Forall (fun c => is_skipped c = true) (fst p)) ps /\
    exists l0 eos, l = l0 ++ [eos] /\ is_end_of_string eos = true /\
                   Forall (fun t => is_end_of_string t = false) l0.
Proof.
  intros text. unfold all_tokens.
  apply (consume_all_lossless (S (List.length text)) (Tokenizer_init text 0)
           (Tokenizer_init_wf text)).
  unfold remaining, Tokenizer_init, len; simpl. lia.
Qed.


(** ** Unknown tokens are coalesced by maximal runs *)

Lemma parse_statement_except_unknowns prev token ret ret' done cur :
  parse_statement_except prev token ret = Some ret' ->
  ast.unknowns ret = map sequence_of (done ++ flush cur) ->
  (prev = true -> cur = []) -> (prev = false -> cur <> []) ->
  ast.unknowns ret' = map sequence_of (done ++ flush (cur ++ [token])).
Proof.
  unfold parse_statement_except. intros H U P1 P2.
  assert (Fl : flush (cur ++ [token]) = [cur ++ [token]])
    by (destruct cur; reflexivity).
  rewrite Fl, map_app. cbn [map].
  destruct prev.
  - rewrite (P1 eq_refl) in *. cbn [flush] in U. rewrite app_nil_r in U.
    apply some_inj in H. subst ret'. cbn [ast.unknowns set_unknowns].
    rewrite U. f_equal. unfold sequence_of. cbn [app hd last].
    f_equal. f_equal. lia.
  - specialize (P2 eq_refl).
    assert (Fc : flush cur = [cur])
      by (destruct cur; [exfalso; apply P2; reflexivity|reflexivity]).
    rewrite Fc, map_app in U. cbn [map] in U.
    unfold set_last_unknown_length in H.
    rewrite U, rev_app_distr in H. cbn [rev app] in H.
    apply some_inj in H. subst ret'. cbn [ast.unknowns set_unknowns].
    rewrite rev_involutive. f_equal. unfold sequence_of.
    cbn [ast.unknown_start ast.first_token].
    rewrite last_last.
    assert (Hd : hd eos_default (cur ++ [token]) = hd eos_default cur)
      by (destruct cur; [exfalso; apply P2; reflexivity|reflexivity]).
    rewrite Hd. reflexivity.
Qed.

Lemma parse_statement_loop_unknowns fuel :
  forall prev ret tk ret' tk' done cur,
    parse_statement_loop fuel prev ret tk = Some (ret', tk') ->
    ast.unknowns ret = map sequence_of (done ++ flush cur) ->
    (prev = true -> cur = []) -> (prev = false -> cur <> []) ->
    ast.unknowns ret' =
      map sequence_of
          (done ++ runs (parse_statement_events fuel prev ret tk) cur).
Proof.
  induction fuel as [|fuel IH];
    intros prev ret tk ret' tk' done cur H U P1 P2; [discriminate|].
  cbn [parse_statement_loop parse_statement_events] in *.
  destruct (get_next_standard_token fuel ret tk)
    as [[[token ret1] tk1]|] eqn:E1; [|discriminate].
  apply get_next_standard_token_frame in E1.
  destruct E1 as (_ & _ & _ & _ & _ & U1). rewrite <- U1 in U.
  destruct (parse_statement_try fuel token ret1 tk1)
    as [[[res ret2] tk2]|] eqn:E2; [|discriminate].
  pose proof (parse_statement_try_shape _ _ _ _ _ _ _ E2) as Sh.
  destruct res.
  - destruct Sh as (_ & ret3 & (_ & _ & _ & _ & _ & U3) & C).
    assert (U2 : ast.unknowns ret2 = ast.unknowns ret1).
    { destruct C as [(c & _ & ->)|[(c & _ & ->)|(c & _ & ->)]];
        simpl; exact U3. }
    cbn [runs]. rewrite app_assoc.
    eapply IH; [exact H| |reflexivity|discriminate].
    cbn [flush]. rewrite app_nil_r, U2. exact U.
  - destruct Sh as (_ & ->). apply some_inj in H. inversion H; subst.
    cbn [runs]. simpl. exact U.
  - destruct Sh as (_ & -> & ->).
    destruct (consume tk1) as [? tk3].
    destruct (parse_statement_except prev token ret1) as [ret3|] eqn:E3;
      [|discriminate].
    cbn [runs].
    assert (Fl : flush (cur ++ [token]) = [cur ++ [token]])
      by (destruct cur; reflexivity).
    eapply IH; [exact H| |discriminate|].
    + eapply parse_statement_except_unknowns; eauto.
    + intros _ C. destruct cur; discriminate.
Qed.

Lemma parse_statement_unknowns fuel tk s tk' :
  parse_statement fuel tk = Some (s, tk') ->
  ast.unknowns s = map sequence_of (runs (statement_events fuel tk) []).
Proof.
  unfold parse_statement, statement_events.
  destruct (peek 1 tk) as [token tk1]. intros H.
  apply (parse_statement_loop_unknowns fuel true _ _ _ _ [] []) in H;
    [exact H|reflexivity|reflexivity|discriminate].
Qed.

Lemma parse_all_loop_unknowns fuel :
  forall ret tk stmts tk',
    parse_all_loop fuel ret tk = Some (stmts, tk') ->
    map ast.unknowns stmts =
      map ast.unknowns ret ++
      map (fun evs => map sequence_of (runs evs []))
          (parse_all_events fuel tk).
Proof.
  induction fuel as [|fuel IH]; intros ret tk stmts tk' H; [discriminate|].
  cbn [parse_all_loop parse_all_events] in *.
  destruct (consume_newline_semicolons fuel tk) as [[token tk1]|];
    [|discriminate].
  destruct (is_end_of_string token).
  - apply some_inj in H. inversion H; subst. simpl.
    rewrite app_nil_r. reflexivity.
  - destruct (parse_statement fuel tk1) as [[s tk2]|] eqn:E; [|discriminate].
    apply parse_statement_unknowns in E.
    apply IH in H. rewrite H, map_app. cbn [map].
    rewrite <- app_assoc. cbn [app]. rewrite E. reflexivity.
Qed.

(** C5: [select 1 @@@ 2] gives one statement whose selects hold the field
    [1] and whose unknowns are one sequence over [@@@ 2]; and for every
    text, the unknowns of each statement of [parseAll] are exactly one
    sequence per maximal run of consecutive unrecognised tokens of that
    statement, from the start of the run's first token to the end of its
    last: comments, skipped before a token is looked at, do not end a run,
    a recognised clause does. *)
Theorem C5_unknown_runs_coalesced :
  parseAll (of_string "select 1 @@@ 2")
    = Some [ast.mkStatement 0 14
              [ast.mkSelectClause
                 [ast.mkSelectField
                    (ast.ValueExpression (tok.NumberToken 7 1)) None]]
              [] [] []
              [ast.mkUnknownSequence 9 5
                 (tok.PunctuationToken 9 3 tok.UNKNOWN_OPERATOR)]] /\
  option_map (map ast.unknowns)
             (parseAll (of_string "@ /* c */ @ select a @ @"))
    = Some [[ast.mkUnknownSequence 0 11
               (tok.PunctuationToken 0 1 tok.UNKNOWN_OPERATOR);
             ast.mkUnknownSequence 21 3
               (tok.PunctuationToken 21 1 tok.UNKNOWN_OPERATOR)]] /\
  (forall text, exists stmts,
      parseAll text = Some stmts /\
      map ast.unknowns stmts =
        map (fun evs => map sequence_of (runs evs []))
            (parseAll_events text)).
Proof.
  split; [vm_compute; reflexivity|].
  split; [vm_compute; reflexivity|].
  intros text. destruct (parseAll_spans text) as (stmts & E & _).
  exists stmts. split; [exact E|].
  unfold parseAll, parse_all, parseAll_events in *.
  destruct (parse_all_loop (4 * List.length text + 12) []
                           (Tokenizer_init text 0)) as [[l tk']|] eqn:L;
    [|discriminate].
  simpl in E. apply some_inj in E. subst l.
  apply parse_all_loop_unknowns in L. exact L.
Qed.



(** C4: the tokenizer on the text of an operator kind.  For [-] and for [~]
    it answers [UNKNOWN_OPERATOR], and [<--] is the operator [<] and then a
    comment; for each of the other seventeen operator kinds it answers one
    token of that kind over the whole text. *)
Theorem C4_operator_kinds :
  all_tokens (of_string "-")
    = [tok.PunctuationToken 0 1 tok.UNKNOWN_OPERATOR;
       tok.SpecialToken 1 0 tok.END_OF_STRING true] /\
  all_tokens (of_string "~")
    = [tok.PunctuationToken 0 1 tok.UNKNOWN_OPERATOR;
       tok.SpecialToken 1 0 tok.END_OF_STRING true] /\
  all_tokens (of_string "<--")
    = [tok.PunctuationToken 0 1 tok.LESS_THAN;
       tok.SpecialToken 1 2 tok.SINGLE_LINE_COMMENT true;
       tok.SpecialToken 3 0 tok.END_OF_STRING true] /\
  Forall (fun k =>
            let v := tok.PunctuationTokenType_value k in
            all_tokens v = [tok.PunctuationToken 0 (len v) k;
                          tok.SpecialToken (len v) 0 tok.END_OF_STRING true])
         [tok.DOT; tok.DOUBLE_COLON; tok.LEFT_SHIFT; tok.RIGHT_SHIFT;
          tok.MULTIPLY; tok.DIVIDE; tok.MOD; tok.PLUS; tok.BIT_AND;
          tok.BIT_OR; tok.BIT_XOR; tok.EQUAL; tok.LESS_THAN;
          tok.GREATER_THAN; tok.LESS_THAN_OR_EQUAL;
          tok.GREATER_THAN_OR_EQUAL; tok.NOT_EQUAL].
Proof.
  split; [vm_compute; reflexivity|].
  split; [vm_compute; reflexivity|].
  split; [vm_compute; reflexivity|].
  repeat constructor.
Qed.


(** * Further properties of the tokenizer *)

Lemma after_calls_wf calls : forall tk,
  wf tk ->
  wf (after_calls calls tk) /\ text (after_calls calls tk) = text tk.
Proof.
  induction calls as [|c calls IH]; intros tk W; [split; auto|].
  destruct c as [|k]; cbn [after_calls].
  - destruct (consume_spec tk W) as (tk' & E & W' & T & _).
    rewrite E. cbn [snd]. destruct (IH tk' W') as [A B].
    split; [exact A|congruence].
  - destruct (peek_spec (S k) tk W) as (tk' & E & W' & T & _); [lia|].
    rewrite E. cbn [snd]. destruct (IH tk' W') as [A B].
    split; [exact A|congruence].
Qed.

Lemma consumed_n_spec n : forall tk,
  wf tk ->
  wf (consumed_n n tk) /\ text (consumed_n n tk) = text tk /\
  start_position (consumed_n n tk)
    = pos_iter (text tk) (start_position tk) n.
Proof.
  induction n as [|n IH]; intros tk W;
    [unfold consumed_n; cbn [Nat.iter pos_iter];
     split; [exact W|split; reflexivity]|].
  destruct (IH tk W) as (W1 & T1 & S1).
  change (consumed_n (S n) tk) with (snd (consume (consumed_n n tk))).
  destruct (consume_spec _ W1) as (tk' & E & W' & T & Sq & _).
  rewrite E. cbn [snd]. rewrite pos_iter_S.
  split; [exact W'|]. split; [congruence|]. rewrite Sq, T1, S1. reflexivity.
Qed.

(** X1: in every state a tokenizer reaches from [Tokenizer(text)] by calls
    of [consume] and [peek], [peek(k)] returns the token that the [k]-th
    [consume] from there returns, and leaves the position and the end index
    of the last consumed token as they are; for [k = 1], [peek] and
    [consume] agree. *)
Theorem X1_peek_is_kth_consume :
  forall text calls k_pred,
    let tk := after_calls calls (Tokenizer_init text 0) in
    fst (peek (S k_pred) tk) = fst (consume (consumed_n k_pred tk)) /\
    start_position (snd (peek (S k_pred) tk)) = start_position tk /\
    end_idx_of_last_consumed_token (snd (peek (S k_pred) tk))
      = end_idx_of_last_consumed_token tk.
Proof.
  intros text calls k tk.
  destruct (after_calls_wf calls _ (Tokenizer_init_wf text)) as [W _].
  fold tk in W.
  destruct (peek_spec (S k) tk W) as (tk' & E & _ & _ & Sq & Iq); [lia|].
  rewrite E. cbn [fst snd].
  destruct (consumed_n_spec k tk W) as (W1 & T1 & S1).
  destruct (consume_spec _ W1) as (tk2 & E2 & _).
  rewrite E2. cbn [fst]. rewrite T1, S1.
  replace (S k - 1)%nat with k by lia. auto.
Qed.

Lemma tok_at_len text :
  tok_at text (len text) = tok.SpecialToken (len text) 0 tok.END_OF_STRING true
  /\ pos_after text (len text) = len text.
Proof.
  unfold tok_at, pos_after, _search_next.
  rewrite scan_while_stay by (left; lia).
  rewrite Z.leb_refl. split; reflexivity.
Qed.

Lemma pos_iter_len text n : pos_iter text (len text) n = len text.
Proof.
  induction n as [|n IH]; [reflexivity|].
  cbn [pos_iter]. rewrite (proj2 (tok_at_len text)). exact IH.
Qed.

Lemma pos_iter_progress text n : forall p,
  0 <= p <= len text ->
  pos_iter text p n = len text \/ p + Z.of_nat n <= pos_iter text p n.
Proof.
  induction n as [|n IH]; intros p Hp; [right; simpl; lia|].
  cbn [pos_iter].
  pose proof (tok_at_spec text p Hp) as (A & B & C & D).
  unfold tok_at, pos_after in *.
  destruct (_search_next text p) as [t p'] eqn:E. cbn [fst snd] in *.
  destruct (search_next_spec _ _ _ _ Hp E) as (_ & _ & _ & B4 & _).
  destruct (is_end_of_string t) eqn:EOS.
  - destruct B4 as [B4 B5]. left.
    replace p' with (len text) by lia. apply pos_iter_len.
  - specialize (D eq_refl).
    destruct (IH p') as [H|H]; [lia|left; exact H|right; lia].
Qed.

Lemma tok_at_far text n :
  (List.length text <= n)%nat ->
  tok_at text (pos_iter text 0 n)
    = tok.SpecialToken (len text) 0 tok.END_OF_STRING true.
Proof.
  intros Hn.
  assert (Hp : 0 <= 0 <= len text) by (unfold len; lia).
  pose proof (pos_iter_bounds text n 0 Hp) as B.
  destruct (pos_iter_progress text n 0 Hp) as [H|H].
  - rewrite H. apply tok_at_len.
  - replace (pos_iter text 0 n) with (len text) by (unfold len in *; lia).
    apply tok_at_len.
Qed.

(** X2: past the last token the tokenizer answers the end-of-text token,
    of length 0 at [len(text)], again and again: [peek(k)] for every
    [k > len(text)], and [consume] after [len(text)] or more calls of
    [consume]. *)
Theorem X2_end_of_text_repeats :
  forall txt more,
    let eos := tok.SpecialToken (len txt) 0 tok.END_OF_STRING true in
    let n := (List.length txt + more)%nat in
    fst (peek (S n) (Tokenizer_init txt 0)) = eos /\
    fst (consume (consumed_n n (Tokenizer_init txt 0))) = eos.
Proof.
  intros txt more eos n.
  pose proof (Tokenizer_init_wf txt) as W.
  destruct (peek_spec (S n) _ W) as (tk' & E & _); [lia|].
  rewrite E. cbn [fst].
  destruct (consumed_n_spec n _ W) as (W1 & T1 & S1).
  destruct (consume_spec _ W1) as (tk2 & E2 & _).
  rewrite E2, T1, S1. cbn [fst text start_position Tokenizer_init].
  replace (S n - 1)%nat with n by lia.
  rewrite tok_at_far by (unfold n; lia). auto.
Qed.


(** Whatever holds of the token found from every position holds of every
    token the tokenizer emits. *)
Lemma consume_all_Forall (P : tok.Token -> Prop) fuel : forall tk,
  wf tk ->
  (forall p, 0 <= p <= len (text tk) -> P (tok_at (text tk) p)) ->
  Forall P (consume_all fuel tk).
Proof.
  induction fuel as [|fuel IH]; intros tk W H; [constructor|].
  rewrite consume_all_S.
  destruct (consume_adv tk W) as (tk' & E & A & T & _). rewrite E.
  pose proof (H _ (proj1 W)) as Pt.
  destruct (is_end_of_string _); [constructor; [exact Pt|constructor]|].
  constructor; [exact Pt|]. apply IH; [apply A|]. rewrite T. exact H.
Qed.

Lemma all_tokens_Forall (P : tok.Token -> Prop) txt :
  (forall p, 0 <= p <= len txt -> P (tok_at txt p)) ->
  Forall P (all_tokens txt).
Proof.
  intros H. unfold all_tokens.
  apply consume_all_Forall; [apply Tokenizer_init_wf|exact H].
Qed.

Lemma consume_all_tokens_from fuel : forall tk,
  wf tk -> (remaining tk < fuel)%nat ->
  tokens_from (start_position tk) (consume_all fuel tk) (len (text tk)).
Proof.
  induction fuel as [|fuel IH]; intros tk W Hf; [lia|].
  rewrite consume_all_S.
  destruct (consume_adv tk W) as (tk' & E & A & T & Sq & Iq & P). rewrite E.
  pose proof (tok_at_spec _ _ (proj1 W)) as (B1 & B2 & B3 & _).
  pose proof (tok_at_length _ _ (proj1 W)) as [B4 _].
  destruct (is_end_of_string _) eqn:EOS.
  - cbn [tokens_from]. lia.
  - specialize (P eq_refl). cbn [tokens_from].
    split; [lia|]. split; [lia|].
    rewrite <- B2, <- Sq, <- T. apply IH; [apply A|lia].
Qed.

(** X3: the tokens the tokenizer emits for a text lie in source order, one
    behind the other, inside [0, len(text)]; every token but the
    end-of-text token spans at least one character; and scanning again from
    the start of any of them finds the same token, ending where it ends. *)
Theorem X3_token_spans :
  forall txt,
    tokens_from 0 (all_tokens txt) (len txt) /\
    Forall (fun t => if is_end_of_string t
                     then tok.length t = 0 /\ tok.start t = len txt
                     else 1 <= tok.length t) (all_tokens txt) /\
    Forall (fun t => _search_next txt (tok.start t)
                     = (t, tok.start t + tok.length t)) (all_tokens txt).
Proof.
  intros txt. split; [|split].
  - apply (consume_all_tokens_from _ _ (Tokenizer_init_wf txt)).
    unfold remaining, Tokenizer_init, len; simpl. lia.
  - apply all_tokens_Forall. intros p Hp. unfold tok_at.
    destruct (_search_next txt p) as [t p'] eqn:E.
    apply (search_next_spec _ _ _ _ Hp E).
  - apply all_tokens_Forall. intros p Hp.
    pose proof (tok_at_start txt p Hp) as R.
    pose proof (tok_at_spec txt p Hp) as (B1 & B2 & B3 & _).
    pose proof (tok_at_length txt p Hp) as [B4 _].
    pose proof (tok_at_spec txt (tok.start (tok_at txt p))) as (_ & C2 & _);
      [lia|].
    rewrite R in C2. unfold tok_at, pos_after in *.
    destruct (_search_next txt (tok.start (fst (_search_next txt p))))
      as [t2 p2]. cbn [fst snd] in *. subst. reflexivity.
Qed.


(** ** What the regular expressions find *)

Lemma char_at_cons c (s : str) i :
  1 <= i -> char_at (c :: s) i = char_at s (i - 1).
Proof.
  intros H. unfold char_at.
  replace (Z.to_nat i) with (S (Z.to_nat (i - 1))) by lia. reflexivity.
Qed.

Lemma char_at_skipn (s : str) p i :
  0 <= p -> 0 <= i -> char_at (skipn (Z.to_nat p) s) i = char_at s (p + i).
Proof.
  intros Hp Hi. unfold char_at. rewrite nth_skipn. f_equal. lia.
Qed.

Lemma len_cons c (s : str) : len (c :: s) = len s + 1.
Proof. unfold len. simpl List.length. lia. Qed.

Lemma len_nonneg (s : str) : 0 <= len s.
Proof. unfold len. lia. Qed.

Lemma re_quoted_cons2 q c c2 s :
  re_quoted q (c :: c2 :: s) =
    match (if (c =? 92)%N && (c2 =? q)%N
           then option_map (Z.add 2) (re_quoted q s) else None) with
    | Some r => Some r
    | None =>
      match (if negb (c =? q)%N
             then option_map (Z.add 1) (re_quoted q (c2 :: s))
             else None) with
      | Some r => Some r
      | None => if (c =? q)%N then Some 1 else None
      end
    end.
Proof. reflexivity. Qed.

Lemma re_quoted_found_aux q s :
  (forall k, re_quoted q s = Some k -> char_at s (k - 1) = q) /\
  (forall c k, re_quoted q (c :: s) = Some k -> char_at (c :: s) (k - 1) = q).
Proof.
  induction s as [|c2 s IH].
  - split; intros; [discriminate|].
    simpl in H. destruct (c =? q)%N eqn:C; simpl in H; [|discriminate].
    apply some_inj in H. subst k. apply N.eqb_eq in C. exact C.
  - destruct IH as [IH1 IH2]. split; [apply IH2|].
    intros c k H. rewrite re_quoted_cons2 in H.
    pose proof (re_quoted_bounds q s) as B1.
    pose proof (re_quoted_bounds q (c2 :: s)) as B2.
    destruct (re_quoted q s) as [r1|] eqn:R1;
      [specialize (IH1 _ eq_refl); specialize (B1 _ eq_refl)|];
      (destruct (re_quoted q (c2 :: s)) as [r2|] eqn:R2;
       [apply IH2 in R2; specialize (B2 _ eq_refl)|]);
      destruct ((c =? 92)%N && (c2 =? q)%N); destruct (c =? q)%N eqn:C;
        cbv beta iota delta [option_map negb] in H;
        try discriminate; apply some_inj in H; subst k;
        try (apply N.eqb_eq in C; exact C);
        rewrite ?char_at_cons by lia;
        try (replace (2 + r1 - 1 - 1 - 1) with (r1 - 1) by lia; exact IH1);
        try (replace (1 + r2 - 1 - 1) with (r2 - 1) by lia; exact R2).
Qed.

Lemma re_quoted_found q s k :
  re_quoted q s = Some k -> 1 <= k <= len s /\ char_at s (k - 1) = q.
Proof.
  intros H. split; [eapply re_quoted_bounds; eauto|].
  apply re_quoted_found_aux. exact H.
Qed.

Lemma re_quoted_none_aux q s :
  (re_quoted q s = None -> Forall (fun c => c <> q) s) /\
  (forall c, re_quoted q (c :: s) = None ->
             Forall (fun c => c <> q) (c :: s)).
Proof.
  induction s as [|c2 s IH].
  - split; [constructor|]. intros c H. simpl in H.
    destruct (c =? q)%N eqn:C; simpl in H; [discriminate|].
    apply N.eqb_neq in C. constructor; [exact C|constructor].
  - destruct IH as [IH1 IH2]. split; [apply IH2|].
    intros c H. rewrite re_quoted_cons2 in H.
    destruct (c =? q)%N eqn:C.
    + destruct ((c =? 92)%N && (c2 =? q)%N);
        destruct (re_quoted q s); cbv beta iota delta [option_map negb] in H;
          discriminate.
    + apply N.eqb_neq in C. constructor; [exact C|]. apply IH2.
      destruct (re_quoted q (c2 :: s)); [|reflexivity].
      destruct ((c =? 92)%N && (c2 =? q)%N);
        destruct (re_quoted q s); cbv beta iota delta [option_map negb] in H;
          discriminate.
Qed.

Lemma Forall_char_at (P : char -> Prop) (s : str) i :
  Forall P s -> 0 <= i < len s -> P (char_at s i).
Proof.
  intros F Hi. rewrite Forall_forall in F. apply F.
  unfold char_at. apply nth_In. unfold len in Hi. lia.
Qed.

Lemma re_newline_found s k :
  re_newline s = Some k ->
  0 <= k < len s /\ char_at s k = 10%N /\
  forall j, 0 <= j < k -> char_at s j <> 10%N.
Proof.
  revert k; induction s as [|c s IH]; intros k H; [discriminate|].
  simpl in H. rewrite len_cons. pose proof (len_nonneg s).
  destruct (c =? 10)%N eqn:C.
  - apply some_inj in H. subst k. apply N.eqb_eq in C.
    split; [lia|]. split; [exact C|]. intros; lia.
  - destruct (re_newline s) as [r|]; cbv [option_map] in H; [|discriminate].
    apply some_inj in H. subst k.
    destruct (IH _ eq_refl) as (B & F & N0).
    split; [lia|]. split.
    + rewrite char_at_cons by lia. replace (1 + r - 1) with r by lia. exact F.
    + intros j Hj. destruct (Z.eq_dec j 0) as [->|].
      * apply N.eqb_neq in C. exact C.
      * rewrite char_at_cons by lia. apply N0. lia.
Qed.

Lemma re_newline_none s :
  re_newline s = None -> Forall (fun c => c <> 10%N) s.
Proof.
  induction s as [|c s IH]; intros H; [constructor|].
  simpl in H. destruct (c =? 10)%N eqn:C; [discriminate|].
  apply N.eqb_neq in C. constructor; [exact C|]. apply IH.
  destruct (re_newline s); [discriminate|reflexivity].
Qed.

Lemma re_multiline_comment_cons2 c c2 s :
  re_multiline_comment (c :: c2 :: s) =
    if (c =? 42)%N && (c2 =? 47)%N then Some 2
    else option_map (Z.add 1) (re_multiline_comment (c2 :: s)).
Proof. reflexivity. Qed.

Lemma re_multiline_comment_found s k :
  re_multiline_comment s = Some k ->
  2 <= k <= len s /\ char_at s (k - 2) = 42%N /\ char_at s (k - 1) = 47%N.
Proof.
  intros H. split; [eapply re_multiline_comment_bounds; eauto|].
  revert k H; induction s as [|c s IH]; intros k H; [discriminate|].
  destruct s as [|c2 s']; [discriminate|].
  rewrite re_multiline_comment_cons2 in H.
  destruct ((c =? 42)%N && (c2 =? 47)%N) eqn:C.
  - apply some_inj in H. subst k. apply andb_true_iff in C as [C1 C2].
    apply N.eqb_eq in C1, C2. split; assumption.
  - pose proof (re_multiline_comment_bounds (c2 :: s')) as B.
    destruct (re_multiline_comment (c2 :: s')) as [r|];
      cbv [option_map] in H; [|discriminate].
    apply some_inj in H. subst k. specialize (B _ eq_refl).
    destruct (IH _ eq_refl) as [F1 F2].
    rewrite (char_at_cons c (c2 :: s') (1 + r - 2)),
            (char_at_cons c (c2 :: s') (1 + r - 1)) by lia.
    replace (1 + r - 2 - 1) with (r - 2) by lia.
    replace (1 + r - 1 - 1) with (r - 1) by lia. split; assumption.
Qed.

Lemma re_multiline_comment_none s :
  re_multiline_comment s = None ->
  forall j, 0 <= j -> j + 1 < len s ->
            ~ (char_at s j = 42%N /\ char_at s (j + 1) = 47%N).
Proof.
  induction s as [|c s IH]; intros H j Hj Hl [A B];
    [unfold len in Hl; simpl in Hl; lia|].
  destruct s as [|c2 s'];
    [unfold len in Hl; simpl in Hl; lia|].
  rewrite re_multiline_comment_cons2 in H.
  destruct ((c =? 42)%N && (c2 =? 47)%N) eqn:C; [discriminate|].
  destruct (re_multiline_comment (c2 :: s')) eqn:R;
    cbv [option_map] in H; [discriminate|].
  destruct (Z.eq_dec j 0) as [->|Nj].
  - unfold char_at in A, B. simpl in A, B. subst c c2. discriminate.
  - rewrite len_cons in Hl.
    apply (IH eq_refl (j - 1)); [lia|lia|].
    rewrite (char_at_cons c (c2 :: s') j) in A by lia.
    rewrite (char_at_cons c (c2 :: s') (j + 1)) in B by lia.
    replace (j + 1 - 1) with (j - 1 + 1) in B by lia. split; assumption.
Qed.

Lemma str_eqb_eq a : forall b, str_eqb a b = true -> a = b.
Proof.
  induction a as [|x a IH]; intros [|y b] H; simpl in H;
    try discriminate; [reflexivity|].
  apply andb_true_iff in H as [H1 H2]. apply N.eqb_eq in H1.
  apply IH in H2. congruence.
Qed.

Lemma slice_two (s : str) q :
  0 <= q -> q + 1 < len s ->
  slice s q (q + 2) = [char_at s q; char_at s (q + 1)].
Proof.
  intros Hq Hl. unfold slice, char_at.
  replace (Z.to_nat (q + 2 - q)) with 2%nat by lia.
  replace (Z.to_nat (q + 1)) with (S (Z.to_nat q)) by lia.
  assert (L : (S (Z.to_nat q) < List.length s)%nat) by (unfold len in Hl; lia).
  clear Hq Hl. revert L. generalize (Z.to_nat q) as n.
  induction s as [|c s IH]; intros n L; [simpl in L; lia|].
  destruct n as [|n].
  - destruct s as [|c2 s]; [simpl in L; lia|reflexivity].
  - simpl in *. apply IH. lia.
Qed.


(** ** Maximal munch and token endings *)

Lemma search_string_ends txt q quote ty :
  0 <= q -> q < len txt -> char_at txt q = quote ->
  (ty = tok.SINGLE_QUOTE_STRING /\ quote = 39%N \/
   ty = tok.DOUBLE_QUOTE_STRING /\ quote = 34%N) ->
  ends_properly txt (fst (search_string txt q quote ty)).
Proof.
  intros Hq Hl Hc Hty. unfold search_string.
  destruct (re_quoted quote (skipn (Z.to_nat (q + 1)) txt)) as [k|] eqn:R;
    cbn [fst].
  - apply re_quoted_found in R as [B F].
    rewrite len_skipn in B by lia. rewrite char_at_skipn in F by lia.
    replace (q + 1 + (k - 1)) with (q + (q + 1 + k - q) - 1) in F by lia.
    destruct Hty as [[-> ->]|[-> ->]]; cbn; (split; [exact Hc|]);
      (split; [lia|exact F]).
  - apply (proj1 (re_quoted_none_aux _ _)) in R.
    assert (N0 : forall i, q < i < len txt -> char_at txt i <> quote).
    { intros i Hi.
      replace i with (q + 1 + (i - q - 1)) by lia.
      rewrite <- char_at_skipn by lia.
      apply (Forall_char_at _ _ _ R). rewrite len_skipn by lia. lia. }
    destruct Hty as [[-> ->]|[-> ->]]; cbn; (split; [exact Hc|]);
      (split; [lia|exact N0]).
Qed.

Lemma search_comment_ends txt q r :
  0 <= q -> search_comment txt q = Some r -> ends_properly txt (fst r).
Proof.
  intros Hq. unfold search_comment.
  destruct (q + 1 <? len txt) eqn:L; [|discriminate].
  apply Z.ltb_lt in L.
  pose proof (slice_two txt q Hq L) as S2.
  destruct (str_eqb (slice txt q (q + 2)) (of_string "--")) eqn:E1.
  - apply str_eqb_eq in E1. rewrite S2 in E1.
    assert (C0 : char_at txt q = 45%N) by (inversion E1; reflexivity).
    assert (C1 : char_at txt (q + 1) = 45%N) by (inversion E1; reflexivity).
    destruct (re_newline (skipn (Z.to_nat (q + 2)) txt)) as [k|] eqn:R;
      intros H; apply some_inj in H; subst r; cbn.
    + apply re_newline_found in R as (B & F & N0).
      rewrite len_skipn in B by lia. rewrite char_at_skipn in F by lia.
      split; [exact C0|]. split; [exact C1|]. split; [lia|]. split.
      * intros i Hi. replace i with (q + 2 + (i - q - 2)) by lia.
        rewrite <- char_at_skipn by lia. apply N0. lia.
      * right. replace (q + (q + 2 + k - q)) with (q + 2 + k) by lia.
        exact F.
    + apply re_newline_none in R.
      split; [exact C0|]. split; [exact C1|]. split; [lia|]. split.
      * intros i Hi. replace i with (q + 2 + (i - q - 2)) by lia.
        rewrite <- char_at_skipn by lia.
        apply (Forall_char_at _ _ _ R). rewrite len_skipn by lia. lia.
      * left. lia.
  - destruct (str_eqb (slice txt q (q + 2)) (of_string "/*")) eqn:E2;
      [|discriminate].
    apply str_eqb_eq in E2. rewrite S2 in E2.
    assert (C0 : char_at txt q = 47%N) by (inversion E2; reflexivity).
    assert (C1 : char_at txt (q + 1) = 42%N) by (inversion E2; reflexivity).
    destruct (re_multiline_comment (skipn (Z.to_nat (q + 2)) txt))
      as [k|] eqn:R; intros H; apply some_inj in H; subst r; cbn.
    + apply re_multiline_comment_found in R as (B & F1 & F2).
      rewrite len_skipn in B by lia.
      rewrite char_at_skipn in F1, F2 by lia.
      split; [exact C0|]. split; [exact C1|]. split; [lia|]. split.
      * replace (q + (q + 2 + k - q) - 2) with (q + 2 + (k - 2)) by lia.
        exact F1.
      * replace (q + (q + 2 + k - q) - 1) with (q + 2 + (k - 1)) by lia.
        exact F2.
    + pose proof (re_multiline_comment_none _ R) as N0.
      split; [exact C0|]. split; [exact C1|]. split; [lia|].
      intros i Hi Hl.
      specialize (N0 (i - q - 2)).
      rewrite len_skipn in N0 by lia.
      rewrite !char_at_skipn in N0 by lia.
      replace (q + 2 + (i - q - 2)) with i in N0 by lia.
      replace (q + 2 + (i - q - 2 + 1)) with (i + 1) in N0 by lia.
      apply N0; lia.
Qed.

Lemma tok_at_ends_properly txt p :
  0 <= p <= len txt -> ends_properly txt (tok_at txt p).
Proof.
  intros Hp. unfold tok_at, _search_next.
  set (ws := fun c : char => isspace c && negb (c =? 10)%N).
  pose proof (scan_while_bounds (List.length txt) ws txt p) as [B1 B2].
  specialize (B2 (proj2 Hp)).
  set (q := scan_while (List.length txt) ws txt p) in *.
  destruct (len txt <=? q) eqn:E; [apply Z.leb_le in E; cbn; lia|].
  apply Z.leb_gt in E.
  destruct (isalpha (char_at txt q)); [exact I|].
  destruct (is_digit (char_at txt q)); [exact I|].
  destruct (char_at txt q =? 34)%N eqn:Q1.
  { apply N.eqb_eq in Q1. apply search_string_ends; auto; lia. }
  destruct (char_at txt q =? 39)%N eqn:Q2.
  { apply N.eqb_eq in Q2. apply search_string_ends; auto; lia. }
  destruct (search_comment txt q) as [r|] eqn:C.
  { eapply search_comment_ends; [|exact C]. lia. }
  unfold search_punctuation.
  destruct (dict_get _ _ _); [exact I|].
  destruct (re_operator _); exact I.
Qed.

Lemma tok_at_maximal_run txt p :
  0 <= p <= len txt -> maximal_run txt (tok_at txt p).
Proof.
  intros Hp. unfold tok_at, _search_next.
  set (ws := fun c : char => isspace c && negb (c =? 10)%N).
  pose proof (scan_while_bounds (List.length txt) ws txt p) as [B1 B2].
  specialize (B2 (proj2 Hp)).
  set (q := scan_while (List.length txt) ws txt p) in *.
  destruct (len txt <=? q) eqn:E; [exact I|].
  apply Z.leb_gt in E.
  destruct (isalpha (char_at txt q)) eqn:A.
  { cbn [fst maximal_run].
    fold is_name_char.
    change (fun c : char => isalnum c || (c =? 95)%N) with is_name_char.
    pose proof (scan_while_bounds (List.length txt) is_name_char txt (q + 1))
      as [C1 C2].
    pose proof (scan_while_exit (List.length txt) is_name_char txt (q + 1))
      as X.
    pose proof (fun i => scan_while_all (List.length txt) is_name_char txt
                                        (q + 1) i) as Al.
    set (e := scan_while (List.length txt) is_name_char txt (q + 1)) in *.
    replace (q + (e - q)) with e by lia.
    split; [exact A|]. split; [intros i Hi; apply Al; lia|].
    split; [|reflexivity].
    intros Hl. destruct X as [X|X]; [unfold len; lia|lia|exact X]. }
  destruct (is_digit (char_at txt q)) eqn:D.
  { cbn [fst maximal_run].
    change (fun c : char => is_digit c || (c =? 46)%N) with is_number_char.
    pose proof (scan_while_bounds (List.length txt) is_number_char txt
                                  (q + 1)) as [C1 C2].
    pose proof (scan_while_exit (List.length txt) is_number_char txt (q + 1))
      as X.
    pose proof (fun i => scan_while_all (List.length txt) is_number_char txt
                                        (q + 1) i) as Al.
    set (e := scan_while (List.length txt) is_number_char txt (q + 1)) in *.
    replace (q + (e - q)) with e by lia.
    split; [exact D|]. split; [intros i Hi; apply Al; lia|].
    intros Hl. destruct X as [X|X]; [unfold len; lia|lia|exact X]. }
  unfold search_string.
  destruct (char_at txt q =? 34)%N; [destruct (re_quoted _ _); exact I|].
  destruct (char_at txt q =? 39)%N; [destruct (re_quoted _ _); exact I|].
  destruct (search_comment txt q) as [r|] eqn:C.
  { unfold search_comment in C.
    repeat match type of C with
           | context [if ?b then _ else _] => destruct b
           | context [match ?x with _ => _ end] => destruct x
           end; try discriminate; apply some_inj in C; subst r; exact I. }
  unfold search_punctuation.
  destruct (dict_get _ _ _); [exact I|].
  destruct (re_operator _); exact I.
Qed.

(** X4: maximal munch.  Every name token the tokenizer emits starts at an
    alphabetic character, spans name characters only (alphanumeric or
    underscore) and is followed by none; its kind is the keyword that its
    lower-cased text names, or NON_KEYWORD.  Every number token starts at a
    digit, spans digits and dots only and is followed by neither. *)
Theorem X4_maximal_munch :
  forall txt, Forall (maximal_run txt) (all_tokens txt).
Proof.
  intros txt. apply all_tokens_Forall. apply tok_at_maximal_run.
Qed.

(** X5: how strings and comments end.  A string or block comment token
    without its end sequence runs to the end of the text, and the text
    behind its opening holds no closing quote (no [*/]); with it, a string
    token ends in its quote and a block comment in [*/].  A line comment
    holds no newline and stops in front of a newline or at the end of the
    text.  The end-of-text token sits at [len(text)] with length 0. *)
Theorem X5_string_and_comment_endings :
  forall txt, Forall (ends_properly txt) (all_tokens txt).
Proof.
  intros txt. apply all_tokens_Forall. apply tok_at_ends_properly.
Qed.


(** * No comment is lost *)

Lemma toks_len_no_comment text n :
  filter is_comment (toks text (len text) n) = [].
Proof.
  induction n as [|n IH]; [reflexivity|].
  cbn [toks]. destruct (tok_at_len text) as [E1 E2]. rewrite E1, E2.
  cbn [filter is_comment]. exact IH.
Qed.

Lemma pos_after_eos text p :
  0 <= p <= len text -> is_end_of_string (tok_at text p) = true ->
  pos_after text p = len text.
Proof.
  intros Hp E. unfold tok_at, pos_after in *.
  destruct (_search_next text p) as [t p'] eqn:Es. cbn [fst snd] in *.
  destruct (search_next_spec _ _ _ _ Hp Es) as (_ & B2 & _ & B4 & _).
  rewrite E in B4. lia.
Qed.

Lemma eos_not_comment t : is_end_of_string t = true -> is_comment t = false.
Proof. destruct t as [| | |? ? [] ?]; simpl; congruence. Qed.

Lemma toks_comments_stable text n : forall m p,
  0 <= p <= len text ->
  (Z.to_nat (len text - p) <= n)%nat -> (Z.to_nat (len text - p) <= m)%nat ->
  filter is_comment (toks text p n) = filter is_comment (toks text p m).
Proof.
  induction n as [|n IH]; intros m p Hp Hn Hm.
  - replace p with (len text) by lia.
    rewrite !toks_len_no_comment. reflexivity.
  - destruct m as [|m].
    + replace p with (len text) by lia.
      rewrite !toks_len_no_comment. reflexivity.
    + cbn [toks filter].
      pose proof (tok_at_spec text p Hp) as (A & B & C & D).
      assert (R : filter is_comment (toks text (pos_after text p) n)
                  = filter is_comment (toks text (pos_after text p) m)).
      { destruct (is_end_of_string (tok_at text p)) eqn:E.
        - rewrite (pos_after_eos _ _ Hp E), !toks_len_no_comment.
          reflexivity.
        - specialize (D eq_refl). apply IH; lia. }
      rewrite R. reflexivity.
Qed.

Lemma comments_from_step text p :
  0 <= p <= len text ->
  comments_from text p
  = (if is_comment (tok_at text p) then [tok_at text p] else [])
      ++ comments_from text (pos_after text p).
Proof.
  intros Hp. unfold comments_from. cbn [toks filter].
  pose proof (tok_at_spec text p Hp) as (A & B & C & D).
  rewrite (toks_comments_stable text (Z.to_nat (len text - p))
             (S (Z.to_nat (len text - pos_after text p)))
             (pos_after text p)) by lia.
  destruct (is_comment (tok_at text p)); reflexivity.
Qed.

Lemma comments_from_eos text p :
  0 <= p <= len text -> is_end_of_string (tok_at text p) = true ->
  comments_from text p = [].
Proof.
  intros Hp E. rewrite comments_from_step by exact Hp.
  rewrite (eos_not_comment _ E), (pos_after_eos _ _ Hp E).
  unfold comments_from. apply toks_len_no_comment.
Qed.

Lemma consume_all_comments fuel : forall tk,
  wf tk -> (remaining tk < fuel)%nat ->
  filter is_comment (consume_all fuel tk)
  = comments_from (text tk) (start_position tk).
Proof.
  induction fuel as [|fuel IH]; intros tk W Hf; [lia|].
  rewrite consume_all_S.
  destruct (consume_adv tk W) as (tk' & E & A & T & Sq & Iq & P). rewrite E.
  rewrite (comments_from_step _ _ (proj1 W)).
  destruct (is_end_of_string (tok_at (text tk) (start_position tk))) eqn:EOS.
  - cbn [filter]. rewrite (eos_not_comment _ EOS).
    rewrite (pos_after_eos _ _ (proj1 W) EOS).
    unfold comments_from. rewrite toks_len_no_comment. reflexivity.
  - specialize (P eq_refl). cbn [filter].
    rewrite (IH tk' (proj1 A)) by lia. rewrite T, Sq.
    destruct (is_comment (tok_at (text tk) (start_position tk)));
      reflexivity.
Qed.

Lemma kept_refl parent tk : kept parent tk parent tk.
Proof. reflexivity. Qed.

Lemma kept_trans p1 t1 p2 t2 p3 t3 :
  kept p1 t1 p2 t2 -> kept p2 t2 p3 t3 -> kept p1 t1 p3 t3.
Proof. unfold kept. congruence. Qed.

Lemma kept_same parent tk tk' :
  text tk' = text tk -> start_position tk' = start_position tk ->
  kept parent tk parent tk'.
Proof. unfold kept. intros -> ->. reflexivity. Qed.

Lemma kept_consume parent tk tk' :
  wf tk -> text tk' = text tk ->
  start_position tk' = pos_after (text tk) (start_position tk) ->
  is_comment (tok_at (text tk) (start_position tk)) = false ->
  kept parent tk parent tk'.
Proof.
  intros W T Sq Nc. unfold kept. rewrite T, Sq.
  rewrite (comments_from_step _ _ (proj1 W)), Nc. reflexivity.
Qed.

Lemma kept_consume_comment parent tk tk' :
  wf tk -> text tk' = text tk ->
  start_position tk' = pos_after (text tk) (start_position tk) ->
  is_comment (tok_at (text tk) (start_position tk)) = true ->
  kept parent tk
       (add_comment parent (tok_at (text tk) (start_position tk))) tk'.
Proof.
  intros W T Sq Nc. unfold kept. rewrite T, Sq.
  rewrite (comments_from_step _ _ (proj1 W)), Nc.
  cbn [add_comment ast.comments]. rewrite <- app_assoc. reflexivity.
Qed.


(** A run that returns, returns what a run with enough fuel returns, so
    what holds of runs with enough fuel holds of every run that returns. *)

Lemma get_next_standard_token_post fuel parent tk r :
  wf tk -> get_next_standard_token fuel parent tk = Some r ->
  gnst_post parent tk r.
Proof.
  intros W H.
  destruct (get_next_standard_token_spec
              (Nat.max fuel (S (remaining tk))) parent tk W)
    as (r' & E & P); [lia|].
  rewrite (get_next_standard_token_mono fuel _ (Nat.le_max_l _ _) _ _ _ H)
    in E.
  apply some_inj in E. subst r'. exact P.
Qed.

Lemma parse_expression_post fuel parent prec tk r :
  wf tk -> parse_expression fuel parent prec tk = Some r ->
  sub_post parent tk r.
Proof.
  intros W H.
  destruct (proj1 (parse_expression_total
                     (Nat.max fuel (4 * remaining tk + 4))) parent prec tk W)
    as (r' & E & P); [lia|].
  rewrite (proj1 (parse_expression_mono fuel _ (Nat.le_max_l _ _))
             _ _ _ _ H) in E.
  apply some_inj in E. subst r'. exact P.
Qed.

Lemma parse_non_binary_expression_post fuel parent tk r :
  wf tk -> parse_non_binary_expression fuel parent tk = Some r ->
  sub_post parent tk r.
Proof.
  intros W H.
  destruct (proj1 (proj2 (proj2 (parse_expression_total
                     (Nat.max fuel (4 * remaining tk + 3))))) parent tk W)
    as (r' & E & P); [lia|].
  rewrite (proj1 (proj2 (proj2 (parse_expression_mono fuel _
                                  (Nat.le_max_l _ _)))) _ _ _ H) in E.
  apply some_inj in E. subst r'. exact P.
Qed.

Lemma parse_statement_try_post fuel token ret tk res ret' tk' :
  wf tk -> token = tok_at (text tk) (start_position tk) ->
  is_comment token = false ->
  parse_statement_try fuel token ret tk = Some (res, ret', tk') ->
  adv tk tk'.
Proof.
  intros W Et Nc H.
  destruct (parse_statement_try_total
              (Nat.max fuel (4 * remaining tk + 1)) token ret tk W Et Nc)
    as (res1 & ret1 & tk1 & E & A & _); [lia|].
  rewrite (parse_statement_try_mono fuel _ (Nat.le_max_l _ _) _ _ _ _ H)
    in E.
  apply some_inj in E. inversion E; subst. exact A.
Qed.

Lemma consume_newline_semicolons_post fuel tk token' tk' :
  wf tk -> consume_newline_semicolons fuel tk = Some (token', tk') ->
  adv tk tk' /\ token' = tok_at (text tk') (start_position tk') /\
  is_newline token' = false /\ is_semicolon token' = false.
Proof.
  intros W H.
  destruct (consume_newline_semicolons_total
              (Nat.max fuel (S (remaining tk))) tk W)
    as (token1 & tk1 & E & P); [lia|].
  rewrite (consume_newline_semicolons_mono fuel _ (Nat.le_max_l _ _) _ _ H)
    in E.
  apply some_inj in E. inversion E; subst. exact P.
Qed.

(** ** The sub-parsers keep the comments *)

Lemma kept_comments a t p p' t' :
  ast.comments p' = ast.comments p -> kept a t p t' -> kept a t p' t'.
Proof. unfold kept. intros ->. auto. Qed.

Lemma newline_not_comment t : is_newline t = true -> is_comment t = false.
Proof. destruct t as [| |? ? []|]; simpl; congruence. Qed.

Lemma get_next_standard_token_loop_kept fuel :
  forall token parent tk token' parent' tk',
    wf tk -> token = tok_at (text tk) (start_position tk) ->
    get_next_standard_token_loop fuel token parent tk
      = Some (token', parent', tk') ->
    kept parent tk parent' tk'.
Proof.
  induction fuel as [|fuel IH];
    intros token parent tk token' parent' tk' W Et H; [discriminate|].
  cbn [get_next_standard_token_loop] in H.
  assert (SI : forall token1 tk1,
    wf tk1 -> token1 = tok_at (text tk1) (start_position tk1) ->
    (if is_comment token1 then
       let (_, tk2) := consume tk1 in
       let parent_statement := add_comment parent token1 in
       let (token2, tk3) := peek 1 tk2 in
       get_next_standard_token_loop fuel token2 parent_statement tk3
     else Some (token1, parent, tk1)) = Some (token', parent', tk') ->
    kept parent tk1 parent' tk').
  { intros token1 tk1 W1 E1 H1. destruct (is_comment token1) eqn:C1.
    - destruct (consume_adv tk1 W1) as (tk2 & E2 & A2 & T2 & S2 & _).
      rewrite E2 in H1.
      destruct (peek1_adv tk2 (proj1 A2)) as (tk3 & E3 & A3 & T3 & S3 & _).
      rewrite E3 in H1.
      apply IH in H1; [|exact (proj1 A3)|congruence].
      eapply kept_trans; [|exact H1].
      eapply kept_trans; [|apply (kept_same _ tk2 tk3 T3 S3)].
      rewrite E1. apply kept_consume_comment; auto.
      rewrite <- E1; exact C1.
    - apply some_inj in H1. inversion H1; subst. apply kept_refl. }
  destruct (is_newline token) eqn:N.
  - destruct (peek2_adv tk W) as (tk1 & E1 & A1 & T1 & S1 & _).
    rewrite E1 in H.
    destruct (is_newline (tok_at (text tk)
                            (pos_after (text tk) (start_position tk)))) eqn:N2.
    + apply some_inj in H. inversion H; subst. apply kept_same; auto.
    + destruct (consume_adv tk1 (proj1 A1)) as (tk2 & E2 & A2 & T2 & S2 & _).
      rewrite E2 in H.
      eapply kept_trans; [apply (kept_same _ tk tk1 T1 S1)|].
      eapply kept_trans;
        [|eapply (SI _ tk2 (proj1 A2)); [|exact H]].
      * apply kept_consume; [exact (proj1 A1)|exact T2|exact S2|].
        rewrite T1, S1, <- Et. apply newline_not_comment; exact N.
      * rewrite T2, S2, T1, S1. reflexivity.
  - eapply SI; [exact W|exact Et|exact H].
Qed.

Lemma get_next_standard_token_kept fuel parent tk token' parent' tk' :
  wf tk ->
  get_next_standard_token fuel parent tk = Some (token', parent', tk') ->
  kept parent tk parent' tk'.
Proof.
  intros W. unfold get_next_standard_token.
  destruct (peek1_adv tk W) as (tk1 & E1 & A1 & T1 & S1 & _). rewrite E1.
  intros H. apply get_next_standard_token_loop_kept in H;
    [|exact (proj1 A1)|congruence].
  eapply kept_trans; [apply (kept_same _ tk tk1 T1 S1)|exact H].
Qed.

Lemma parse_expression_kept fuel :
  (forall parent prec tk e parent' tk',
      wf tk -> parse_expression fuel parent prec tk = Some (e, parent', tk') ->
      kept parent tk parent' tk') /\
  (forall parent prec e0 tk e parent' tk',
      wf tk ->
      parse_expression_loop fuel parent prec e0 tk = Some (e, parent', tk') ->
      kept parent tk parent' tk') /\
  (forall parent tk e parent' tk',
      wf tk ->
      parse_non_binary_expression fuel parent tk = Some (e, parent', tk') ->
      kept parent tk parent' tk') /\
  (forall token parent tk r parent' tk',
      wf tk -> token = tok_at (text tk) (start_position tk) ->
      is_comment token = false ->
      parse_non_binary_try fuel token parent tk = Some (r, parent', tk') ->
      kept parent tk parent' tk').
Proof.
  induction fuel as [|fuel (IHe & IHl & IHn & IHt)];
    [repeat split; intros; discriminate|].
  split; [|split; [|split]].
  - intros parent prec tk e parent' tk' W H. cbn [parse_expression] in H.
    destruct (parse_non_binary_expression fuel parent tk)
      as [[[e1 parent1] tk1]|] eqn:E1; [|discriminate].
    pose proof (parse_non_binary_expression_post _ _ _ _ W E1) as [A1 _].
    cbn [fst snd] in A1.
    apply IHn in E1; [|exact W].
    destruct (ast.is_placeholder e1).
    + apply some_inj in H. inversion H; subst. exact E1.
    + apply IHl in H; [|exact (proj1 A1)]. eapply kept_trans; eauto.
  - intros parent prec e0 tk e parent' tk' W H.
    cbn [parse_expression_loop] in H.
    destruct (get_next_standard_token fuel parent tk)
      as [[[binop parent1] tk1]|] eqn:E1; [|discriminate].
    pose proof (get_next_standard_token_post _ _ _ _ W E1)
      as (A1 & F1 & Et & Nc & Nn).
    apply get_next_standard_token_kept in E1; [|exact W].
    destruct (binop_key binop) as [key|] eqn:K;
      [|apply some_inj in H; inversion H; subst; exact E1].
    destruct (tok.operator_to_precedence_get key (tok.comma_precedence + 1)
              >? prec);
      [apply some_inj in H; inversion H; subst; exact E1|].
    destruct (consume_adv tk1 (proj1 A1)) as (tk2 & E2 & A2 & T2 & S2 & _).
    rewrite E2 in H.
    assert (K2 : kept parent1 tk1 parent1 tk2)
      by (apply kept_consume; [exact (proj1 A1)|exact T2|exact S2|];
          rewrite <- Et; exact Nc).
    destruct (parse_expression fuel parent1
                (tok.operator_to_precedence_get key
                   (tok.comma_precedence + 1) - 1) tk2)
      as [[[e2 parent2] tk3]|] eqn:E3; [|discriminate].
    pose proof (parse_expression_post _ _ _ _ _ (proj1 A2) E3) as [A3 _].
    cbn [fst snd] in A3.
    apply IHe in E3; [|exact (proj1 A2)].
    assert (K3 : kept parent tk parent2 tk3) by eauto using kept_trans.
    destruct (ast.is_placeholder e2).
    + apply some_inj in H. inversion H; subst. exact K3.
    + apply IHl in H; [|exact (proj1 A3)]. eapply kept_trans; eauto.
  - intros parent tk e parent' tk' W H.
    cbn [parse_non_binary_expression] in H.
    destruct (get_next_standard_token fuel parent tk)
      as [[[token parent1] tk1]|] eqn:E1; [|discriminate].
    pose proof (get_next_standard_token_post _ _ _ _ W E1)
      as (A1 & F1 & Et & Nc & Nn).
    apply get_next_standard_token_kept in E1; [|exact W].
    destruct (parse_non_binary_try fuel token parent1 tk1)
      as [[[r parent2] tk2]|] eqn:E2; [|discriminate].
    apply IHt in E2; [|exact (proj1 A1)|exact Et|exact Nc].
    destruct r; apply some_inj in H; inversion H; subst;
      eapply kept_trans; eauto.
  - intros token parent tk r parent' tk' W Et Nc H.
    cbn [parse_non_binary_try] in H.
    destruct (consume_adv tk W) as (tk1 & E1 & A1 & T1 & S1 & _).
    assert (K1 : kept parent tk parent tk1)
      by (apply kept_consume; [exact W|exact T1|exact S1|];
          rewrite <- Et; exact Nc).
    destruct token as [s l ty|s l|s l ty|s l ty h].
    + destruct ty;
        try (apply some_inj in H; inversion H; subst; apply kept_refl).
      rewrite E1 in H. apply some_inj in H. inversion H; subst. exact K1.
    + rewrite E1 in H. apply some_inj in H. inversion H; subst. exact K1.
    + destruct ty;
        try (apply some_inj in H; inversion H; subst; apply kept_refl).
      rewrite E1 in H.
      destruct (parse_expression fuel parent tok.comma_precedence tk1)
        as [[[e2 parent2] tk2]|] eqn:E2; [|discriminate].
      pose proof (parse_expression_post _ _ _ _ _ (proj1 A1) E2) as [A2 _].
      cbn [fst snd] in A2.
      apply IHe in E2; [|exact (proj1 A1)].
      destruct (get_next_standard_token fuel parent2 tk2)
        as [[[token2 parent3] tk3]|] eqn:E3; [|discriminate].
      pose proof (get_next_standard_token_post _ _ _ _ (proj1 A2) E3)
        as (A3 & F3 & Et3 & Nc3 & Nn3).
      apply get_next_standard_token_kept in E3; [|exact (proj1 A2)].
      assert (K3 : kept parent tk parent3 tk3) by eauto using kept_trans.
      destruct (consume_adv tk3 (proj1 A3)) as (tk4 & E4 & A4 & T4 & S4 & _).
      assert (K4 : kept parent3 tk3 parent3 tk4)
        by (apply kept_consume; [exact (proj1 A3)|exact T4|exact S4|];
            rewrite <- Et3; exact Nc3).
      destruct token2 as [| |? ? []|]; try rewrite E4 in H;
        apply some_inj in H; inversion H; subst;
        eauto using kept_trans.
    + destruct ty; try discriminate Nc;
        try (apply some_inj in H; inversion H; subst; apply kept_refl);
        rewrite E1 in H; apply some_inj in H; inversion H; subst; exact K1.
Qed.

Lemma parse_fields_loop_kept {F : Type}
      (mk : ast.Expression -> option tok.Token -> F) ceiling fuel :
  forall parent fields tk fs parent' tk',
    wf tk ->
    parse_fields_loop mk ceiling fuel parent fields tk
      = Some (fs, parent', tk') ->
    wf tk' /\ kept parent tk parent' tk'.
Proof.
  induction fuel as [|fuel IH]; intros parent fields tk fs parent' tk' W H;
    [discriminate|].
  cbn [parse_fields_loop] in H.
  destruct (parse_expression fuel parent ceiling tk)
    as [[[e1 parent1] tk1]|] eqn:E1; [|discriminate].
  pose proof (parse_expression_post _ _ _ _ _ W E1) as [A1 _].
  cbn [fst snd] in A1.
  apply (proj1 (parse_expression_kept fuel)) in E1; [|exact W].
  destruct (get_next_standard_token fuel parent1 tk1)
    as [[[token parent2] tk2]|] eqn:E2; [|discriminate].
  pose proof (get_next_standard_token_post _ _ _ _ (proj1 A1) E2)
    as (A2 & F2 & Et2 & Nc2 & Nn2).
  apply get_next_standard_token_kept in E2; [|exact (proj1 A1)].
  destruct (if is_as token
            then let (_, tk) := consume tk2 in
                 get_next_standard_token fuel parent2 tk
            else Some (token, parent2, tk2))
    as [[[token3 parent3] tk3]|] eqn:E3; [|discriminate].
  assert (P3 : wf tk3 /\ kept parent2 tk2 parent3 tk3 /\
               token3 = tok_at (text tk3) (start_position tk3) /\
               is_comment token3 = false).
  { destruct (is_as token).
    - destruct (consume_adv tk2 (proj1 A2)) as (tk2' & Ec & Ac & Tc & Sc & _).
      rewrite Ec in E3.
      pose proof (get_next_standard_token_post _ _ _ _ (proj1 Ac) E3)
        as (Ag & Fg & Etg & Ncg & Nng).
      apply get_next_standard_token_kept in E3; [|exact (proj1 Ac)].
      split; [exact (proj1 Ag)|]. split; [|split; assumption].
      eapply kept_trans; [|exact E3].
      apply kept_consume; [exact (proj1 A2)|exact Tc|exact Sc|].
      rewrite <- Et2; exact Nc2.
    - apply some_inj in E3. inversion E3; subst.
      split; [exact (proj1 A2)|]. split; [apply kept_refl|].
      split; first [reflexivity|assumption]. }
  clear E3. destruct P3 as (W3 & K3 & Et3 & Nc3).
  destruct (if is_alias token3
            then let (_, tk) := consume tk3 in
                 match get_next_standard_token fuel parent3 tk with
                 | None => None
                 | Some (token', parent_statement, tk) =>
                   Some (fields ++ [mk e1 (Some token3)], token',
                         parent_statement, tk)
                 end
            else Some (fields ++ [mk e1 None], token3, parent3, tk3))
    as [[[[fields4 token4] parent4] tk4]|] eqn:E4; [|discriminate].
  assert (P4 : wf tk4 /\ kept parent3 tk3 parent4 tk4 /\
               token4 = tok_at (text tk4) (start_position tk4) /\
               is_comment token4 = false).
  { destruct (is_alias token3).
    - destruct (consume_adv tk3 W3) as (tk3' & Ec & Ac & Tc & Sc & _).
      rewrite Ec in E4.
      assert (Kc : kept parent3 tk3 parent3 tk3')
        by (apply kept_consume; [exact W3|exact Tc|exact Sc|];
            rewrite <- Et3; exact Nc3).
      destruct (get_next_standard_token fuel parent3 tk3')
        as [[[token' parent'0] tk'0]|] eqn:E5; [|discriminate].
      pose proof (get_next_standard_token_post _ _ _ _ (proj1 Ac) E5)
        as (Ag & Fg & Etg & Ncg & Nng).
      apply get_next_standard_token_kept in E5; [|exact (proj1 Ac)].
      apply some_inj in E4. inversion E4; subst.
      split; [exact (proj1 Ag)|].
      split; [|split; first [reflexivity|assumption]].
      eapply kept_trans; [exact Kc|exact E5].
    - apply some_inj in E4. inversion E4; subst.
      split; [exact W3|]. split; [apply kept_refl|].
      split; first [reflexivity|assumption]. }
  clear E4. destruct P4 as (W4 & K4 & Et4 & Nc4).
  assert (K04 : kept parent tk parent4 tk4) by eauto using kept_trans.
  destruct (is_comma token4).
  - destruct (consume_adv tk4 W4) as (tk5 & Ec & Ac & Tc & Sc & _).
    rewrite Ec in H.
    apply IH in H as [W5 K5]; [|exact (proj1 Ac)].
    split; [exact W5|].
    eapply kept_trans; [exact K04|].
    eapply kept_trans; [|exact K5].
    apply kept_consume; [exact W4|exact Tc|exact Sc|].
    rewrite <- Et4; exact Nc4.
  - apply some_inj in H. inversion H; subst. split; assumption.
Qed.

Lemma parse_statement_try_kept fuel token ret tk res ret' tk' :
  wf tk -> token = tok_at (text tk) (start_position tk) ->
  is_comment token = false ->
  (is_newline token = true ->
   is_newline (tok_at (text tk)
                      (pos_after (text tk) (start_position tk))) = true) ->
  parse_statement_try fuel token ret tk = Some (res, ret', tk') ->
  kept ret tk ret' tk'.
Proof.
  intros W Et Nc Nn H. unfold parse_statement_try in H.
  destruct (consume_adv tk W) as (tk1 & E1 & A1 & T1 & S1 & _).
  assert (K1 : kept ret tk ret tk1)
    by (apply kept_consume; [exact W|exact T1|exact S1|];
        rewrite <- Et; exact Nc).
  destruct token as [s l ty|s l|s l ty|s l ty h].
  - destruct ty;
      try (apply some_inj in H; inversion H; subst; apply kept_refl).
    + unfold parse_select in H. rewrite E1 in H.
      destruct (parse_fields_loop ast.mkSelectField
                  (tok.comma_precedence - 1) fuel ret [] tk1)
        as [[[fs ret1] tk2]|] eqn:E2; [|discriminate].
      apply parse_fields_loop_kept in E2 as [W2 K2]; [|exact (proj1 A1)].
      apply some_inj in H. inversion H; subst.
      eapply kept_comments; [|eapply kept_trans; eauto]. reflexivity.
    + unfold parse_from in H. rewrite E1 in H.
      destruct (parse_fields_loop ast.mkFromField dot_precedence fuel ret []
                                  tk1)
        as [[[fs ret1] tk2]|] eqn:E2; [|discriminate].
      apply parse_fields_loop_kept in E2 as [W2 K2]; [|exact (proj1 A1)].
      apply some_inj in H. inversion H; subst.
      eapply kept_comments; [|eapply kept_trans; eauto]. reflexivity.
    + unfold parse_where in H. rewrite E1 in H.
      destruct (parse_expression fuel ret (tok.comma_precedence - 1) tk1)
        as [[[e ret1] tk2]|] eqn:E2; [|discriminate].
      apply (proj1 (parse_expression_kept fuel)) in E2; [|exact (proj1 A1)].
      apply some_inj in H. inversion H; subst.
      eapply kept_comments; [|eapply kept_trans; eauto]. reflexivity.
  - apply some_inj in H; inversion H; subst; apply kept_refl.
  - destruct ty;
      try (apply some_inj in H; inversion H; subst; apply kept_refl).
    + rewrite E1 in H. apply some_inj in H. inversion H; subst.
      eapply kept_comments; [|exact K1]. reflexivity.
    + rewrite E1 in H.
      destruct (consume_adv tk1 (proj1 A1)) as (tk2 & E2 & A2 & T2 & S2 & _).
      rewrite E2 in H. apply some_inj in H. inversion H; subst.
      apply (kept_comments _ _ ret); [reflexivity|].
      eapply kept_trans; [exact K1|].
      apply kept_consume; [exact (proj1 A1)|exact T2|exact S2|].
      rewrite T1, S1. apply newline_not_comment. apply Nn. reflexivity.
  - destruct ty; apply some_inj in H; inversion H; subst;
      solve [apply kept_refl
            |apply (kept_comments _ _ ret); [reflexivity|apply kept_refl]].
Qed.

Lemma parse_statement_loop_kept fuel :
  forall prev ret tk ret' tk',
    wf tk -> parse_statement_loop fuel prev ret tk = Some (ret', tk') ->
    wf tk' /\ kept ret tk ret' tk'.
Proof.
  induction fuel as [|fuel IH]; intros prev ret tk ret' tk' W H;
    [discriminate|].
  cbn [parse_statement_loop] in H.
  destruct (get_next_standard_token fuel ret tk)
    as [[[token ret1] tk1]|] eqn:E1; [|discriminate].
  pose proof (get_next_standard_token_post _ _ _ _ W E1)
    as (A1 & F1 & Et & Nc & Nn).
  apply get_next_standard_token_kept in E1; [|exact W].
  destruct (parse_statement_try fuel token ret1 tk1)
    as [[[res ret2] tk2]|] eqn:E2; [|discriminate].
  pose proof (parse_statement_try_post _ _ _ _ _ _ _ (proj1 A1) Et Nc E2)
    as A2.
  pose proof (parse_statement_try_shape _ _ _ _ _ _ _ E2) as Sh.
  apply parse_statement_try_kept in E2; auto; [|exact (proj1 A1)].
  destruct res.
  - apply IH in H as [W3 K3]; [|exact (proj1 A2)].
    split; [exact W3|]. eauto using kept_trans.
  - apply some_inj in H. inversion H; subst.
    split; [exact (proj1 A2)|]. eauto using kept_trans.
  - destruct Sh as (_ & -> & ->).
    destruct (consume_adv tk1 (proj1 A1)) as (tk3 & E3 & A3 & T3 & S3 & _).
    rewrite E3 in H.
    destruct (parse_statement_except prev token ret1) as [ret3|] eqn:E4;
      [|discriminate].
    apply parse_statement_except_shape in E4 as (_ & _ & _ & _ & _ & C4).
    apply IH in H as [W5 K5]; [|exact (proj1 A3)].
    split; [exact W5|].
    eapply kept_trans; [exact E1|].
    eapply kept_trans; [|exact K5].
    eapply kept_comments; [exact C4|].
    apply kept_consume; [exact (proj1 A1)|exact T3|exact S3|].
    rewrite <- Et; exact Nc.
Qed.

Lemma parse_statement_kept fuel tk s tk' :
  wf tk -> parse_statement fuel tk = Some (s, tk') ->
  wf tk' /\
  ast.comments s ++ comments_from (text tk') (start_position tk')
  = comments_from (text tk) (start_position tk).
Proof.
  intros W. unfold parse_statement.
  destruct (peek1_adv tk W) as (tk1 & E1 & A1 & T1 & S1 & _). rewrite E1.
  intros H. apply parse_statement_loop_kept in H as [W2 K2];
    [|exact (proj1 A1)].
  split; [exact W2|]. unfold kept in K2. cbn [ast.comments app] in K2.
  rewrite K2, T1, S1. reflexivity.
Qed.

Lemma consume_newline_semicolons_loop_kept fuel :
  forall token tk token' tk',
    wf tk -> token = tok_at (text tk) (start_position tk) ->
    consume_newline_semicolons_loop fuel token tk = Some (token', tk') ->
    comments_from (text tk') (start_position tk')
    = comments_from (text tk) (start_position tk).
Proof.
  induction fuel as [|fuel IH]; intros token tk token' tk' W Et H;
    [discriminate|].
  cbn [consume_newline_semicolons_loop] in H.
  destruct (is_newline token || is_semicolon token) eqn:B.
  - destruct (consume_adv tk W) as (tk1 & E1 & A1 & T1 & S1 & _).
    rewrite E1 in H.
    destruct (peek1_adv tk1 (proj1 A1)) as (tk2 & E2 & A2 & T2 & S2 & _).
    rewrite E2 in H.
    apply IH in H; [|exact (proj1 A2)|congruence].
    rewrite H, T2, S2, T1, S1.
    rewrite (comments_from_step _ _ (proj1 W)), <- Et.
    assert (Nc : is_comment token = false)
      by (destruct token as [| |? ? []|]; simpl in *; congruence).
    rewrite Nc. reflexivity.
  - apply some_inj in H. inversion H; subst. reflexivity.
Qed.

Lemma consume_newline_semicolons_kept fuel tk token' tk' :
  wf tk -> consume_newline_semicolons fuel tk = Some (token', tk') ->
  comments_from (text tk') (start_position tk')
  = comments_from (text tk) (start_position tk).
Proof.
  intros W. unfold consume_newline_semicolons.
  destruct (peek1_adv tk W) as (tk1 & E1 & A1 & T1 & S1 & _). rewrite E1.
  intros H. apply consume_newline_semicolons_loop_kept in H;
    [|exact (proj1 A1)|congruence].
  rewrite H, T1, S1. reflexivity.
Qed.

Lemma parse_all_loop_kept fuel :
  forall ret tk stmts tk',
    wf tk -> parse_all_loop fuel ret tk = Some (stmts, tk') ->
    concat (map ast.comments stmts)
    = concat (map ast.comments ret)
        ++ comments_from (text tk) (start_position tk).
Proof.
  induction fuel as [|fuel IH]; intros ret tk stmts tk' W H; [discriminate|].
  cbn [parse_all_loop] in H.
  destruct (consume_newline_semicolons fuel tk) as [[token tk1]|] eqn:E1;
    [|discriminate].
  pose proof (consume_newline_semicolons_post _ _ _ _ W E1)
    as (A1 & Et & N1 & N2).
  apply consume_newline_semicolons_kept in E1; [|exact W].
  destruct (is_end_of_string token) eqn:EOS.
  - apply some_inj in H. inversion H; subst.
    rewrite <- E1, comments_from_eos, app_nil_r;
      [reflexivity|apply (proj1 A1)|exact EOS].
  - destruct (parse_statement fuel tk1) as [[s tk2]|] eqn:E2; [|discriminate].
    apply parse_statement_kept in E2 as [W2 K2]; [|exact (proj1 A1)].
    apply IH in H; [|exact W2].
    rewrite H, map_app, concat_app, <- app_assoc. cbn [map concat].
    rewrite app_nil_r, K2, E1. reflexivity.
Qed.

Lemma parseAll_comments txt stmts :
  parseAll txt = Some stmts ->
  concat (map ast.comments stmts) = filter is_comment (all_tokens txt).
Proof.
  intros E. unfold parseAll, parse_all in E.
  destruct (parse_all_loop (4 * List.length txt + 12) []
                           (Tokenizer_init txt 0)) as [[l tk']|] eqn:L;
    [|discriminate].
  cbn [option_map fst] in E. apply some_inj in E. subst l.
  apply parse_all_loop_kept in L; [|apply Tokenizer_init_wf].
  rewrite L. cbn [map concat app]. unfold all_tokens.
  rewrite consume_all_comments; [reflexivity|apply Tokenizer_init_wf|].
  unfold remaining, Tokenizer_init, len; simpl. lia.
Qed.

(** X6: no comment is lost, moved or doubled.  The comments of the
    statements that [parse_all] returns, statement after statement, are
    the comment tokens of the text, in the order of the text. *)
Theorem X6_comments_lossless :
  forall txt,
    exists stmts,
      parseAll txt = Some stmts /\
      concat (map ast.comments stmts) = filter is_comment (all_tokens txt).
Proof.
  intros txt. destruct (parseAll_spans txt) as (stmts & E & _).
  exists stmts. split; [exact E|]. apply parseAll_comments. exact E.
Qed.


(** * The formatter *)

Lemma py_slice_slice (s : str) a b :
  0 <= a -> a <= b -> b <= len s -> py_slice s a b = slice s a b.
Proof.
  intros Ha Hab Hb. unfold py_slice, py_bound.
  destruct (a <? 0) eqn:A; [apply Z.ltb_lt in A; lia|].
  destruct (b <? 0) eqn:B; [apply Z.ltb_lt in B; lia|].
  rewrite !Z.min_l by lia. reflexivity.
Qed.

Lemma slice_head (s : str) q l :
  0 <= q < len s -> 1 <= l ->
  exists rest, slice s q (q + l) = char_at s q :: rest.
Proof.
  intros Hq Hl. unfold slice, char_at.
  replace (Z.to_nat (q + l - q)) with (S (Z.to_nat (l - 1))) by lia.
  assert (L : (Z.to_nat q < List.length s)%nat) by (unfold len in Hq; lia).
  clear Hq. revert L. generalize (Z.to_nat q) as n.
  induction s as [|c s IH]; intros n L; [simpl in L; lia|].
  destruct n as [|n].
  - eexists; reflexivity.
  - simpl in L. cbn [skipn nth]. apply IH. lia.
Qed.

Lemma comment_text_not_blank txt p :
  0 <= p <= len txt -> is_comment (tok_at txt p) = true ->
  exists c rest,
    token_text txt (tok_at txt p) = c :: rest /\ is_trimmed c = false.
Proof.
  intros Hp C.
  pose proof (tok_at_spec txt p Hp) as (A1 & A2 & A3 & _).
  pose proof (tok_at_length txt p Hp) as [_ A4].
  pose proof (tok_at_ends_properly txt p Hp) as E.
  assert (NE : is_end_of_string (tok_at txt p) = false)
    by (destruct (tok_at txt p) as [| | |? ? [] ?]; simpl in *; congruence).
  specialize (A4 NE). rewrite A2 in A3.
  unfold token_text. rewrite py_slice_slice by lia.
  destruct (slice_head txt (tok.start (tok_at txt p))
                       (tok.length (tok_at txt p))) as [rest R]; [lia|lia|].
  rewrite R. exists (char_at txt (tok.start (tok_at txt p))), rest.
  split; [reflexivity|].
  destruct (tok_at txt p) as [| | |s l [] h]; try discriminate C;
    cbn [ends_properly tok.start] in *;
    destruct E as (E1 & _); rewrite E1; reflexivity.
Qed.

Lemma precedence_of_bounded op c :
  token_precedence op <= c -> c <= tok.comma_precedence ->
  precedence_of op = Return (token_precedence op).
Proof.
  intros H C.
  assert (L : token_precedence op <= tok.comma_precedence) by lia.
  clear H C.
  destruct op as [s l ty|s l|s l ty|s l ty h];
    try destruct ty; try reflexivity;
    exfalso; vm_compute in L; apply L; reflexivity.
Qed.

Lemma depth_pos e : (1 <= depth e)%nat.
Proof. destruct e; cbn [depth]; lia. Qed.

Lemma max_leb a b n :
  (Nat.max a b <=? n)%nat = ((a <=? n)%nat && (b <=? n)%nat).
Proof.
  destruct (a <=? n)%nat eqn:A, (b <=? n)%nat eqn:B; cbn [andb];
    try apply Nat.leb_le; try apply Nat.leb_gt;
    try apply Nat.leb_le in A; try apply Nat.leb_gt in A;
    try apply Nat.leb_le in B; try apply Nat.leb_gt in B; lia.
Qed.

(** [format_expression] returns a text for an expression the parser could
    have built when it finds a frame for every level of the tree, and
    raises RecursionError when it does not. *)
Lemma format_expression_result txt e : forall frames c,
  bounded e c -> c <= tok.comma_precedence ->
  if (depth e <=? frames)%nat
  then exists out, format_expression frames txt e = Return out
  else format_expression frames txt e = Raise RecursionError.
Proof.
  induction e as [t|lp e IH rp|l IHl op r IHr|s]; intros frames c B C;
    (destruct frames as [|frames]; [reflexivity|]);
    cbn [format_expression depth Nat.leb].
  - eexists; reflexivity.
  - cbn [bounded] in B. specialize (IH frames _ B (Z.le_refl _)).
    destruct (depth e <=? frames)%nat.
    + destruct IH as [o E]. rewrite E. cbn [bind]. eexists; reflexivity.
    + rewrite IH. reflexivity.
  - cbn [bounded] in B. destruct B as (B1 & B2 & B3).
    specialize (IHl frames _ B2 C).
    specialize (IHr frames _ B3 ltac:(lia)).
    rewrite max_leb.
    destruct (depth l <=? frames)%nat; cbn [andb].
    + destruct IHl as [o1 E1]. rewrite E1. cbn [bind].
      destruct (depth r <=? frames)%nat.
      * destruct IHr as [o2 E2]. rewrite E2. cbn [bind].
        rewrite (precedence_of_bounded op c B1 C). cbn [bind].
        destruct (token_precedence op <=? 2); eexists; reflexivity.
      * rewrite IHr. reflexivity.
    + rewrite IHl. reflexivity.
  - eexists; reflexivity.
Qed.

Lemma format_select_fields_result frames txt : forall l fields,
  Forall (fun f => bounded (ast.select_expression f)
                           (tok.comma_precedence - 1)) l ->
  if forallb (fun f => (depth (ast.select_expression f) <=? frames)%nat) l
  then exists out, format_select_fields frames txt fields l = Return out
  else format_select_fields frames txt fields l = Raise RecursionError.
Proof.
  induction l as [|f l IH]; intros fields H;
    cbn [format_select_fields forallb].
  - eexists; reflexivity.
  - inversion H as [|? ? Hf Hl]; subst.
    pose proof (format_expression_result txt _ frames _ Hf ltac:(lia)) as E.
    destruct (depth (ast.select_expression f) <=? frames)%nat; cbn [andb].
    + destruct E as [o E]. rewrite E. cbn [bind]. apply IH; exact Hl.
    + rewrite E. reflexivity.
Qed.

Lemma format_selects_result frames txt n : forall selects idx ret,
  Forall select_clause_ok selects ->
  if forallb
       (fun c =>
          forallb (fun f => (depth (ast.select_expression f) <=? frames)%nat)
                  (ast.select_fields c))
       selects
  then exists sfx,
         format_selects frames txt n idx ret selects = Return (ret ++ sfx)
  else format_selects frames txt n idx ret selects = Raise RecursionError.
Proof.
  induction selects as [|c l IH]; intros idx ret H;
    cbn [format_selects forallb].
  - exists []. rewrite app_nil_r. reflexivity.
  - inversion H as [|? ? Hc Hl]; subst. destruct Hc as [_ Hc].
    pose proof (format_select_fields_result frames txt _ [] Hc) as E.
    destruct (forallb _ (ast.select_fields c)); cbn [andb].
    + destruct E as [fs E]. rewrite E. cbn [bind].
      specialize (IH (idx + 1)
                     ((if idx <? n - 1
                       then (ret ++ of_string "    ")
                              ++ join (of_string ", ") fs ++ of_string ","
                       else (ret ++ of_string "    ")
                              ++ join (of_string ", ") fs) ++ [10%N]) Hl).
      destruct (forallb _ l).
      * destruct IH as [sfx E2].
        destruct (idx <? n - 1); rewrite <- ?app_assoc in *;
          rewrite E2; eexists; rewrite <- ?app_assoc; reflexivity.
      * destruct (idx <? n - 1); rewrite <- ?app_assoc in *; exact IH.
    + rewrite E. reflexivity.
Qed.

Lemma dot_precedence_le_comma : dot_precedence <= tok.comma_precedence.
Proof. vm_compute. discriminate. Qed.

Lemma seen_key_depth txt e name : seen_key txt e = Some name -> depth e = 1%nat.
Proof.
  destruct e as [t| | |]; try discriminate. intros _. reflexivity.
Qed.

(** A table name is in [seen_tables] only behind a call of
    [format_expression] that returned, so that a field is skipped only
    where that call finds a frame. *)
Lemma format_from_fields_result frames txt : forall l seen fields,
  Forall (fun f => bounded (ast.table_name f) dot_precedence) l ->
  seen = [] \/ (1 <= frames)%nat ->
  if forallb (fun f => (depth (ast.table_name f) <=? frames)%nat) l
  then exists seen' out,
         format_from_fields frames txt seen fields l = Return (seen', out) /\
         (seen' = [] \/ (1 <= frames)%nat)
  else format_from_fields frames txt seen fields l = Raise RecursionError.
Proof.
  induction l as [|f l IH]; intros seen fields H I;
    cbn [format_from_fields forallb].
  - eexists; eexists; split; [reflexivity|exact I].
  - inversion H as [|? ? Hf Hl]; subst.
    pose proof (format_expression_result txt _ frames _ Hf
                  dot_precedence_le_comma) as E.
    pose proof (depth_pos (ast.table_name f)) as P.
    destruct (seen_key txt (ast.table_name f)) as [name|] eqn:K.
    + destruct (existsb (str_eqb name) seen) eqn:X.
      * assert (F : (1 <= frames)%nat).
        { destruct I as [->|I]; [discriminate X|exact I]. }
        rewrite (seen_key_depth _ _ _ K).
        replace (1 <=? frames)%nat with true
          by (symmetry; apply Nat.leb_le; exact F).
        cbn [andb]. apply IH; [exact Hl|exact I].
      * destruct (depth (ast.table_name f) <=? frames)%nat eqn:D;
          cbn [andb].
        -- destruct E as [o E]. rewrite E. cbn [bind].
           apply IH; [exact Hl|]. right. apply Nat.leb_le in D. lia.
        -- rewrite E. reflexivity.
    + destruct (depth (ast.table_name f) <=? frames)%nat eqn:D; cbn [andb].
      * destruct E as [o E]. rewrite E. cbn [bind].
        apply IH; [exact Hl|exact I].
      * rewrite E. reflexivity.
Qed.

Lemma format_froms_result frames txt n : forall froms idx seen ret,
  Forall from_clause_ok froms ->
  seen = [] \/ (1 <= frames)%nat ->
  if forallb
       (fun c =>
          forallb (fun f => (depth (ast.table_name f) <=? frames)%nat)
                  (ast.from_fields c))
       froms
  then exists sfx,
         format_froms frames txt n idx seen ret froms = Return (ret ++ sfx)
  else format_froms frames txt n idx seen ret froms = Raise RecursionError.
Proof.
  induction froms as [|c l IH]; intros idx seen ret H I;
    cbn [format_froms forallb].
  - exists []. rewrite app_nil_r. reflexivity.
  - inversion H as [|? ? Hc Hl]; subst. destruct Hc as [_ Hc].
    pose proof (format_from_fields_result frames txt _ seen [] Hc I) as E.
    destruct (forallb _ (ast.from_fields c)); cbn [andb].
    + destruct E as (seen' & fs & E & I'). rewrite E. cbn [bind].
      specialize (IH (idx + 1) seen'
                     ((if idx <? n - 1
                       then (ret ++ of_string "    ")
                              ++ join (of_string ", ") fs ++ of_string ","
                       else (ret ++ of_string "    ")
                              ++ join (of_string ", ") fs) ++ [10%N]) Hl I').
      destruct (forallb _ l).
      * destruct IH as [sfx E2].
        destruct (idx <? n - 1); rewrite <- ?app_assoc in *;
          rewrite E2; eexists; rewrite <- ?app_assoc; reflexivity.
      * destruct (idx <? n - 1); rewrite <- ?app_assoc in *; exact IH.
    + rewrite E. reflexivity.
Qed.

Lemma format_comments_ok txt : forall comments ret,
  Forall (fun c => is_comment c = true) comments ->
  exists sfx,
    format_comments txt ret comments = Return (ret ++ sfx) /\
    match comments with
    | [] => True
    | c :: _ => exists rest, sfx = token_text txt c ++ rest
    end.
Proof.
  induction comments as [|c l IH]; intros ret H; cbn [format_comments].
  - exists []. rewrite app_nil_r. split; [reflexivity|exact I].
  - inversion H as [|? ? Hc Hl]; subst.
    destruct c as [| | |s l0 ty h]; try discriminate Hc.
    cbn [has_end_sequence bind].
    destruct (negb h);
      (edestruct IH as (sfx & E2 & _); [exact Hl|]); rewrite E2;
      eexists; (split; [rewrite <- !app_assoc; reflexivity|]);
      eexists; reflexivity.
Qed.

Lemma format_unknowns_ok txt : forall unknowns ret,
  exists sfx,
    format_unknowns txt ret unknowns = ret ++ sfx /\
    match unknowns with
    | [] => True
    | _ :: _ => exists rest, sfx = 45%N :: rest
    end.
Proof.
  induction unknowns as [|u l IH]; intros ret; cbn [format_unknowns].
  - exists []. rewrite app_nil_r. split; [reflexivity|exact I].
  - edestruct IH as (sfx & E2 & _). rewrite E2.
    eexists. split; [rewrite <- !app_assoc; reflexivity|].
    eexists; reflexivity.
Qed.

Lemma py_get_from_end (ret : str) k :
  py_get ret (- Z.of_nat k - 1)
  = if (k <? List.length ret)%nat then Some (nth k (rev ret) 0%N) else None.
Proof.
  unfold py_get, len.
  destruct (k <? List.length ret)%nat eqn:K.
  - apply Nat.ltb_lt in K.
    assert (B : (- Z.of_nat (List.length ret) <=? - Z.of_nat k - 1)
                && (- Z.of_nat k - 1 <? Z.of_nat (List.length ret)) = true).
    { apply andb_true_iff. split; [apply Z.leb_le|apply Z.ltb_lt]; lia. }
    rewrite B.
    assert (N : (- Z.of_nat k - 1 <? 0) = true) by (apply Z.ltb_lt; lia).
    rewrite N. unfold char_at. rewrite rev_nth by exact K.
    do 2 f_equal. lia.
  - apply Nat.ltb_ge in K.
    assert (B : (- Z.of_nat (List.length ret) <=? - Z.of_nat k - 1) = false)
      by (apply Z.leb_gt; lia).
    rewrite B. reflexivity.
Qed.

Lemma skipn_nth_cons (l : str) : forall k,
  (k < List.length l)%nat -> skipn k l = nth k l 0%N :: skipn (S k) l.
Proof.
  induction l as [|c l IH]; intros k H; [simpl in H; lia|].
  destruct k as [|k]; [reflexivity|].
  simpl in H. cbn [skipn nth]. rewrite IH by lia. reflexivity.
Qed.

Lemma trim_loop_found (ret : str) : forall n k fuel,
  (k + n = List.length ret)%nat -> (n < fuel)%nat ->
  (exists c, In c (skipn k (rev ret)) /\ is_trimmed c = false) ->
  exists j, trim_loop fuel ret (- Z.of_nat k - 1) = Some (Return j).
Proof.
  induction n as [|n IH]; intros k fuel Hk Hf (c & Hc & Tc).
  - rewrite skipn_all2 in Hc by (rewrite length_rev; lia). destruct Hc.
  - destruct fuel as [|fuel]; [lia|]. cbn [trim_loop].
    rewrite py_get_from_end.
    assert (K : (k <? List.length ret)%nat = true)
      by (apply Nat.ltb_lt; lia).
    rewrite K.
    rewrite skipn_nth_cons in Hc by (rewrite length_rev; lia).
    fold (is_trimmed (nth k (rev ret) 0%N)).
    destruct (is_trimmed (nth k (rev ret) 0%N)) eqn:T.
    + replace (- Z.of_nat k - 1 - 1) with (- Z.of_nat (S k) - 1) by lia.
      apply IH; [lia|lia|].
      exists c. split; [|exact Tc].
      destruct Hc as [Hc|Hc]; [congruence|exact Hc].
    + eexists; reflexivity.
Qed.

Lemma trim_loop_not_blank (ret : str) :
  (exists c, In c ret /\ is_trimmed c = false) ->
  exists j, trim_loop (S (List.length ret)) ret (-1) = Some (Return j).
Proof.
  intros (c & Hc & Tc).
  apply (trim_loop_found ret (List.length ret) 0); [lia|lia|].
  exists c. split; [|exact Tc]. cbn [skipn]. apply in_rev in Hc. exact Hc.
Qed.

Lemma format_wheres_result frames txt : forall wheres idx ret,
  Forall where_clause_ok wheres ->
  if forallb (fun c => (depth (ast.where_expression c) <=? frames)%nat)
             wheres
  then exists out, format_wheres frames txt idx ret wheres = Return out
  else format_wheres frames txt idx ret wheres = Raise RecursionError.
Proof.
  induction wheres as [|w l IH]; intros idx ret H;
    cbn [format_wheres forallb].
  - eexists; reflexivity.
  - inversion H as [|? ? Hw Hl]; subst. unfold where_clause_ok in Hw.
    pose proof (format_expression_result txt _ frames _ Hw ltac:(lia)) as E.
    assert (P : exists b,
               binds_looser_than_and (ast.where_expression w) = Return b).
    { destruct (ast.where_expression w) as [t|lp e rp|a op b|s];
        cbn [binds_looser_than_and]; try (eexists; reflexivity).
      cbn [bounded] in Hw. destruct Hw as (B1 & _).
      rewrite (precedence_of_bounded op _ B1) by lia.
      cbn [bind tok.operator_to_precedence]. eexists; reflexivity. }
    destruct P as [b Eb]. rewrite Eb. cbn [bind].
    destruct (depth (ast.where_expression w) <=? frames)%nat; cbn [andb].
    + destruct E as [o E]. rewrite E. cbn [bind]. apply IH; exact Hl.
    + rewrite E. reflexivity.
Qed.

Lemma select_header_not_blank s :
  ast.selects s <> [] \/ ast.froms s <> [] ->
  exists rest, select_header s = 83%N :: rest.
Proof.
  unfold select_header. intros H.
  destruct (ast.selects s); [|eexists; reflexivity].
  destruct (ast.froms s); [|eexists; reflexivity].
  destruct H as [H|H]; contradiction.
Qed.

Lemma list_max_leb l n :
  (list_max l <=? n)%nat = forallb (fun k => (k <=? n)%nat) l.
Proof.
  induction l as [|k l IH]; [reflexivity|].
  cbn [list_max fold_right forallb]. fold (list_max l).
  rewrite max_leb, IH. reflexivity.
Qed.

Lemma forallb_map {A B : Type} (f : A -> B) p l :
  forallb p (map f l) = forallb (fun x => p (f x)) l.
Proof.
  induction l as [|x l IH]; [reflexivity|].
  cbn [map forallb]. rewrite IH. reflexivity.
Qed.

Lemma forallb_flat_map {A B : Type} (f : A -> list B) p l :
  forallb p (flat_map f l) = forallb (fun x => forallb p (f x)) l.
Proof.
  induction l as [|x l IH]; [reflexivity|].
  cbn [flat_map forallb]. rewrite forallb_app, IH. reflexivity.
Qed.

Lemma forallb_eq {A : Type} (p q : A -> bool) l :
  (forall x, p x = q x) -> forallb p l = forallb q l.
Proof.
  intros H. induction l as [|x l IH]; [reflexivity|].
  cbn [forallb]. rewrite H, IH. reflexivity.
Qed.

(** A stack has a frame for every level of every expression of a
    statement when it has them for its select fields, for its table names
    and for its where conditions. *)
Lemma statement_depth_leb s frames :
  (statement_depth s <=? frames)%nat
  = (forallb
       (fun c =>
          forallb (fun f => (depth (ast.select_expression f) <=? frames)%nat)
                  (ast.select_fields c))
       (ast.selects s)
     && (forallb
           (fun c =>
              forallb (fun f => (depth (ast.table_name f) <=? frames)%nat)
                      (ast.from_fields c))
           (ast.froms s)
         && forallb (fun c => (depth (ast.where_expression c) <=? frames)%nat)
                    (ast.wheres s))).
Proof.
  unfold statement_depth, statement_expressions.
  rewrite list_max_leb, forallb_map, !forallb_app, !forallb_flat_map.
  rewrite forallb_map.
  f_equal; [|f_equal];
    apply forallb_eq; intros c; rewrite forallb_map; reflexivity.
Qed.

(** What [format_statement] does with a statement whose expressions the
    parser could have built and whose comments have a text that is not
    blank. *)
Lemma format_statement_result txt frames s :
  statement_ok s ->
  Forall (fun c => is_comment c = true /\
                   exists ch rest, token_text txt c = ch :: rest /\
                                   is_trimmed ch = false)
         (ast.comments s) ->
  if where_only s
  then format_statement (S frames) txt s = Some (Raise IndexError)
  else if (statement_depth s <=? frames)%nat
       then exists out, format_statement (S frames) txt s = Some (Return out)
       else format_statement (S frames) txt s = Some (Raise RecursionError).
Proof.
  intros (Os & Of & Ow) Hc.
  destruct (where_only s) eqn:Wo.
  - unfold where_only in Wo. unfold format_statement, format_clauses.
    unfold select_header, from_header.
    destruct (ast.comments s); [|discriminate].
    destruct (ast.unknowns s); [|discriminate].
    destruct (ast.selects s); [|discriminate].
    destruct (ast.froms s); [|discriminate].
    reflexivity.
  - rewrite statement_depth_leb.
    unfold format_statement, format_clauses.
    assert (Hc1 : Forall (fun c => is_comment c = true) (ast.comments s))
      by (eapply Forall_impl; [|exact Hc]; intros c [C _]; exact C).
    destruct (format_comments_ok txt _ [] Hc1) as (s1 & E1 & P1).
    rewrite E1. cbn [bind].
    destruct (format_unknowns_ok txt (ast.unknowns s) ([] ++ s1))
      as (s2 & E2 & P2).
    rewrite E2.
    pose proof (format_selects_result frames txt
                  (Z.of_nat (List.length (ast.selects s))) (ast.selects s) 0
                  ((([] ++ s1) ++ s2) ++ select_header s) Os) as E4.
    destruct (forallb _ (ast.selects s)); cbn [andb];
      [|rewrite E4; reflexivity].
    destruct E4 as (s4 & E4). rewrite E4. cbn [bind].
    pose proof (format_froms_result frames txt
                  (Z.of_nat (List.length (ast.froms s))) (ast.froms s) 0 []
                  ((((([] ++ s1) ++ s2) ++ select_header s) ++ s4)
                     ++ from_header s) Of (or_introl eq_refl)) as E6.
    destruct (forallb _ (ast.froms s)); cbn [andb];
      [|rewrite E6; reflexivity].
    destruct E6 as (s6 & E6). rewrite E6.
    assert (NB : exists c,
      In c (((((([] ++ s1) ++ s2) ++ select_header s) ++ s4)
               ++ from_header s) ++ s6) /\ is_trimmed c = false).
    { unfold where_only in Wo.
      destruct (ast.comments s) as [|c0 cs] eqn:C0.
      - destruct (ast.unknowns s) as [|u0 us] eqn:U0.
        + destruct (select_header_not_blank s) as [rest R].
          { destruct (ast.selects s); [|left; discriminate].
            destruct (ast.froms s); [discriminate|right; discriminate]. }
          exists 83%N. split; [|reflexivity].
          rewrite R, !in_app_iff. cbn [In]. auto 10.
        + destruct P2 as [rest R]. exists 45%N. split; [|reflexivity].
          rewrite R, !in_app_iff. cbn [In]. auto 10.
      - destruct P1 as [rest R]. inversion Hc as [|? ? [_ Hc0] _]; subst.
        destruct Hc0 as (ch & rest' & T & NT).
        exists ch. split; [|exact NT].
        rewrite T, !in_app_iff. cbn [In]. auto 10. }
    destruct (trim_loop_not_blank _ NB) as [j Ej]. rewrite Ej.
    pose proof (format_wheres_result frames txt (ast.wheres s) 0
                (py_slice ((((((([] ++ s1) ++ s2) ++ select_header s) ++ s4)
                              ++ from_header s) ++ s6)) 0 (j + 1) ++ [10%N])
                Ow) as Eo.
    destruct (forallb _ (ast.wheres s)).
    + destruct Eo as [out Eo]. rewrite Eo. exists out. reflexivity.
    + rewrite Eo. reflexivity.
Qed.

(** X7: [format_statement] on the statements that [parse_all] returns,
    called where the stack can take [S frames] more calls (with none it
    raises RecursionError).  It raises no KeyError and no AttributeError.
    It raises IndexError, from the loop that trims the text built so far,
    for exactly the statements that hold no comment, no unknown sequence,
    no select clause and no from clause.  For every other statement it
    returns a text when the [frames] behind its own are as many as the
    levels of the deepest expression of the statement, and raises
    RecursionError when they are fewer. *)
Theorem X7_format_statement_fails_on_where_only :
  forall txt frames,
    exists stmts,
      parseAll txt = Some stmts /\
      Forall (fun s =>
                format_statement 0 txt s = Some (Raise RecursionError) /\
                if where_only s
                then format_statement (S frames) txt s
                     = Some (Raise IndexError)
                else if (statement_depth s <=? frames)%nat
                     then exists out,
                            format_statement (S frames) txt s
                            = Some (Return out)
                     else format_statement (S frames) txt s
                          = Some (Raise RecursionError))
             stmts.
Proof.
  intros txt frames. destruct (parseAll_ok txt) as (stmts & E & OK).
  exists stmts. split; [exact E|].
  pose proof (parseAll_comments txt stmts E) as C.
  apply Forall_forall. intros s Hs. split; [reflexivity|].
  apply format_statement_result;
    [exact (proj1 (Forall_forall _ _) OK s Hs)|].
  apply Forall_forall. intros c Hc.
  assert (In1 : In c (concat (map ast.comments stmts))).
  { apply in_concat. exists (ast.comments s). split; [|exact Hc].
    apply in_map. exact Hs. }
  rewrite C in In1. apply filter_In in In1 as [In1 Cc].
  split; [exact Cc|].
  pose proof (all_tokens_Forall
                (fun t => is_comment t = true ->
                          exists ch rest, token_text txt t = ch :: rest /\
                                          is_trimmed ch = false) txt
                (comment_text_not_blank txt)) as F.
  exact (proj1 (Forall_forall _ _) F c In1 Cc).
Qed.


(** * Autocomplete *)

Lemma dict_get_columns (d : list (str * list str)) k x :
  In x (dict_get d k []) ->
  exists columns, In columns (map snd d) /\ In x columns.
Proof.
  induction d as [|[k0 v] d IH]; cbn [dict_get]; intros H; [destruct H|].
  destruct (str_eqb k0 k).
  - exists v. split; [left; reflexivity|exact H].
  - destruct (IH H) as (columns & I1 & I2).
    exists columns. split; [right; exact I1|exact I2].
Qed.

Lemma suggestions_sound table_to_column tables_in_play predot_name name :
  Forall (fun x => startswith x name = true /\
                   known_name table_to_column tables_in_play x)
         (suggestions table_to_column tables_in_play predot_name name).
Proof.
  apply Forall_forall. intros x Hx. unfold suggestions in Hx.
  destruct predot_name as [pd|].
  - apply in_flat_map in Hx as (entry & He & Hx).
    destruct (other_table pd entry); [destruct Hx|].
    apply filter_In in Hx as [Hx S]. split; [exact S|].
    right; left. exact (dict_get_columns _ _ _ Hx).
  - apply in_app_iff in Hx as [Hx|Hx].
    + apply in_flat_map in Hx as ([t a] & He & Hx). cbn [snd] in Hx.
      destruct a as [a|]; [|destruct Hx].
      destruct (startswith a name) eqn:S; [|destruct Hx].
      destruct Hx as [<-|[]]. split; [exact S|].
      right; right. exists t. exact He.
    + apply filter_In in Hx as [Hx S]. split; [exact S|].
      right; left. apply in_flat_map in Hx as (entry & He & Hx).
      exact (dict_get_columns _ _ _ Hx).
Qed.

Lemma extract_name_cursor text token cursor name :
  extract_name_from_token text token (Some cursor) = Some name ->
  tok.start token <= cursor <= tok.start token + tok.length token.
Proof.
  unfold extract_name_from_token. cbv zeta.
  destruct ((tok.start token <=? cursor)
            && (cursor <=? tok.start token + tok.length token)) eqn:B;
    [|discriminate].
  intros _. apply andb_true_iff in B as [B1 B2].
  apply Z.leb_le in B1, B2. lia.
Qed.

Lemma suggest_in_expression_sound table_to_column text cursor tables_in_play :
  forall e predot_name r,
    suggest_in_expression table_to_column text cursor e tables_in_play
                          predot_name = Some r ->
    exists token name,
      In token (leaves e) /\
      extract_name_from_token text token (Some cursor) = Some name /\
      Forall (fun x => startswith x name = true /\
                       known_name table_to_column tables_in_play x) r.
Proof.
  induction e as [t|lp e IH rp|l IHl op r0 IHr|s]; intros predot_name r H;
    cbn [suggest_in_expression leaves] in *.
  - destruct (extract_name_from_token text t (Some cursor)) as [name|] eqn:E;
      [|discriminate].
    apply some_inj in H. subst r. exists t, name.
    split; [left; reflexivity|]. split; [exact E|apply suggestions_sound].
  - apply IH in H. exact H.
  - destruct (suggest_in_expression table_to_column text cursor l
                                    tables_in_play None) as [sl|] eqn:El.
    + apply some_inj in H. subst sl.
      apply IHl in El as (token & name & I1 & E & F).
      exists token, name. split; [apply in_or_app; left; exact I1|].
      split; assumption.
    + apply IHr in H as (token & name & I1 & E & F).
      exists token, name. split; [apply in_or_app; right; exact I1|].
      split; assumption.
  - discriminate.
Qed.

Lemma suggest_in_from_sound table_to_column text cursor tables_in_play e r :
  suggest_in_from table_to_column text cursor e = Some r ->
  exists token name,
    In token (leaves e) /\
    extract_name_from_token text token (Some cursor) = Some name /\
    Forall (fun x => startswith x name = true /\
                     known_name table_to_column tables_in_play x) r.
Proof.
  unfold suggest_in_from. destruct e as [t| | |]; try discriminate.
  destruct (extract_name_from_token text t (Some cursor)) as [name|] eqn:E;
    [|discriminate].
  intros H. apply some_inj in H. subst r. exists t, name.
  split; [left; reflexivity|]. split; [exact E|].
  apply Forall_forall. intros x Hx. apply filter_In in Hx as [Hx S].
  split; [exact S|]. left. exact Hx.
Qed.

Lemma first_suggestion_some {A : Type} (f : A -> option (list str)) l r :
  first_suggestion f l = Some r -> exists x, In x l /\ f x = Some r.
Proof.
  induction l as [|x l IH]; cbn [first_suggestion]; [discriminate|].
  destruct (f x) as [s|] eqn:E.
  - intros H. apply some_inj in H. subst s.
    exists x. split; [left; reflexivity|exact E].
  - intros H. destruct (IH H) as (y & I1 & E1).
    exists y. split; [right; exact I1|exact E1].
Qed.

Lemma suggest_in_statement_sound table_to_column text s cursor r :
  suggest_in_statement table_to_column text s cursor = Some r ->
  exists e token name,
    In e (statement_expressions s) /\ In token (leaves e) /\
    extract_name_from_token text token (Some cursor) = Some name /\
    Forall (fun x => startswith x name = true /\
                     known_name table_to_column
                                (get_tables_and_aliases text s) x) r.
Proof.
  unfold suggest_in_statement, statement_expressions. cbv zeta.
  destruct (first_suggestion _ (ast.selects s)) as [r1|] eqn:E1.
  - intros H. apply some_inj in H. subst r1.
    apply first_suggestion_some in E1 as (c & Ic & E1).
    apply first_suggestion_some in E1 as (f & If & E1).
    apply suggest_in_expression_sound in E1 as (token & name & I1 & E & F).
    exists (ast.select_expression f), token, name.
    split; [|split; [exact I1|split; assumption]].
    apply in_or_app. left. apply in_flat_map. exists c.
    split; [exact Ic|apply in_map; exact If].
  - destruct (first_suggestion _ (ast.froms s)) as [r2|] eqn:E2.
    + intros H. apply some_inj in H. subst r2.
      apply first_suggestion_some in E2 as (c & Ic & E2).
      apply first_suggestion_some in E2 as (f & If & E2).
      apply (suggest_in_from_sound _ _ _ (get_tables_and_aliases text s))
        in E2 as (token & name & I1 & E & F).
      exists (ast.table_name f), token, name.
      split; [|split; [exact I1|split; assumption]].
      apply in_or_app. right. apply in_or_app. left.
      apply in_flat_map. exists c.
      split; [exact Ic|apply in_map; exact If].
    + intros H. apply first_suggestion_some in H as (w & Iw & E3).
      apply suggest_in_expression_sound in E3 as (token & name & I1 & E & F).
      exists (ast.where_expression w), token, name.
      split; [|split; [exact I1|split; assumption]].
      apply in_or_app. right. apply in_or_app. right.
      apply in_map. exact Iw.
Qed.

(** X8: where suggestions come from and what they are.  When [suggest]
    returns a list, the cursor lies in the span of one of the statements,
    ends included, and in or at the end of a value token of one of its
    select fields, table names or where conditions; and every suggestion
    starts with the name read from that token in front of the cursor, and
    is a table or a column of [table_to_column] or an alias of a table of
    that statement.  So outside every statement, and away from every name
    and double-quoted string, [suggest] returns [None]. *)
Theorem X8_suggestions_are_known_names :
  forall table_to_column text statements cursor r,
    suggest table_to_column text statements cursor = Some r ->
    exists statement e token name,
      In statement statements /\
      ast.start statement <= cursor
        <= ast.start statement + ast.length statement /\
      In e (statement_expressions statement) /\ In token (leaves e) /\
      tok.start token <= cursor <= tok.start token + tok.length token /\
      extract_name_from_token text token (Some cursor) = Some name /\
      Forall (fun x => startswith x name = true /\
                       known_name table_to_column
                         (get_tables_and_aliases text statement) x) r.
Proof.
  intros table_to_column text statements cursor r.
  induction statements as [|s l IH]; cbn [suggest]; [discriminate|].
  assert (T : suggest table_to_column text l cursor = Some r ->
              exists statement e token name,
                In statement (s :: l) /\
                ast.start statement <= cursor
                  <= ast.start statement + ast.length statement /\
                In e (statement_expressions statement) /\
                In token (leaves e) /\
                tok.start token <= cursor
                  <= tok.start token + tok.length token /\
                extract_name_from_token text token (Some cursor)
                  = Some name /\
                Forall (fun x => startswith x name = true /\
                                 known_name table_to_column
                                   (get_tables_and_aliases text statement) x)
                       r).
  { intros H. destruct (IH H) as (st & e & token & name & I1 & R).
    exists st, e, token, name. split; [right; exact I1|exact R]. }
  destruct ((ast.start s <=? cursor)
            && (cursor <=? ast.start s + ast.length s)) eqn:B; [|exact T].
  destruct (suggest_in_statement table_to_column text s cursor) as [r1|] eqn:E;
    [|exact T].
  intros H. apply some_inj in H. subst r1.
  apply suggest_in_statement_sound in E as (e & token & name & I1 & I2 & E & F).
  apply andb_true_iff in B as [B1 B2]. apply Z.leb_le in B1, B2.
  exists s, e, token, name. split; [left; reflexivity|].
  split; [lia|]. split; [exact I1|]. split; [exact I2|].
  split; [exact (extract_name_cursor _ _ _ _ E)|]. split; assumption.
Qed.

(** ** The name in front of the cursor *)

Lemma startswith_app p : forall rest, startswith (p ++ rest) p = true.
Proof.
  induction p as [|c p IH]; intros rest; [destruct rest; reflexivity|].
  cbn [app startswith]. rewrite N.eqb_refl. apply IH.
Qed.

Lemma firstn_prefix (l : str) n m :
  (n <= m)%nat -> exists rest, firstn m l = firstn n l ++ rest.
Proof.
  intros H. exists (skipn n (firstn m l)).
  rewrite <- (firstn_skipn n (firstn m l)) at 1.
  rewrite firstn_firstn, Nat.min_l by exact H. reflexivity.
Qed.

Lemma py_slice_prefix (s : str) a c e :
  0 <= a -> a <= c -> c <= e ->
  exists rest, py_slice s a e = py_slice s a c ++ rest.
Proof.
  intros Ha Hac Hce. unfold py_slice, slice, py_bound.
  assert (A : (a <? 0) = false) by (apply Z.ltb_ge; lia).
  assert (C : (c <? 0) = false) by (apply Z.ltb_ge; lia).
  assert (E : (e <? 0) = false) by (apply Z.ltb_ge; lia).
  rewrite A, C, E. apply firstn_prefix. lia.
Qed.

Lemma py_slice_empty (s : str) a c :
  0 <= c -> c <= a -> py_slice s a c = [].
Proof.
  intros Hc Hca. unfold py_slice, slice, py_bound.
  assert (A : (a <? 0) = false) by (apply Z.ltb_ge; lia).
  assert (C : (c <? 0) = false) by (apply Z.ltb_ge; lia).
  rewrite A, C.
  replace (Z.to_nat (Z.min c (len s) - Z.min a (len s))) with O by lia.
  reflexivity.
Qed.

Lemma startswith_nil (s : str) : startswith s [] = true.
Proof. destruct s; reflexivity. Qed.

Lemma py_slice_removelast (x : str) :
  x <> [] -> py_slice x 0 (-1) = removelast x.
Proof.
  intros N. unfold py_slice, py_bound, slice.
  cbn [Z.ltb Z.compare]. pose proof (len_nonneg x).
  assert (L : 1 <= len x).
  { destruct x as [|c x]; [contradiction|].
    rewrite len_cons. pose proof (len_nonneg x). lia. }
  rewrite Z.min_l, Z.max_l by lia.
  cbn [Z.to_nat skipn]. rewrite removelast_firstn_len.
  f_equal. unfold len in *. lia.
Qed.

Lemma strip_quote_front (a : str) : exists rest, a = strip_quote a ++ rest.
Proof.
  unfold strip_quote. destruct a as [|c a]; [exists []; reflexivity|].
  assert (N : c :: a <> []) by discriminate.
  destruct (py_get (c :: a) (-1)) as [q|];
    [|exists []; rewrite app_nil_r; reflexivity].
  destruct (q =? 34)%N; [|exists []; rewrite app_nil_r; reflexivity].
  rewrite (py_slice_removelast _ N).
  exists [last (c :: a) 0%N]. apply app_removelast_last. exact N.
Qed.

Lemma strip_quote_back (b : str) :
  b <> [] -> exists rest, strip_quote b = removelast b ++ rest.
Proof.
  intros N. unfold strip_quote.
  assert (K : exists rest, b = removelast b ++ rest)
    by (exists [last b 0%N]; apply app_removelast_last; exact N).
  destruct (py_get b (-1)) as [q|]; [|exact K].
  destruct (q =? 34)%N; [|exact K].
  rewrite (py_slice_removelast _ N). exists []. rewrite app_nil_r.
  reflexivity.
Qed.

Lemma strip_quote_prefix (a b : str) :
  (exists rest, b = a ++ rest) ->
  exists rest, strip_quote b = strip_quote a ++ rest.
Proof.
  intros [rest ->].
  destruct rest as [|r0 rest].
  - rewrite app_nil_r. exists []. rewrite app_nil_r. reflexivity.
  - destruct (strip_quote_front a) as [ra SA].
    destruct (strip_quote_back (a ++ r0 :: rest)) as [rb RB];
      [destruct a; discriminate|].
    rewrite RB. rewrite removelast_app by discriminate.
    exists (ra ++ removelast (r0 :: rest) ++ rb).
    rewrite (app_assoc (strip_quote a) ra), <- SA, <- app_assoc.
    reflexivity.
Qed.

(** X9: the name that autocomplete reads in front of the cursor is the
    beginning of the name it reads from the whole token: for a name token
    the text up to the cursor, for a double-quoted string the text between
    the opening quote and the cursor, less a quote at its end. *)
Theorem X9_name_in_front_of_cursor :
  forall text token cursor name,
    0 <= tok.start token ->
    extract_name_from_token text token (Some cursor) = Some name ->
    exists full,
      extract_name_from_token text token None = Some full /\
      startswith full name = true.
Proof.
  intros text token cursor name Hs H.
  pose proof (extract_name_cursor _ _ _ _ H) as [C1 C2].
  unfold extract_name_from_token in *. cbv zeta in *.
  assert (B : (tok.start token <=? cursor)
              && (cursor <=? tok.start token + tok.length token) = true).
  { apply andb_true_iff. split; apply Z.leb_le; lia. }
  rewrite B in H.
  destruct token as [s l ty|s l|s l ty|s l ty h]; try discriminate;
    destruct ty; try discriminate; cbn [tok.start tok.length] in *;
    apply some_inj in H; subst name.
  - destruct (py_slice_prefix text s cursor (s + l) Hs C1 C2) as [rest R].
    eexists. split; [reflexivity|]. rewrite R. apply startswith_app.
  - destruct (Z.eq_dec cursor s) as [->|Ne].
    + rewrite (py_slice_empty text (s + 1) s) by lia.
      eexists. split; [reflexivity|]. apply startswith_nil.
    + destruct (py_slice_prefix text (s + 1) cursor (s + l)) as [rest R];
        [lia|lia|lia|].
      destruct (strip_quote_prefix _ _ (ex_intro _ rest R)) as [rest' R'].
      eexists. split; [reflexivity|]. rewrite R'. apply startswith_app.
Qed.


(** * Where the parser puts what it reads *)

Lemma tokens_from_bounds l : forall lo hi, tokens_from lo l hi -> lo <= hi.
Proof.
  induction l as [|t l IH]; intros lo hi H; cbn [tokens_from] in H; [exact H|].
  destruct H as (A & B & C). apply IH in C. lia.
Qed.

Lemma tokens_from_weaken l : forall lo lo' hi hi',
  tokens_from lo l hi -> lo' <= lo -> hi <= hi' -> tokens_from lo' l hi'.
Proof.
  induction l as [|t l IH]; intros lo lo' hi hi' H L R;
    cbn [tokens_from] in *; [lia|].
  destruct H as (A & B & C). split; [lia|]. split; [exact B|].
  eapply IH; [exact C|lia|exact R].
Qed.

Lemma tokens_from_app l1 : forall l2 lo mid hi,
  tokens_from lo l1 mid -> tokens_from mid l2 hi ->
  tokens_from lo (l1 ++ l2) hi.
Proof.
  induction l1 as [|t l1 IH]; intros l2 lo mid hi H1 H2;
    cbn [tokens_from app] in *.
  - eapply tokens_from_weaken; [exact H2|exact H1|lia].
  - destruct H1 as (A & B & C). split; [exact A|]. split; [exact B|].
    eapply IH; eauto.
Qed.

Lemma tokens_from_app_inv l1 : forall l2 lo hi,
  tokens_from lo (l1 ++ l2) hi ->
  exists mid, tokens_from lo l1 mid /\ tokens_from mid l2 hi.
Proof.
  induction l1 as [|t l1 IH]; intros l2 lo hi H; cbn [tokens_from app] in *.
  - exists lo. split; [lia|exact H].
  - destruct H as (A & B & C). destruct (IH _ _ _ C) as (mid & M1 & M2).
    exists mid. split; [|exact M2]. split; [exact A|]. split; assumption.
Qed.

(** The token a [consume] returns, between the positions in front of it
    and behind it. *)
Lemma tokens_from_consumed tk tk' :
  wf tk -> start_position tk' = pos_after (text tk) (start_position tk) ->
  tokens_from (start_position tk) [tok_at (text tk) (start_position tk)]
              (start_position tk').
Proof.
  intros W Sq.
  pose proof (tok_at_spec _ _ (proj1 W)) as (A & B & C & _).
  pose proof (tok_at_length _ _ (proj1 W)) as [L _].
  cbn [tokens_from]. rewrite Sq. lia.
Qed.

Lemma grown_refl parent tk : grown parent tk parent tk.
Proof.
  exists []. rewrite app_nil_r. split; [reflexivity|].
  cbn [tokens_from]. lia.
Qed.

Lemma grown_trans p1 t1 p2 t2 p3 t3 :
  grown p1 t1 p2 t2 -> grown p2 t2 p3 t3 -> grown p1 t1 p3 t3.
Proof.
  intros (e1 & E1 & T1) (e2 & E2 & T2). exists (e1 ++ e2).
  split; [rewrite E2, E1, app_assoc; reflexivity|].
  eapply tokens_from_app; eauto.
Qed.

Lemma grown_moved parent tk parent' tk' :
  ast.comments parent' = ast.comments parent ->
  start_position tk <= start_position tk' ->
  grown parent tk parent' tk'.
Proof.
  intros C L. exists []. rewrite app_nil_r. split; [exact C|exact L].
Qed.

Lemma grown_adv parent tk tk' : adv tk tk' -> grown parent tk parent tk'.
Proof. intros (_ & _ & L & _). apply grown_moved; [reflexivity|exact L]. Qed.

Lemma grown_comments a t p p' t' :
  ast.comments p' = ast.comments p -> grown a t p t' -> grown a t p' t'.
Proof. intros C (e & E & T). exists e. rewrite C. split; assumption. Qed.

Lemma grown_tokens p0 parent tk parent' tk' :
  grown parent tk parent' tk' ->
  tokens_from p0 (ast.comments parent) (start_position tk) ->
  tokens_from p0 (ast.comments parent') (start_position tk').
Proof.
  intros (e & E & T) H. rewrite E. eapply tokens_from_app; eauto.
Qed.

Lemma grown_positions parent tk parent' tk' :
  grown parent tk parent' tk' -> start_position tk <= start_position tk'.
Proof. intros (e & _ & T). exact (tokens_from_bounds _ _ _ T). Qed.

Lemma get_next_standard_token_loop_grown fuel :
  forall token parent tk token' parent' tk',
    wf tk -> token = tok_at (text tk) (start_position tk) ->
    get_next_standard_token_loop fuel token parent tk
      = Some (token', parent', tk') ->
    grown parent tk parent' tk'.
Proof.
  induction fuel as [|fuel IH];
    intros token parent tk token' parent' tk' W Et H; [discriminate|].
  cbn [get_next_standard_token_loop] in H.
  assert (SI : forall token1 tk1,
    wf tk1 -> token1 = tok_at (text tk1) (start_position tk1) ->
    (if is_comment token1 then
       let (_, tk2) := consume tk1 in
       let parent_statement := add_comment parent token1 in
       let (token2, tk3) := peek 1 tk2 in
       get_next_standard_token_loop fuel token2 parent_statement tk3
     else Some (token1, parent, tk1)) = Some (token', parent', tk') ->
    grown parent tk1 parent' tk').
  { intros token1 tk1 W1 E1 H1. destruct (is_comment token1) eqn:C1.
    - destruct (consume_adv tk1 W1) as (tk2 & E2 & A2 & T2 & S2 & _).
      rewrite E2 in H1.
      destruct (peek1_adv tk2 (proj1 A2)) as (tk3 & E3 & A3 & T3 & S3 & _).
      rewrite E3 in H1.
      apply IH in H1; [|exact (proj1 A3)|congruence].
      eapply grown_trans; [|exact H1].
      exists [token1]. split; [reflexivity|].
      rewrite E1, S3. apply tokens_from_consumed; assumption.
    - apply some_inj in H1. inversion H1; subst. apply grown_refl. }
  destruct (is_newline token) eqn:N.
  - destruct (peek2_adv tk W) as (tk1 & E1 & A1 & T1 & S1 & _).
    rewrite E1 in H.
    destruct (is_newline (tok_at (text tk)
                            (pos_after (text tk) (start_position tk)))) eqn:N2.
    + apply some_inj in H. inversion H; subst. apply grown_adv. exact A1.
    + destruct (consume_adv tk1 (proj1 A1)) as (tk2 & E2 & A2 & T2 & S2 & _).
      rewrite E2 in H.
      eapply grown_trans; [apply grown_adv; exact A1|].
      eapply grown_trans; [apply grown_adv; exact A2|].
      eapply (SI _ tk2 (proj1 A2)); [|exact H].
      rewrite T2, S2, T1, S1. reflexivity.
  - eapply SI; [exact W|exact Et|exact H].
Qed.

Lemma get_next_standard_token_grown fuel parent tk token' parent' tk' :
  wf tk ->
  get_next_standard_token fuel parent tk = Some (token', parent', tk') ->
  grown parent tk parent' tk'.
Proof.
  intros W. unfold get_next_standard_token.
  destruct (peek1_adv tk W) as (tk1 & E1 & A1 & T1 & S1 & _). rewrite E1.
  intros H. apply get_next_standard_token_loop_grown in H;
    [|exact (proj1 A1)|congruence].
  eapply grown_trans; [apply grown_adv; exact A1|exact H].
Qed.


Lemma adv_le a b : adv a b -> start_position a <= start_position b.
Proof. intros (_ & _ & L & _). exact L. Qed.

Lemma tokens_from_snoc_consumed p0 l tk tk' :
  wf tk -> start_position tk' = pos_after (text tk) (start_position tk) ->
  tokens_from p0 l (start_position tk) ->
  tokens_from p0 (l ++ [tok_at (text tk) (start_position tk)])
              (start_position tk').
Proof.
  intros W Sq H. eapply tokens_from_app; [exact H|].
  apply tokens_from_consumed; assumption.
Qed.

Lemma parse_expression_placed fuel :
  (forall parent prec tk e parent' tk',
      wf tk -> parse_expression fuel parent prec tk = Some (e, parent', tk') ->
      grown parent tk parent' tk' /\
      tokens_from (start_position tk) (expression_tokens e)
                  (start_position tk')) /\
  (forall parent prec e0 tk e parent' tk' p0,
      wf tk ->
      parse_expression_loop fuel parent prec e0 tk = Some (e, parent', tk') ->
      tokens_from p0 (expression_tokens e0) (start_position tk) ->
      grown parent tk parent' tk' /\
      tokens_from p0 (expression_tokens e) (start_position tk')) /\
  (forall parent tk e parent' tk',
      wf tk ->
      parse_non_binary_expression fuel parent tk = Some (e, parent', tk') ->
      grown parent tk parent' tk' /\
      tokens_from (start_position tk) (expression_tokens e)
                  (start_position tk')) /\
  (forall token parent tk r parent' tk',
      wf tk -> token = tok_at (text tk) (start_position tk) ->
      is_comment token = false ->
      parse_non_binary_try fuel token parent tk = Some (r, parent', tk') ->
      grown parent tk parent' tk' /\
      match r with
      | LeafReturn ret =>
        tokens_from (start_position tk) (expression_tokens ret)
                    (start_position tk')
      | LeafUnknownTokenException => True
      end).
Proof.
  induction fuel as [|fuel (IHe & IHl & IHn & IHt)];
    [repeat split; intros; discriminate|].
  split; [|split; [|split]].
  - intros parent prec tk e parent' tk' W H. cbn [parse_expression] in H.
    destruct (parse_non_binary_expression fuel parent tk)
      as [[[e1 parent1] tk1]|] eqn:E1; [|discriminate].
    pose proof (parse_non_binary_expression_post _ _ _ _ W E1) as [A1 _].
    cbn [fst snd] in A1.
    apply IHn in E1 as [G1 T1]; [|exact W].
    destruct (ast.is_placeholder e1).
    + apply some_inj in H. inversion H; subst. split; assumption.
    + eapply IHl in H as [G2 T2]; [|exact (proj1 A1)|exact T1].
      split; [eapply grown_trans; eauto|exact T2].
  - intros parent prec e0 tk e parent' tk' p0 W H T0.
    cbn [parse_expression_loop] in H.
    destruct (get_next_standard_token fuel parent tk)
      as [[[binop parent1] tk1]|] eqn:E1; [|discriminate].
    pose proof (get_next_standard_token_post _ _ _ _ W E1)
      as (A1 & F1 & Et & Nc & Nn).
    apply get_next_standard_token_grown in E1; [|exact W].
    assert (T1 : tokens_from p0 (expression_tokens e0) (start_position tk1)).
    { eapply tokens_from_weaken; [exact T0|lia|apply adv_le; exact A1]. }
    destruct (binop_key binop) as [key|] eqn:K;
      [|apply some_inj in H; inversion H; subst; split; assumption].
    destruct (tok.operator_to_precedence_get key (tok.comma_precedence + 1)
              >? prec);
      [apply some_inj in H; inversion H; subst; split; assumption|].
    destruct (consume_adv tk1 (proj1 A1)) as (tk2 & E2 & A2 & T2 & S2 & _).
    rewrite E2 in H.
    destruct (parse_expression fuel parent1
                (tok.operator_to_precedence_get key
                   (tok.comma_precedence + 1) - 1) tk2)
      as [[[e2 parent2] tk3]|] eqn:E3; [|discriminate].
    pose proof (parse_expression_post _ _ _ _ _ (proj1 A2) E3) as [A3 _].
    cbn [fst snd] in A3.
    apply IHe in E3 as [G3 T3]; [|exact (proj1 A2)].
    assert (G : grown parent tk parent2 tk3).
    { eapply grown_trans; [exact E1|].
      eapply grown_trans; [apply grown_adv; exact A2|exact G3]. }
    assert (T : tokens_from p0
                  (expression_tokens (ast.BinaryExpression e0 binop e2))
                  (start_position tk3)).
    { cbn [expression_tokens].
      eapply tokens_from_app; [exact T1|].
      change (binop :: expression_tokens e2)
        with ([binop] ++ expression_tokens e2).
      eapply tokens_from_app; [|exact T3].
      rewrite Et. apply tokens_from_consumed; [exact (proj1 A1)|exact S2]. }
    destruct (ast.is_placeholder e2).
    + apply some_inj in H. inversion H; subst. split; assumption.
    + eapply IHl in H as [G4 T4]; [|exact (proj1 A3)|exact T].
      split; [eapply grown_trans; eauto|exact T4].
  - intros parent tk e parent' tk' W H.
    cbn [parse_non_binary_expression] in H.
    destruct (get_next_standard_token fuel parent tk)
      as [[[token parent1] tk1]|] eqn:E1; [|discriminate].
    pose proof (get_next_standard_token_post _ _ _ _ W E1)
      as (A1 & F1 & Et & Nc & Nn).
    apply get_next_standard_token_grown in E1; [|exact W].
    destruct (parse_non_binary_try fuel token parent1 tk1)
      as [[[r parent2] tk2]|] eqn:E2; [|discriminate].
    apply IHt in E2 as [G2 T2]; [|exact (proj1 A1)|exact Et|exact Nc].
    assert (G : grown parent tk parent2 tk2) by (eapply grown_trans; eauto).
    destruct r; apply some_inj in H; inversion H; subst;
      (split; [exact G|]).
    + eapply tokens_from_weaken; [exact T2|apply adv_le; exact A1|lia].
    + cbn [expression_tokens tokens_from].
      exact (grown_positions _ _ _ _ G).
  - intros token parent tk r parent' tk' W Et Nc H.
    cbn [parse_non_binary_try] in H.
    destruct (consume_adv tk W) as (tk1 & E1 & A1 & T1 & S1 & _).
    pose proof (tokens_from_consumed tk tk1 W S1) as C1.
    rewrite <- Et in C1.
    destruct token as [s l ty|s l|s l ty|s l ty h].
    + destruct ty;
        try (apply some_inj in H; inversion H; subst;
             split; [apply grown_refl|exact I]).
      rewrite E1 in H. apply some_inj in H. inversion H; subst.
      split; [apply grown_adv; exact A1|exact C1].
    + rewrite E1 in H. apply some_inj in H. inversion H; subst.
      split; [apply grown_adv; exact A1|exact C1].
    + destruct ty;
        try (apply some_inj in H; inversion H; subst;
             split; [apply grown_refl|exact I]).
      rewrite E1 in H.
      destruct (parse_expression fuel parent tok.comma_precedence tk1)
        as [[[e2 parent2] tk2]|] eqn:E2; [|discriminate].
      pose proof (parse_expression_post _ _ _ _ _ (proj1 A1) E2) as [A2 _].
      cbn [fst snd] in A2.
      apply IHe in E2 as [G2 T2]; [|exact (proj1 A1)].
      destruct (get_next_standard_token fuel parent2 tk2)
        as [[[token2 parent3] tk3]|] eqn:E3; [|discriminate].
      pose proof (get_next_standard_token_post _ _ _ _ (proj1 A2) E3)
        as (A3 & F3 & Et3 & Nc3 & Nn3).
      apply get_next_standard_token_grown in E3; [|exact (proj1 A2)].
      assert (G3 : grown parent tk parent3 tk3).
      { eapply grown_trans; [apply grown_adv; exact A1|].
        eapply grown_trans; eauto. }
      assert (T3 : tokens_from (start_position tk)
                     (tok.PunctuationToken s l tok.LEFT_PAREN
                      :: expression_tokens e2) (start_position tk3)).
      { change (tok.PunctuationToken s l tok.LEFT_PAREN
                :: expression_tokens e2)
          with ([tok.PunctuationToken s l tok.LEFT_PAREN]
                  ++ expression_tokens e2).
        eapply tokens_from_app; [exact C1|].
        eapply tokens_from_weaken; [exact T2|lia|apply adv_le; exact A3]. }
      destruct (consume_adv tk3 (proj1 A3)) as (tk4 & E4 & A4 & T4 & S4 & _).
      pose proof (tokens_from_consumed tk3 tk4 (proj1 A3) S4) as C4.
      rewrite <- Et3 in C4.
      destruct token2 as [| |? ? []|]; try rewrite E4 in H;
        apply some_inj in H; inversion H; subst;
        cbn [expression_tokens];
        try (split; [exact G3|]; rewrite app_nil_r; exact T3).
      split; [eapply grown_trans; [exact G3|apply grown_adv; exact A4]|].
      rewrite app_comm_cons. eapply tokens_from_app; [exact T3|exact C4].
    + destruct ty; try discriminate Nc;
        try (apply some_inj in H; inversion H; subst;
             split; [apply grown_refl|exact I]);
        rewrite E1 in H; apply some_inj in H; inversion H; subst;
        (split; [apply grown_adv; exact A1|exact C1]).
Qed.


(** What [get_next_standard_token] does with the token at the front, when
    that is no newline: a comment goes into the statement first, and any
    other token is handed back with nothing touched. *)
Lemma get_next_standard_token_first fuel parent tk token' parent' tk' :
  wf tk ->
  get_next_standard_token fuel parent tk = Some (token', parent', tk') ->
  is_newline (tok_at (text tk) (start_position tk)) = false ->
  if is_comment (tok_at (text tk) (start_position tk))
  then exists rest,
      ast.comments parent'
      = ast.comments parent ++ tok_at (text tk) (start_position tk) :: rest /\
      tokens_from (tok.start (tok_at (text tk) (start_position tk)))
                  (tok_at (text tk) (start_position tk) :: rest)
                  (start_position tk')
  else token' = tok_at (text tk) (start_position tk) /\ parent' = parent /\
       start_position tk' = start_position tk /\ text tk' = text tk.
Proof.
  intros W H N. unfold get_next_standard_token in H.
  destruct (peek1_adv tk W) as (tk1 & E1 & A1 & T1 & S1 & _).
  rewrite E1 in H.
  destruct fuel as [|fuel]; [discriminate|].
  cbn [get_next_standard_token_loop] in H. rewrite N in H.
  destruct (is_comment (tok_at (text tk) (start_position tk))) eqn:C.
  - destruct (consume_adv tk1 (proj1 A1)) as (tk2 & E2 & A2 & T2 & S2 & _).
    rewrite E2 in H.
    destruct (peek1_adv tk2 (proj1 A2)) as (tk3 & E3 & A3 & T3 & S3 & _).
    rewrite E3 in H.
    apply get_next_standard_token_loop_grown in H;
      [|exact (proj1 A3)|congruence].
    destruct H as (extra & E & T). exists extra.
    cbn [add_comment ast.comments] in E. rewrite <- app_assoc in E.
    split; [exact E|].
    pose proof (tok_at_spec _ _ (proj1 W)) as (B1 & B2 & B3 & _).
    pose proof (tok_at_length _ _ (proj1 W)) as [L _].
    cbn [tokens_from]. split; [lia|]. split; [exact L|].
    rewrite <- B2. rewrite S3, S2, T1, S1 in T. exact T.
  - apply some_inj in H. inversion H; subst. auto.
Qed.

Lemma parse_fields_loop_placed {F : Type}
      (mk : ast.Expression -> option tok.Token -> F)
      (field_tokens : F -> list tok.Token) ceiling fuel :
  (forall e a, field_tokens (mk e a) = expression_tokens e ++ alias_tokens a) ->
  forall parent fields tk fs parent' tk' p0,
    wf tk ->
    parse_fields_loop mk ceiling fuel parent fields tk
      = Some (fs, parent', tk') ->
    tokens_from p0 (flat_map field_tokens fields) (start_position tk) ->
    wf tk' /\ grown parent tk parent' tk' /\
    tokens_from p0 (flat_map field_tokens fs) (start_position tk').
Proof.
  intros Hmk.
  induction fuel as [|fuel IH];
    intros parent fields tk fs parent' tk' p0 W H T0; [discriminate|].
  cbn [parse_fields_loop] in H.
  destruct (parse_expression fuel parent ceiling tk)
    as [[[e1 parent1] tk1]|] eqn:E1; [|discriminate].
  pose proof (parse_expression_post _ _ _ _ _ W E1) as [A1 _].
  cbn [fst snd] in A1.
  apply (proj1 (parse_expression_placed fuel)) in E1 as [G1 T1]; [|exact W].
  destruct (get_next_standard_token fuel parent1 tk1)
    as [[[token parent2] tk2]|] eqn:E2; [|discriminate].
  pose proof (get_next_standard_token_post _ _ _ _ (proj1 A1) E2)
    as (A2 & F2 & Et2 & Nc2 & Nn2).
  apply get_next_standard_token_grown in E2; [|exact (proj1 A1)].
  destruct (if is_as token
            then let (_, tk) := consume tk2 in
                 get_next_standard_token fuel parent2 tk
            else Some (token, parent2, tk2))
    as [[[token3 parent3] tk3]|] eqn:E3; [|discriminate].
  assert (P3 : wf tk3 /\ grown parent2 tk2 parent3 tk3 /\
               token3 = tok_at (text tk3) (start_position tk3)).
  { destruct (is_as token).
    - destruct (consume_adv tk2 (proj1 A2)) as (tk2' & Ec & Ac & Tc & Sc & _).
      rewrite Ec in E3.
      pose proof (get_next_standard_token_post _ _ _ _ (proj1 Ac) E3)
        as (Ag & Fg & Etg & Ncg & Nng).
      apply get_next_standard_token_grown in E3; [|exact (proj1 Ac)].
      split; [exact (proj1 Ag)|]. split; [|exact Etg].
      eapply grown_trans; [apply grown_adv; exact Ac|exact E3].
    - apply some_inj in E3. inversion E3; subst.
      split; [exact (proj1 A2)|]. split; [apply grown_refl|].
      first [reflexivity|assumption]. }
  clear E3. destruct P3 as (W3 & G3 & Et3).
  destruct (if is_alias token3
            then let (_, tk) := consume tk3 in
                 match get_next_standard_token fuel parent3 tk with
                 | None => None
                 | Some (token', parent_statement, tk) =>
                   Some (fields ++ [mk e1 (Some token3)], token',
                         parent_statement, tk)
                 end
            else Some (fields ++ [mk e1 None], token3, parent3, tk3))
    as [[[[fields4 token4] parent4] tk4]|] eqn:E4; [|discriminate].
  assert (P4 : wf tk4 /\ grown parent3 tk3 parent4 tk4 /\
               token4 = tok_at (text tk4) (start_position tk4) /\
               exists a, fields4 = fields ++ [mk e1 a] /\
                         tokens_from (start_position tk3) (alias_tokens a)
                                     (start_position tk4)).
  { destruct (is_alias token3).
    - destruct (consume_adv tk3 W3) as (tk3' & Ec & Ac & Tc & Sc & _).
      rewrite Ec in E4.
      pose proof (tokens_from_consumed tk3 tk3' W3 Sc) as C3.
      rewrite <- Et3 in C3.
      destruct (get_next_standard_token fuel parent3 tk3')
        as [[[token' parent'0] tk'0]|] eqn:E5; [|discriminate].
      pose proof (get_next_standard_token_post _ _ _ _ (proj1 Ac) E5)
        as (Ag & Fg & Etg & Ncg & Nng).
      apply get_next_standard_token_grown in E5; [|exact (proj1 Ac)].
      apply some_inj in E4. inversion E4; subst.
      split; [exact (proj1 Ag)|].
      split; [eapply grown_trans; [apply grown_adv; exact Ac|exact E5]|].
      split; [reflexivity|].
      eexists. split; [reflexivity|]. cbn [alias_tokens].
      eapply tokens_from_weaken; [exact C3|lia|apply adv_le; exact Ag].
    - apply some_inj in E4. inversion E4; subst.
      split; [exact W3|]. split; [apply grown_refl|].
      split; [reflexivity|].
      exists None. split; [reflexivity|]. cbn [alias_tokens tokens_from].
      lia. }
  clear E4. destruct P4 as (W4 & G4 & Et4 & a & Ef & Ta). subst fields4.
  assert (G04 : grown parent tk parent4 tk4).
  { eapply grown_trans; [exact G1|]. eapply grown_trans; [exact E2|].
    eapply grown_trans; eauto. }
  assert (T4 : tokens_from p0 (flat_map field_tokens (fields ++ [mk e1 a]))
                           (start_position tk4)).
  { rewrite flat_map_app. cbn [flat_map]. rewrite app_nil_r, Hmk.
    eapply tokens_from_app; [exact T0|].
    eapply tokens_from_app; [|exact Ta].
    eapply tokens_from_weaken; [exact T1|lia|].
    pose proof (grown_positions _ _ _ _ E2).
    pose proof (grown_positions _ _ _ _ G3). lia. }
  destruct (is_comma token4).
  - destruct (consume_adv tk4 W4) as (tk5 & Ec & Ac & Tc & Sc & _).
    rewrite Ec in H.
    eapply IH in H as (W5 & G5 & T5); [|exact (proj1 Ac)|].
    + split; [exact W5|]. split; [|exact T5].
      eapply grown_trans; [exact G04|].
      eapply grown_trans; [apply grown_adv; exact Ac|exact G5].
    + eapply tokens_from_weaken; [exact T4|lia|apply adv_le; exact Ac].
  - apply some_inj in H. inversion H; subst.
    split; [exact W4|]. split; assumption.
Qed.

Lemma statement_within_weaken lo hi hi' s :
  statement_within lo hi s -> hi <= hi' -> statement_within lo hi' s.
Proof.
  intros (C & S & F & Wh & U) L. unfold statement_within.
  repeat split; try (eapply tokens_from_weaken; [eassumption|lia|exact L]).
  eapply Forall_impl; [|exact U]. unfold unknown_within. intros u; lia.
Qed.

(** A clause parser ran from [p1] to [p2] on a statement that was filled
    up to [h]: the statement it leaves is filled up to [p2]. *)
Lemma statement_within_grown lo h p1 p2 ret tk1 ret1 tk2 :
  statement_within lo h ret -> frame ret ret1 -> grown ret tk1 ret1 tk2 ->
  start_position tk1 = p1 -> start_position tk2 = p2 -> h <= p1 ->
  statement_within lo p2 ret1 /\
  select_tokens ret1 = select_tokens ret /\
  from_tokens ret1 = from_tokens ret /\
  where_tokens ret1 = where_tokens ret.
Proof.
  intros (C & S & F & Wh & U) (F1 & F2 & F3 & F4 & F5 & F6) G <- <- L.
  pose proof (grown_positions _ _ _ _ G) as P.
  unfold statement_within, select_tokens, from_tokens, where_tokens.
  rewrite F3, F4, F5, F6.
  repeat split; try (eapply tokens_from_weaken; [eassumption|lia|lia]).
  - eapply grown_tokens; [exact G|].
    eapply tokens_from_weaken; [exact C|lia|lia].
  - eapply Forall_impl; [|exact U]. unfold unknown_within. intros u; lia.
Qed.

Lemma parse_statement_try_placed fuel token ret tk res ret' tk' lo :
  wf tk -> token = tok_at (text tk) (start_position tk) ->
  is_comment token = false ->
  statement_within lo (Z.max lo (start_position tk)) ret ->
  lo <= pos_after (text tk) (start_position tk) ->
  parse_statement_try fuel token ret tk = Some (res, ret', tk') ->
  match res with
  | TryDone =>
    lo <= start_position tk' /\ statement_within lo (start_position tk') ret'
  | _ => True
  end.
Proof.
  intros W Et Nc J L H. unfold parse_statement_try in H.
  destruct (consume_adv tk W) as (tk1 & E1 & A1 & T1 & S1 & _).
  assert (L1 : Z.max lo (start_position tk) <= start_position tk1)
    by (pose proof (adv_le _ _ A1); lia).
  destruct token as [s l ty|s l|s l ty|s l ty h].
  - destruct ty;
      try (apply some_inj in H; inversion H; subst; exact I).
    + unfold parse_select in H. rewrite E1 in H.
      destruct (parse_fields_loop ast.mkSelectField
                  (tok.comma_precedence - 1) fuel ret [] tk1)
        as [[[fs ret1] tk2]|] eqn:E2; [|discriminate].
      pose proof (parse_fields_loop_shape _ _ _ _ _ _ _ _ _ E2) as [Fr _].
      eapply (parse_fields_loop_placed ast.mkSelectField select_field_tokens)
        in E2 as (W2 & G2 & T2);
        [|reflexivity|exact (proj1 A1)
         |cbn [flat_map tokens_from]; apply Z.le_refl].
      apply some_inj in H. inversion H; subst.
      destruct (statement_within_grown _ _ _ _ _ _ _ _ J Fr G2
                  eq_refl eq_refl L1) as ((C & S & F & Wh & U) & Es & Ef & Ew).
      pose proof (grown_positions _ _ _ _ G2) as P.
      split; [lia|].
      unfold statement_within. repeat split; try assumption.
      unfold select_tokens in *. cbn [add_select ast.selects].
      rewrite flat_map_app. cbn [flat_map ast.select_fields].
      rewrite app_nil_r, Es.
      eapply tokens_from_app; [|exact T2].
      destruct J as (_ & S0 & _). exact (tokens_from_weaken _ _ _ _ _ S0
                                           (Z.le_refl _) L1).
    + unfold parse_from in H. rewrite E1 in H.
      destruct (parse_fields_loop ast.mkFromField dot_precedence fuel ret []
                                  tk1)
        as [[[fs ret1] tk2]|] eqn:E2; [|discriminate].
      pose proof (parse_fields_loop_shape _ _ _ _ _ _ _ _ _ E2) as [Fr _].
      eapply (parse_fields_loop_placed ast.mkFromField from_field_tokens)
        in E2 as (W2 & G2 & T2);
        [|reflexivity|exact (proj1 A1)
         |cbn [flat_map tokens_from]; apply Z.le_refl].
      apply some_inj in H. inversion H; subst.
      destruct (statement_within_grown _ _ _ _ _ _ _ _ J Fr G2
                  eq_refl eq_refl L1) as ((C & S & F & Wh & U) & Es & Ef & Ew).
      pose proof (grown_positions _ _ _ _ G2) as P.
      split; [lia|].
      unfold statement_within. repeat split; try assumption.
      unfold from_tokens in *. cbn [add_from ast.froms].
      rewrite flat_map_app. cbn [flat_map ast.from_fields].
      rewrite app_nil_r, Ef.
      eapply tokens_from_app; [|exact T2].
      destruct J as (_ & _ & F0 & _). exact (tokens_from_weaken _ _ _ _ _ F0
                                               (Z.le_refl _) L1).
    + unfold parse_where in H. rewrite E1 in H.
      destruct (parse_expression fuel ret (tok.comma_precedence - 1) tk1)
        as [[[e ret1] tk2]|] eqn:E2; [|discriminate].
      pose proof (proj1 (parse_expression_shape fuel) _ _ _ _ _ _ E2)
        as [Fr _].
      apply (proj1 (parse_expression_placed fuel)) in E2 as [G2 T2];
        [|exact (proj1 A1)].
      apply some_inj in H. inversion H; subst.
      destruct (statement_within_grown _ _ _ _ _ _ _ _ J Fr G2
                  eq_refl eq_refl L1) as ((C & S & F & Wh & U) & Es & Ef & Ew).
      pose proof (grown_positions _ _ _ _ G2) as P.
      split; [lia|].
      unfold statement_within. repeat split; try assumption.
      unfold where_tokens in *. cbn [add_where ast.wheres].
      rewrite flat_map_app. cbn [flat_map ast.where_expression].
      rewrite app_nil_r, Ew.
      eapply tokens_from_app; [|exact T2].
      destruct J as (_ & _ & _ & W0 & _).
      exact (tokens_from_weaken _ _ _ _ _ W0 (Z.le_refl _) L1).
  - apply some_inj in H; inversion H; subst; exact I.
  - destruct ty;
      try (apply some_inj in H; inversion H; subst; exact I).
    + rewrite E1 in H. apply some_inj in H. inversion H; subst. exact I.
    + rewrite E1 in H. destruct (consume tk1).
      apply some_inj in H. inversion H; subst. exact I.
  - destruct ty; apply some_inj in H; inversion H; subst; exact I.
Qed.

Lemma parse_statement_except_within prev token ret ret' lo h p2 :
  parse_statement_except prev token ret = Some ret' ->
  statement_within lo h ret ->
  lo <= tok.start token -> h <= tok.start token -> 0 <= tok.length token ->
  tok.start token + tok.length token <= p2 ->
  statement_within lo p2 ret'.
Proof.
  intros H (C & S & F & Wh & U) L1 L2 L3 L4.
  assert (U2 : Forall (unknown_within lo p2) (ast.unknowns ret)).
  { eapply Forall_impl; [|exact U]. unfold unknown_within. intros u; lia. }
  assert (K : Forall (unknown_within lo p2) (ast.unknowns ret') /\
              ast.comments ret' = ast.comments ret /\
              select_tokens ret' = select_tokens ret /\
              from_tokens ret' = from_tokens ret /\
              where_tokens ret' = where_tokens ret).
  { unfold parse_statement_except in H. destruct prev.
    - apply some_inj in H. subst ret'.
      split; [|repeat split; reflexivity].
      cbn [set_unknowns ast.unknowns]. apply Forall_app. split; [exact U2|].
      constructor; [|constructor].
      unfold unknown_within; cbn [ast.unknown_start ast.unknown_length]. lia.
    - unfold set_last_unknown_length in H.
      destruct (rev (ast.unknowns ret)) as [|x before] eqn:R; [discriminate|].
      apply some_inj in H. subst ret'.
      split; [|repeat split; reflexivity].
      cbn [set_unknowns ast.unknowns].
      assert (Ur : Forall (unknown_within lo h) (x :: before)).
      { rewrite <- R. apply Forall_rev. exact U. }
      inversion Ur as [|? ? Ux Ub]; subst.
      apply Forall_app. split.
      + apply Forall_rev. eapply Forall_impl; [|exact Ub].
        unfold unknown_within. intros u; lia.
      + constructor; [|constructor].
        unfold unknown_within in *;
          cbn [ast.unknown_start ast.unknown_length]. lia. }
  destruct K as (K1 & K2 & K3 & K4 & K5).
  unfold statement_within. rewrite K2, K3, K4, K5.
  repeat split; try (eapply tokens_from_weaken; [eassumption|lia|lia]).
  exact K1.
Qed.

Lemma in_statement_lo lo tk :
  wf tk -> in_statement lo tk ->
  lo <= tok.start (tok_at (text tk) (start_position tk)) /\
  lo <= pos_after (text tk) (start_position tk).
Proof.
  intros W J.
  pose proof (tok_at_spec _ _ (proj1 W)) as (A & B & C & _).
  pose proof (tok_at_length _ _ (proj1 W)) as [L _].
  destruct J as [[J1 J2]|[J1 J2]]; lia.
Qed.

Lemma parse_statement_loop_within fuel :
  forall prev ret tk ret' tk',
    wf tk -> in_statement (ast.start ret) tk ->
    statement_within (ast.start ret)
                     (Z.max (ast.start ret) (start_position tk)) ret ->
    parse_statement_loop fuel prev ret tk = Some (ret', tk') ->
    statement_within (ast.start ret') (ast.start ret' + ast.length ret') ret'.
Proof.
  induction fuel as [|fuel IH]; intros prev ret tk ret' tk' W J P H;
    [discriminate|].
  cbn [parse_statement_loop] in H.
  destruct (get_next_standard_token fuel ret tk)
    as [[[token ret1] tk1]|] eqn:E1; [|discriminate].
  pose proof (get_next_standard_token_post _ _ _ _ W E1)
    as (A1 & F1 & Et & Nc & Nn).
  pose proof (in_statement_adv _ _ _ W J A1) as J1.
  pose proof (get_next_standard_token_grown _ _ _ _ _ _ W E1) as G1.
  pose proof (adv_le _ _ A1) as L1.
  pose proof (tok_at_spec _ _ (proj1 W)) as (B1 & B2 & B3 & _).
  assert (S1 : ast.start ret1 = ast.start ret) by apply F1.
  (* the statement behind [get_next_standard_token] *)
  assert (P1 : statement_within (ast.start ret)
                 (Z.max (ast.start ret) (start_position tk1)) ret1).
  { destruct J as [[Ja Jb]|[Ja Jb]].
    - destruct (statement_within_grown _ _ _ _ _ _ _ _ P F1 G1
                  eq_refl eq_refl) as [Q _]; [lia|].
      eapply statement_within_weaken; [exact Q|lia].
    - assert (Nl : is_newline (tok_at (text tk) (start_position tk)) = false).
      { unfold is_boundary in Ja. apply orb_false_iff in Ja as [Ja _].
        apply orb_false_iff in Ja as [_ Ja]. exact Ja. }
      pose proof (get_next_standard_token_first _ _ _ _ _ _ W E1 Nl) as Fi.
      destruct (is_comment (tok_at (text tk) (start_position tk))).
      + destruct Fi as (rest & Ec & Tc).
        destruct P as (C & S & F & Wh & U).
        destruct F1 as (_ & _ & F3 & F4 & F5 & F6).
        pose proof (tokens_from_bounds _ _ _ Tc) as Bc.
        unfold statement_within, select_tokens, from_tokens, where_tokens.
        rewrite F3, F4, F5, F6, Ec.
        repeat split;
          try (eapply tokens_from_weaken; [eassumption|lia|lia]).
        * eapply tokens_from_app; [exact C|].
          eapply tokens_from_weaken; [exact Tc|lia|lia].
        * eapply Forall_impl; [|exact U]. unfold unknown_within.
          intros u; lia.
      + destruct Fi as (_ & -> & Sq & _). rewrite Sq. exact P. }
  destruct (in_statement_lo _ _ (proj1 A1) J1) as [Lo1 Lo2].
  destruct (parse_statement_try fuel token ret1 tk1)
    as [[[res ret2] tk2]|] eqn:E2; [|discriminate].
  pose proof (parse_statement_try_post _ _ _ _ _ _ _ (proj1 A1) Et Nc E2)
    as A2.
  pose proof (parse_statement_try_shape _ _ _ _ _ _ _ E2) as Sh.
  destruct res.
  - (* a clause *)
    apply (parse_statement_try_placed _ _ _ _ _ _ _ (ast.start ret)
             (proj1 A1) Et Nc P1 Lo2) in E2 as [Lo3 P2].
    destruct Sh as (_ & ret3 & F3 & Ad).
    assert (S2 : ast.start ret2 = ast.start ret).
    { destruct F3 as (F3 & _).
      destruct Ad as [(c & _ & ->)|[(c & _ & ->)|(c & _ & ->)]];
        cbn [add_select add_from add_where ast.start]; congruence. }
    eapply IH in H; [exact H|exact (proj1 A2)| |].
    + rewrite S2. exact (in_statement_adv _ _ _ (proj1 A1) J1 A2).
    + rewrite S2, Z.max_r by lia. exact P2.
  - (* the end of the statement *)
    destruct Sh as (B & ->).
    assert (Ja : end_idx_of_last_consumed_token tk1 = start_position tk1 /\
                 ast.start ret <= start_position tk1).
    { destruct J1 as [Ja|[Ja _]]; [exact Ja|].
      rewrite <- Et, B in Ja. discriminate. }
    apply some_inj in H. inversion H; subst.
    cbn [set_length ast.start ast.length].
    rewrite S1.
    replace (ast.start ret
             + (end_idx_of_last_consumed_token tk1 - ast.start ret))
      with (Z.max (ast.start ret) (start_position tk1)) by lia.
    destruct P1 as (C & S & F & Wh & U).
    unfold statement_within. repeat split; assumption.
  - (* an unknown token *)
    destruct Sh as (B & -> & ->).
    destruct (consume_adv tk1 (proj1 A1)) as (tk3 & E3 & A3 & T3 & S3 & I3 & _).
    rewrite E3 in H.
    destruct (parse_statement_except prev token ret1) as [ret3|] eqn:E4;
      [|discriminate].
    pose proof (parse_statement_except_shape _ _ _ _ E4) as (S4 & _).
    pose proof (tok_at_spec _ _ (proj1 (proj1 A1))) as (C1 & C2 & C3 & _).
    pose proof (tok_at_length _ _ (proj1 (proj1 A1))) as [C4 _].
    rewrite <- Et in *.
    apply (parse_statement_except_within _ _ _ _ (ast.start ret)
             (Z.max (ast.start ret) (start_position tk1))
             (start_position tk3)) in E4;
      [|exact P1|exact Lo1|lia|exact C4|lia].
    eapply IH in H; [exact H|exact (proj1 A3)| |].
    + rewrite S4, S1. exact (in_statement_adv _ _ _ (proj1 A1) J1 A3).
    + rewrite S4, S1, Z.max_r by lia. exact E4.
Qed.

Lemma parse_statement_within fuel tk s tk' :
  wf tk -> is_boundary (tok_at (text tk) (start_position tk)) = false ->
  parse_statement fuel tk = Some (s, tk') ->
  statement_within (ast.start s) (ast.start s + ast.length s) s.
Proof.
  intros W B. unfold parse_statement.
  destruct (peek1_adv tk W) as (tk1 & E1 & A1 & T1 & S1 & _). rewrite E1.
  intros H. eapply parse_statement_loop_within in H;
    [exact H|exact (proj1 A1)| |].
  - right. cbn [ast.start]. rewrite T1, S1. split; [exact B|reflexivity].
  - cbn [ast.start]. unfold statement_within, select_tokens, from_tokens,
      where_tokens. cbn [ast.comments ast.selects ast.froms ast.wheres
                         ast.unknowns flat_map tokens_from].
    repeat split; try lia. constructor.
Qed.

Lemma parse_all_loop_within fuel :
  forall ret tk stmts tk',
    wf tk -> parse_all_loop fuel ret tk = Some (stmts, tk') ->
    Forall (fun s => statement_within (ast.start s)
                                      (ast.start s + ast.length s) s) ret ->
    Forall (fun s => statement_within (ast.start s)
                                      (ast.start s + ast.length s) s) stmts.
Proof.
  induction fuel as [|fuel IH]; intros ret tk stmts tk' W H P; [discriminate|].
  cbn [parse_all_loop] in H.
  destruct (consume_newline_semicolons fuel tk) as [[token tk1]|] eqn:E1;
    [|discriminate].
  pose proof (consume_newline_semicolons_post _ _ _ _ W E1)
    as (A1 & Et & N1 & N2).
  destruct (is_end_of_string token) eqn:EOS.
  - apply some_inj in H. inversion H; subst. exact P.
  - destruct (parse_statement fuel tk1) as [[s tk2]|] eqn:E2; [|discriminate].
    assert (B : is_boundary (tok_at (text tk1) (start_position tk1)) = false).
    { rewrite <- Et. unfold is_boundary. rewrite N1, N2, EOS. reflexivity. }
    pose proof (parse_statement_within _ _ _ _ (proj1 A1) B E2) as Ws.
    apply parse_statement_kept in E2 as [W2 _]; [|exact (proj1 A1)].
    eapply IH in H; [exact H|exact W2|].
    apply Forall_app. split; [exact P|]. constructor; [exact Ws|constructor].
Qed.

(** X11: everything a statement holds lies inside its span.  For every
    statement that [parse_all] returns, between [start] and
    [start + length] lie, each list in the order of the text with one
    token behind the other: its comments; the tokens of its select
    clauses, clause after clause and field after field, each expression
    read from left to right with its operators and parentheses and
    followed by its alias; those of its from clauses; and those of its
    where clauses.  Its unknown sequences lie there too. *)
Theorem X11_statement_holds_what_its_span_holds :
  forall txt,
    exists stmts,
      parseAll txt = Some stmts /\
      Forall (fun s => statement_within (ast.start s)
                                        (ast.start s + ast.length s) s)
             stmts.
Proof.
  intros txt. destruct (parseAll_spans txt) as (stmts & E & _).
  exists stmts. split; [exact E|].
  unfold parseAll, parse_all in E.
  destruct (parse_all_loop (4 * List.length txt + 12) []
                           (Tokenizer_init txt 0)) as [[l tk']|] eqn:L;
    [|discriminate].
  cbn [option_map fst] in E. apply some_inj in E. subst l.
  eapply parse_all_loop_within; [apply Tokenizer_init_wf|exact L|constructor].
Qed.


(** ** No statement is empty *)

Lemma parse_statement_except_nonempty prev token ret ret' :
  parse_statement_except prev token ret = Some ret' ->
  ast.unknowns ret' <> [].
Proof.
  unfold parse_statement_except, set_last_unknown_length. destruct prev.
  - intros H. apply some_inj in H. subst ret'.
    cbn [set_unknowns ast.unknowns]. intros C.
    apply app_eq_nil in C. destruct C; discriminate.
  - destruct (rev (ast.unknowns ret)); [discriminate|].
    intros H. apply some_inj in H. subst ret'.
    cbn [set_unknowns ast.unknowns]. intros C.
    apply app_eq_nil in C. destruct C; discriminate.
Qed.

Lemma populated_grown ret tk ret1 tk1 :
  populated ret -> frame ret ret1 -> grown ret tk ret1 tk1 -> populated ret1.
Proof.
  intros P (_ & _ & F3 & F4 & F5 & F6) (extra & E & _).
  unfold populated in *. rewrite F3, F4, F5, F6, E.
  destruct P as [P|P]; [left|right; exact P].
  intros C. apply app_eq_nil in C. destruct C. contradiction.
Qed.

Lemma parse_statement_loop_populated fuel :
  forall prev ret tk ret' tk',
    wf tk ->
    populated ret \/
    is_boundary (tok_at (text tk) (start_position tk)) = false ->
    parse_statement_loop fuel prev ret tk = Some (ret', tk') ->
    populated ret'.
Proof.
  induction fuel as [|fuel IH]; intros prev ret tk ret' tk' W P H;
    [discriminate|].
  cbn [parse_statement_loop] in H.
  destruct (get_next_standard_token fuel ret tk)
    as [[[token ret1] tk1]|] eqn:E1; [|discriminate].
  pose proof (get_next_standard_token_post _ _ _ _ W E1)
    as (A1 & F1 & Et & Nc & Nn).
  pose proof (get_next_standard_token_grown _ _ _ _ _ _ W E1) as G1.
  assert (Q : populated ret1 \/ is_boundary token = false).
  { destruct P as [P|P]; [left; eapply populated_grown; eauto|].
    assert (Nl : is_newline (tok_at (text tk) (start_position tk)) = false).
    { unfold is_boundary in P. apply orb_false_iff in P as [P _].
      apply orb_false_iff in P as [_ P]. exact P. }
    pose proof (get_next_standard_token_first _ _ _ _ _ _ W E1 Nl) as Fi.
    destruct (is_comment (tok_at (text tk) (start_position tk))).
    - destruct Fi as (rest & Ec & _). left. left. rewrite Ec.
      intros C. apply app_eq_nil in C. destruct C; discriminate.
    - destruct Fi as (-> & _). right. exact P. }
  destruct (parse_statement_try fuel token ret1 tk1)
    as [[[res ret2] tk2]|] eqn:E2; [|discriminate].
  pose proof (parse_statement_try_post _ _ _ _ _ _ _ (proj1 A1) Et Nc E2)
    as A2.
  pose proof (parse_statement_try_shape _ _ _ _ _ _ _ E2) as Sh.
  destruct res.
  - destruct Sh as (_ & ret3 & F3 & Ad).
    eapply IH in H; [exact H|exact (proj1 A2)|]. left.
    unfold populated.
    destruct Ad as [(c & _ & ->)|[(c & _ & ->)|(c & _ & ->)]];
      cbn [add_select add_from add_where ast.selects ast.froms ast.wheres];
      [right; right; left|right; right; right; left
       |right; right; right; right];
      intros C; apply app_eq_nil in C; destruct C; discriminate.
  - destruct Sh as (B & ->). apply some_inj in H. inversion H; subst.
    destruct Q as [Q|Q]; [exact Q|congruence].
  - destruct Sh as (B & -> & ->).
    destruct (consume_adv tk1 (proj1 A1)) as (tk3 & E3 & A3 & _).
    rewrite E3 in H.
    destruct (parse_statement_except prev token ret1) as [ret3|] eqn:E4;
      [|discriminate].
    apply parse_statement_except_nonempty in E4.
    eapply IH in H; [exact H|exact (proj1 A3)|].
    left. right. left. exact E4.
Qed.

Lemma parse_all_loop_populated fuel :
  forall ret tk stmts tk',
    wf tk -> parse_all_loop fuel ret tk = Some (stmts, tk') ->
    Forall populated ret -> Forall populated stmts.
Proof.
  induction fuel as [|fuel IH]; intros ret tk stmts tk' W H P; [discriminate|].
  cbn [parse_all_loop] in H.
  destruct (consume_newline_semicolons fuel tk) as [[token tk1]|] eqn:E1;
    [|discriminate].
  pose proof (consume_newline_semicolons_post _ _ _ _ W E1)
    as (A1 & Et & N1 & N2).
  destruct (is_end_of_string token) eqn:EOS.
  - apply some_inj in H. inversion H; subst. exact P.
  - destruct (parse_statement fuel tk1) as [[s tk2]|] eqn:E2; [|discriminate].
    assert (B : is_boundary (tok_at (text tk1) (start_position tk1)) = false).
    { rewrite <- Et. unfold is_boundary. rewrite N1, N2, EOS. reflexivity. }
    assert (Ps : populated s).
    { unfold parse_statement in E2.
      destruct (peek1_adv tk1 (proj1 A1)) as (tk1' & Ep & Ap & Tp & Sp & _).
      rewrite Ep in E2.
      eapply parse_statement_loop_populated; [exact (proj1 Ap)| |exact E2].
      right. rewrite Tp, Sp. exact B. }
    apply parse_statement_kept in E2 as [W2 _]; [|exact (proj1 A1)].
    eapply IH in H; [exact H|exact W2|].
    apply Forall_app. split; [exact P|]. constructor; [exact Ps|constructor].
Qed.

(** X10: no statement is empty.  Every statement that [parse_all] returns
    holds a comment, an unknown sequence, a select clause, a from clause
    or a where clause. *)
Theorem X10_no_empty_statement :
  forall txt,
    exists stmts, parseAll txt = Some stmts /\ Forall populated stmts.
Proof.
  intros txt. destruct (parseAll_spans txt) as (stmts & E & _).
  exists stmts. split; [exact E|].
  unfold parseAll, parse_all in E.
  destruct (parse_all_loop (4 * List.length txt + 12) []
                           (Tokenizer_init txt 0)) as [[l tk']|] eqn:L;
    [|discriminate].
  cbn [option_map fst] in E. apply some_inj in E. subst l.
  eapply parse_all_loop_populated;
    [apply Tokenizer_init_wf|exact L|constructor].
Qed.


(** * The fields of the tree hold what my_ast.py says *)

Lemma is_operator_below_comma binop key prec :
  binop_key binop = Some key ->
  (tok.operator_to_precedence_get key (tok.comma_precedence + 1) >? prec)
    = false ->
  prec <= tok.comma_precedence ->
  is_operator binop = true.
Proof.
  intros K G L. unfold is_operator. rewrite K.
  unfold tok.operator_to_precedence_get in G.
  destruct (tok.operator_to_precedence key); [reflexivity|].
  rewrite Z.gtb_ltb in G. apply Z.ltb_ge in G. lia.
Qed.

Lemma parse_expression_well_formed fuel :
  (forall parent prec tk e parent' tk',
      prec <= tok.comma_precedence ->
      parse_expression fuel parent prec tk = Some (e, parent', tk') ->
      well_formed e) /\
  (forall parent prec e0 tk e parent' tk',
      prec <= tok.comma_precedence ->
      parse_expression_loop fuel parent prec e0 tk = Some (e, parent', tk') ->
      well_formed e0 -> ast.is_placeholder e0 = false ->
      well_formed e) /\
  (forall parent tk e parent' tk',
      parse_non_binary_expression fuel parent tk = Some (e, parent', tk') ->
      well_formed e) /\
  (forall token parent tk r parent' tk',
      parse_non_binary_try fuel token parent tk = Some (r, parent', tk') ->
      match r with
      | LeafReturn ret => well_formed ret /\ ast.is_placeholder ret = false
      | LeafUnknownTokenException => True
      end).
Proof.
  induction fuel as [|fuel (IHe & IHl & IHn & IHt)];
    [repeat split; intros; discriminate|].
  split; [|split; [|split]].
  - intros parent prec tk e parent' tk' L H. cbn [parse_expression] in H.
    destruct (parse_non_binary_expression fuel parent tk)
      as [[[e1 parent1] tk1]|] eqn:E1; [|discriminate].
    apply IHn in E1.
    destruct (ast.is_placeholder e1) eqn:Pl.
    + apply some_inj in H. inversion H; subst. exact E1.
    + eapply IHl in H; eauto.
  - intros parent prec e0 tk e parent' tk' L H W0 P0.
    cbn [parse_expression_loop] in H.
    destruct (get_next_standard_token fuel parent tk)
      as [[[binop parent1] tk1]|]; [|discriminate].
    destruct (binop_key binop) as [key|] eqn:K;
      [|apply some_inj in H; inversion H; subst; exact W0].
    destruct (tok.operator_to_precedence_get key (tok.comma_precedence + 1)
              >? prec) eqn:G;
      [apply some_inj in H; inversion H; subst; exact W0|].
    destruct (consume tk1) as [? tk2].
    destruct (parse_expression fuel parent1
                (tok.operator_to_precedence_get key
                   (tok.comma_precedence + 1) - 1) tk2)
      as [[[e2 parent2] tk3]|] eqn:E2; [|discriminate].
    assert (G' := G). rewrite Z.gtb_ltb in G'. apply Z.ltb_ge in G'.
    apply IHe in E2; [|lia].
    assert (Wb : well_formed (ast.BinaryExpression e0 binop e2)).
    { cbn [well_formed]. split; [exact W0|]. split; [exact P0|].
      split; [exact (is_operator_below_comma _ _ _ K G L)|exact E2]. }
    destruct (ast.is_placeholder e2).
    + apply some_inj in H. inversion H; subst. exact Wb.
    + eapply IHl in H; eauto.
  - intros parent tk e parent' tk' H.
    cbn [parse_non_binary_expression] in H.
    destruct (get_next_standard_token fuel parent tk)
      as [[[token parent1] tk1]|]; [|discriminate].
    destruct (parse_non_binary_try fuel token parent1 tk1)
      as [[[r parent2] tk2]|] eqn:E2; [|discriminate].
    apply IHt in E2.
    destruct r; apply some_inj in H; inversion H; subst;
      [apply E2|reflexivity].
  - intros token parent tk r parent' tk' H.
    cbn [parse_non_binary_try] in H.
    destruct token as [s l ty|s l|s l ty|s l ty h].
    + destruct ty;
        try (apply some_inj in H; inversion H; subst; exact I).
      destruct (consume tk) as [? tk1].
      apply some_inj in H. inversion H; subst. split; reflexivity.
    + destruct (consume tk) as [? tk1].
      apply some_inj in H. inversion H; subst. split; reflexivity.
    + destruct ty;
        try (apply some_inj in H; inversion H; subst; exact I).
      destruct (consume tk) as [? tk1].
      destruct (parse_expression fuel parent tok.comma_precedence tk1)
        as [[[e2 parent2] tk2]|] eqn:E2; [|discriminate].
      apply IHe in E2; [|apply Z.le_refl].
      destruct (get_next_standard_token fuel parent2 tk2)
        as [[[token2 parent3] tk3]|]; [|discriminate].
      destruct token2 as [| |? ? []|];
        try destruct (consume tk3) as [? tk4];
        apply some_inj in H; inversion H; subst;
        cbn [well_formed is_left_paren is_right_paren ast.is_placeholder];
        auto.
    + destruct ty.
      * destruct (consume tk) as [? tk1].
        apply some_inj in H. inversion H; subst. split; reflexivity.
      * destruct (consume tk) as [? tk1].
        apply some_inj in H. inversion H; subst. split; reflexivity.
      * destruct (consume tk) as [? tk1]. apply IHt in H. exact H.
      * destruct (consume tk) as [? tk1]. apply IHt in H. exact H.
      * apply some_inj in H. inversion H; subst. exact I.
Qed.

Lemma parse_fields_loop_well_formed {F : Type}
      (mk : ast.Expression -> option tok.Token -> F) ceiling fuel :
  ceiling <= tok.comma_precedence ->
  forall parent fields tk fs parent' tk',
    parse_fields_loop mk ceiling fuel parent fields tk
      = Some (fs, parent', tk') ->
    exists new, fs = fields ++ new /\
                Forall (fun f => exists e a, f = mk e a /\ well_formed e /\
                                             alias_ok a) new.
Proof.
  intros L.
  induction fuel as [|fuel IH]; intros parent fields tk fs parent' tk' H;
    [discriminate|].
  cbn [parse_fields_loop] in H.
  destruct (parse_expression fuel parent ceiling tk)
    as [[[e1 parent1] tk1]|] eqn:E1; [|discriminate].
  apply (proj1 (parse_expression_well_formed fuel)) in E1; [|exact L].
  destruct (get_next_standard_token fuel parent1 tk1)
    as [[[token parent2] tk2]|]; [|discriminate].
  destruct (if is_as token
            then let (_, tk) := consume tk2 in
                 get_next_standard_token fuel parent2 tk
            else Some (token, parent2, tk2))
    as [[[token3 parent3] tk3]|]; [|discriminate].
  destruct (if is_alias token3
            then let (_, tk) := consume tk3 in
                 match get_next_standard_token fuel parent3 tk with
                 | None => None
                 | Some (token', parent_statement, tk) =>
                   Some (fields ++ [mk e1 (Some token3)], token',
                         parent_statement, tk)
                 end
            else Some (fields ++ [mk e1 None], token3, parent3, tk3))
    as [[[[fields4 token4] parent4] tk4]|] eqn:E4; [|discriminate].
  assert (F4 : exists a, fields4 = fields ++ [mk e1 a] /\ alias_ok a).
  { destruct (is_alias token3) eqn:Al.
    - destruct (consume tk3) as [? tk3'].
      destruct (get_next_standard_token fuel parent3 tk3')
        as [[[token' parent'0] tk'0]|]; [|discriminate].
      apply some_inj in E4. inversion E4; subst.
      exists (Some token3). split; [reflexivity|exact Al].
    - apply some_inj in E4. inversion E4; subst.
      exists None. split; [reflexivity|exact I]. }
  clear E4. destruct F4 as (a & -> & Al).
  assert (N1 : Forall (fun f => exists e a, f = mk e a /\ well_formed e /\
                                            alias_ok a) [mk e1 a]).
  { constructor; [|constructor]. exists e1, a. auto. }
  destruct (is_comma token4).
  - destruct (consume tk4) as [? tk5].
    apply IH in H as (new & En & Fn).
    exists (mk e1 a :: new). rewrite En, <- app_assoc.
    split; [reflexivity|]. constructor; [inversion N1; assumption|exact Fn].
  - apply some_inj in H. inversion H; subst.
    exists [mk e1 a]. split; [reflexivity|exact N1].
Qed.

Lemma statement_well_formed_frame s s' :
  frame s s' -> statement_well_formed s -> statement_well_formed s'.
Proof.
  unfold frame, statement_well_formed. intros (_ & _ & -> & -> & -> & _).
  auto.
Qed.

Lemma parse_statement_loop_well_formed fuel :
  forall prev ret tk ret' tk',
    parse_statement_loop fuel prev ret tk = Some (ret', tk') ->
    statement_well_formed ret -> statement_well_formed ret'.
Proof.
  induction fuel as [|fuel IH]; intros prev ret tk ret' tk' H OK;
    [discriminate|].
  cbn [parse_statement_loop] in H.
  destruct (get_next_standard_token fuel ret tk)
    as [[[token ret1] tk1]|] eqn:E1; [|discriminate].
  apply get_next_standard_token_frame in E1.
  pose proof (statement_well_formed_frame _ _ E1 OK) as (O1 & O2 & O3).
  destruct (parse_statement_try fuel token ret1 tk1)
    as [[[res ret2] tk2]|] eqn:E2; [|discriminate].
  assert (OK2 : match res with
                | TryUnknownTokenException => ret2 = ret1 /\ tk2 = tk1
                | _ => statement_well_formed ret2
                end).
  { unfold parse_statement_try in E2.
    destruct token as [s l ty|s l|s l ty|s l ty h].
    - destruct ty;
        try (apply some_inj in E2; inversion E2; subst; split; reflexivity).
      + unfold parse_select in E2. destruct (consume tk1) as [? tk1'].
        destruct (parse_fields_loop ast.mkSelectField
                    (tok.comma_precedence - 1) fuel ret1 [] tk1')
          as [[[fs ret3] tk3]|] eqn:E3; [|discriminate].
        pose proof (parse_fields_loop_shape _ _ _ _ _ _ _ _ _ E3) as [Fr _].
        apply parse_fields_loop_well_formed in E3 as (new & En & Fn);
          [|lia].
        cbn [app] in En. subst fs.
        apply some_inj in E2. inversion E2; subst.
        pose proof (statement_well_formed_frame _ _ Fr
                      (conj O1 (conj O2 O3))) as (Q1 & Q2 & Q3).
        unfold statement_well_formed.
        cbn [add_select ast.selects ast.froms ast.wheres].
        split; [|split; assumption].
        apply Forall_app. split; [exact Q1|].
        constructor; [|constructor]. cbn [ast.select_fields].
        eapply Forall_impl; [|exact Fn].
        intros f (e & a & -> & We & Wa). split; assumption.
      + unfold parse_from in E2. destruct (consume tk1) as [? tk1'].
        destruct (parse_fields_loop ast.mkFromField dot_precedence fuel ret1
                                    [] tk1')
          as [[[fs ret3] tk3]|] eqn:E3; [|discriminate].
        pose proof (parse_fields_loop_shape _ _ _ _ _ _ _ _ _ E3) as [Fr _].
        apply parse_fields_loop_well_formed in E3 as (new & En & Fn);
          [|exact dot_precedence_le_comma].
        cbn [app] in En. subst fs.
        apply some_inj in E2. inversion E2; subst.
        pose proof (statement_well_formed_frame _ _ Fr
                      (conj O1 (conj O2 O3))) as (Q1 & Q2 & Q3).
        unfold statement_well_formed.
        cbn [add_from ast.selects ast.froms ast.wheres].
        split; [exact Q1|]. split; [|exact Q3].
        apply Forall_app. split; [exact Q2|].
        constructor; [|constructor]. cbn [ast.from_fields].
        eapply Forall_impl; [|exact Fn].
        intros f (e & a & -> & We & Wa). split; assumption.
      + unfold parse_where in E2. destruct (consume tk1) as [? tk1'].
        destruct (parse_expression fuel ret1 (tok.comma_precedence - 1) tk1')
          as [[[e ret3] tk3]|] eqn:E3; [|discriminate].
        pose proof (proj1 (parse_expression_shape fuel) _ _ _ _ _ _ E3)
          as [Fr _].
        apply (proj1 (parse_expression_well_formed fuel)) in E3; [|lia].
        apply some_inj in E2. inversion E2; subst.
        pose proof (statement_well_formed_frame _ _ Fr
                      (conj O1 (conj O2 O3))) as (Q1 & Q2 & Q3).
        unfold statement_well_formed.
        cbn [add_where ast.selects ast.froms ast.wheres].
        split; [exact Q1|]. split; [exact Q2|].
        apply Forall_app. split; [exact Q3|].
        constructor; [exact E3|constructor].
    - apply some_inj in E2; inversion E2; subst; split; reflexivity.
    - destruct ty;
        try (apply some_inj in E2; inversion E2; subst; split; reflexivity).
      + destruct (consume tk1) as [? tk1'].
        apply some_inj in E2. inversion E2; subst.
        unfold statement_well_formed. cbn. auto.
      + destruct (consume tk1) as [? tk1']. destruct (consume tk1').
        apply some_inj in E2. inversion E2; subst.
        unfold statement_well_formed. cbn. auto.
    - destruct ty; apply some_inj in E2; inversion E2; subst;
        try (split; reflexivity).
      unfold statement_well_formed. cbn. auto. }
  destruct res.
  - eapply IH; eauto.
  - apply some_inj in H. inversion H; subst. exact OK2.
  - destruct OK2 as [-> ->].
    destruct (consume tk1) as [? tk3].
    destruct (parse_statement_except prev token ret1) as [ret3|] eqn:E3;
      [|discriminate].
    apply parse_statement_except_shape in E3
      as (_ & _ & S1 & S2 & S3 & _).
    apply IH in H; [exact H|].
    unfold statement_well_formed. rewrite S1, S2, S3. auto.
Qed.

Lemma parse_all_loop_well_formed fuel :
  forall ret tk stmts tk',
    parse_all_loop fuel ret tk = Some (stmts, tk') ->
    Forall statement_well_formed ret -> Forall statement_well_formed stmts.
Proof.
  induction fuel as [|fuel IH]; intros ret tk stmts tk' H OK;
    [discriminate|].
  cbn [parse_all_loop] in H.
  destruct (consume_newline_semicolons fuel tk) as [[token tk1]|];
    [|discriminate].
  destruct (is_end_of_string token);
    [apply some_inj in H; inversion H; subst; exact OK|].
  destruct (parse_statement fuel tk1) as [[s tk2]|] eqn:E; [|discriminate].
  assert (Ws : statement_well_formed s).
  { unfold parse_statement in E. destruct (peek 1 tk1) as [t tk1'].
    eapply parse_statement_loop_well_formed; [exact E|].
    unfold statement_well_formed. cbn. auto. }
  apply IH in H; [exact H|]. apply Forall_app; split; auto.
Qed.

(** X12: the fields of the tree hold what my_ast.py says they hold.  In
    every expression of every statement that [parse_all] returns, the
    token of a value is a name that is no keyword, a number or a string;
    the parentheses of a parenthesised expression are a left and a right
    parenthesis; the operator of a binary expression has a precedence in
    [operator_to_precedence], and its left operand is no placeholder; a
    placeholder holds the text [1]; and every alias is a name that is no
    keyword or a double-quoted string, closed or not. *)
Theorem X12_tree_fields_hold_what_my_ast_says :
  forall txt,
    exists stmts,
      parseAll txt = Some stmts /\ Forall statement_well_formed stmts.
Proof.
  intros txt. destruct (parseAll_spans txt) as (stmts & E & _).
  exists stmts. split; [exact E|].
  unfold parseAll, parse_all in E.
  destruct (parse_all_loop (4 * List.length txt + 12) []
                           (Tokenizer_init txt 0)) as [[l tk']|] eqn:L;
    [|discriminate].
  cbn [option_map fst] in E. apply some_inj in E. subst l.
  eapply parse_all_loop_well_formed; [exact L|constructor].
Qed.


(** ** When autocomplete answers *)

Lemma extract_name_some text token cursor :
  extract_name_from_token text token (Some cursor) <> None <->
  is_nameable token = true /\
  tok.start token <= cursor <= tok.start token + tok.length token.
Proof.
  unfold extract_name_from_token. cbv zeta.
  destruct ((tok.start token <=? cursor)
            && (cursor <=? tok.start token + tok.length token)) eqn:B.
  - apply andb_true_iff in B as [B1 B2]. apply Z.leb_le in B1, B2.
    destruct token as [s l ty|s l|s l ty|s l ty h]; try destruct ty;
      cbn [is_nameable tok.start tok.length] in *;
      (split; [intros H;
               first [exfalso; apply H; reflexivity
                     |split; [reflexivity|lia]]
              |intros [H _]; first [discriminate H|discriminate]]).
  - split; [intros H; contradiction H; reflexivity|].
    intros [_ H]. apply andb_false_iff in B as [B|B];
      [apply Z.leb_gt in B|apply Z.leb_gt in B]; lia.
Qed.

Lemma first_suggestion_answers {A : Type} (f : A -> option (list str)) l :
  first_suggestion f l <> None <-> exists x, In x l /\ f x <> None.
Proof.
  induction l as [|x l IH]; cbn [first_suggestion].
  - split; [intros H; contradiction H; reflexivity|intros (x & [] & _)].
  - destruct (f x) as [s|] eqn:E.
    + split; [|intros _; discriminate].
      intros _. exists x. split; [left; reflexivity|].
      rewrite E. discriminate.
    + rewrite IH. split; intros (y & I1 & N).
      * exists y. split; [right; exact I1|exact N].
      * destruct I1 as [<-|I1]; [rewrite E in N; contradiction N; reflexivity|].
        exists y. split; assumption.
Qed.

Lemma suggest_in_expression_answers table_to_column text cursor
      tables_in_play :
  forall e predot_name,
    suggest_in_expression table_to_column text cursor e tables_in_play
                          predot_name <> None <->
    exists token,
      In token (leaves e) /\
      extract_name_from_token text token (Some cursor) <> None.
Proof.
  induction e as [t|lp e IH rp|l IHl op r IHr|s]; intros predot_name;
    cbn [suggest_in_expression leaves].
  - destruct (extract_name_from_token text t (Some cursor)) as [name|] eqn:E.
    + split; [|intros _; discriminate].
      intros _. exists t. split; [left; reflexivity|].
      rewrite E. discriminate.
    + split; [intros H; contradiction H; reflexivity|].
      intros (t' & [<-|[]] & N). rewrite E in N.
    exfalso; apply N; reflexivity.
  - apply IH.
  - destruct (suggest_in_expression table_to_column text cursor l
                                    tables_in_play None) as [sl|] eqn:El.
    + split; [|intros _; discriminate].
      intros _.
      assert (N : suggest_in_expression table_to_column text cursor l
                                        tables_in_play None <> None)
        by (rewrite El; discriminate).
      apply IHl in N as (t & I1 & N). exists t.
      split; [apply in_or_app; left; exact I1|exact N].
    + rewrite IHr. split; intros (t & I1 & N).
      * exists t. split; [apply in_or_app; right; exact I1|exact N].
      * apply in_app_or in I1 as [I1|I1].
        -- assert (K : suggest_in_expression table_to_column text cursor l
                                              tables_in_play None <> None)
             by (apply IHl; exists t; split; assumption).
           rewrite El in K. contradiction K. reflexivity.
        -- exists t. split; assumption.
  - split; [intros H; contradiction H; reflexivity|intros (t & [] & _)].
Qed.

Lemma suggest_in_from_answers table_to_column text cursor e :
  suggest_in_from table_to_column text cursor e <> None <->
  exists token,
    In token (match e with
              | ast.ValueExpression token => [token]
              | _ => []
              end) /\
    extract_name_from_token text token (Some cursor) <> None.
Proof.
  unfold suggest_in_from.
  destruct e as [t| | |];
    try (split; [intros H; contradiction H; reflexivity
                |intros (t' & [] & _)]).
  destruct (extract_name_from_token text t (Some cursor)) as [name|] eqn:E.
  - split; [|intros _; discriminate].
    intros _. exists t. split; [left; reflexivity|].
    rewrite E. discriminate.
  - split; [intros H; contradiction H; reflexivity|].
    intros (t' & [<-|[]] & N). rewrite E in N.
    exfalso; apply N; reflexivity.
Qed.

Lemma suggest_in_statement_answers table_to_column text s cursor :
  suggest_in_statement table_to_column text s cursor <> None <->
  exists token,
    In token (trigger_tokens s) /\
    extract_name_from_token text token (Some cursor) <> None.
Proof.
  unfold suggest_in_statement, trigger_tokens. cbv zeta.
  set (fs := fun select : ast.SelectClause => first_suggestion _ _).
  set (ff := fun from_ : ast.FromClause => first_suggestion _ _).
  set (fw := fun where_ : ast.WhereClause => suggest_in_expression _ _ _ _ _ _).
  assert (As : first_suggestion fs (ast.selects s) <> None <->
               exists token,
                 In token (flat_map
                             (fun c =>
                                flat_map
                                  (fun f => leaves (ast.select_expression f))
                                  (ast.select_fields c)) (ast.selects s)) /\
                 extract_name_from_token text token (Some cursor) <> None).
  { rewrite first_suggestion_answers. split.
    - intros (c & Ic & N). unfold fs in N.
      apply first_suggestion_answers in N as (f & If & N).
      apply suggest_in_expression_answers in N as (t & It & N).
      exists t. split; [|exact N].
      apply in_flat_map. exists c. split; [exact Ic|].
      apply in_flat_map. exists f. split; assumption.
    - intros (t & It & N).
      apply in_flat_map in It as (c & Ic & It).
      apply in_flat_map in It as (f & If & It).
      exists c. split; [exact Ic|]. unfold fs.
      apply first_suggestion_answers. exists f. split; [exact If|].
      apply suggest_in_expression_answers. exists t. split; assumption. }
  assert (Af : first_suggestion ff (ast.froms s) <> None <->
               exists token,
                 In token (flat_map
                             (fun c =>
                                flat_map
                                  (fun f =>
                                     match ast.table_name f with
                                     | ast.ValueExpression token => [token]
                                     | _ => []
                                     end)
                                  (ast.from_fields c)) (ast.froms s)) /\
                 extract_name_from_token text token (Some cursor) <> None).
  { rewrite first_suggestion_answers. split.
    - intros (c & Ic & N). unfold ff in N.
      apply first_suggestion_answers in N as (f & If & N).
      apply suggest_in_from_answers in N as (t & It & N).
      exists t. split; [|exact N].
      apply in_flat_map. exists c. split; [exact Ic|].
      apply in_flat_map. exists f. split; assumption.
    - intros (t & It & N).
      apply in_flat_map in It as (c & Ic & It).
      apply in_flat_map in It as (f & If & It).
      exists c. split; [exact Ic|]. unfold ff.
      apply first_suggestion_answers. exists f. split; [exact If|].
      apply suggest_in_from_answers. exists t. split; assumption. }
  assert (Aw : first_suggestion fw (ast.wheres s) <> None <->
               exists token,
                 In token (flat_map
                             (fun c => leaves (ast.where_expression c))
                             (ast.wheres s)) /\
                 extract_name_from_token text token (Some cursor) <> None).
  { rewrite first_suggestion_answers. split.
    - intros (c & Ic & N). unfold fw in N.
      apply suggest_in_expression_answers in N as (t & It & N).
      exists t. split; [|exact N].
      apply in_flat_map. exists c. split; assumption.
    - intros (t & It & N).
      apply in_flat_map in It as (c & Ic & It).
      exists c. split; [exact Ic|]. unfold fw.
      apply suggest_in_expression_answers. exists t. split; assumption. }
  clearbody fs ff fw.
  destruct (first_suggestion fs (ast.selects s)) as [r1|] eqn:E1.
  - split; [|intros _; discriminate].
    intros _. destruct (proj1 As) as (t & It & N); [discriminate|].
    exists t. split; [apply in_or_app; left; exact It|exact N].
  - destruct (first_suggestion ff (ast.froms s)) as [r2|] eqn:E2.
    + split; [|intros _; discriminate].
      intros _. destruct (proj1 Af) as (t & It & N); [discriminate|].
      exists t. split; [|exact N].
      apply in_or_app; right. apply in_or_app; left. exact It.
    + rewrite Aw. split; intros (t & It & N).
      * exists t. split; [|exact N].
        apply in_or_app; right. apply in_or_app; right. exact It.
      * apply in_app_or in It as [It|It].
        { exfalso. apply (proj2 As); [|reflexivity].
          exists t. split; assumption. }
        apply in_app_or in It as [It|It].
        { exfalso. apply (proj2 Af); [|reflexivity].
          exists t. split; assumption. }
        exists t. split; assumption.
Qed.

(** What [suggest] returns, the call stack left out: a list, and not
    [None], exactly when the cursor lies in the span of one of the
    statements, ends included, and in or at an end of a token of that
    statement that is a name that is no keyword or a double-quoted string,
    and that is a value of one of its select fields or where conditions or
    the whole of one of its table names. *)
Lemma suggest_answers :
  forall table_to_column text statements cursor,
    suggest table_to_column text statements cursor <> None <->
    exists statement token,
      In statement statements /\
      ast.start statement <= cursor
        <= ast.start statement + ast.length statement /\
      In token (trigger_tokens statement) /\
      is_nameable token = true /\
      tok.start token <= cursor <= tok.start token + tok.length token.
Proof.
  intros table_to_column text statements cursor.
  induction statements as [|s l IH]; cbn [suggest].
  - split; [intros H; contradiction H; reflexivity|].
    intros (st & _ & [] & _).
  - assert (T : suggest table_to_column text l cursor <> None ->
                exists statement token,
                  In statement (s :: l) /\
                  ast.start statement <= cursor
                    <= ast.start statement + ast.length statement /\
                  In token (trigger_tokens statement) /\
                  is_nameable token = true /\
                  tok.start token <= cursor
                    <= tok.start token + tok.length token).
    { intros H. apply IH in H as (st & t & I1 & R).
      exists st, t. split; [right; exact I1|exact R]. }
    destruct ((ast.start s <=? cursor)
              && (cursor <=? ast.start s + ast.length s)) eqn:B.
    + apply andb_true_iff in B as [B1 B2]. apply Z.leb_le in B1, B2.
      destruct (suggest_in_statement table_to_column text s cursor)
        as [r1|] eqn:E.
      * split; [|intros _; discriminate].
        intros _.
        destruct (proj1 (suggest_in_statement_answers table_to_column text
                           s cursor)) as (t & It & N);
          [rewrite E; discriminate|].
        apply extract_name_some in N as [N1 N2].
        exists s, t. split; [left; reflexivity|]. split; [lia|]. auto.
      * split; [exact T|].
        intros (st & t & [<-|I1] & Sp & It & N1 & N2).
        -- exfalso.
           apply (proj2 (suggest_in_statement_answers table_to_column text
                           s cursor)); [|exact E].
           exists t. split; [exact It|].
           apply extract_name_some. split; assumption.
        -- apply IH. exists st, t. auto.
    + split; [exact T|].
      intros (st & t & [<-|I1] & Sp & It & N1 & N2).
      * apply andb_false_iff in B as [B|B]; apply Z.leb_gt in B; lia.
      * apply IH. exists st, t. auto.
Qed.



(** * The call stack *)

(** ** The tokenizer *)

Lemma consume_stack_cases frames tk :
  consume_stack frames tk = Some (Return (consume tk)) \/
  consume_stack frames tk = Some (Raise RecursionError).
Proof.
  unfold consume_stack, consume, _search_next_stack, call.
  destruct frames as [|frames]; [right; reflexivity|].
  destruct (peek_queue tk); [|left; reflexivity].
  destruct frames as [|frames]; [right; reflexivity|].
  left. cbn [and_then]. destruct (_search_next (text tk) (start_position tk)).
  reflexivity.
Qed.

Lemma consume_stack_enough frames tk :
  (2 <= frames)%nat -> consume_stack frames tk = Some (Return (consume tk)).
Proof.
  intros H. unfold consume_stack, consume, _search_next_stack, call.
  destruct frames as [|[|frames]]; [lia|lia|].
  destruct (peek_queue tk); [|reflexivity].
  cbn [and_then]. destruct (_search_next (text tk) (start_position tk)).
  reflexivity.
Qed.

Lemma peek_fill_stack_S frames text : forall n position queue,
  peek_fill_stack (S frames) n text position queue
  = Some (Return (peek_fill n text position queue)).
Proof.
  induction n as [|n IH]; intros position queue; [reflexivity|].
  cbn [peek_fill_stack peek_fill]. unfold _search_next_stack, call.
  cbn [and_then]. destruct (_search_next text position). apply IH.
Qed.

Lemma peek_fill_stack_O n text position queue :
  peek_fill_stack 0 n text position queue
  = match n with
    | O => Some (Return (peek_fill n text position queue))
    | S _ => Some (Raise RecursionError)
    end.
Proof. destruct n; reflexivity. Qed.

Lemma peek_stack_cases frames k tk :
  peek_stack frames k tk = Some (Return (peek k tk)) \/
  peek_stack frames k tk = Some (Raise RecursionError).
Proof.
  unfold peek_stack, peek, call.
  destruct frames as [|[|frames]]; [right; reflexivity| |].
  - rewrite peek_fill_stack_O.
    destruct (k - List.length (peek_queue tk))%nat;
      [left|right]; reflexivity.
  - left. rewrite peek_fill_stack_S. reflexivity.
Qed.

Lemma peek_stack_enough frames k tk :
  (2 <= frames)%nat -> peek_stack frames k tk = Some (Return (peek k tk)).
Proof.
  intros H. unfold peek_stack, peek, call.
  destruct frames as [|[|frames]]; [lia|lia|].
  rewrite peek_fill_stack_S. reflexivity.
Qed.


(** ** The run on the stack and the run without *)

Ltac scrutinee s k :=
  lazymatch s with
  | and_then ?r _ => scrutinee r k
  | option_map _ ?r => scrutinee r k
  | match ?y with _ => _ end => scrutinee y k
  | _ => k s
  end.

Ltac agrees_step :=
  cbn [and_then agrees call];
  first
    [ reflexivity
    | lazymatch goal with
      | |- agrees _ ?s =>
        scrutinee s ltac:(fun y =>
          lazymatch y with
          | consume_stack ?f ?t =>
            let E := fresh "E" in
            destruct (consume_stack_cases f t) as [E|E]; rewrite E
          | peek_stack ?f ?k ?t =>
            let E := fresh "E" in
            destruct (peek_stack_cases f k t) as [E|E]; rewrite E
          | _ =>
            first
              [ let P := fresh "P" in
                eassert (P : agrees _ y)
                  by (match goal with IH : _ |- _ => apply IH end);
                destruct y as [[?|?]|]; cbn [agrees] in P;
                [rewrite P|subst|rewrite P]
              | destruct y ]
          end)
      end ].

Ltac agrees_crush := repeat agrees_step.

Lemma consume_newline_semicolons_loop_agrees frames fuel :
  forall token tk,
    agrees (consume_newline_semicolons_loop fuel token tk)
           (consume_newline_semicolons_loop_stack frames fuel token tk).
Proof.
  induction fuel as [|fuel IH]; intros token tk; [reflexivity|].
  cbn [consume_newline_semicolons_loop consume_newline_semicolons_loop_stack].
  agrees_crush.
Qed.

Lemma consume_newline_semicolons_agrees frames fuel tk :
  agrees (consume_newline_semicolons fuel tk)
         (consume_newline_semicolons_stack frames fuel tk).
Proof.
  unfold consume_newline_semicolons, consume_newline_semicolons_stack.
  destruct frames as [|frames]; [reflexivity|].
  pose proof (consume_newline_semicolons_loop_agrees frames fuel) as IH.
  agrees_crush.
Qed.

Lemma get_next_standard_token_loop_agrees frames fuel :
  forall token parent tk,
    agrees (get_next_standard_token_loop fuel token parent tk)
           (get_next_standard_token_loop_stack frames fuel token parent tk).
Proof.
  induction fuel as [|fuel IH]; intros token parent tk; [reflexivity|].
  cbn [get_next_standard_token_loop get_next_standard_token_loop_stack].
  agrees_crush.
Qed.

Lemma get_next_standard_token_agrees frames fuel parent tk :
  agrees (get_next_standard_token fuel parent tk)
         (get_next_standard_token_stack frames fuel parent tk).
Proof.
  unfold get_next_standard_token, get_next_standard_token_stack.
  destruct frames as [|frames]; [reflexivity|].
  pose proof (get_next_standard_token_loop_agrees frames fuel) as IH.
  agrees_crush.
Qed.

Lemma parse_expression_agrees fuel :
  forall frames,
  (forall parent prec tk,
      agrees (parse_expression fuel parent prec tk)
             (parse_expression_stack frames fuel parent prec tk)) /\
  (forall parent prec e tk,
      agrees (parse_expression_loop fuel parent prec e tk)
             (parse_expression_loop_stack frames fuel parent prec e tk)) /\
  (forall parent tk,
      agrees (parse_non_binary_expression fuel parent tk)
             (parse_non_binary_expression_stack frames fuel parent tk)) /\
  (forall token parent tk,
      agrees (parse_non_binary_try fuel token parent tk)
             (parse_non_binary_try_stack frames fuel token parent tk)).
Proof.
  induction fuel as [|fuel IH]; intros frames;
    [repeat split; intros; reflexivity|].
  split; [|split; [|split]].
  - intros parent prec tk.
    cbn [parse_expression parse_expression_stack].
    destruct frames as [|frames]; [reflexivity|].
    destruct (IH frames) as (_ & IHl & IHn & _). clear IH.
    agrees_crush.
  - intros parent prec e tk.
    cbn [parse_expression_loop parse_expression_loop_stack].
    destruct (IH frames) as (IHe & IHl & _ & _). clear IH.
    pose proof (get_next_standard_token_agrees frames fuel) as IHg.
    agrees_crush.
  - intros parent tk.
    cbn [parse_non_binary_expression parse_non_binary_expression_stack].
    destruct frames as [|frames]; [reflexivity|].
    destruct (IH frames) as (_ & _ & _ & IHt). clear IH.
    pose proof (get_next_standard_token_agrees frames fuel) as IHg.
    agrees_crush.
  - intros token parent tk.
    cbn [parse_non_binary_try parse_non_binary_try_stack].
    destruct (IH frames) as (IHe & _ & _ & IHt). clear IH.
    pose proof (get_next_standard_token_agrees frames fuel) as IHg.
    agrees_crush.
Qed.

Lemma parse_fields_loop_agrees {F : Type}
      (mk : ast.Expression -> option tok.Token -> F) ceiling frames fuel :
  forall parent fields tk,
    agrees (parse_fields_loop mk ceiling fuel parent fields tk)
           (parse_fields_loop_stack mk ceiling frames fuel parent fields tk).
Proof.
  induction fuel as [|fuel IH]; intros parent fields tk; [reflexivity|].
  cbn [parse_fields_loop parse_fields_loop_stack].
  pose proof (get_next_standard_token_agrees frames fuel) as IHg.
  pose proof (proj1 (parse_expression_agrees fuel frames)) as IHe.
  agrees_crush.
Qed.

Lemma parse_statement_try_agrees frames fuel token ret tk :
  agrees (parse_statement_try fuel token ret tk)
         (parse_statement_try_stack frames fuel token ret tk).
Proof.
  unfold parse_statement_try, parse_statement_try_stack.
  unfold parse_select, parse_from, parse_where.
  unfold parse_select_stack, parse_from_stack, parse_where_stack.
  destruct token as [s l ty|s l|s l ty|s l ty h]; try destruct ty;
    try reflexivity;
    try (destruct frames as [|frames]; [reflexivity|]);
    try pose proof (proj1 (parse_expression_agrees fuel frames)) as IHe;
    try pose proof (parse_fields_loop_agrees ast.mkSelectField
                      (tok.comma_precedence - 1) frames fuel) as IHs;
    try pose proof (parse_fields_loop_agrees ast.mkFromField
                      dot_precedence frames fuel) as IHf;
    agrees_crush.
Qed.

Lemma parse_statement_loop_agrees frames fuel :
  forall prev ret tk,
    agrees (parse_statement_loop fuel prev ret tk)
           (parse_statement_loop_stack frames fuel prev ret tk).
Proof.
  induction fuel as [|fuel IH]; intros prev ret tk; [reflexivity|].
  cbn [parse_statement_loop parse_statement_loop_stack].
  pose proof (get_next_standard_token_agrees frames fuel) as IHg.
  pose proof (parse_statement_try_agrees frames fuel) as IHt.
  agrees_crush.
Qed.

Lemma parse_statement_agrees frames fuel tk :
  agrees (parse_statement fuel tk) (parse_statement_stack frames fuel tk).
Proof.
  unfold parse_statement, parse_statement_stack.
  destruct frames as [|frames]; [reflexivity|].
  pose proof (parse_statement_loop_agrees frames fuel) as IH.
  agrees_crush.
Qed.

Lemma parse_all_loop_agrees frames fuel :
  forall ret tk,
    agrees (parse_all_loop fuel ret tk)
           (parse_all_loop_stack frames fuel ret tk).
Proof.
  induction fuel as [|fuel IH]; intros ret tk; [reflexivity|].
  cbn [parse_all_loop parse_all_loop_stack].
  pose proof (consume_newline_semicolons_agrees frames fuel) as IHc.
  pose proof (parse_statement_agrees frames fuel) as IHs.
  agrees_crush.
Qed.

Lemma parse_all_agrees frames fuel tk :
  agrees (parse_all fuel tk) (parse_all_stack frames fuel tk).
Proof.
  unfold parse_all, parse_all_stack.
  destruct frames as [|frames]; [reflexivity|].
  pose proof (parse_all_loop_agrees frames fuel) as IH.
  agrees_crush.
Qed.



(** ** Frames that suffice *)

(** A run that has [fuel] cannot nest more than [fuel] calls, and three
    frames take a call of [get_next_standard_token] to [_search_next]. *)

Ltac enough_step :=
  cbn [and_then option_map call];
  first
    [ reflexivity
    | rewrite consume_stack_enough by lia
    | rewrite peek_stack_enough by lia
    | match goal with
      | IH : forall _, _ |- _ => rewrite IH by lia
      | IH : forall _, _ |- _ => rewrite IH
      end
    | lazymatch goal with
      | |- ?s = _ => scrutinee s ltac:(fun y => destruct y)
      end ].

Ltac enough_crush := repeat enough_step.

Lemma consume_newline_semicolons_loop_enough frames fuel :
  (2 <= frames)%nat ->
  forall token tk,
    consume_newline_semicolons_loop_stack frames fuel token tk
    = option_map Return (consume_newline_semicolons_loop fuel token tk).
Proof.
  intros H. induction fuel as [|fuel IH]; intros token tk; [reflexivity|].
  cbn [consume_newline_semicolons_loop consume_newline_semicolons_loop_stack].
  enough_crush.
Qed.

Lemma consume_newline_semicolons_enough frames fuel tk :
  (3 <= frames)%nat ->
  consume_newline_semicolons_stack frames fuel tk
  = option_map Return (consume_newline_semicolons fuel tk).
Proof.
  intros H. unfold consume_newline_semicolons,
              consume_newline_semicolons_stack.
  destruct frames as [|frames]; [lia|].
  pose proof (consume_newline_semicolons_loop_enough frames fuel) as IH.
  enough_crush.
Qed.

Lemma get_next_standard_token_loop_enough frames fuel :
  (2 <= frames)%nat ->
  forall token parent tk,
    get_next_standard_token_loop_stack frames fuel token parent tk
    = option_map Return (get_next_standard_token_loop fuel token parent tk).
Proof.
  intros H. induction fuel as [|fuel IH]; intros token parent tk;
    [reflexivity|].
  cbn [get_next_standard_token_loop get_next_standard_token_loop_stack].
  enough_crush.
Qed.

Lemma get_next_standard_token_enough frames fuel parent tk :
  (3 <= frames)%nat ->
  get_next_standard_token_stack frames fuel parent tk
  = option_map Return (get_next_standard_token fuel parent tk).
Proof.
  intros H. unfold get_next_standard_token, get_next_standard_token_stack.
  destruct frames as [|frames]; [lia|].
  pose proof (get_next_standard_token_loop_enough frames fuel) as IH.
  enough_crush.
Qed.

Lemma parse_expression_enough fuel :
  forall frames, (fuel + 3 <= frames)%nat ->
  (forall parent prec tk,
      parse_expression_stack frames fuel parent prec tk
      = option_map Return (parse_expression fuel parent prec tk)) /\
  (forall parent prec e tk,
      parse_expression_loop_stack frames fuel parent prec e tk
      = option_map Return (parse_expression_loop fuel parent prec e tk)) /\
  (forall parent tk,
      parse_non_binary_expression_stack frames fuel parent tk
      = option_map Return (parse_non_binary_expression fuel parent tk)) /\
  (forall token parent tk,
      parse_non_binary_try_stack frames fuel token parent tk
      = option_map Return (parse_non_binary_try fuel token parent tk)).
Proof.
  induction fuel as [|fuel IH]; intros frames H;
    [repeat split; intros; reflexivity|].
  split; [|split; [|split]].
  - intros parent prec tk.
    cbn [parse_expression parse_expression_stack].
    destruct frames as [|frames]; [lia|].
    destruct (IH frames) as (_ & IHl & IHn & _); [lia|]. clear IH.
    enough_crush.
  - intros parent prec e tk.
    cbn [parse_expression_loop parse_expression_loop_stack].
    destruct (IH frames) as (IHe & IHl & _ & _); [lia|]. clear IH.
    pose proof (fun parent tk =>
                  get_next_standard_token_enough frames fuel parent tk
                    ltac:(lia)) as IHg.
    enough_crush.
  - intros parent tk.
    cbn [parse_non_binary_expression parse_non_binary_expression_stack].
    destruct frames as [|frames]; [lia|].
    destruct (IH frames) as (_ & _ & _ & IHt); [lia|]. clear IH.
    pose proof (fun parent tk =>
                  get_next_standard_token_enough frames fuel parent tk
                    ltac:(lia)) as IHg.
    enough_crush.
  - intros token parent tk.
    cbn [parse_non_binary_try parse_non_binary_try_stack].
    destruct (IH frames) as (IHe & _ & _ & IHt); [lia|]. clear IH.
    pose proof (fun parent tk =>
                  get_next_standard_token_enough frames fuel parent tk
                    ltac:(lia)) as IHg.
    enough_crush.
Qed.

Lemma parse_fields_loop_enough {F : Type}
      (mk : ast.Expression -> option tok.Token -> F) ceiling frames fuel :
  (fuel + 3 <= frames)%nat ->
  forall parent fields tk,
    parse_fields_loop_stack mk ceiling frames fuel parent fields tk
    = option_map Return (parse_fields_loop mk ceiling fuel parent fields tk).
Proof.
  revert frames. induction fuel as [|fuel IH];
    intros frames H parent fields tk; [reflexivity|].
  cbn [parse_fields_loop parse_fields_loop_stack].
  specialize (IH frames ltac:(lia)).
  pose proof (fun parent tk =>
                get_next_standard_token_enough frames fuel parent tk
                  ltac:(lia)) as IHg.
  pose proof (proj1 (parse_expression_enough fuel frames ltac:(lia))) as IHe.
  enough_crush.
Qed.

Lemma parse_statement_try_enough frames fuel token ret tk :
  (fuel + 4 <= frames)%nat ->
  parse_statement_try_stack frames fuel token ret tk
  = option_map Return (parse_statement_try fuel token ret tk).
Proof.
  intros H. unfold parse_statement_try, parse_statement_try_stack.
  unfold parse_select, parse_from, parse_where.
  unfold parse_select_stack, parse_from_stack, parse_where_stack.
  destruct frames as [|frames]; [lia|].
  pose proof (proj1 (parse_expression_enough fuel frames ltac:(lia))) as IHe.
  pose proof (parse_fields_loop_enough ast.mkSelectField
                (tok.comma_precedence - 1) frames fuel ltac:(lia)) as IHs.
  pose proof (parse_fields_loop_enough ast.mkFromField
                dot_precedence frames fuel ltac:(lia)) as IHf.
  destruct token as [s l ty|s l|s l ty|s l ty h]; try destruct ty;
    enough_crush.
Qed.

Lemma parse_statement_loop_enough frames fuel :
  (fuel + 3 <= frames)%nat ->
  forall prev ret tk,
    parse_statement_loop_stack frames fuel prev ret tk
    = option_map Return (parse_statement_loop fuel prev ret tk).
Proof.
  revert frames. induction fuel as [|fuel IH];
    intros frames H prev ret tk; [reflexivity|].
  cbn [parse_statement_loop parse_statement_loop_stack].
  specialize (IH frames ltac:(lia)).
  pose proof (fun parent tk =>
                get_next_standard_token_enough frames fuel parent tk
                  ltac:(lia)) as IHg.
  pose proof (fun token ret tk =>
                parse_statement_try_enough frames fuel token ret tk
                  ltac:(lia)) as IHt.
  enough_crush.
Qed.

Lemma parse_statement_enough frames fuel tk :
  (fuel + 4 <= frames)%nat ->
  parse_statement_stack frames fuel tk
  = option_map Return (parse_statement fuel tk).
Proof.
  intros H. unfold parse_statement, parse_statement_stack.
  destruct frames as [|frames]; [lia|].
  pose proof (parse_statement_loop_enough frames fuel ltac:(lia)) as IH.
  enough_crush.
Qed.

Lemma parse_all_loop_enough frames fuel :
  (fuel + 3 <= frames)%nat ->
  forall ret tk,
    parse_all_loop_stack frames fuel ret tk
    = option_map Return (parse_all_loop fuel ret tk).
Proof.
  revert frames. induction fuel as [|fuel IH];
    intros frames H ret tk; [reflexivity|].
  cbn [parse_all_loop parse_all_loop_stack].
  specialize (IH frames ltac:(lia)).
  pose proof (fun tk =>
                consume_newline_semicolons_enough frames fuel tk
                  ltac:(lia)) as IHc.
  pose proof (fun tk =>
                parse_statement_enough frames fuel tk ltac:(lia)) as IHs.
  enough_crush.
Qed.

Lemma parse_all_enough frames fuel tk :
  (fuel + 4 <= frames)%nat ->
  parse_all_stack frames fuel tk = option_map Return (parse_all fuel tk).
Proof.
  intros H. unfold parse_all, parse_all_stack.
  destruct frames as [|frames]; [lia|].
  pose proof (parse_all_loop_enough frames fuel ltac:(lia)) as IH.
  enough_crush.
Qed.



(** ** The tokens of the tree are tokens of the text *)

Lemma front_from_text tk :
  wf tk -> from_text (text tk) (tok_at (text tk) (start_position tk)).
Proof.
  intros [R _]. exists (start_position tk). split; [exact R|reflexivity].
Qed.

Lemma parse_expression_from_text fuel :
  (forall parent prec tk e parent' tk',
      wf tk -> parse_expression fuel parent prec tk = Some (e, parent', tk') ->
      Forall (from_text (text tk)) (expression_tokens e)) /\
  (forall parent prec e0 tk e parent' tk',
      wf tk ->
      parse_expression_loop fuel parent prec e0 tk = Some (e, parent', tk') ->
      Forall (from_text (text tk)) (expression_tokens e0) ->
      Forall (from_text (text tk)) (expression_tokens e)) /\
  (forall parent tk e parent' tk',
      wf tk ->
      parse_non_binary_expression fuel parent tk = Some (e, parent', tk') ->
      Forall (from_text (text tk)) (expression_tokens e)) /\
  (forall token parent tk r parent' tk',
      wf tk -> token = tok_at (text tk) (start_position tk) ->
      is_comment token = false ->
      parse_non_binary_try fuel token parent tk = Some (r, parent', tk') ->
      match r with
      | LeafReturn ret =>
        Forall (from_text (text tk)) (expression_tokens ret)
      | LeafUnknownTokenException => True
      end).
Proof.
  induction fuel as [|fuel (IHe & IHl & IHn & IHt)];
    [repeat split; intros; discriminate|].
  split; [|split; [|split]].
  - intros parent prec tk e parent' tk' W H. cbn [parse_expression] in H.
    destruct (parse_non_binary_expression fuel parent tk)
      as [[[e1 parent1] tk1]|] eqn:E1; [|discriminate].
    pose proof (parse_non_binary_expression_post _ _ _ _ W E1) as [A1 _].
    cbn [fst snd] in A1. pose proof (proj1 (proj2 A1)) as X1.
    apply IHn in E1; [|exact W].
    destruct (ast.is_placeholder e1).
    + apply some_inj in H. inversion H; subst. exact E1.
    + eapply IHl in H; [|exact (proj1 A1)|rewrite X1; exact E1].
      rewrite X1 in H. exact H.
  - intros parent prec e0 tk e parent' tk' W H T0.
    cbn [parse_expression_loop] in H.
    destruct (get_next_standard_token fuel parent tk)
      as [[[binop parent1] tk1]|] eqn:E1; [|discriminate].
    pose proof (get_next_standard_token_post _ _ _ _ W E1)
      as (A1 & F1 & Et & Nc & Nn).
    pose proof (proj1 (proj2 A1)) as X1.
    assert (Fb : from_text (text tk) binop).
    { rewrite Et, <- X1. apply front_from_text. exact (proj1 A1). }
    destruct (binop_key binop) as [key|] eqn:K;
      [|apply some_inj in H; inversion H; subst; exact T0].
    destruct (tok.operator_to_precedence_get key (tok.comma_precedence + 1)
              >? prec);
      [apply some_inj in H; inversion H; subst; exact T0|].
    destruct (consume_adv tk1 (proj1 A1)) as (tk2 & E2 & A2 & T2 & S2 & _).
    rewrite E2 in H.
    destruct (parse_expression fuel parent1
                (tok.operator_to_precedence_get key
                   (tok.comma_precedence + 1) - 1) tk2)
      as [[[e2 parent2] tk3]|] eqn:E3; [|discriminate].
    pose proof (parse_expression_post _ _ _ _ _ (proj1 A2) E3) as [A3 _].
    cbn [fst snd] in A3. pose proof (proj1 (proj2 A3)) as X3.
    apply IHe in E3; [|exact (proj1 A2)].
    rewrite T2, X1 in E3.
    assert (T : Forall (from_text (text tk))
                  (expression_tokens (ast.BinaryExpression e0 binop e2))).
    { cbn [expression_tokens]. apply Forall_app. split; [exact T0|].
      constructor; [exact Fb|exact E3]. }
    destruct (ast.is_placeholder e2).
    + apply some_inj in H. inversion H; subst. exact T.
    + eapply IHl in H; [|exact (proj1 A3)|rewrite X3, T2, X1; exact T].
      rewrite X3, T2, X1 in H. exact H.
  - intros parent tk e parent' tk' W H.
    cbn [parse_non_binary_expression] in H.
    destruct (get_next_standard_token fuel parent tk)
      as [[[token parent1] tk1]|] eqn:E1; [|discriminate].
    pose proof (get_next_standard_token_post _ _ _ _ W E1)
      as (A1 & F1 & Et & Nc & Nn).
    pose proof (proj1 (proj2 A1)) as X1.
    destruct (parse_non_binary_try fuel token parent1 tk1)
      as [[[r parent2] tk2]|] eqn:E2; [|discriminate].
    apply IHt in E2; [|exact (proj1 A1)|exact Et|exact Nc].
    rewrite X1 in E2.
    destruct r; apply some_inj in H; inversion H; subst;
      [exact E2|constructor].
  - intros token parent tk r parent' tk' W Et Nc H.
    cbn [parse_non_binary_try] in H.
    destruct (consume_adv tk W) as (tk1 & E1 & A1 & T1 & S1 & _).
    assert (Ft : from_text (text tk) token).
    { rewrite Et. apply front_from_text. exact W. }
    clear Et.
    destruct token as [s l ty|s l|s l ty|s l ty h].
    + destruct ty;
        try (apply some_inj in H; inversion H; subst; exact I).
      rewrite E1 in H. apply some_inj in H. inversion H; subst.
      cbn [expression_tokens]. constructor; [exact Ft|constructor].
    + rewrite E1 in H. apply some_inj in H. inversion H; subst.
      cbn [expression_tokens]. constructor; [exact Ft|constructor].
    + destruct ty;
        try (apply some_inj in H; inversion H; subst; exact I).
      rewrite E1 in H.
      destruct (parse_expression fuel parent tok.comma_precedence tk1)
        as [[[e2 parent2] tk2]|] eqn:E2; [|discriminate].
      pose proof (parse_expression_post _ _ _ _ _ (proj1 A1) E2) as [A2 _].
      cbn [fst snd] in A2. pose proof (proj1 (proj2 A2)) as X2.
      apply IHe in E2; [|exact (proj1 A1)].
      rewrite T1 in E2.
      destruct (get_next_standard_token fuel parent2 tk2)
        as [[[token2 parent3] tk3]|] eqn:E3; [|discriminate].
      pose proof (get_next_standard_token_post _ _ _ _ (proj1 A2) E3)
        as (A3 & F3 & Et3 & Nc3 & Nn3).
      pose proof (proj1 (proj2 A3)) as X3.
      assert (F2 : from_text (text tk) token2).
      { rewrite Et3, <- T1, <- X2, <- X3. apply front_from_text.
        exact (proj1 A3). }
      clear Et3.
      destruct token2 as [| |? ? []|];
        try destruct (consume tk3) as [? tk4];
        apply some_inj in H; inversion H; subst;
        cbn [expression_tokens];
        (constructor; [exact Ft|]);
        apply Forall_app; (split; [exact E2|]);
        repeat constructor; exact F2.
    + destruct ty; try discriminate Nc;
        try (apply some_inj in H; inversion H; subst; exact I);
        rewrite E1 in H; apply some_inj in H; inversion H; subst;
        cbn [expression_tokens]; (constructor; [exact Ft|constructor]).
Qed.

Lemma parse_fields_loop_from_text {F : Type}
      (mk : ast.Expression -> option tok.Token -> F)
      (field_tokens : F -> list tok.Token) ceiling fuel :
  (forall e a, field_tokens (mk e a) = expression_tokens e ++ alias_tokens a) ->
  forall parent fields tk fs parent' tk',
    wf tk ->
    parse_fields_loop mk ceiling fuel parent fields tk
      = Some (fs, parent', tk') ->
    Forall (from_text (text tk)) (flat_map field_tokens fields) ->
    Forall (from_text (text tk)) (flat_map field_tokens fs).
Proof.
  intros Hmk.
  induction fuel as [|fuel IH];
    intros parent fields tk fs parent' tk' W H T0; [discriminate|].
  cbn [parse_fields_loop] in H.
  destruct (parse_expression fuel parent ceiling tk)
    as [[[e1 parent1] tk1]|] eqn:E1; [|discriminate].
  pose proof (parse_expression_post _ _ _ _ _ W E1) as [A1 _].
  cbn [fst snd] in A1. pose proof (proj1 (proj2 A1)) as X1.
  apply (proj1 (parse_expression_from_text fuel)) in E1; [|exact W].
  destruct (get_next_standard_token fuel parent1 tk1)
    as [[[token parent2] tk2]|] eqn:E2; [|discriminate].
  pose proof (get_next_standard_token_post _ _ _ _ (proj1 A1) E2)
    as (A2 & F2 & Et2 & Nc2 & Nn2).
  pose proof (proj1 (proj2 A2)) as X2.
  destruct (if is_as token
            then let (_, tk) := consume tk2 in
                 get_next_standard_token fuel parent2 tk
            else Some (token, parent2, tk2))
    as [[[token3 parent3] tk3]|] eqn:E3; [|discriminate].
  assert (P3 : wf tk3 /\ text tk3 = text tk /\
               token3 = tok_at (text tk3) (start_position tk3)).
  { destruct (is_as token).
    - destruct (consume_adv tk2 (proj1 A2)) as (tk2' & Ec & Ac & Tc & Sc & _).
      rewrite Ec in E3.
      pose proof (get_next_standard_token_post _ _ _ _ (proj1 Ac) E3)
        as (Ag & Fg & Etg & Ncg & Nng).
      split; [exact (proj1 Ag)|]. split; [|exact Etg].
      rewrite (proj1 (proj2 Ag)), Tc, X2, X1. reflexivity.
    - apply some_inj in E3. inversion E3; subst.
      split; [exact (proj1 A2)|]. split; [congruence|].
      first [reflexivity|assumption]. }
  clear E3. destruct P3 as (W3 & X3 & Et3).
  destruct (if is_alias token3
            then let (_, tk) := consume tk3 in
                 match get_next_standard_token fuel parent3 tk with
                 | None => None
                 | Some (token', parent_statement, tk) =>
                   Some (fields ++ [mk e1 (Some token3)], token',
                         parent_statement, tk)
                 end
            else Some (fields ++ [mk e1 None], token3, parent3, tk3))
    as [[[[fields4 token4] parent4] tk4]|] eqn:E4; [|discriminate].
  assert (F3 : from_text (text tk) token3).
  { rewrite Et3, <- X3. apply front_from_text. exact W3. }
  assert (P4 : wf tk4 /\ text tk4 = text tk /\
               exists a, fields4 = fields ++ [mk e1 a] /\
                         Forall (from_text (text tk)) (alias_tokens a)).
  { destruct (is_alias token3).
    - destruct (consume_adv tk3 W3) as (tk3' & Ec & Ac & Tc & Sc & _).
      rewrite Ec in E4.
      destruct (get_next_standard_token fuel parent3 tk3')
        as [[[token' parent'0] tk'0]|] eqn:E5; [|discriminate].
      pose proof (get_next_standard_token_post _ _ _ _ (proj1 Ac) E5)
        as (Ag & Fg & Etg & Ncg & Nng).
      apply some_inj in E4. inversion E4; subst.
      split; [exact (proj1 Ag)|].
      split; [rewrite (proj1 (proj2 Ag)), Tc; exact X3|].
      eexists. split; [reflexivity|]. cbn [alias_tokens].
      constructor; [exact F3|constructor].
    - apply some_inj in E4. inversion E4; subst.
      split; [exact W3|]. split; [exact X3|].
      exists None. split; [reflexivity|]. constructor. }
  clear E4. destruct P4 as (W4 & X4 & a & Ef & Ta). subst fields4.
  assert (T4 : Forall (from_text (text tk))
                 (flat_map field_tokens (fields ++ [mk e1 a]))).
  { rewrite flat_map_app. cbn [flat_map]. rewrite app_nil_r, Hmk.
    apply Forall_app. split; [exact T0|].
    apply Forall_app. split; [exact E1|exact Ta]. }
  destruct (is_comma token4).
  - destruct (consume_adv tk4 W4) as (tk5 & Ec & Ac & Tc & Sc & _).
    rewrite Ec in H.
    eapply IH in H; [|exact (proj1 Ac)|rewrite Tc, X4; exact T4].
    rewrite Tc, X4 in H. exact H.
  - apply some_inj in H. inversion H; subst. exact T4.
Qed.

Lemma statement_tokens_frame text ret ret1 :
  frame ret ret1 ->
  Forall (from_text text) (statement_tokens ret) ->
  Forall (from_text text) (statement_tokens ret1).
Proof.
  intros (_ & _ & F3 & F4 & F5 & _).
  unfold statement_tokens, select_tokens, from_tokens, where_tokens.
  rewrite F3, F4, F5. intros H; exact H.
Qed.

Lemma parse_statement_try_from_text fuel token ret tk res ret' tk' :
  wf tk -> token = tok_at (text tk) (start_position tk) ->
  is_comment token = false ->
  parse_statement_try fuel token ret tk = Some (res, ret', tk') ->
  Forall (from_text (text tk)) (statement_tokens ret) ->
  Forall (from_text (text tk)) (statement_tokens ret').
Proof.
  intros W Et Nc H P.
  destruct (consume_adv tk W) as (tk1 & E1 & A1 & T1 & S1 & _).
  unfold parse_statement_try in H.
  destruct token as [s l ty|s l|s l ty|s l ty h].
  - destruct ty;
      try (apply some_inj in H; inversion H; subst; exact P).
    + unfold parse_select in H. rewrite E1 in H.
      destruct (parse_fields_loop ast.mkSelectField
                  (tok.comma_precedence - 1) fuel ret [] tk1)
        as [[[fs ret1] tk2]|] eqn:E2; [|discriminate].
      pose proof (parse_fields_loop_shape _ _ _ _ _ _ _ _ _ E2) as [Fr _].
      eapply (parse_fields_loop_from_text ast.mkSelectField
                select_field_tokens) in E2;
        [|reflexivity|exact (proj1 A1)|constructor].
      rewrite T1 in E2.
      apply some_inj in H. inversion H; subst.
      pose proof (statement_tokens_frame _ _ _ Fr P) as P1.
      unfold statement_tokens, select_tokens, from_tokens, where_tokens in *.
      cbn [add_select ast.selects ast.froms ast.wheres].
      rewrite flat_map_app. cbn [flat_map ast.select_fields].
      rewrite app_nil_r.
      apply Forall_app in P1 as [Ps Pr].
      apply Forall_app. split; [|exact Pr].
      apply Forall_app. split; [exact Ps|exact E2].
    + unfold parse_from in H. rewrite E1 in H.
      destruct (parse_fields_loop ast.mkFromField dot_precedence fuel ret []
                                  tk1)
        as [[[fs ret1] tk2]|] eqn:E2; [|discriminate].
      pose proof (parse_fields_loop_shape _ _ _ _ _ _ _ _ _ E2) as [Fr _].
      eapply (parse_fields_loop_from_text ast.mkFromField
                from_field_tokens) in E2;
        [|reflexivity|exact (proj1 A1)|constructor].
      rewrite T1 in E2.
      apply some_inj in H. inversion H; subst.
      pose proof (statement_tokens_frame _ _ _ Fr P) as P1.
      unfold statement_tokens, select_tokens, from_tokens, where_tokens in *.
      cbn [add_from ast.selects ast.froms ast.wheres].
      rewrite flat_map_app. cbn [flat_map ast.from_fields].
      rewrite app_nil_r.
      apply Forall_app in P1 as [Ps Pr].
      apply Forall_app in Pr as [Pf Pw].
      apply Forall_app. split; [exact Ps|].
      apply Forall_app. split; [|exact Pw].
      apply Forall_app. split; [exact Pf|exact E2].
    + unfold parse_where in H. rewrite E1 in H.
      destruct (parse_expression fuel ret (tok.comma_precedence - 1) tk1)
        as [[[e ret1] tk2]|] eqn:E2; [|discriminate].
      pose proof (proj1 (parse_expression_shape fuel) _ _ _ _ _ _ E2)
        as [Fr _].
      apply (proj1 (parse_expression_from_text fuel)) in E2;
        [|exact (proj1 A1)].
      rewrite T1 in E2.
      apply some_inj in H. inversion H; subst.
      pose proof (statement_tokens_frame _ _ _ Fr P) as P1.
      unfold statement_tokens, select_tokens, from_tokens, where_tokens in *.
      cbn [add_where ast.selects ast.froms ast.wheres].
      rewrite flat_map_app. cbn [flat_map ast.where_expression].
      rewrite app_nil_r.
      apply Forall_app in P1 as [Ps Pr].
      apply Forall_app in Pr as [Pf Pw].
      apply Forall_app. split; [exact Ps|].
      apply Forall_app. split; [exact Pf|].
      apply Forall_app. split; [exact Pw|exact E2].
  - apply some_inj in H; inversion H; subst; exact P.
  - destruct ty;
      try (apply some_inj in H; inversion H; subst; exact P).
    + rewrite E1 in H. apply some_inj in H. inversion H; subst. exact P.
    + rewrite E1 in H. destruct (consume tk1).
      apply some_inj in H. inversion H; subst. exact P.
  - destruct ty; apply some_inj in H; inversion H; subst; exact P.
Qed.

Lemma parse_statement_loop_from_text fuel :
  forall prev ret tk ret' tk',
    wf tk ->
    parse_statement_loop fuel prev ret tk = Some (ret', tk') ->
    Forall (from_text (text tk)) (statement_tokens ret) ->
    wf tk' /\ text tk' = text tk /\
    Forall (from_text (text tk)) (statement_tokens ret').
Proof.
  induction fuel as [|fuel IH]; intros prev ret tk ret' tk' W H P;
    [discriminate|].
  cbn [parse_statement_loop] in H.
  destruct (get_next_standard_token fuel ret tk)
    as [[[token ret1] tk1]|] eqn:E1; [|discriminate].
  pose proof (get_next_standard_token_post _ _ _ _ W E1)
    as (A1 & F1 & Et & Nc & Nn).
  pose proof (proj1 (proj2 A1)) as X1.
  pose proof (statement_tokens_frame _ _ _ F1 P) as P1.
  destruct (parse_statement_try fuel token ret1 tk1)
    as [[[res ret2] tk2]|] eqn:E2; [|discriminate].
  pose proof (parse_statement_try_post _ _ _ _ _ _ _ (proj1 A1) Et Nc E2)
    as A2.
  pose proof (proj1 (proj2 A2)) as X2.
  pose proof (parse_statement_try_shape _ _ _ _ _ _ _ E2) as Sh.
  apply (parse_statement_try_from_text _ _ _ _ _ _ _ (proj1 A1) Et Nc) in E2;
    [|rewrite X1; exact P1].
  rewrite X1 in E2.
  destruct res.
  - eapply IH in H; [|exact (proj1 A2)|rewrite X2, X1; exact E2].
    rewrite X2, X1 in H. exact H.
  - apply some_inj in H. inversion H; subst.
    split; [exact (proj1 A2)|]. split; [congruence|exact E2].
  - destruct Sh as (B & -> & ->).
    destruct (consume_adv tk1 (proj1 A1)) as (tk3 & E3 & A3 & T3 & S3 & _).
    rewrite E3 in H.
    destruct (parse_statement_except prev token ret1) as [ret3|] eqn:E4;
      [|discriminate].
    apply parse_statement_except_shape in E4 as (_ & _ & S4 & S5 & S6 & _).
    eapply IH in H; [|exact (proj1 A3)|].
    + rewrite T3, X1 in H. exact H.
    + rewrite T3, X1.
      unfold statement_tokens, select_tokens, from_tokens, where_tokens in *.
      rewrite S4, S5, S6. exact P1.
Qed.

Lemma parse_statement_from_text fuel tk s tk' :
  wf tk -> parse_statement fuel tk = Some (s, tk') ->
  wf tk' /\ text tk' = text tk /\
  Forall (from_text (text tk)) (statement_tokens s).
Proof.
  intros W. unfold parse_statement.
  destruct (peek1_adv tk W) as (tk1 & E1 & A1 & T1 & S1 & _). rewrite E1.
  intros H. eapply parse_statement_loop_from_text in H;
    [|exact (proj1 A1)|constructor].
  rewrite T1 in H. exact H.
Qed.

Lemma parse_all_loop_from_text fuel :
  forall ret tk stmts tk',
    wf tk -> parse_all_loop fuel ret tk = Some (stmts, tk') ->
    Forall (fun s => Forall (from_text (text tk)) (statement_tokens s)) ret ->
    Forall (fun s => Forall (from_text (text tk)) (statement_tokens s))
           stmts.
Proof.
  induction fuel as [|fuel IH]; intros ret tk stmts tk' W H P; [discriminate|].
  cbn [parse_all_loop] in H.
  destruct (consume_newline_semicolons fuel tk) as [[token tk1]|] eqn:E1;
    [|discriminate].
  pose proof (consume_newline_semicolons_post _ _ _ _ W E1)
    as (A1 & Et & N1 & N2).
  pose proof (proj1 (proj2 A1)) as X1.
  destruct (is_end_of_string token) eqn:EOS.
  - apply some_inj in H. inversion H; subst. exact P.
  - destruct (parse_statement fuel tk1) as [[s tk2]|] eqn:E2; [|discriminate].
    pose proof (parse_statement_from_text _ _ _ _ (proj1 A1) E2)
      as (W2 & X2 & Ws).
    rewrite X1 in Ws.
    eapply IH in H; [|exact W2|].
    + rewrite X2, X1 in H. exact H.
    + rewrite X2, X1. apply Forall_app. split; [exact P|].
      constructor; [exact Ws|constructor].
Qed.

(** What the text says about a token of the tree: a string that is
    closed ends in its quote, and one that is not closed runs to the end of
    the text, which holds no closing quote. *)
Lemma parseAll_tokens_end_properly txt stmts :
  parseAll txt = Some stmts ->
  Forall (fun s => Forall (ends_properly txt) (statement_tokens s)) stmts.
Proof.
  intros E. unfold parseAll, parse_all in E.
  destruct (parse_all_loop (4 * List.length txt + 12) []
                           (Tokenizer_init txt 0)) as [[l tk']|] eqn:L;
    [|discriminate].
  cbn [option_map fst] in E. apply some_inj in E. subst l.
  apply parse_all_loop_from_text in L;
    [|apply Tokenizer_init_wf|constructor].
  cbn [Tokenizer_init text] in L.
  eapply Forall_impl; [|exact L]. intros s Hs.
  eapply Forall_impl; [|exact Hs]. intros t (p & Hp & ->).
  apply tok_at_ends_properly. exact Hp.
Qed.


(** ** What [parse_all] does on every text *)




(** ** Autocomplete on the call stack *)

Ltac result_scrutinee s k :=
  lazymatch s with
  | bind ?r _ => result_scrutinee r k
  | match ?y with _ => _ end => result_scrutinee y k
  | _ => k s
  end.

(** For a goal [s = Return r \/ s = Raise RecursionError]: the calls of [s]
    one after the other, each by a fact of this form that is at hand. *)
Ltac cases_step :=
  cbn [bind];
  first
    [ left; reflexivity
    | right; reflexivity
    | lazymatch goal with
      | |- ?s = _ \/ _ =>
        result_scrutinee s ltac:(fun y =>
          first
            [ let E := fresh "E" in
              eassert (E : y = Return _ \/ y = Raise RecursionError)
                by (match goal with IH : _ |- _ => apply IH end);
              destruct E as [E|E]; rewrite E
            | destruct y ])
      end ].

Ltac cases_crush := repeat cases_step.

Lemma extract_name_from_token_stack_cases frames text token cursor :
  extract_name_from_token_stack frames text token cursor
  = Return (extract_name_from_token text token cursor) \/
  extract_name_from_token_stack frames text token cursor
  = Raise RecursionError.
Proof. destruct frames; [right|left]; reflexivity. Qed.

Lemma extract_name_from_token_stack_enough frames text token cursor :
  (1 <= frames)%nat ->
  extract_name_from_token_stack frames text token cursor
  = Return (extract_name_from_token text token cursor).
Proof. destruct frames; [lia|reflexivity]. Qed.

Lemma tables_of_fields_stack_cases frames text : forall l ret,
  tables_of_fields_stack frames text ret l
  = Return (tables_of_fields text ret l) \/
  tables_of_fields_stack frames text ret l = Raise RecursionError.
Proof.
  pose proof (extract_name_from_token_stack_cases frames text) as X.
  induction l as [|f l IH]; intros ret;
    cbn [tables_of_fields_stack tables_of_fields]; cases_crush.
Qed.

Lemma tables_of_froms_stack_cases frames text : forall froms ret,
  tables_of_froms_stack frames text ret froms
  = Return (fold_left
              (fun ret from_ =>
                 tables_of_fields text ret (ast.from_fields from_))
              froms ret) \/
  tables_of_froms_stack frames text ret froms = Raise RecursionError.
Proof.
  pose proof (tables_of_fields_stack_cases frames text) as X.
  induction froms as [|c l IH]; intros ret;
    cbn [tables_of_froms_stack fold_left]; cases_crush.
Qed.

Lemma get_tables_and_aliases_stack_cases frames text s :
  get_tables_and_aliases_stack frames text s
  = Return (get_tables_and_aliases text s) \/
  get_tables_and_aliases_stack frames text s = Raise RecursionError.
Proof.
  unfold get_tables_and_aliases_stack, get_tables_and_aliases.
  destruct frames as [|frames]; [right; reflexivity|].
  apply tables_of_froms_stack_cases.
Qed.

Lemma suggest_in_expression_stack_cases table_to_column text cursor tables :
  forall e frames predot,
    suggest_in_expression_stack frames table_to_column text cursor e tables
                                predot
    = Return (suggest_in_expression table_to_column text cursor e tables
                                    predot) \/
    suggest_in_expression_stack frames table_to_column text cursor e tables
                                predot
    = Raise RecursionError.
Proof.
  induction e as [t|lp e IH rp|l IHl op r IHr|s]; intros frames predot;
    (destruct frames as [|frames]; [right; reflexivity|]);
    pose proof (extract_name_from_token_stack_cases frames text) as X;
    cbn [suggest_in_expression_stack suggest_in_expression]; cases_crush.
Qed.

Lemma suggest_in_from_stack_cases frames table_to_column text cursor e :
  suggest_in_from_stack frames table_to_column text cursor e
  = Return (suggest_in_from table_to_column text cursor e) \/
  suggest_in_from_stack frames table_to_column text cursor e
  = Raise RecursionError.
Proof.
  unfold suggest_in_from_stack, suggest_in_from.
  destruct frames as [|frames]; [right; reflexivity|].
  pose proof (extract_name_from_token_stack_cases frames text) as X.
  cases_crush.
Qed.

Lemma first_suggestion_stack_cases {A : Type}
      (f_stack : A -> Result (option (list str)))
      (f : A -> option (list str)) :
  (forall x, f_stack x = Return (f x) \/ f_stack x = Raise RecursionError) ->
  forall l,
    first_suggestion_stack f_stack l = Return (first_suggestion f l) \/
    first_suggestion_stack f_stack l = Raise RecursionError.
Proof.
  intros X. induction l as [|x l IH];
    cbn [first_suggestion_stack first_suggestion]; cases_crush.
Qed.

Lemma suggest_in_statement_stack_cases frames table_to_column text s cursor :
  suggest_in_statement_stack frames table_to_column text s cursor
  = Return (suggest_in_statement table_to_column text s cursor) \/
  suggest_in_statement_stack frames table_to_column text s cursor
  = Raise RecursionError.
Proof.
  unfold suggest_in_statement_stack, suggest_in_statement.
  destruct (get_tables_and_aliases_stack_cases frames text s) as [E|E];
    rewrite E; cbn [bind]; [|right; reflexivity].
  pose proof (fun tables =>
    first_suggestion_stack_cases
      (fun select =>
         first_suggestion_stack
           (fun field =>
              suggest_in_expression_stack frames table_to_column text cursor
                (ast.select_expression field) tables None)
           (ast.select_fields select))
      (fun select =>
         first_suggestion
           (fun field =>
              suggest_in_expression table_to_column text cursor
                (ast.select_expression field) tables None)
           (ast.select_fields select))
      (fun select =>
         first_suggestion_stack_cases _ _
           (fun field =>
              suggest_in_expression_stack_cases table_to_column text cursor
                tables (ast.select_expression field) frames None)
           (ast.select_fields select))) as Xs.
  pose proof
    (first_suggestion_stack_cases
      (fun from_ =>
         first_suggestion_stack
           (fun field =>
              suggest_in_from_stack frames table_to_column text cursor
                                    (ast.table_name field))
           (ast.from_fields from_))
      (fun from_ =>
         first_suggestion
           (fun field =>
              suggest_in_from table_to_column text cursor
                              (ast.table_name field))
           (ast.from_fields from_))
      (fun from_ =>
         first_suggestion_stack_cases _ _
           (fun field =>
              suggest_in_from_stack_cases frames table_to_column text cursor
                (ast.table_name field))
           (ast.from_fields from_))) as Xf.
  pose proof (fun tables =>
    first_suggestion_stack_cases
      (fun where_ =>
         suggest_in_expression_stack frames table_to_column text cursor
           (ast.where_expression where_) tables None)
      (fun where_ =>
         suggest_in_expression table_to_column text cursor
           (ast.where_expression where_) tables None)
      (fun where_ =>
         suggest_in_expression_stack_cases table_to_column text cursor
           tables (ast.where_expression where_) frames None)) as Xw.
  destruct (Xs (get_tables_and_aliases text s) (ast.selects s)) as [E1|E1];
    rewrite E1; cbn [bind]; [|right; reflexivity].
  match goal with
  | |- context [first_suggestion ?f (ast.selects s)] =>
    destruct (first_suggestion f (ast.selects s)); [left; reflexivity|]
  end.
  destruct (Xf (ast.froms s)) as [E2|E2];
    rewrite E2; cbn [bind]; [|right; reflexivity].
  match goal with
  | |- context [first_suggestion ?f (ast.froms s)] =>
    destruct (first_suggestion f (ast.froms s)); [left; reflexivity|]
  end.
  apply Xw.
Qed.

Lemma suggest_loop_stack_cases frames table_to_column text cursor :
  forall statements,
    suggest_loop_stack frames table_to_column text statements cursor
    = Return (suggest table_to_column text statements cursor) \/
    suggest_loop_stack frames table_to_column text statements cursor
    = Raise RecursionError.
Proof.
  pose proof (fun s =>
    suggest_in_statement_stack_cases frames table_to_column text s cursor)
    as X.
  induction statements as [|s l IH]; cbn [suggest_loop_stack suggest];
    cases_crush.
Qed.

Lemma suggest_stack_cases frames table_to_column text statements cursor :
  suggest_stack frames table_to_column text statements cursor
  = Return (suggest table_to_column text statements cursor) \/
  suggest_stack frames table_to_column text statements cursor
  = Raise RecursionError.
Proof.
  unfold suggest_stack. destruct frames as [|frames]; [right; reflexivity|].
  apply suggest_loop_stack_cases.
Qed.

Ltac enough_r_step :=
  cbn [bind];
  first
    [ reflexivity
    | rewrite extract_name_from_token_stack_enough by lia
    | match goal with
      | IH : forall _, _ |- _ => rewrite IH by (first [assumption|lia])
      end
    | lazymatch goal with
      | |- ?s = _ => result_scrutinee s ltac:(fun y => destruct y)
      end ].

Ltac enough_r_crush := repeat enough_r_step.

Lemma tables_of_fields_stack_enough frames text : forall l ret,
  Forall (fun f => (depth (ast.table_name f) <= frames)%nat) l ->
  tables_of_fields_stack frames text ret l
  = Return (tables_of_fields text ret l).
Proof.
  induction l as [|f l IH]; intros ret H; [reflexivity|].
  inversion H as [|? ? Hf Hl]; subst.
  pose proof (depth_pos (ast.table_name f)) as P.
  cbn [tables_of_fields_stack tables_of_fields]. enough_r_crush.
Qed.

Lemma tables_of_froms_stack_enough frames text : forall froms ret,
  Forall (fun c =>
            Forall (fun f => (depth (ast.table_name f) <= frames)%nat)
                   (ast.from_fields c)) froms ->
  tables_of_froms_stack frames text ret froms
  = Return (fold_left
              (fun ret from_ =>
                 tables_of_fields text ret (ast.from_fields from_))
              froms ret).
Proof.
  induction froms as [|c l IH]; intros ret H; [reflexivity|].
  inversion H as [|? ? Hc Hl]; subst.
  cbn [tables_of_froms_stack fold_left].
  rewrite tables_of_fields_stack_enough by exact Hc. cbn [bind].
  apply IH. exact Hl.
Qed.

Lemma depth_le_statement_depth s e :
  In e (statement_expressions s) -> (depth e <= statement_depth s)%nat.
Proof.
  intros H. unfold statement_depth.
  pose proof (proj1 (list_max_le (map depth (statement_expressions s)) _)
                    (Nat.le_refl _)) as F.
  exact (proj1 (Forall_forall _ _) F _ (in_map depth _ _ H)).
Qed.

Lemma select_expression_in s c f :
  In c (ast.selects s) -> In f (ast.select_fields c) ->
  In (ast.select_expression f) (statement_expressions s).
Proof.
  intros Hc Hf. unfold statement_expressions.
  apply in_or_app; left. apply in_flat_map. exists c.
  split; [exact Hc|]. apply in_map. exact Hf.
Qed.

Lemma table_name_in s c f :
  In c (ast.froms s) -> In f (ast.from_fields c) ->
  In (ast.table_name f) (statement_expressions s).
Proof.
  intros Hc Hf. unfold statement_expressions.
  apply in_or_app; right. apply in_or_app; left.
  apply in_flat_map. exists c.
  split; [exact Hc|]. apply in_map. exact Hf.
Qed.

Lemma where_expression_in s c :
  In c (ast.wheres s) ->
  In (ast.where_expression c) (statement_expressions s).
Proof.
  intros Hc. unfold statement_expressions.
  apply in_or_app; right. apply in_or_app; right.
  apply in_map. exact Hc.
Qed.

Lemma get_tables_and_aliases_stack_enough frames text s :
  (statement_depth s + 1 <= frames)%nat ->
  get_tables_and_aliases_stack frames text s
  = Return (get_tables_and_aliases text s).
Proof.
  intros H. unfold get_tables_and_aliases_stack, get_tables_and_aliases.
  destruct frames as [|frames]; [lia|].
  apply tables_of_froms_stack_enough.
  apply Forall_forall. intros c Hc. apply Forall_forall. intros f Hf.
  pose proof (depth_le_statement_depth s _ (table_name_in s c f Hc Hf)).
  lia.
Qed.

Lemma suggest_in_expression_stack_enough table_to_column text cursor tables :
  forall e frames predot,
    (depth e + 1 <= frames)%nat ->
    suggest_in_expression_stack frames table_to_column text cursor e tables
                                predot
    = Return (suggest_in_expression table_to_column text cursor e tables
                                    predot).
Proof.
  induction e as [t|lp e IH rp|l IHl op r IHr|s]; intros frames predot H;
    (destruct frames as [|frames]; [lia|]); cbn [depth] in H;
    cbn [suggest_in_expression_stack suggest_in_expression].
  - enough_r_crush.
  - apply IH. lia.
  - pose proof (depth_pos l). pose proof (depth_pos r).
    rewrite IHl by lia. cbn [bind].
    destruct (suggest_in_expression table_to_column text cursor l tables
                                    None); [reflexivity|].
    destruct (is_dot op); [destruct l|];
      rewrite ?extract_name_from_token_stack_enough by lia; cbn [bind];
      apply IHr; lia.
  - reflexivity.
Qed.

Lemma suggest_in_from_stack_enough frames table_to_column text cursor e :
  (2 <= frames)%nat ->
  suggest_in_from_stack frames table_to_column text cursor e
  = Return (suggest_in_from table_to_column text cursor e).
Proof.
  intros H. unfold suggest_in_from_stack, suggest_in_from.
  destruct frames as [|frames]; [lia|]. enough_r_crush.
Qed.

Lemma first_suggestion_stack_enough {A : Type}
      (f_stack : A -> Result (option (list str)))
      (f : A -> option (list str)) :
  forall l,
    (forall x, In x l -> f_stack x = Return (f x)) ->
    first_suggestion_stack f_stack l = Return (first_suggestion f l).
Proof.
  induction l as [|x l IH]; intros H; [reflexivity|].
  cbn [first_suggestion_stack first_suggestion].
  rewrite (H x (or_introl eq_refl)). cbn [bind].
  destruct (f x); [reflexivity|].
  apply IH. intros y Hy. apply H. right. exact Hy.
Qed.

Lemma suggest_in_statement_stack_enough frames table_to_column text s cursor :
  (statement_depth s + 1 <= frames)%nat ->
  suggest_in_statement_stack frames table_to_column text s cursor
  = Return (suggest_in_statement table_to_column text s cursor).
Proof.
  intros H. unfold suggest_in_statement_stack, suggest_in_statement.
  rewrite get_tables_and_aliases_stack_enough by exact H. cbn [bind].
  rewrite (first_suggestion_stack_enough _
             (fun select =>
                first_suggestion
                  (fun field =>
                     suggest_in_expression table_to_column text cursor
                       (ast.select_expression field)
                       (get_tables_and_aliases text s) None)
                  (ast.select_fields select))).
  2:{ intros c Hc. apply first_suggestion_stack_enough. intros f Hf.
      apply suggest_in_expression_stack_enough.
      pose proof (depth_le_statement_depth s _
                    (select_expression_in s c f Hc Hf)). lia. }
  cbn [bind].
  match goal with
  | |- context [first_suggestion ?g (ast.selects s)] =>
    destruct (first_suggestion g (ast.selects s)); [reflexivity|]
  end.
  rewrite (first_suggestion_stack_enough _
             (fun from_ =>
                first_suggestion
                  (fun field =>
                     suggest_in_from table_to_column text cursor
                                     (ast.table_name field))
                  (ast.from_fields from_))).
  2:{ intros c Hc. apply first_suggestion_stack_enough. intros f Hf.
      apply suggest_in_from_stack_enough.
      pose proof (depth_le_statement_depth s _ (table_name_in s c f Hc Hf)).
      pose proof (depth_pos (ast.table_name f)). lia. }
  cbn [bind].
  match goal with
  | |- context [first_suggestion ?g (ast.froms s)] =>
    destruct (first_suggestion g (ast.froms s)); [reflexivity|]
  end.
  apply first_suggestion_stack_enough. intros c Hc.
  apply suggest_in_expression_stack_enough.
  pose proof (depth_le_statement_depth s _ (where_expression_in s c Hc)).
  lia.
Qed.

Lemma suggest_loop_stack_enough frames table_to_column text cursor :
  forall statements,
    (statements_depth statements cursor + 1 <= frames)%nat ->
    suggest_loop_stack frames table_to_column text statements cursor
    = Return (suggest table_to_column text statements cursor).
Proof.
  induction statements as [|s l IH]; intros H; [reflexivity|].
  cbn [suggest_loop_stack suggest].
  unfold statements_depth in *. cbn [filter] in H.
  destruct ((ast.start s <=? cursor)
            && (cursor <=? ast.start s + ast.length s)).
  - cbn [map list_max fold_right] in H.
    fold (list_max
            (map statement_depth
               (filter
                  (fun statement =>
                     (ast.start statement <=? cursor)
                     && (cursor <=? ast.start statement
                                    + ast.length statement)) l))) in H.
    rewrite suggest_in_statement_stack_enough by lia. cbn [bind].
    destruct (suggest_in_statement table_to_column text s cursor);
      [reflexivity|].
    apply IH. lia.
  - apply IH. exact H.
Qed.

Lemma suggest_stack_enough frames table_to_column text statements cursor :
  (2 + statements_depth statements cursor <= frames)%nat ->
  suggest_stack frames table_to_column text statements cursor
  = Return (suggest table_to_column text statements cursor).
Proof.
  intros H. unfold suggest_stack. destruct frames as [|frames]; [lia|].
  apply suggest_loop_stack_enough. lia.
Qed.

(** X13: when autocomplete answers.  Called where the stack can take
    [frames] more calls, [suggest] returns or raises RecursionError, and it
    raises it only where the stack has fewer frames than two and the levels
    of the deepest expression of the statements that hold the cursor.
    Where it returns, it returns a list, and not [None], exactly when the
    cursor lies in the span of one of the statements, ends included, and in
    or at an end of a token of that statement that is a name that is no
    keyword or a double-quoted string, and that is a value of one of its
    select fields or where conditions or the whole of one of its table
    names.  So a number, a single-quoted string, a keyword and a table name
    with a dot in it never bring a suggestion. *)
Theorem X13_when_suggest_answers :
  forall frames table_to_column text statements cursor,
    match suggest_stack frames table_to_column text statements cursor with
    | Return r =>
      r = suggest table_to_column text statements cursor /\
      (r <> None <->
       exists statement token,
         In statement statements /\
         ast.start statement <= cursor
           <= ast.start statement + ast.length statement /\
         In token (trigger_tokens statement) /\
         is_nameable token = true /\
         tok.start token <= cursor <= tok.start token + tok.length token)
    | Raise e =>
      e = RecursionError /\
      (frames < 2 + statements_depth statements cursor)%nat
    end.
Proof.
  intros frames table_to_column text statements cursor.
  destruct (suggest_stack_cases frames table_to_column text statements
                                cursor) as [E|E]; rewrite E.
  - split; [reflexivity|]. apply suggest_answers.
  - split; [reflexivity|].
    destruct (Nat.lt_ge_cases frames
                (2 + statements_depth statements cursor)) as [L|G];
      [exact L|].
    rewrite suggest_stack_enough in E by exact G. discriminate E.
Qed.

End Unicode.

(** ** Inputs on which a claim fails as it is stated *)


(** C3 as stated fails on [select (a, b)]: whatever the tables for
    non-ASCII characters, the select field is a parenthesised binary
    expression whose operator is the comma. *)
Lemma C3_counterexample :
  exists text,
    forall (uni_isspace uni_isalpha uni_isalnum : char -> bool)
           (uni_lower : str -> str),
    exists stmts,
      parseAll uni_isspace uni_isalpha uni_isalnum uni_lower text
        = Some stmts /\
      ~ Forall (fun s => Forall comma_free (statement_expressions s)) stmts.
Proof.
  exists (of_string "select (a, b)"). intros.
  eexists. split; [vm_compute; reflexivity|].
  intros H. apply Forall_inv in H. apply Forall_inv in H.
  simpl in H. destruct H as [H _]. discriminate.
Qed.

(** C8 as stated fails on [from (a + b)]: whatever the tables for
    non-ASCII characters, the table name holds the operator [+]. *)
Lemma C8_counterexample :
  exists text,
    forall (uni_isspace uni_isalpha uni_isalnum : char -> bool)
           (uni_lower : str -> str),
    exists stmts,
      parseAll uni_isspace uni_isalpha uni_isalnum uni_lower text
        = Some stmts /\
      ~ Forall (fun s => Forall only_dot_operators (table_names s)) stmts.
Proof.
  exists (of_string "from (a + b)"). intros.
  eexists. split; [vm_compute; reflexivity|].
  intros H. apply Forall_inv in H. apply Forall_inv in H.
  simpl in H. destruct H as [H _]. discriminate.
Qed.

(** ** The further properties at work *)

(** X8 on [from t select a] with the cursor behind the [a], and the table
    [t] with the columns [a], [ab] and [b]: the columns that start with
    [a] are offered. *)
Lemma X8_witness :
  let table_to_column :=
    [(of_string "t", [of_string "a"; of_string "ab"; of_string "b"])] in
  let text := of_string "from t select a" in
  let statements :=
    [ast.mkStatement 0 15
       [ast.mkSelectClause
          [ast.mkSelectField
             (ast.ValueExpression (tok.NameToken 14 1 tok.NON_KEYWORD))
             None]]
       [ast.mkFromClause
          [ast.mkFromField
             (ast.ValueExpression (tok.NameToken 5 1 tok.NON_KEYWORD))
             None]]
       [] [] []] in
  let r := [of_string "a"; of_string "ab"] in
  suggest table_to_column text statements 15 = Some r /\
  exists statement e token name,
    In statement statements /\
    ast.start statement <= 15
      <= ast.start statement + ast.length statement /\
    In e (statement_expressions statement) /\ In token (leaves e) /\
    tok.start token <= 15 <= tok.start token + tok.length token /\
    extract_name_from_token text token (Some 15) = Some name /\
    Forall (fun x => startswith x name = true /\
                     known_name table_to_column
                       (get_tables_and_aliases text statement) x) r.
Proof.
  intros table_to_column text statements r.
  assert (H : suggest table_to_column text statements 15 = Some r)
    by (vm_compute; reflexivity).
  split; [exact H|].
  exact (X8_suggestions_are_known_names table_to_column text statements 15 r
                                        H).
Defined.

(** X9 on the string token of the text that consists of a double quote,
    [ab] and a double quote, with the cursor behind the [a]. *)
Lemma X9_witness :
  let text := [34; 97; 98; 34]%N in
  let token := tok.SpecialToken 0 4 tok.DOUBLE_QUOTE_STRING true in
  0 <= tok.start token /\
  extract_name_from_token text token (Some 2) = Some [97%N] /\
  exists full,
    extract_name_from_token text token None = Some full /\
    startswith full [97%N] = true.
Proof.
  intros text token.
  assert (H0 : 0 <= tok.start token) by (vm_compute; discriminate).
  assert (H : extract_name_from_token text token (Some 2) = Some [97%N])
    by (vm_compute; reflexivity).
  split; [exact H0|]. split; [exact H|].
  exact (X9_name_in_front_of_cursor text token 2 [97%N] H0 H).
Defined.

(** The statement of [where a] holds a where clause and nothing else, so
    [format_statement] raises IndexError on it, whatever the tables for
    non-ASCII characters. *)
Lemma format_statement_where_a :
  exists text,
    forall uni_isspace uni_isalpha uni_isalnum uni_lower,
      exists s,
        parseAll uni_isspace uni_isalpha uni_isalnum uni_lower text
          = Some [s] /\
        where_only s = true /\ ast.wheres s <> [] /\
        format_statement uni_isspace 1 text s = Some (Raise IndexError).
Proof.
  exists (of_string "where a"). intros.
  eexists. split; [vm_compute; reflexivity|].
  split; [reflexivity|]. split; [discriminate|reflexivity].
Qed.


(** The statement of [select a] with a thousand times [+a] behind it is
    one sum that leans to the left, a thousand and one levels deep:
    [parse_all] returns it on a stack of a thousand frames, and
    [format_statement] raises RecursionError on it there, and returns a
    text where the stack can take a thousand and two calls. *)
Lemma format_statement_long_sum :
  exists text,
    forall uni_isspace uni_isalpha uni_isalnum uni_lower,
      exists s,
        parseAll_stack uni_isspace uni_isalpha uni_isalnum uni_lower 1000 text
          = Some (Return [s]) /\
        where_only s = false /\ statement_depth s = 1001%nat /\
        format_statement uni_isspace 1000 text s
          = Some (Raise RecursionError) /\
        exists out,
          format_statement uni_isspace 1002 text s = Some (Return out).
Proof.
  exists (of_string "select a" ++ concat (repeat (of_string "+a") 1000)).
  intros.
  eexists. split; [vm_compute; reflexivity|].
  split; [reflexivity|]. split; [vm_compute; reflexivity|].
  split; [vm_compute; reflexivity|].
  eexists. vm_compute. reflexivity.
Qed.


(** On the same statement, with the cursor behind the first [a]:
    [suggest] goes down the thousand and one levels of the sum to its
    first value and reads the name there, which takes a thousand and three
    calls; where the stack can take a thousand it raises RecursionError. *)
Lemma suggest_long_sum :
  exists text,
    forall uni_isspace uni_isalpha uni_isalnum uni_lower,
      exists s,
        parseAll_stack uni_isspace uni_isalpha uni_isalnum uni_lower 1000 text
          = Some (Return [s]) /\
        statements_depth [s] 8 = 1001%nat /\
        suggest_stack 1000 [] text [s] 8 = Raise RecursionError /\
        suggest_stack 1003 [] text [s] 8 = Return (Some []).
Proof.
  exists (of_string "select a" ++ concat (repeat (of_string "+a") 1000)).
  intros.
  eexists. split; [vm_compute; reflexivity|].
  split; [vm_compute; reflexivity|].
  split; vm_compute; reflexivity.
Qed.
